(** * immutable_map: a persistent red-black tree map

    Shallow embedding of [immutable_map.h] and verification of its
    specification.

    The C++ class is a template over a key type [K] and a value type [T].
    Keys are only compared with [==] and [>]; they are modelled by [Z]
    (the README instantiates [K] with [int]).  Values are opaque: [T] is a
    type parameter.

    Nodes are reached through [std::shared_ptr<const node>]; a published node
    is never written to, so a pointer is modelled by the tree it points to,
    with [nullptr] for the absent child.  Dereferencing [nullptr], indexing
    the path array out of bounds and the exception of [validate] are results
    of the error monad below.

    The module [Store] embeds the same code a second time over a store of
    node cells, with allocation and in-place writes as the source has them;
    it is the model in which sharing between versions of the map is stated. *)

From Stdlib Require Import ZArith List Bool Lia String QArith Sorted.
From stdpp Require Import base gmap.
Import ListNotations.
Open Scope Z_scope.

(** ** Errors and the error monad *)

Inductive error : Type :=
| runtime_error (what : string)      (* std::runtime_error, thrown by validate *)
| null_dereference                   (* -> on a null shared_ptr *)
| path_overflow                      (* path_[size_++] with size_ = capacity *)
| path_underflow                     (* path_[--size_] with size_ = 0 *)
| dangling_pointer                   (* store model: a pointer to no cell *)
| out_of_fuel.                       (* store model: recursion bound used up *)

Inductive result (A : Type) : Type :=
| OK (a : A)
| Err (e : error).
Arguments OK {A} a.
Arguments Err {A} e.

Definition bind {A B : Type} (r : result A) (k : A -> result B) : result B :=
  match r with
  | OK a => k a
  | Err e => Err e
  end.

Declare Scope result_scope.
Delimit Scope result_scope with result.
Notation "x <- r ;; k" := (bind r (fun x => k))
  (at level 20, r at level 99, k at level 200, only parsing) : result_scope.
Notation "' pat <- r ;; k" := (bind r (fun x => match x with pat => k end))
  (at level 20, pat pattern, r at level 99, k at level 200, only parsing)
  : result_scope.
Open Scope result_scope.

Definition is_ok {A : Type} (r : result A) : bool :=
  match r with OK _ => true | Err _ => false end.

(** ** Platform constants *)

(** [sizeof(size_t)] on an LP64 platform. *)
Definition sizeof_size_t : nat := 8.
Definition SIZE_MAX : Z := 2 ^ (8 * Z.of_nat sizeof_size_t) - 1.
(** Arithmetic on [size_t] wraps around. *)
Definition size_t_wrap (z : Z) : Z := z mod (SIZE_MAX + 1).

(** ** Colours and sides *)

Inductive color_t : Type := BLACK | RED.
Inductive side_t : Type := LEFT | RIGHT.

Definition color_eqb (a b : color_t) : bool :=
  match a, b with
  | BLACK, BLACK | RED, RED => true
  | _, _ => false
  end.

Definition side_eqb (a b : side_t) : bool :=
  match a, b with
  | LEFT, LEFT | RIGHT, RIGHT => true
  | _, _ => false
  end.

(** [1 - side] *)
Definition opp (s : side_t) : side_t :=
  match s with LEFT => RIGHT | RIGHT => LEFT end.

Abbreviation K := Z (only parsing).

(** [a > b ? LEFT : RIGHT] *)
Definition side_of (a b : K) : side_t := if a >? b then LEFT else RIGHT.

Section Model.

Context {T : Type}.

Definition pair : Type := (K * T)%type.

(** ** Nodes *)

(** A [std::shared_ptr<const node>]: either [nullptr] or a node with its
    pair, its two children and its colour. *)
Inductive tree : Type :=
| nullptr
| Node (kvp_ : pair) (left_ right_ : tree) (color_ : color_t).

(** [(bool)ptr] *)
Definition non_null (n : tree) : bool :=
  match n with nullptr => false | Node _ _ _ _ => true end.

Definition get_key (n : tree) : result K :=
  match n with
  | nullptr => Err null_dereference
  | Node kvp _ _ _ => OK (fst kvp)
  end.

Definition get_pair (n : tree) : result pair :=
  match n with
  | nullptr => Err null_dereference
  | Node kvp _ _ _ => OK kvp
  end.

Definition get_child (side : side_t) (n : tree) : result tree :=
  match n with
  | nullptr => Err null_dereference
  | Node _ l r _ => OK (match side with LEFT => l | RIGHT => r end)
  end.

Definition get_color (n : tree) : result color_t :=
  match n with
  | nullptr => Err null_dereference
  | Node _ _ _ c => OK c
  end.

Definition is_red (n : tree) : result bool :=
  c <- get_color n ;; OK (color_eqb c RED).

Definition is_black (n : tree) : result bool :=
  c <- get_color n ;; OK (color_eqb c BLACK).

(** [n && n->is_red()] *)
Definition red_ptr (n : tree) : bool :=
  match n with
  | Node _ _ _ RED => true
  | _ => false
  end.

Definition has_red_child (n : tree) : result bool :=
  match n with
  | nullptr => Err null_dereference
  | Node _ l r _ => OK (red_ptr l || red_ptr r)
  end.

(** The setters are only ever applied to a node that the running operation
    has just allocated ([clone] or [make_shared]); nobody else holds a
    pointer to it, so the write is a functional update. *)
Definition set_pair (kvp : pair) (n : tree) : result tree :=
  match n with
  | nullptr => Err null_dereference
  | Node _ l r c => OK (Node kvp l r c)
  end.

Definition set_child (side : side_t) (child : tree) (n : tree) : result tree :=
  match n with
  | nullptr => Err null_dereference
  | Node kvp l r c =>
      OK (match side with
          | LEFT => Node kvp child r c
          | RIGHT => Node kvp l child c
          end)
  end.

Definition set_color (color : color_t) (n : tree) : result tree :=
  match n with
  | nullptr => Err null_dereference
  | Node kvp l r _ => OK (Node kvp l r color)
  end.

Definition clone (n : tree) : result tree :=
  match n with
  | nullptr => Err null_dereference
  | Node kvp l r c => OK (Node kvp l r c)
  end.

(** [node::foreach]; the visitor is a state transformer.  The guard
    [if (get_child(s))] of the caller is the [nullptr] case here. *)
Fixpoint foreach_node {S : Type} (n : tree) (f : pair -> S -> S) (s : S) : S :=
  match n with
  | nullptr => s
  | Node kvp l r _ => foreach_node r f (f kvp (foreach_node l f s))
  end.

(** [node::validate].  The black depth is an [int]; it is bounded by the
    height of the tree and is modelled without overflow. *)
Fixpoint validate_node (n : tree) : result Z :=
  match n with
  | nullptr => Err null_dereference
  | Node _ l r c =>
      let depth := match c with RED => 0 | BLACK => 1 end in
      _ <- (match c with
            | RED =>
                if red_ptr l then Err (runtime_error "red node with red child")
                else if red_ptr r then Err (runtime_error "red node with red child")
                else OK tt
            | BLACK => OK tt
            end) ;;
      depth1 <- (match l with nullptr => OK 0 | Node _ _ _ _ => validate_node l end) ;;
      depth2 <- (match r with nullptr => OK 0 | Node _ _ _ _ => validate_node r end) ;;
      if negb (depth1 =? depth2) then Err (runtime_error "invalid black depth")
      else OK (depth1 + depth)
  end.

(** ** Paths *)

(** The path is a stack of nodes kept in a [std::array] of
    [sizeof(size_t) * 16] slots with a fill count; [path_[size_ - 1]] is the
    head of the list. *)
Definition path : Type := list tree.

Definition path_capacity : nat := sizeof_size_t * 16.

Definition get_node (p : path) : tree :=
  match p with
  | n :: _ => n
  | [] => nullptr
  end.

Definition get_parent (p : path) : tree :=
  match p with
  | _ :: n :: _ => n
  | _ => nullptr
  end.

Definition push (p : path) (n : tree) : result path :=
  if (length p <? path_capacity)%nat then OK (n :: p) else Err path_overflow.

Definition pop (p : path) : result path :=
  match p with
  | [] => Err path_underflow
  | _ :: q => OK q
  end.

(** ** The map *)

Record immutable_map : Type := mk_map { root_ : tree; size_ : Z }.

(** [immutable_map()] *)
Definition empty_map : immutable_map := mk_map nullptr 0.

Definition empty (m : immutable_map) : bool := size_ m =? 0.
Definition size (m : immutable_map) : Z := size_ m.

(** [find(root, p, key)]: the loop descends from [root] and pushes every
    node it visits. *)
Fixpoint find (root : tree) (p : path) (key : K) : result (bool * path) :=
  match root with
  | nullptr => OK (false, p)
  | Node kvp l r _ =>
      p <- push p root ;;
      if fst kvp =? key then OK (true, p)
      else if fst kvp >? key then find l p key
      else find r p key
  end.

(** [clone_path(p, n)]; returns the rebuilt node and the path as the loop
    leaves it. *)
Fixpoint clone_path (p : path) (n : tree) : result (tree * path) :=
  match p with
  | [] => OK (n, p)
  | nullptr :: _ => OK (n, p)
  | parent :: p' =>
      new_parent <- clone parent ;;
      pk <- get_key new_parent ;;
      nk <- get_key n ;;
      new_parent <- set_child (side_of pk nk) n new_parent ;;
      clone_path p' new_parent
  end.

(** [clone_path(p, n, depth)] *)
Fixpoint clone_path_depth (p : path) (n : tree) (depth : nat)
  : result (tree * path) :=
  match p with
  | [] => OK (n, p)
  | parent :: p' =>
      if (depth <? length p)%nat then
        new_parent <- clone parent ;;
        pk <- get_key new_parent ;;
        nk <- get_key n ;;
        new_parent <- set_child (side_of pk nk) n new_parent ;;
        clone_path_depth p' new_parent depth
      else OK (n, p)
  end.

(** [clone_path(p, n, side, depth)] *)
Fixpoint clone_path_side (p : path) (n : tree) (side : side_t) (depth : nat)
  : result (tree * path) :=
  match p with
  | [] => OK (n, p)
  | parent :: p' =>
      if (depth <? length p)%nat then
        let grand_parent := get_parent p in
        new_parent <- clone parent ;;
        new_parent <- set_child side n new_parent ;;
        gk <- get_key grand_parent ;;
        pk <- get_key parent ;;
        clone_path_side p' new_parent (side_of gk pk) depth
      else OK (n, p)
  end.

(** The loop of [find_predecessor]. *)
Fixpoint find_predecessor_loop (node : tree) (p : path) : result path :=
  match node with
  | nullptr => OK p
  | Node _ _ r _ =>
      p <- push p node ;;
      find_predecessor_loop r p
  end.

Definition find_predecessor (p : path) : result path :=
  node <- get_child LEFT (get_node p) ;;
  find_predecessor_loop node p.

(** ** Insertion *)

(** [insert_fix(p, n)].  The recursive call is on the path popped twice; the
    grandparent is matched out of the path where the source reads it with
    [p.get_parent()], which is [nullptr] on a path of length one. *)
Fixpoint insert_fix (p : path) (n : tree) : result tree :=
  match p with
  | [] => set_color BLACK n
  | parent :: p1 =>
      pb <- is_black parent ;;
      if pb then
        '(r, _) <- clone_path p n ;; OK r
      else
        match p1 with
        | [] => Err null_dereference
        | grand_parent :: p2 =>
            gk <- get_key grand_parent ;;
            pk <- get_key parent ;;
            nk <- get_key n ;;
            let parent_side := side_of gk pk in
            let node_side := side_of pk nk in
            uncle <- get_child (opp parent_side) grand_parent ;;
            if red_ptr uncle then
              new_parent <- clone parent ;;
              new_parent <- set_color BLACK new_parent ;;
              new_parent <- set_child node_side n new_parent ;;
              new_uncle <- clone uncle ;;
              new_uncle <- set_color BLACK new_uncle ;;
              new_grand_parent <- clone grand_parent ;;
              new_grand_parent <- set_color RED new_grand_parent ;;
              new_grand_parent <- set_child parent_side new_parent new_grand_parent ;;
              new_grand_parent <- set_child (opp parent_side) new_uncle new_grand_parent ;;
              insert_fix p2 new_grand_parent
            else
              new_parent <- clone parent ;;
              new_grand_parent <- clone grand_parent ;;
              if negb (side_eqb parent_side node_side) then
                c <- get_child parent_side n ;;
                new_parent <- set_child node_side c new_parent ;;
                c <- get_child node_side n ;;
                new_grand_parent <- set_child parent_side c new_grand_parent ;;
                new_grand_parent <- set_color RED new_grand_parent ;;
                n <- set_child parent_side new_parent n ;;
                n <- set_child node_side new_grand_parent n ;;
                n <- set_color BLACK n ;;
                '(r, _) <- clone_path p2 n ;; OK r
              else
                c <- get_child (opp parent_side) parent ;;
                new_grand_parent <- set_child parent_side c new_grand_parent ;;
                new_grand_parent <- set_color RED new_grand_parent ;;
                new_parent <- set_child (opp parent_side) new_grand_parent new_parent ;;
                new_parent <- set_child parent_side n new_parent ;;
                new_parent <- set_color BLACK new_parent ;;
                '(r, _) <- clone_path p2 new_parent ;; OK r
        end
  end.

(** [insert_imp(kvp, p)] *)
Definition insert_imp_path (m : immutable_map) (kvp : pair) (p : path)
  : result tree :=
  if negb (non_null (root_ m)) then OK (Node kvp nullptr nullptr BLACK)
  else insert_fix p (Node kvp nullptr nullptr RED).

(** [insert_imp(kvp)] *)
Definition insert_imp (m : immutable_map) (kvp : pair) : result immutable_map :=
  '(matched, p) <- find (root_ m) [] (fst kvp) ;;
  if (matched : bool) then
    new_node <- clone (get_node p) ;;
    new_node <- set_pair kvp new_node ;;
    p <- pop p ;;
    '(r, _) <- clone_path p new_node ;;
    OK (mk_map r (size_ m))
  else
    new_root <- insert_imp_path m kvp p ;;
    OK (mk_map new_root (size_t_wrap (size_ m + 1))).

(** [insert(pair&& kvp)] *)
Definition insert (m : immutable_map) (kvp : pair) : result immutable_map :=
  insert_imp m kvp.

(** ** Deletion *)

Definition has_black_sibling_with_red_child (parent : tree) (side : side_t)
  : result bool :=
  sibling <- get_child (opp side) parent ;;
  sr <- is_red sibling ;;
  if sr then OK false else has_red_child sibling.

Definition has_black_sibling_with_black_children (parent : tree) (side : side_t)
  : result bool :=
  sibling <- get_child (opp side) parent ;;
  sr <- is_red sibling ;;
  if sr then OK false else (b <- has_red_child sibling ;; OK (negb b)).

Definition has_red_sibling (parent : tree) (side : side_t) : result bool :=
  sibling <- get_child (opp side) parent ;;
  OK (red_ptr sibling).

(** [delete_fixup_1].  The three clones are linked by pointer before
    [new_parent] and [new_sibling] receive their last writes; the node
    returned is read after all writes, so the links are made last here. *)
Definition delete_fixup_1 (parent : tree) (side : side_t) : result tree :=
  parent_color <- get_color parent ;;
  sibling <- get_child (opp side) parent ;;
  child_1 <- get_child side sibling ;;
  if red_ptr child_1 then
    new_child_1 <- clone child_1 ;;
    new_parent <- clone parent ;;
    new_sibling <- clone sibling ;;
    new_child_1 <- set_color parent_color new_child_1 ;;
    new_parent <- set_color BLACK new_parent ;;
    c <- get_child side child_1 ;;
    new_parent <- set_child (opp side) c new_parent ;;
    c <- get_child (opp side) child_1 ;;
    new_sibling <- set_child side c new_sibling ;;
    new_child_1 <- set_child side new_parent new_child_1 ;;
    new_child_1 <- set_child (opp side) new_sibling new_child_1 ;;
    OK new_child_1
  else
    child_2 <- get_child (opp side) sibling ;;
    new_child_2 <- clone child_2 ;;
    new_parent <- clone parent ;;
    new_sibling <- clone sibling ;;
    new_sibling <- set_color parent_color new_sibling ;;
    new_parent <- set_color BLACK new_parent ;;
    c <- get_child side sibling ;;
    new_parent <- set_child (opp side) c new_parent ;;
    new_child_2 <- set_color BLACK new_child_2 ;;
    new_sibling <- set_child side new_parent new_sibling ;;
    new_sibling <- set_child (opp side) new_child_2 new_sibling ;;
    OK new_sibling.

(** [delete_fixup_2]: recolouring. *)
Definition delete_fixup_2 (parent : tree) (side : side_t) : result tree :=
  sibling <- get_child (opp side) parent ;;
  new_sibling <- clone sibling ;;
  new_parent <- clone parent ;;
  new_sibling <- set_color RED new_sibling ;;
  new_parent <- set_color BLACK new_parent ;;
  new_parent <- set_child (opp side) new_sibling new_parent ;;
  OK new_parent.

(** [delete_fixup_3]: adjustment.  As in [delete_fixup_1], [new_sibling] is
    linked to [new_parent] before [new_parent] is written; the link is made
    last here. *)
Definition delete_fixup_3 (parent : tree) (side : side_t) : result tree :=
  sibling <- get_child (opp side) parent ;;
  new_sibling <- clone sibling ;;
  new_parent <- clone parent ;;
  parent_color <- get_color parent ;;
  new_sibling <- set_color parent_color new_sibling ;;
  new_parent <- set_color RED new_parent ;;
  c <- get_child side sibling ;;
  new_parent <- set_child (opp side) c new_parent ;;
  b1 <- has_black_sibling_with_red_child new_parent side ;;
  if b1 then
    new_parent <- delete_fixup_1 new_parent side ;;
    set_child side new_parent new_sibling
  else
    b2 <- has_black_sibling_with_black_children new_parent side ;;
    if b2 then
      new_parent <- delete_fixup_2 new_parent side ;;
      set_child side new_parent new_sibling
    else
      set_child side new_parent new_sibling.

(** [delete_fixup(p, parent, side)] *)
Fixpoint delete_fixup (p : path) (parent : tree) (side : side_t) : result tree :=
  b1 <- has_black_sibling_with_red_child parent side ;;
  if b1 then
    new_parent <- delete_fixup_1 parent side ;;
    '(r, _) <- clone_path p new_parent ;; OK r
  else
    b2 <- has_black_sibling_with_black_children parent side ;;
    if b2 then
      parent_color <- get_color parent ;;
      new_parent <- delete_fixup_2 parent side ;;
      match parent_color, p with
      | BLACK, grand_parent :: p' =>
          gk <- get_key grand_parent ;;
          pk <- get_key parent ;;
          let parent_side := side_of gk pk in
          new_grand_parent <- clone grand_parent ;;
          new_grand_parent <- set_child parent_side new_parent new_grand_parent ;;
          delete_fixup p' new_grand_parent parent_side
      | _, _ =>
          '(r, _) <- clone_path p new_parent ;; OK r
      end
    else
      new_parent <- delete_fixup_3 parent side ;;
      '(r, _) <- clone_path p new_parent ;; OK r.

(** [erase_intermediate_node(p)] *)
Definition erase_intermediate_node (p : path) : result tree :=
  let erased_node := get_node p in
  node_color <- get_color erased_node ;;
  let depth := length p in
  p <- find_predecessor p ;;
  let predecessor := get_node p in
  let predecessor_depth := length p in
  let predecessor_side :=
    if (1 <? predecessor_depth - depth)%nat then RIGHT else LEFT in
  predecessor_color <- get_color predecessor ;;
  new_node <- clone predecessor ;;
  new_node <- set_color node_color new_node ;;
  if color_eqb predecessor_color RED then
    p <- pop p ;;
    '(sub_tree, p) <- clone_path_side p nullptr predecessor_side depth ;;
    new_node <- set_child LEFT sub_tree new_node ;;
    c <- get_child RIGHT erased_node ;;
    new_node <- set_child RIGHT c new_node ;;
    p <- pop p ;;
    '(r, _) <- clone_path p new_node ;; OK r
  else
    pl <- get_child LEFT predecessor ;;
    if non_null pl then
      new_child <- clone pl ;;
      new_child <- set_color BLACK new_child ;;
      p <- pop p ;;
      '(sub_tree, p) <- clone_path_depth p new_child depth ;;
      new_node <- set_child LEFT sub_tree new_node ;;
      c <- get_child RIGHT erased_node ;;
      new_node <- set_child RIGHT c new_node ;;
      p <- pop p ;;
      '(r, _) <- clone_path p new_node ;; OK r
    else
      p <- pop p ;;
      kvp <- (match predecessor_side with
              | LEFT => get_pair predecessor
              | RIGHT => get_pair (get_node p)
              end) ;;
      '(sub_tree, p) <- clone_path_side p nullptr predecessor_side depth ;;
      new_node <- set_child LEFT sub_tree new_node ;;
      c <- get_child RIGHT erased_node ;;
      new_node <- set_child RIGHT c new_node ;;
      p <- pop p ;;
      '(temp_root, p) <- clone_path p new_node ;;
      '(_, p) <- find temp_root p (fst kvp) ;;
      let new_parent := get_node p in
      p <- pop p ;;
      delete_fixup p new_parent predecessor_side.

(** [erase_imp(p)] *)
Definition erase_imp (p : path) : result tree :=
  let n := get_node p in
  l <- get_child LEFT n ;;
  r <- get_child RIGHT n ;;
  let has_left_child := non_null l in
  let has_right_child := non_null r in
  if has_left_child && has_right_child then erase_intermediate_node p
  else if has_left_child then
    new_child <- clone l ;;
    new_child <- set_color BLACK new_child ;;
    p <- pop p ;;
    '(r, _) <- clone_path p new_child ;; OK r
  else if has_right_child then
    new_child <- clone r ;;
    new_child <- set_color BLACK new_child ;;
    p <- pop p ;;
    '(r, _) <- clone_path p new_child ;; OK r
  else
    nr <- is_red n ;;
    if nr then
      pk <- get_key (get_parent p) ;;
      nk <- get_key n ;;
      let parent_side := side_of pk nk in
      new_parent <- clone (get_parent p) ;;
      new_parent <- set_child parent_side nullptr new_parent ;;
      p <- pop p ;;
      p <- pop p ;;
      '(r, _) <- clone_path p new_parent ;; OK r
    else if (length p =? 1)%nat then OK nullptr
    else
      pk <- get_key (get_parent p) ;;
      nk <- get_key n ;;
      let parent_side := side_of pk nk in
      new_parent <- clone (get_parent p) ;;
      new_parent <- set_child parent_side nullptr new_parent ;;
      p <- pop p ;;
      p <- pop p ;;
      delete_fixup p new_parent parent_side.

(** [erase(key)] *)
Definition erase (m : immutable_map) (key : K) : result immutable_map :=
  '(matched, p) <- find (root_ m) [] key ;;
  if negb matched then OK m
  else
    new_root <- erase_imp p ;;
    OK (mk_map new_root (size_t_wrap (size_ m - 1))).

(** ** Queries *)

(** [at(key)] is not embedded.  Neither overload can be instantiated: both
    construct [std::out_of_range] without the argument that its constructors
    take and apply [->] to the [path] object [p], and the first one binds a
    [T&] to the member of a [const pair].  What the body calls, [find],
    [path::get_node] and [node::get_pair], is embedded above. *)

(** [contains(key)] *)
Definition contains (m : immutable_map) (key : K) : result bool :=
  '(matched, _) <- find (root_ m) [] key ;;
  OK matched.

(** [foreach(f)] *)
Definition foreach {S : Type} (m : immutable_map) (f : pair -> S -> S) (s : S) : S :=
  foreach_node (root_ m) f s.

(** The sequence of pairs a visitor sees. *)
Definition traversal (m : immutable_map) : list pair :=
  foreach m (fun kvp acc => acc ++ [kvp]) [].

(** [validate()] *)
Definition validate (m : immutable_map) : result unit :=
  if red_ptr (root_ m) then Err (runtime_error "root is red")
  else
    match root_ m with
    | nullptr => OK tt
    | Node _ _ _ _ => _ <- validate_node (root_ m) ;; OK tt
    end.

End Model.

Arguments tree : clear implicits.
Arguments immutable_map : clear implicits.
Arguments pair : clear implicits.
Arguments path : clear implicits.

(** ** Specification vocabulary *)

Section Spec.

Context {T : Type}.

(** In-order sequence of the pairs of a tree. *)
Fixpoint elements (t : tree T) : list (pair T) :=
  match t with
  | nullptr => []
  | Node kvp l r _ => elements l ++ kvp :: elements r
  end.

Definition keys (t : tree T) : list K := map fst (elements t).

(** Number of nodes and height (nodes on the longest downward path). *)
Definition count (t : tree T) : nat := length (elements t).

Fixpoint height (t : tree T) : nat :=
  match t with
  | nullptr => 0
  | Node _ l r _ => S (Nat.max (height l) (height r))
  end.

(** Strictly ascending lists of keys. *)
Fixpoint ascending (l : list K) : Prop :=
  match l with
  | [] => True
  | x :: l' => Forall (fun y => x < y) l' /\ ascending l'
  end.

(** Invariant (a): binary-search-tree ordering. *)
Fixpoint all_keys (P : K -> Prop) (t : tree T) : Prop :=
  match t with
  | nullptr => True
  | Node kvp l r _ => P (fst kvp) /\ all_keys P l /\ all_keys P r
  end.

Fixpoint bst (t : tree T) : Prop :=
  match t with
  | nullptr => True
  | Node kvp l r _ =>
      all_keys (fun x => x < fst kvp) l /\
      all_keys (fun x => fst kvp < x) r /\
      bst l /\ bst r
  end.

(** Invariant (b): no red node has a red child. *)
Fixpoint no_red_red (t : tree T) : Prop :=
  match t with
  | nullptr => True
  | Node _ l r c =>
      (c = RED -> red_ptr l = false /\ red_ptr r = false) /\
      no_red_red l /\ no_red_red r
  end.

(** Invariant (c): the downward paths from a node to an absent child.
    [black_path t n] holds when some such path passes through [n] black
    nodes. *)
Definition blackness (c : color_t) : nat :=
  match c with BLACK => 1%nat | RED => 0%nat end.

Inductive black_path : tree T -> nat -> Prop :=
| black_path_null : black_path nullptr 0
| black_path_left kvp l r c n :
    black_path l n -> black_path (Node kvp l r c) (blackness c + n)
| black_path_right kvp l r c n :
    black_path r n -> black_path (Node kvp l r c) (blackness c + n).

Definition equal_black_height (t : tree T) : Prop :=
  forall n1 n2, black_path t n1 -> black_path t n2 -> n1 = n2.

(** Black nodes on the leftmost path, and the recursive form of (c). *)
Fixpoint bh (t : tree T) : nat :=
  match t with
  | nullptr => 0
  | Node _ l _ c => (blackness c + bh l)%nat
  end.

Fixpoint balanced (t : tree T) : Prop :=
  match t with
  | nullptr => True
  | Node _ l r _ => bh l = bh r /\ balanced l /\ balanced r
  end.

(** (b) and (c) together. *)
Definition shape (t : tree T) : Prop := no_red_red t /\ balanced t.

(** The four red-black invariants of a root. *)
Definition red_black (t : tree T) : Prop :=
  bst t /\ no_red_red t /\ equal_black_height t /\ red_ptr t = false.

(** What a map value must satisfy: the invariants, and a count that is the
    number of pairs modulo the range of [size_t]. *)
Definition map_inv (m : immutable_map T) : Prop :=
  red_black (root_ m) /\ size_ m = size_t_wrap (Z.of_nat (count (root_ m))).

(** The depth [node::validate] computes for a child that may be absent. *)
Definition validate_child (n : tree T) : result Z :=
  match n with
  | nullptr => OK 0
  | Node _ _ _ _ => validate_node n
  end.

(** The same invariants with (c) in its recursive form. *)
Definition tree_inv (t : tree T) : Prop :=
  bst t /\ shape t /\ red_ptr t = false.

(** ** The map as a sorted association list *)

(** What [insert], [erase] and a lookup are on the traversal of a map. *)
Definition list_insert (kvp : pair T) (es : list (pair T)) : list (pair T) :=
  List.filter (fun e => fst e <? fst kvp) es ++
  kvp :: List.filter (fun e => fst kvp <? fst e) es.

Definition list_erase (key : K) (es : list (pair T)) : list (pair T) :=
  List.filter (fun e => negb (fst e =? key)) es.

Fixpoint list_at (key : K) (es : list (pair T)) : option T :=
  match es with
  | [] => None
  | e :: es' => if fst e =? key then Some (snd e) else list_at key es'
  end.

(** [finds m k v]: the search of the key [k] from the root of [m] reports a
    match, and the node on top of the path it leaves holds the pair
    [(k, v)]. *)
Definition finds (m : immutable_map T) (k : K) (v : T) : Prop :=
  exists p, find (root_ m) [] k = OK (true, p) /\
            get_pair (get_node p) = OK (k, v).

(** ** The public mutators as a command language *)

Inductive op : Type :=
| op_insert (kvp : pair T)
| op_erase (key : K).

Definition apply_op (m : immutable_map T) (o : op) : result (immutable_map T) :=
  match o with
  | op_insert kvp => insert m kvp
  | op_erase key => erase m key
  end.

Fixpoint run (ops : list op) (m : immutable_map T) : result (immutable_map T) :=
  match ops with
  | [] => OK m
  | o :: ops' => m' <- apply_op m o ;; run ops' m'
  end.

(** Maps that the public interface can produce. *)
Definition reachable (m : immutable_map T) : Prop :=
  exists ops, run ops empty_map = OK m.

(** ** Zippers: a subtree in its context *)

(** A frame is a node with one child removed: the side of the missing
    child, the pair, the remaining child and the colour. *)
Record frame : Type := Frame {
  f_side : side_t;
  f_kvp : pair T;
  f_sib : tree T;
  f_color : color_t
}.

Definition f_key (f : frame) : K := fst (f_kvp f).

Definition fill (f : frame) (t : tree T) : tree T :=
  match f_side f with
  | LEFT => Node (f_kvp f) t (f_sib f) (f_color f)
  | RIGHT => Node (f_kvp f) (f_sib f) t (f_color f)
  end.

(** Contexts list their frames innermost first, as a path does. *)
Fixpoint plug (ctx : list frame) (t : tree T) : tree T :=
  match ctx with
  | [] => t
  | f :: ctx' => plug ctx' (fill f t)
  end.

(** The path to the hole of [ctx] when [t] fills it. *)
Fixpoint ancestors (ctx : list frame) (t : tree T) : path T :=
  match ctx with
  | [] => []
  | f :: ctx' => fill f t :: ancestors ctx' (fill f t)
  end.

(** Keys that a search routes into the hole of a frame, of a context. *)
Definition hole1 (x : K) (f : frame) : Prop :=
  match f_side f with
  | LEFT => x < f_key f
  | RIGHT => f_key f < x
  end.

Definition in_hole (ctx : list frame) (x : K) : Prop := Forall (hole1 x) ctx.

(** Pairs before and after the hole, in traversal order. *)
Fixpoint before (ctx : list frame) : list (pair T) :=
  match ctx with
  | [] => []
  | f :: ctx' =>
      before ctx' ++
      match f_side f with
      | LEFT => []
      | RIGHT => elements (f_sib f) ++ [f_kvp f]
      end
  end.

Fixpoint after (ctx : list frame) : list (pair T) :=
  match ctx with
  | [] => []
  | f :: ctx' =>
      match f_side f with
      | LEFT => f_kvp f :: elements (f_sib f)
      | RIGHT => []
      end ++ after ctx'
  end.

(** Every frame of a search-tree context is itself routed to the hole of
    the frames above it. *)
Fixpoint ordered (ctx : list frame) : Prop :=
  match ctx with
  | [] => True
  | f :: ctx' => in_hole ctx' (f_key f) /\ ordered ctx'
  end.

(** Where a search for [key] stops: the context it went through and the
    subtree it stopped at (the matching node, or [nullptr]). *)
Fixpoint locate (t : tree T) (key : K) : list frame * tree T :=
  match t with
  | nullptr => ([], nullptr)
  | Node kvp l r c =>
      if fst kvp =? key then ([], t)
      else if fst kvp >? key then
        let '(ctx, s) := locate l key in (ctx ++ [Frame LEFT kvp r c], s)
      else
        let '(ctx, s) := locate r key in (ctx ++ [Frame RIGHT kvp l c], s)
  end.

(** The right spine of a tree, as a context around its last node. *)
Fixpoint spine (t : tree T) : list frame * tree T :=
  match t with
  | nullptr => ([], nullptr)
  | Node kvp l r c =>
      match r with
      | nullptr => ([], t)
      | Node _ _ _ _ =>
          let '(ctx, s) := spine r in (ctx ++ [Frame RIGHT kvp l c], s)
      end
  end.

(** The path entry of a node that a search stopped at. *)
Definition node_path (s : tree T) : path T :=
  if non_null s then [s] else [].

(** The path of the search for [key] fits the path array. *)
Definition search_fits (t : tree T) (key : K) : Prop :=
  (length (fst (locate t key)) + length (node_path (snd (locate t key)))
   <= path_capacity)%nat.

End Spec.

Arguments frame : clear implicits.
Arguments op : clear implicits.

(** ** Concrete maps *)

(** The maps of the README: [map0.insert(10, 3.14)], [insert(15, 6.28)],
    [insert(20, 3.14)], then [erase(15)].  The values are [double]s that the
    map only stores; they are written as rationals. *)
Definition readme_ops : list (op Q) :=
  [op_insert (10, 3.14%Q); op_insert (15, 6.28%Q); op_insert (20, 3.14%Q);
   op_erase 15].

Definition readme_map3 : immutable_map Q :=
  mk_map (Node (15, 6.28%Q)
               (Node (10, 3.14%Q) nullptr nullptr RED)
               (Node (20, 3.14%Q) nullptr nullptr RED) BLACK) 3.

Definition readme_map4 : immutable_map Q :=
  mk_map (Node (10, 3.14%Q) nullptr
               (Node (20, 3.14%Q) nullptr nullptr RED) BLACK) 2.

(** A degenerate tree: [n] black nodes, each the left child of the one
    before.  It is not a red-black tree for [n > 1]. *)
Fixpoint left_chain (n : nat) : tree Z :=
  match n with
  | O => nullptr
  | S n' => Node (Z.of_nat n, 0) (left_chain n') nullptr BLACK
  end.

(** A tree that satisfies the colour and black-height invariants and is not
    a search tree: the key 5 stands left of the key 1. *)
Definition unordered_map : immutable_map Z :=
  mk_map (Node (1, 0) (Node (5, 0) nullptr nullptr RED) nullptr BLACK) 2.

(** ** The invocations of [delete_fixup] *)

Section Calls.

Context {T : Type}.

(** The body of [delete_fixup] with the callee of its recursive call left
    open: [delete_fixup p parent side] is
    [delete_fixup_step delete_fixup p parent side]. *)
Definition delete_fixup_step
    (self : path T -> tree T -> side_t -> result (tree T))
    (p : path T) (parent : tree T) (side : side_t) : result (tree T) :=
  b1 <- has_black_sibling_with_red_child parent side ;;
  if b1 then
    new_parent <- delete_fixup_1 parent side ;;
    '(r, _) <- clone_path p new_parent ;; OK r
  else
    b2 <- has_black_sibling_with_black_children parent side ;;
    if b2 then
      parent_color <- get_color parent ;;
      new_parent <- delete_fixup_2 parent side ;;
      match parent_color, p with
      | BLACK, grand_parent :: p' =>
          gk <- get_key grand_parent ;;
          pk <- get_key parent ;;
          let parent_side := side_of gk pk in
          new_grand_parent <- clone grand_parent ;;
          new_grand_parent <- set_child parent_side new_parent new_grand_parent ;;
          self p' new_grand_parent parent_side
      | _, _ =>
          '(r, _) <- clone_path p new_parent ;; OK r
      end
    else
      new_parent <- delete_fixup_3 parent side ;;
      '(r, _) <- clone_path p new_parent ;; OK r.

(** [erase_intermediate_node] with the callee of its call to [delete_fixup]
    left open. *)
Definition erase_intermediate_node_with
    (fixup : path T -> tree T -> side_t -> result (tree T))
    (p : path T) : result (tree T) :=
  let erased_node := get_node p in
  node_color <- get_color erased_node ;;
  let depth := length p in
  p <- find_predecessor p ;;
  let predecessor := get_node p in
  let predecessor_depth := length p in
  let predecessor_side :=
    if (1 <? predecessor_depth - depth)%nat then RIGHT else LEFT in
  predecessor_color <- get_color predecessor ;;
  new_node <- clone predecessor ;;
  new_node <- set_color node_color new_node ;;
  if color_eqb predecessor_color RED then
    p <- pop p ;;
    '(sub_tree, p) <- clone_path_side p nullptr predecessor_side depth ;;
    new_node <- set_child LEFT sub_tree new_node ;;
    c <- get_child RIGHT erased_node ;;
    new_node <- set_child RIGHT c new_node ;;
    p <- pop p ;;
    '(r, _) <- clone_path p new_node ;; OK r
  else
    pl <- get_child LEFT predecessor ;;
    if non_null pl then
      new_child <- clone pl ;;
      new_child <- set_color BLACK new_child ;;
      p <- pop p ;;
      '(sub_tree, p) <- clone_path_depth p new_child depth ;;
      new_node <- set_child LEFT sub_tree new_node ;;
      c <- get_child RIGHT erased_node ;;
      new_node <- set_child RIGHT c new_node ;;
      p <- pop p ;;
      '(r, _) <- clone_path p new_node ;; OK r
    else
      p <- pop p ;;
      kvp <- (match predecessor_side with
              | LEFT => get_pair predecessor
              | RIGHT => get_pair (get_node p)
              end) ;;
      '(sub_tree, p) <- clone_path_side p nullptr predecessor_side depth ;;
      new_node <- set_child LEFT sub_tree new_node ;;
      c <- get_child RIGHT erased_node ;;
      new_node <- set_child RIGHT c new_node ;;
      p <- pop p ;;
      '(temp_root, p) <- clone_path p new_node ;;
      '(_, p) <- find temp_root p (fst kvp) ;;
      let new_parent := get_node p in
      p <- pop p ;;
      fixup p new_parent predecessor_side.

(** [erase_imp] with the callee of its calls to [delete_fixup] left open. *)
Definition erase_imp_with
    (fixup : path T -> tree T -> side_t -> result (tree T))
    (p : path T) : result (tree T) :=
  let n := get_node p in
  l <- get_child LEFT n ;;
  r <- get_child RIGHT n ;;
  let has_left_child := non_null l in
  let has_right_child := non_null r in
  if has_left_child && has_right_child then erase_intermediate_node_with fixup p
  else if has_left_child then
    new_child <- clone l ;;
    new_child <- set_color BLACK new_child ;;
    p <- pop p ;;
    '(r, _) <- clone_path p new_child ;; OK r
  else if has_right_child then
    new_child <- clone r ;;
    new_child <- set_color BLACK new_child ;;
    p <- pop p ;;
    '(r, _) <- clone_path p new_child ;; OK r
  else
    nr <- is_red n ;;
    if nr then
      pk <- get_key (get_parent p) ;;
      nk <- get_key n ;;
      let parent_side := side_of pk nk in
      new_parent <- clone (get_parent p) ;;
      new_parent <- set_child parent_side nullptr new_parent ;;
      p <- pop p ;;
      p <- pop p ;;
      '(r, _) <- clone_path p new_parent ;; OK r
    else if (length p =? 1)%nat then OK nullptr
    else
      pk <- get_key (get_parent p) ;;
      nk <- get_key n ;;
      let parent_side := side_of pk nk in
      new_parent <- clone (get_parent p) ;;
      new_parent <- set_child parent_side nullptr new_parent ;;
      p <- pop p ;;
      p <- pop p ;;
      fixup p new_parent parent_side.

(** [fixup_invoked p0 p parent side]: while [erase_imp] runs on the path
    [p0], [delete_fixup] is invoked with the arguments [p], [parent] and
    [side], by [erase_imp] or [erase_intermediate_node] (whose result is
    then the result of that call, whatever the callee does) or by
    [delete_fixup] itself from an earlier invocation. *)
Inductive fixup_invoked (p0 : path T) : path T -> tree T -> side_t -> Prop :=
| invoked_by_erase p parent side :
    (forall fixup, erase_imp_with fixup p0 = fixup p parent side) ->
    fixup_invoked p0 p parent side
| invoked_by_fixup p parent side p' parent' side' :
    fixup_invoked p0 p parent side ->
    (forall self, delete_fixup_step self p parent side = self p' parent' side') ->
    fixup_invoked p0 p' parent' side'.

(** What holds of the arguments at every invocation: [parent] stands in the
    context [ctx] of the path in place of a tree [orig] of its colour;
    under [parent], the subtree [x] on [side] is one black node short of
    the sibling [sib]. *)
Definition deficit (ctx : list (frame T)) (orig : tree T) (side : side_t)
    (pkvp : pair T) (sib : tree T) (pc : color_t) (x : tree T) : Prop :=
  shape (plug ctx orig) /\ red_ptr (plug ctx orig) = false /\
  ascending (keys (plug ctx (fill (Frame side pkvp sib pc) x))) /\
  shape x /\ shape sib /\ bh sib = S (bh x) /\
  (pc = RED -> red_ptr sib = false) /\
  bh orig = (blackness pc + bh sib)%nat /\
  red_ptr orig = color_eqb pc RED.

Definition fixup_ready (p : path T) (parent : tree T) (side : side_t) : Prop :=
  exists ctx u orig pkvp sib pc x,
    p = ancestors ctx u /\
    parent = fill (Frame side pkvp sib pc) x /\
    deficit ctx orig side pkvp sib pc x.

End Calls.

(** A tree in which erasing the key 10 removes a black leaf. *)
Definition deficit_map : immutable_map Z :=
  mk_map (Node (15, 0) (Node (10, 0) nullptr nullptr BLACK)
               (Node (20, 0) nullptr (Node (25, 0) nullptr nullptr RED) BLACK)
               BLACK) 4.

(** ** The store model

    Nodes live in cells of a store; a [std::shared_ptr] is null or the
    location of a cell.  [std::make_shared] allocates a cell that the store
    does not have yet, the setters of [node] overwrite a cell in place, and
    every version of the map points into the one store. *)

Module Store.

Definition loc : Type := positive.

(** A [std::shared_ptr<node>] or a [std::shared_ptr<const node>]. *)
Definition ptr : Type := option loc.

(** [(bool)ptr] *)
Definition non_null (n : ptr) : bool :=
  match n with Some _ => true | None => false end.

Section Store.

Context {T : Type}.

Record node : Type := mk_node {
  kvp_ : pair T;
  left_ : ptr;
  right_ : ptr;
  color_ : color_t
}.

(** The store: [gmap loc node]. *)
#[local] Abbreviation heap := (gmap loc node).

(** Computations on the store; an error leaves the store as it is when the
    error is raised. *)
Definition M (A : Type) : Type := heap -> result A * heap.

Definition ret {A : Type} (a : A) : M A := fun h => (OK a, h).

Definition throw {A : Type} (e : error) : M A := fun h => (Err e, h).

Definition lift {A : Type} (r : result A) : M A := fun h => (r, h).

Definition bind {A B : Type} (c : M A) (k : A -> M B) : M B :=
  fun h =>
    match c h with
    | (OK a, h') => k a h'
    | (Err e, h') => (Err e, h')
    end.

#[local] Notation "x <- c ;; k" := (bind c (fun x => k))
  (at level 20, c at level 99, k at level 200, only parsing).
#[local] Notation "' pat <- c ;; k" := (bind c (fun x => match x with pat => k end))
  (at level 20, pat pattern, c at level 99, k at level 200, only parsing).

(** [*n] *)
Definition deref (n : ptr) : M node :=
  fun h =>
    match n with
    | None => (Err null_dereference, h)
    | Some l =>
        match h !! l with
        | Some c => (OK c, h)
        | None => (Err dangling_pointer, h)
        end
    end.

(** [std::make_shared<node>(...)]: a cell at a location the store lacks. *)
Definition make_shared (c : node) : M ptr :=
  fun h => let l := fresh (dom h) in (OK (Some l), <[l := c]> h).

(** A write through [n] to the cell it points to. *)
Definition assign (n : ptr) (f : node -> node) : M unit :=
  fun h =>
    match n with
    | None => (Err null_dereference, h)
    | Some l =>
        match h !! l with
        | Some c => (OK tt, <[l := f c]> h)
        | None => (Err dangling_pointer, h)
        end
    end.

(** *** Nodes *)

Definition get_key (n : ptr) : M K := c <- deref n ;; ret (fst (kvp_ c)).

Definition get_pair (n : ptr) : M (pair T) := c <- deref n ;; ret (kvp_ c).

Definition get_child (side : side_t) (n : ptr) : M ptr :=
  c <- deref n ;;
  ret (match side with LEFT => left_ c | RIGHT => right_ c end).

Definition get_color (n : ptr) : M color_t := c <- deref n ;; ret (color_ c).

Definition is_red (n : ptr) : M bool := c <- get_color n ;; ret (color_eqb c RED).

Definition is_black (n : ptr) : M bool := c <- get_color n ;; ret (color_eqb c BLACK).

(** [n && n->is_red()] *)
Definition red_ptr (n : ptr) : M bool :=
  if non_null n then is_red n else ret false.

Definition has_red_child (n : ptr) : M bool :=
  l <- get_child LEFT n ;;
  lr <- red_ptr l ;;
  if lr then ret true
  else
    r <- get_child RIGHT n ;;
    red_ptr r.

Definition set_pair (kvp : pair T) (n : ptr) : M unit :=
  assign n (fun c => mk_node kvp (left_ c) (right_ c) (color_ c)).

Definition set_child (side : side_t) (child : ptr) (n : ptr) : M unit :=
  assign n (fun c =>
    match side with
    | LEFT => mk_node (kvp_ c) child (right_ c) (color_ c)
    | RIGHT => mk_node (kvp_ c) (left_ c) child (color_ c)
    end).

Definition set_color (color : color_t) (n : ptr) : M unit :=
  assign n (fun c => mk_node (kvp_ c) (left_ c) (right_ c) color).

Definition clone (n : ptr) : M ptr :=
  c <- deref n ;;
  make_shared (mk_node (kvp_ c) (left_ c) (right_ c) (color_ c)).

(** [node::foreach]; the recursion follows the pointers of the store and is
    bounded by [fuel]. *)
Fixpoint foreach_node {A : Type} (fuel : nat) (n : ptr) (f : pair T -> A -> A) (s : A)
  : M A :=
  match fuel with
  | O => throw out_of_fuel
  | S fuel' =>
      l <- get_child LEFT n ;;
      s <- (if non_null l then foreach_node fuel' l f s else ret s) ;;
      kvp <- get_pair n ;;
      r <- get_child RIGHT n ;;
      if non_null r then foreach_node fuel' r f (f kvp s) else ret (f kvp s)
  end.

(** *** Paths *)

Definition path : Type := list ptr.

Definition get_node (p : path) : ptr :=
  match p with
  | n :: _ => n
  | [] => None
  end.

Definition get_parent (p : path) : ptr :=
  match p with
  | _ :: n :: _ => n
  | _ => None
  end.

Definition push (p : path) (n : ptr) : result path :=
  if (length p <? path_capacity)%nat then OK (n :: p) else Err path_overflow.

Definition pop (p : path) : result path :=
  match p with
  | [] => Err path_underflow
  | _ :: q => OK q
  end.

(** *** The map *)

Record immutable_map : Type := mk_map { root_ : ptr; size_ : Z }.

Definition empty_map : immutable_map := mk_map None 0.

Definition empty (m : immutable_map) : bool := size_ m =? 0.
Definition size (m : immutable_map) : Z := size_ m.

(** The loop of [find(root, p, key)].  Every iteration pushes, so the loop
    makes at most [path_capacity] iterations before [push] fails; [fuel]
    bounds the recursion. *)
Fixpoint find_loop (fuel : nat) (node : ptr) (p : path) (key : K)
  : M (bool * path) :=
  match node, fuel with
  | None, _ => ret (false, p)
  | Some _, O => throw out_of_fuel
  | Some _, S fuel' =>
      p <- lift (push p node) ;;
      k <- get_key node ;;
      if k =? key then ret (true, p)
      else if k >? key then
        c <- get_child LEFT node ;; find_loop fuel' c p key
      else
        c <- get_child RIGHT node ;; find_loop fuel' c p key
  end.

Definition find (root : ptr) (p : path) (key : K) : M (bool * path) :=
  find_loop (S path_capacity) root p key.

(** [clone_path(p, n)] *)
Fixpoint clone_path (p : path) (n : ptr) : M (ptr * path) :=
  match p with
  | [] => ret (n, p)
  | None :: _ => ret (n, p)
  | parent :: p' =>
      new_parent <- clone parent ;;
      pk <- get_key new_parent ;;
      nk <- get_key n ;;
      _ <- set_child (side_of pk nk) n new_parent ;;
      clone_path p' new_parent
  end.

(** [clone_path(p, n, depth)] *)
Fixpoint clone_path_depth (p : path) (n : ptr) (depth : nat) : M (ptr * path) :=
  match p with
  | [] => ret (n, p)
  | parent :: p' =>
      if (depth <? length p)%nat then
        new_parent <- clone parent ;;
        pk <- get_key new_parent ;;
        nk <- get_key n ;;
        _ <- set_child (side_of pk nk) n new_parent ;;
        clone_path_depth p' new_parent depth
      else ret (n, p)
  end.

(** [clone_path(p, n, side, depth)] *)
Fixpoint clone_path_side (p : path) (n : ptr) (side : side_t) (depth : nat)
  : M (ptr * path) :=
  match p with
  | [] => ret (n, p)
  | parent :: p' =>
      if (depth <? length p)%nat then
        let grand_parent := get_parent p in
        new_parent <- clone parent ;;
        _ <- set_child side n new_parent ;;
        gk <- get_key grand_parent ;;
        pk <- get_key parent ;;
        clone_path_side p' new_parent (side_of gk pk) depth
      else ret (n, p)
  end.

(** The loop of [find_predecessor]; bounded like the loop of [find]. *)
Fixpoint find_predecessor_loop (fuel : nat) (node : ptr) (p : path) : M path :=
  match node, fuel with
  | None, _ => ret p
  | Some _, O => throw out_of_fuel
  | Some _, S fuel' =>
      p <- lift (push p node) ;;
      c <- get_child RIGHT node ;;
      find_predecessor_loop fuel' c p
  end.

Definition find_predecessor (p : path) : M path :=
  node <- get_child LEFT (get_node p) ;;
  find_predecessor_loop (S path_capacity) node p.

(** *** Insertion *)

Fixpoint insert_fix (p : path) (n : ptr) : M ptr :=
  match p with
  | [] => _ <- set_color BLACK n ;; ret n
  | parent :: p1 =>
      pb <- is_black parent ;;
      if pb then
        '(r, _) <- clone_path p n ;; ret r
      else
        match p1 with
        | [] => throw null_dereference
        | grand_parent :: p2 =>
            gk <- get_key grand_parent ;;
            pk <- get_key parent ;;
            nk <- get_key n ;;
            let parent_side := side_of gk pk in
            let node_side := side_of pk nk in
            uncle <- get_child (opp parent_side) grand_parent ;;
            ur <- red_ptr uncle ;;
            if ur then
              new_parent <- clone parent ;;
              _ <- set_color BLACK new_parent ;;
              _ <- set_child node_side n new_parent ;;
              new_uncle <- clone uncle ;;
              _ <- set_color BLACK new_uncle ;;
              new_grand_parent <- clone grand_parent ;;
              _ <- set_color RED new_grand_parent ;;
              _ <- set_child parent_side new_parent new_grand_parent ;;
              _ <- set_child (opp parent_side) new_uncle new_grand_parent ;;
              insert_fix p2 new_grand_parent
            else
              new_parent <- clone parent ;;
              new_grand_parent <- clone grand_parent ;;
              if negb (side_eqb parent_side node_side) then
                c <- get_child parent_side n ;;
                _ <- set_child node_side c new_parent ;;
                c <- get_child node_side n ;;
                _ <- set_child parent_side c new_grand_parent ;;
                _ <- set_color RED new_grand_parent ;;
                _ <- set_child parent_side new_parent n ;;
                _ <- set_child node_side new_grand_parent n ;;
                _ <- set_color BLACK n ;;
                '(r, _) <- clone_path p2 n ;; ret r
              else
                c <- get_child (opp parent_side) parent ;;
                _ <- set_child parent_side c new_grand_parent ;;
                _ <- set_color RED new_grand_parent ;;
                _ <- set_child (opp parent_side) new_grand_parent new_parent ;;
                _ <- set_child parent_side n new_parent ;;
                _ <- set_color BLACK new_parent ;;
                '(r, _) <- clone_path p2 new_parent ;; ret r
        end
  end.

(** [insert_imp(kvp, p)] *)
Definition insert_imp_path (m : immutable_map) (kvp : pair T) (p : path) : M ptr :=
  if negb (non_null (root_ m)) then make_shared (mk_node kvp None None BLACK)
  else
    n <- make_shared (mk_node kvp None None RED) ;;
    insert_fix p n.

(** [insert_imp(kvp)] *)
Definition insert_imp (m : immutable_map) (kvp : pair T) : M immutable_map :=
  '(matched, p) <- find (root_ m) [] (fst kvp) ;;
  if (matched : bool) then
    new_node <- clone (get_node p) ;;
    _ <- set_pair kvp new_node ;;
    p <- lift (pop p) ;;
    '(r, _) <- clone_path p new_node ;;
    ret (mk_map r (size_ m))
  else
    new_root <- insert_imp_path m kvp p ;;
    ret (mk_map new_root (size_t_wrap (size_ m + 1))).

(** [insert(pair&& kvp)] *)
Definition insert (m : immutable_map) (kvp : pair T) : M immutable_map :=
  insert_imp m kvp.

(** *** Deletion *)

Definition has_black_sibling_with_red_child (parent : ptr) (side : side_t) : M bool :=
  sibling <- get_child (opp side) parent ;;
  sr <- is_red sibling ;;
  if sr then ret false else has_red_child sibling.

Definition has_black_sibling_with_black_children (parent : ptr) (side : side_t)
  : M bool :=
  sibling <- get_child (opp side) parent ;;
  sr <- is_red sibling ;;
  if sr then ret false else (b <- has_red_child sibling ;; ret (negb b)).

(** [delete_fixup_1], with the writes in the order of the source. *)
Definition delete_fixup_1 (parent : ptr) (side : side_t) : M ptr :=
  parent_color <- get_color parent ;;
  sibling <- get_child (opp side) parent ;;
  child_1 <- get_child side sibling ;;
  c1r <- red_ptr child_1 ;;
  if c1r then
    new_child_1 <- clone child_1 ;;
    new_parent <- clone parent ;;
    new_sibling <- clone sibling ;;
    _ <- set_color parent_color new_child_1 ;;
    _ <- set_child side new_parent new_child_1 ;;
    _ <- set_child (opp side) new_sibling new_child_1 ;;
    _ <- set_color BLACK new_parent ;;
    c <- get_child side child_1 ;;
    _ <- set_child (opp side) c new_parent ;;
    c <- get_child (opp side) child_1 ;;
    _ <- set_child side c new_sibling ;;
    ret new_child_1
  else
    child_2 <- get_child (opp side) sibling ;;
    new_child_2 <- clone child_2 ;;
    new_parent <- clone parent ;;
    new_sibling <- clone sibling ;;
    _ <- set_color parent_color new_sibling ;;
    _ <- set_child side new_parent new_sibling ;;
    _ <- set_child (opp side) new_child_2 new_sibling ;;
    _ <- set_color BLACK new_parent ;;
    c <- get_child side sibling ;;
    _ <- set_child (opp side) c new_parent ;;
    _ <- set_color BLACK new_child_2 ;;
    ret new_sibling.

(** [delete_fixup_2] *)
Definition delete_fixup_2 (parent : ptr) (side : side_t) : M ptr :=
  sibling <- get_child (opp side) parent ;;
  new_sibling <- clone sibling ;;
  new_parent <- clone parent ;;
  _ <- set_color RED new_sibling ;;
  _ <- set_color BLACK new_parent ;;
  _ <- set_child (opp side) new_sibling new_parent ;;
  ret new_parent.

(** [delete_fixup_3] *)
Definition delete_fixup_3 (parent : ptr) (side : side_t) : M ptr :=
  sibling <- get_child (opp side) parent ;;
  new_sibling <- clone sibling ;;
  new_parent <- clone parent ;;
  parent_color <- get_color parent ;;
  _ <- set_color parent_color new_sibling ;;
  _ <- set_child side new_parent new_sibling ;;
  _ <- set_color RED new_parent ;;
  c <- get_child side sibling ;;
  _ <- set_child (opp side) c new_parent ;;
  b1 <- has_black_sibling_with_red_child new_parent side ;;
  if b1 then
    new_parent <- delete_fixup_1 new_parent side ;;
    _ <- set_child side new_parent new_sibling ;;
    ret new_sibling
  else
    b2 <- has_black_sibling_with_black_children new_parent side ;;
    if b2 then
      new_parent <- delete_fixup_2 new_parent side ;;
      _ <- set_child side new_parent new_sibling ;;
      ret new_sibling
    else ret new_sibling.

(** [delete_fixup(p, parent, side)] *)
Fixpoint delete_fixup (p : path) (parent : ptr) (side : side_t) : M ptr :=
  b1 <- has_black_sibling_with_red_child parent side ;;
  if b1 then
    new_parent <- delete_fixup_1 parent side ;;
    '(r, _) <- clone_path p new_parent ;; ret r
  else
    b2 <- has_black_sibling_with_black_children parent side ;;
    if b2 then
      parent_color <- get_color parent ;;
      new_parent <- delete_fixup_2 parent side ;;
      match parent_color, p with
      | BLACK, grand_parent :: p' =>
          gk <- get_key grand_parent ;;
          pk <- get_key parent ;;
          let parent_side := side_of gk pk in
          new_grand_parent <- clone grand_parent ;;
          _ <- set_child parent_side new_parent new_grand_parent ;;
          delete_fixup p' new_grand_parent parent_side
      | _, _ =>
          '(r, _) <- clone_path p new_parent ;; ret r
      end
    else
      new_parent <- delete_fixup_3 parent side ;;
      '(r, _) <- clone_path p new_parent ;; ret r.

(** [erase_intermediate_node(p)] *)
Definition erase_intermediate_node (p : path) : M ptr :=
  let erased_node := get_node p in
  node_color <- get_color erased_node ;;
  let depth := length p in
  p <- find_predecessor p ;;
  let predecessor := get_node p in
  let predecessor_depth := length p in
  let predecessor_side :=
    if (1 <? predecessor_depth - depth)%nat then RIGHT else LEFT in
  predecessor_color <- get_color predecessor ;;
  new_node <- clone predecessor ;;
  _ <- set_color node_color new_node ;;
  if color_eqb predecessor_color RED then
    p <- lift (pop p) ;;
    '(sub_tree, p) <- clone_path_side p None predecessor_side depth ;;
    _ <- set_child LEFT sub_tree new_node ;;
    c <- get_child RIGHT erased_node ;;
    _ <- set_child RIGHT c new_node ;;
    p <- lift (pop p) ;;
    '(r, _) <- clone_path p new_node ;; ret r
  else
    pl <- get_child LEFT predecessor ;;
    if non_null pl then
      new_child <- clone pl ;;
      _ <- set_color BLACK new_child ;;
      p <- lift (pop p) ;;
      '(sub_tree, p) <- clone_path_depth p new_child depth ;;
      _ <- set_child LEFT sub_tree new_node ;;
      c <- get_child RIGHT erased_node ;;
      _ <- set_child RIGHT c new_node ;;
      p <- lift (pop p) ;;
      '(r, _) <- clone_path p new_node ;; ret r
    else
      p <- lift (pop p) ;;
      kvp <- (match predecessor_side with
              | LEFT => get_pair predecessor
              | RIGHT => get_pair (get_node p)
              end) ;;
      '(sub_tree, p) <- clone_path_side p None predecessor_side depth ;;
      _ <- set_child LEFT sub_tree new_node ;;
      c <- get_child RIGHT erased_node ;;
      _ <- set_child RIGHT c new_node ;;
      p <- lift (pop p) ;;
      '(temp_root, p) <- clone_path p new_node ;;
      '(_, p) <- find temp_root p (fst kvp) ;;
      let new_parent := get_node p in
      p <- lift (pop p) ;;
      delete_fixup p new_parent predecessor_side.

(** [erase_imp(p)] *)
Definition erase_imp (p : path) : M ptr :=
  let n := get_node p in
  l <- get_child LEFT n ;;
  r <- get_child RIGHT n ;;
  let has_left_child := non_null l in
  let has_right_child := non_null r in
  if has_left_child && has_right_child then erase_intermediate_node p
  else if has_left_child then
    new_child <- clone l ;;
    _ <- set_color BLACK new_child ;;
    p <- lift (pop p) ;;
    '(r, _) <- clone_path p new_child ;; ret r
  else if has_right_child then
    new_child <- clone r ;;
    _ <- set_color BLACK new_child ;;
    p <- lift (pop p) ;;
    '(r, _) <- clone_path p new_child ;; ret r
  else
    nr <- is_red n ;;
    if nr then
      pk <- get_key (get_parent p) ;;
      nk <- get_key n ;;
      let parent_side := side_of pk nk in
      new_parent <- clone (get_parent p) ;;
      _ <- set_child parent_side None new_parent ;;
      p <- lift (pop p) ;;
      p <- lift (pop p) ;;
      '(r, _) <- clone_path p new_parent ;; ret r
    else if (length p =? 1)%nat then ret None
    else
      pk <- get_key (get_parent p) ;;
      nk <- get_key n ;;
      let parent_side := side_of pk nk in
      new_parent <- clone (get_parent p) ;;
      _ <- set_child parent_side None new_parent ;;
      p <- lift (pop p) ;;
      p <- lift (pop p) ;;
      delete_fixup p new_parent parent_side.

(** [erase(key)] *)
Definition erase (m : immutable_map) (key : K) : M immutable_map :=
  '(matched, p) <- find (root_ m) [] key ;;
  if negb matched then ret m
  else
    new_root <- erase_imp p ;;
    ret (mk_map new_root (size_t_wrap (size_ m - 1))).

(** *** Queries *)

(** [contains(key)] *)
Definition contains (m : immutable_map) (key : K) : M bool :=
  '(matched, _) <- find (root_ m) [] key ;;
  ret matched.

(** [foreach(f)] *)
Definition foreach {A : Type} (fuel : nat) (m : immutable_map)
    (f : pair T -> A -> A) (s : A) : M A :=
  if non_null (root_ m) then foreach_node fuel (root_ m) f s else ret s.

(** The sequence of pairs a visitor sees. *)
Definition traversal (fuel : nat) (m : immutable_map) : M (list (pair T)) :=
  foreach fuel m (fun kvp acc => acc ++ [kvp]) [].

(** [node::validate]; the recursion follows the pointers of the store and
    is bounded by [fuel]. *)
Fixpoint validate_node (fuel : nat) (n : ptr) : M Z :=
  match fuel with
  | O => throw out_of_fuel
  | S fuel' =>
      red <- is_red n ;;
      let depth := if (red : bool) then 0 else 1 in
      _ <- (if red then
              l <- get_child LEFT n ;;
              lr <- red_ptr l ;;
              if lr then throw (runtime_error "red node with red child")
              else
                r <- get_child RIGHT n ;;
                rr <- red_ptr r ;;
                if rr then throw (runtime_error "red node with red child")
                else ret tt
            else ret tt) ;;
      l <- get_child LEFT n ;;
      depth1 <- (if non_null l then validate_node fuel' l else ret 0) ;;
      r <- get_child RIGHT n ;;
      depth2 <- (if non_null r then validate_node fuel' r else ret 0) ;;
      if negb (depth1 =? depth2) then throw (runtime_error "invalid black depth")
      else ret (depth1 + depth)
  end.

(** [validate()] *)
Definition validate (fuel : nat) (m : immutable_map) : M unit :=
  rr <- red_ptr (root_ m) ;;
  if rr then throw (runtime_error "root is red")
  else if non_null (root_ m) then _ <- validate_node fuel (root_ m) ;; ret tt
  else ret tt.

(** An operation of the command language of [run], on the store. *)
Definition apply_op (m : immutable_map) (o : op T) : M immutable_map :=
  match o with
  | op_insert kvp => insert m kvp
  | op_erase key => erase m key
  end.

End Store.

Arguments node : clear implicits.
Arguments M : clear implicits.

Abbreviation heap T := (gmap loc (node T)).

End Store.

(** ** The store and the trees *)

Section StoreSpec.

Context {T : Type}.

(** [repr h n t]: in the store [h], the cells that [n] reaches form the
    tree [t]. *)
Inductive repr (h : Store.heap T) : Store.ptr -> tree T -> Prop :=
| repr_null : repr h None nullptr
| repr_node l kvp pl pr c tl tr :
    h !! l = Some (Store.mk_node kvp pl pr c) ->
    repr h pl tl -> repr h pr tr ->
    repr h (Some l) (Node kvp tl tr c).

Definition represents (h : Store.heap T) (m : Store.immutable_map)
    (a : immutable_map T) : Prop :=
  repr h (Store.root_ m) (root_ a) /\ Store.size_ m = size_ a.

(** [store_finds h m k v]: in the store [h], the search of the key [k] from
    the root of [m] reports a match, the node on top of the path it leaves
    holds the pair [(k, v)], and neither read changes the store. *)
Definition store_finds (h : Store.heap T) (m : Store.immutable_map)
    (k : K) (v : T) : Prop :=
  exists p, Store.find (Store.root_ m) [] k h = (OK (true, p), h) /\
            Store.get_pair (Store.get_node p) h = (OK (k, v), h).

(** [fresh_ptr h0 n]: the cell of [n] is not a cell of the store [h0]. *)
Definition fresh_ptr (h0 : Store.heap T) (n : Store.ptr) : Prop :=
  match n with
  | Some l => h0 !! l = None
  | None => True
  end.

(** [keeps h0 c Q]: run on a store that extends [h0], the computation [c]
    leaves a store that extends [h0], whether it returns or raises; what it
    returns satisfies [Q]. *)
Definition keeps {A : Type} (h0 : Store.heap T) (c : Store.M T A) (Q : A -> Prop)
  : Prop :=
  forall h, h0 ⊆ h -> h0 ⊆ snd (c h) /\ forall a, fst (c h) = OK a -> Q a.

(** The outcome of a read of the store, against the outcome in the tree
    model: the same error, or results related by [R]. *)
Definition same_outcome {A B : Type} (R : A -> B -> Prop)
    (r : result A) (s : result B) : Prop :=
  match r, s with
  | OK a, OK b => R a b
  | Err e, Err e' => e = e'
  | _, _ => False
  end.

End StoreSpec.

(** A store with the tree of [readme_map3] in its cells 1, 2 and 3. *)
Definition readme_store : Store.heap Q :=
  {[ 1%positive := Store.mk_node (15, 6.28%Q) (Some 2%positive) (Some 3%positive) BLACK;
     2%positive := Store.mk_node (10, 3.14%Q) None None RED;
     3%positive := Store.mk_node (20, 3.14%Q) None None RED ]}.

Definition readme_store_map3 : Store.immutable_map :=
  Store.mk_map (Some 1%positive) 3.

(** ** Further vocabulary: histories of operations *)

Section History.

Context {T : Type}.

(** The key an operation is about. *)
Definition op_key (o : op T) : K :=
  match o with
  | op_insert kvp => fst kvp
  | op_erase key => key
  end.

(** What a history of operations leaves at the key [k], given what was there
    before: the value of the last [insert] of [k], unless an [erase] of [k]
    comes after it. *)
Fixpoint lookup_after (ops : list (op T)) (k : K) (init : option T) : option T :=
  match ops with
  | [] => init
  | op_insert kvp :: ops' =>
      lookup_after ops' k (if fst kvp =? k then Some (snd kvp) else init)
  | op_erase key :: ops' =>
      lookup_after ops' k (if key =? k then None else init)
  end.

(** The rightmost branch of a tree, from its root down: the nodes that
    [right_] reaches in turn. *)
Fixpoint right_branch (t : tree T) : list (tree T) :=
  match t with
  | nullptr => []
  | Node _ _ r _ => t :: right_branch r
  end.

(** The pair at the key [k] replaced by [(k, v)]. *)
Definition list_replace (k : K) (v : T) (es : list (pair T)) : list (pair T) :=
  map (fun e => if fst e =? k then (k, v) else e) es.

End History.

(** ** The store model against the tree model

    While an operation runs, the store [h] has a published part [hb], the
    cells that finished trees are made of, and cells that the operation has
    allocated and still writes to. *)

Section Simulation.

Context {T : Type}.
Implicit Types (h hb : Store.heap T) (l : Store.loc) (n : Store.ptr)
  (t : tree T) (cell : Store.node T).

(** [returns c h Q]: run on [h], the computation [c] returns, and [Q] holds
    of its result and of the store it leaves. *)
Definition returns {A : Type} (c : Store.M T A) h (Q : A -> Store.heap T -> Prop)
  : Prop :=
  exists a h', c h = (OK a, h') /\ Q a h'.

(** [ext hb h hb' h']: from the store [h] with the published part [hb] to
    the store [h'] with the published part [hb']: every cell is kept, and
    what is published of the cells of [h] is what [hb] has. *)
Definition ext hb h hb' h' : Prop :=
  hb ⊆ hb' /\ hb' ⊆ h' /\ h ⊆ h' /\
  forall l, is_Some (h !! l) -> hb' !! l = hb !! l.

(** [own h0 hb h l cell]: the cell at [l] is [cell]; it is no cell of the
    store [h0] in which the operation has started, and it is not published. *)
Definition own h0 hb h l cell : Prop :=
  h0 !! l = None /\ hb !! l = None /\ h !! l = Some cell.

(** [holds hb cell t]: the cell is the root of [t], its children are
    published. *)
Definition holds hb cell t : Prop :=
  exists tl tr,
    t = Node (Store.kvp_ cell) tl tr (Store.color_ cell) /\
    repr hb (Store.left_ cell) tl /\ repr hb (Store.right_ cell) tr.

Definition owns h0 hb h l t : Prop :=
  exists cell, own h0 hb h l cell /\ holds hb cell t.

(** [sees hb h n t]: what a read through [n] finds, published or not. *)
Definition sees hb h n t : Prop :=
  match n with
  | None => t = nullptr
  | Some l => exists cell, h !! l = Some cell /\ holds hb cell t
  end.

End Simulation.

(** The sequence of maps that a sequence of operations produces on the
    store, the last one first. *)
Fixpoint store_run {T : Type} (ops : list (op T)) (m : Store.immutable_map)
    (acc : list Store.immutable_map)
  : Store.M T (list Store.immutable_map) :=
  match ops with
  | [] => Store.ret (m :: acc)
  | o :: ops' =>
      Store.bind (Store.apply_op m o) (fun m' => store_run ops' m' (m :: acc))
  end.

(** The same sequence in the tree model. *)
Fixpoint run_versions {T : Type} (ops : list (op T)) (m : immutable_map T)
    (acc : list (immutable_map T)) : result (list (immutable_map T)) :=
  match ops with
  | [] => OK (m :: acc)
  | o :: ops' => m' <- apply_op m o ;; run_versions ops' m' (m :: acc)
  end.

(** ** Allocation *)

(** [allocates c k]: whatever the store, the computation [c] leaves a store
    with at most [k] cells more. *)
Definition allocates {T A : Type} (c : Store.M T A) (k : nat) : Prop :=
  forall h : Store.heap T, (base.size (snd (c h)) <= base.size h + k)%nat.

(** * Basic facts *)

Lemma side_of_LEFT (a b : K) : b < a -> side_of a b = LEFT.
Proof. unfold side_of. destruct (Z.gtb_spec a b); [reflexivity | lia]. Qed.

Lemma side_of_RIGHT (a b : K) : a <= b -> side_of a b = RIGHT.
Proof. unfold side_of. destruct (Z.gtb_spec a b); [lia | reflexivity]. Qed.

Lemma opp_involutive (s : side_t) : opp (opp s) = s.
Proof. destruct s; reflexivity. Qed.

Lemma bind_OK_inv {A B : Type} (r : result A) (k : A -> result B) (b : B) :
  bind r k = OK b -> exists a, r = OK a /\ k a = OK b.
Proof. destruct r as [a | e]; simpl; [eauto | discriminate]. Qed.

(** ** Ascending lists *)

Lemma ascending_app (l1 l2 : list K) :
  ascending (l1 ++ l2) <->
  ascending l1 /\ ascending l2 /\ (forall x y, In x l1 -> In y l2 -> x < y).
Proof.
  induction l1 as [| a l1 IH]; simpl.
  - intuition.
  - rewrite List.Forall_app, IH, !List.Forall_forall. split.
    + intros [[H1 H2] (H3 & H4 & H5)]. repeat split; auto.
      intros x y [<- | Hx] Hy; auto.
    + intros ([H1 H2] & H3 & H4). repeat split; auto.
Qed.

Lemma ascending_cons (x : K) (l : list K) :
  ascending (x :: l) <-> (forall y, In y l -> x < y) /\ ascending l.
Proof. simpl. rewrite List.Forall_forall. reflexivity. Qed.

Lemma ascending_NoDup (l : list K) : ascending l -> List.NoDup l.
Proof.
  induction l as [| a l IH]; simpl; intros H.
  - apply List.NoDup_nil.
  - apply List.NoDup_cons.
    + destruct H as [H _]. rewrite List.Forall_forall in H.
      intros Hin. specialize (H _ Hin). lia.
    + apply IH, H.
Qed.

Section BasicFacts.

Context {T : Type}.
Implicit Types (t l r : tree T) (f : frame T) (ctx : list (frame T)).

(** ** Elements and keys *)

Lemma keys_Node kvp l r c :
  keys (Node kvp l r c) = keys l ++ fst kvp :: keys r.
Proof. unfold keys. simpl. rewrite map_app. reflexivity. Qed.

Lemma keys_nullptr : keys (@nullptr T) = [].
Proof. reflexivity. Qed.

Lemma all_keys_Forall (P : K -> Prop) t : all_keys P t <-> Forall P (keys t).
Proof.
  induction t as [| kvp l IHl r IHr c]; cbn [all_keys].
  - rewrite keys_nullptr. split; auto.
  - rewrite keys_Node, List.Forall_app, List.Forall_cons_iff, IHl, IHr. tauto.
Qed.

Lemma bst_ascending t : bst t <-> ascending (keys t).
Proof.
  induction t as [| kvp l IHl r IHr c]; cbn [bst].
  - rewrite keys_nullptr. simpl. tauto.
  - rewrite keys_Node, ascending_app, ascending_cons, !all_keys_Forall,
      !List.Forall_forall, IHl, IHr.
    split.
    + intros (H1 & H2 & H3 & H4). repeat split; auto.
      intros x y Hx [<- | Hy]; auto.
      specialize (H1 _ Hx). specialize (H2 _ Hy). lia.
    + intros (H1 & (H2 & H3) & H4). repeat split; auto.
      intros x Hx. apply H4; simpl; auto.
Qed.

Lemma foreach_node_fold {S : Type} t (f : pair T -> S -> S) (s : S) :
  foreach_node t f s = fold_left (fun acc kvp => f kvp acc) (elements t) s.
Proof.
  revert s. induction t as [| kvp l IHl r IHr c]; intros s; simpl.
  - reflexivity.
  - rewrite fold_left_app. simpl. rewrite IHl, IHr. reflexivity.
Qed.

Lemma traversal_elements (m : immutable_map T) :
  traversal m = elements (root_ m).
Proof.
  unfold traversal, foreach. rewrite foreach_node_fold.
  generalize (elements (root_ m)). intros l.
  assert (H : forall acc, fold_left (fun a kvp => a ++ [kvp]) l acc = acc ++ l).
  { induction l as [| x l IH]; intros acc; simpl.
    - rewrite app_nil_r. reflexivity.
    - rewrite IH, <- app_assoc. reflexivity. }
  apply (H []).
Qed.

(** ** Frames and contexts *)

Lemma elements_fill f t :
  elements (fill f t) = before [f] ++ elements t ++ after [f].
Proof.
  unfold fill. destruct f as [[] kvp sib c]; simpl.
  - rewrite app_nil_r. reflexivity.
  - rewrite app_nil_r, <- app_assoc. reflexivity.
Qed.

Lemma elements_plug ctx t :
  elements (plug ctx t) = before ctx ++ elements t ++ after ctx.
Proof.
  revert t. induction ctx as [| f ctx IH]; intros t; simpl.
  - rewrite app_nil_r. reflexivity.
  - rewrite IH, elements_fill. simpl. rewrite !app_nil_r, <- !app_assoc.
    reflexivity.
Qed.

Lemma keys_plug ctx t :
  keys (plug ctx t) = map fst (before ctx) ++ keys t ++ map fst (after ctx).
Proof. unfold keys. rewrite elements_plug, !map_app. reflexivity. Qed.

Lemma plug_app ctx1 ctx2 t : plug (ctx1 ++ ctx2) t = plug ctx2 (plug ctx1 t).
Proof. revert t. induction ctx1; intros; simpl; auto. Qed.

Lemma ancestors_app ctx1 ctx2 t :
  ancestors (ctx1 ++ ctx2) t = ancestors ctx1 t ++ ancestors ctx2 (plug ctx1 t).
Proof. revert t. induction ctx1; intros; simpl; f_equal; auto. Qed.

Lemma length_ancestors ctx t : length (ancestors ctx t) = length ctx.
Proof. revert t. induction ctx; intros; simpl; auto. Qed.

Lemma keys_fill_in f t x :
  In x (keys (fill f t)) <-> In x (keys t) \/ x = f_key f \/ In x (keys (f_sib f)).
Proof.
  unfold fill, f_key. destruct f as [[] kvp sib c]; simpl;
    rewrite keys_Node, in_app_iff; simpl; intuition.
Qed.

Lemma ascending_keys_fill f t :
  ascending (keys (fill f t)) -> ascending (keys t).
Proof.
  unfold fill. destruct (f_side f); rewrite keys_Node, ascending_app, ascending_cons;
    tauto.
Qed.

Lemma ascending_keys_plug ctx t :
  ascending (keys (plug ctx t)) -> ascending (keys t).
Proof.
  revert t. induction ctx as [| f ctx IH]; intros t; simpl; auto.
  intros H. eapply ascending_keys_fill, IH, H.
Qed.

Lemma ascending_fill_hole1 f t x :
  ascending (keys (fill f t)) -> In x (keys t) -> hole1 x f.
Proof.
  unfold fill, hole1, f_key.
  destruct f as [[] kvp sib c]; cbn [f_side f_kvp f_sib f_color];
    rewrite keys_Node, ascending_app, ascending_cons; intros (H1 & H2 & H3) Hx.
  - apply H3; simpl; auto.
  - enough (f_k : fst kvp < x) by lia. destruct H2 as [H2 _]. apply H2, Hx.
Qed.

(** A key stored under the hole of a search tree is routed to the hole. *)
Lemma ascending_in_hole ctx t x :
  ascending (keys (plug ctx t)) -> In x (keys t) -> in_hole ctx x.
Proof.
  revert t. induction ctx as [| f ctx IH]; intros t H Hx; simpl in *.
  - constructor.
  - constructor.
    + eapply ascending_fill_hole1; eauto. eapply ascending_keys_plug; eauto.
    + eapply IH; eauto. apply keys_fill_in. auto.
Qed.

Lemma in_hole_cons f ctx x : in_hole (f :: ctx) x <-> hole1 x f /\ in_hole ctx x.
Proof. unfold in_hole. apply List.Forall_cons_iff. Qed.

Lemma in_hole_app ctx1 ctx2 x :
  in_hole (ctx1 ++ ctx2) x <-> in_hole ctx1 x /\ in_hole ctx2 x.
Proof. unfold in_hole. apply List.Forall_app. Qed.

Lemma hole1_side_of f x : hole1 x f -> side_of (f_key f) x = f_side f.
Proof.
  unfold hole1. destruct (f_side f); intros H.
  - apply side_of_LEFT; lia.
  - apply side_of_RIGHT; lia.
Qed.

(** The hole of a search tree receives exactly the keys between its
    neighbours. *)
Lemma ascending_before_after_tail f ctx :
  ascending (map fst (before (f :: ctx) ++ after (f :: ctx))) ->
  ascending (map fst (before ctx ++ after ctx)).
Proof.
  simpl. rewrite !map_app, <- !app_assoc, !ascending_app.
  intros (H1 & (H2 & (H3 & H4 & H5) & H6) & H7). repeat split; auto.
  intros a b Ha Hb. apply H7; auto. rewrite !in_app_iff. auto.
Qed.

Lemma in_hole_before ctx x y :
  in_hole ctx x -> ascending (map fst (before ctx ++ after ctx)) ->
  In y (map fst (before ctx)) -> y < x.
Proof.
  induction ctx as [| f ctx IH]; [simpl; tauto |].
  rewrite in_hole_cons. intros [Hf Hx] Hasc Hy.
  pose proof (ascending_before_after_tail _ _ Hasc) as Hasc'.
  simpl in Hy. rewrite map_app, in_app_iff in Hy.
  destruct Hy as [Hy | Hy]; [apply IH; auto |].
  unfold hole1, f_key in Hf. destruct f as [[] kvp sib c]; simpl in *; [tauto |].
  rewrite map_app, in_app_iff in Hy. simpl in Hy.
  destruct Hy as [Hy | [<- | []]]; [| lia].
  revert Hasc. rewrite !map_app, <- !app_assoc, !ascending_app. simpl.
  intros (H1 & (H2 & H3 & H4) & H5).
  specialize (H4 y (fst kvp) Hy). simpl in H4. lia.
Qed.

Lemma in_hole_after ctx x y :
  in_hole ctx x -> ascending (map fst (before ctx ++ after ctx)) ->
  In y (map fst (after ctx)) -> x < y.
Proof.
  induction ctx as [| f ctx IH]; [simpl; tauto |].
  rewrite in_hole_cons. intros [Hf Hx] Hasc Hy.
  pose proof (ascending_before_after_tail _ _ Hasc) as Hasc'.
  simpl in Hy. rewrite map_app, in_app_iff in Hy.
  destruct Hy as [Hy | Hy]; [| apply IH; auto].
  unfold hole1, f_key in Hf. destruct f as [[] kvp sib c]; simpl in *; [| tauto].
  destruct Hy as [<- | Hy]; [lia |].
  revert Hasc. rewrite !map_app, !app_nil_r, !ascending_app. simpl.
  intros (H1 & (H2 & H3) & H5).
  rewrite List.Forall_forall in H2.
  specialize (H2 y). rewrite map_app, in_app_iff in H2.
  specialize (H2 (or_introl Hy)). lia.
Qed.

End BasicFacts.

(** * Colour and black-height invariants *)

Section ShapeFacts.

Context {T : Type}.
Implicit Types (t l r : tree T) (f : frame T) (ctx : list (frame T)).

Lemma red_ptr_false_cases t :
  red_ptr t = false -> t = nullptr \/ exists kvp l r, t = Node kvp l r BLACK.
Proof. destruct t as [| kvp l r []]; simpl; intros; try discriminate; eauto. Qed.

Lemma bh_zero_not_red t :
  shape t -> bh t = 0%nat -> red_ptr t = false -> t = nullptr.
Proof. destruct t as [| kvp l r []]; simpl; intros; auto; discriminate. Qed.

(** A red node of black height zero is a leaf. *)
Lemma bh_zero_red t kvp l r :
  shape t -> t = Node kvp l r RED -> bh t = 0%nat ->
  l = nullptr /\ r = nullptr.
Proof.
  intros [Hn Hb] -> Hz. simpl in *.
  destruct Hn as ([Hl Hr] & Hnl & Hnr); [reflexivity |].
  destruct Hb as (Heq & Hbl & Hbr).
  split; apply bh_zero_not_red; unfold shape; auto; lia.
Qed.

Lemma bh_pos_non_null t : (0 < bh t)%nat -> non_null t = true.
Proof. destruct t; simpl; [lia | reflexivity]. Qed.

(** ** Black paths *)

Lemma black_path_bh t : black_path t (bh t).
Proof.
  induction t as [| kvp l IHl r IHr c]; simpl.
  - constructor.
  - apply black_path_left, IHl.
Qed.

Lemma balanced_black_path t n : balanced t -> black_path t n -> n = bh t.
Proof.
  intros Hb Hp. induction Hp as [| kvp l r c n Hp IH | kvp l r c n Hp IH];
    simpl in *.
  - reflexivity.
  - rewrite IH; tauto.
  - destruct Hb as (Heq & _ & Hr). rewrite (IH Hr). lia.
Qed.

Lemma equal_black_height_balanced t : equal_black_height t <-> balanced t.
Proof.
  split.
  - induction t as [| kvp l IHl r IHr c]; simpl; [tauto |].
    intros H. repeat split.
    + pose proof (H _ _ (black_path_left kvp l r c _ (black_path_bh l))
                        (black_path_right kvp l r c _ (black_path_bh r))).
      lia.
    + apply IHl. intros n1 n2 H1 H2.
      pose proof (H _ _ (black_path_left kvp l r c _ H1)
                        (black_path_left kvp l r c _ H2)). lia.
    + apply IHr. intros n1 n2 H1 H2.
      pose proof (H _ _ (black_path_right kvp l r c _ H1)
                        (black_path_right kvp l r c _ H2)). lia.
  - intros Hb n1 n2 H1 H2.
    rewrite (balanced_black_path _ _ Hb H1), (balanced_black_path _ _ Hb H2).
    reflexivity.
Qed.

(** ** Frames *)

Lemma shape_fill f t :
  shape (fill f t) <->
  shape t /\ shape (f_sib f) /\ bh t = bh (f_sib f) /\
  (f_color f = RED -> red_ptr t = false /\ red_ptr (f_sib f) = false).
Proof.
  unfold shape, fill. destruct f as [[] kvp sib c]; simpl; intuition.
Qed.

Lemma bh_fill f t :
  bh t = bh (f_sib f) -> bh (fill f t) = (blackness (f_color f) + bh t)%nat.
Proof. unfold fill. destruct f as [[] kvp sib c]; simpl; lia. Qed.

Lemma red_ptr_fill f t : red_ptr (fill f t) = color_eqb (f_color f) RED.
Proof. unfold fill. destruct f as [[] kvp sib []]; reflexivity. Qed.

Lemma shape_plug_inv ctx t : shape (plug ctx t) -> shape t.
Proof.
  revert t. induction ctx as [| f ctx IH]; intros t; simpl; auto.
  intros H. apply IH in H. apply shape_fill in H. tauto.
Qed.

(** Replacing the subtree in the hole by one of the same black height that
    is red only if the old one was keeps the invariants of the whole tree. *)
Lemma plug_replace ctx t t' :
  shape (plug ctx t) -> shape t' -> bh t' = bh t ->
  (red_ptr t' = true -> red_ptr t = true) ->
  shape (plug ctx t') /\
  bh (plug ctx t') = bh (plug ctx t) /\
  (red_ptr (plug ctx t') = true -> red_ptr (plug ctx t) = true).
Proof.
  revert t t'. induction ctx as [| f ctx IH]; intros t t' Hs Hs' Hbh Hred; simpl.
  - auto.
  - simpl in Hs. pose proof (shape_plug_inv _ _ Hs) as Hf.
    apply shape_fill in Hf. destruct Hf as (Ht & Hsib & Hb & Hc).
    apply IH; auto.
    + apply shape_fill. split; [exact Hs' |]. split; [exact Hsib |].
      split; [lia |]. intros Hcol. destruct (Hc Hcol) as [Hc1 Hc2].
      split; [| exact Hc2].
      destruct (red_ptr t') eqn:E; auto.
      specialize (Hred eq_refl). congruence.
    + rewrite !bh_fill; lia.
    + rewrite !red_ptr_fill. auto.
Qed.

(** ** Height *)

Lemma height_bh t :
  shape t -> (height t <= 2 * bh t + (if red_ptr t then 1 else 0))%nat.
Proof.
  induction t as [| kvp l IHl r IHr c]; simpl; [lia |].
  intros [(Hc & Hnl & Hnr) (Heq & Hbl & Hbr)].
  specialize (IHl (conj Hnl Hbl)). specialize (IHr (conj Hnr Hbr)).
  destruct c; simpl.
  - destruct (red_ptr l), (red_ptr r); lia.
  - destruct (Hc eq_refl) as [El Er]. rewrite El in IHl. rewrite Er in IHr. lia.
Qed.

Lemma count_bh t : balanced t -> (2 ^ bh t <= count t + 1)%nat.
Proof.
  unfold count.
  induction t as [| kvp l IHl r IHr c]; simpl; [lia |].
  intros (Heq & Hbl & Hbr). specialize (IHl Hbl). specialize (IHr Hbr).
  rewrite length_app. simpl. rewrite <- Heq in IHr.
  destruct c; simpl; lia.
Qed.

Lemma length_locate_height t key :
  (length (fst (locate t key))
   + (if non_null (snd (locate t key)) then 1 else 0) <= height t)%nat.
Proof.
  induction t as [| kvp l IHl r IHr c]; simpl.
  - lia.
  - destruct (fst kvp =? key); simpl; [lia |].
    destruct (fst kvp >? key).
    + destruct (locate l key) as [ctx s]. simpl in *. rewrite length_app. simpl. lia.
    + destruct (locate r key) as [ctx s]. simpl in *. rewrite length_app. simpl. lia.
Qed.

Lemma spine_Node kvp l r c :
  spine (Node kvp l r c) =
  if non_null r then (fst (spine r) ++ [Frame RIGHT kvp l c], snd (spine r))
  else ([], Node kvp l r c).
Proof.
  destruct r as [| kvp' l' r' c']; [reflexivity |].
  cbn [spine non_null]. destruct r'; [reflexivity |].
  destruct (spine _); reflexivity.
Qed.

Lemma length_spine_height t :
  (length (fst (spine t))
   + (if non_null (snd (spine t)) then 1 else 0) <= height t)%nat.
Proof.
  induction t as [| kvp l IHl r IHr c].
  - simpl. lia.
  - rewrite spine_Node. cbn [height]. destruct (non_null r); cbn [fst snd].
    + rewrite length_app. simpl. lia.
    + simpl. lia.
Qed.

(** A red-black tree whose node count fits [size_t] is no higher than the
    path array is long. *)
Lemma height_capacity t :
  shape t -> red_ptr t = false -> Z.of_nat (count t) <= SIZE_MAX ->
  (height t <= path_capacity)%nat.
Proof.
  intros Hs Hr Hc. pose proof (height_bh t Hs) as Hh. rewrite Hr in Hh.
  pose proof (count_bh t (proj2 Hs)) as Hn.
  assert (Hb : (bh t <= 64)%nat).
  { apply Nat2Z.inj_le in Hn. rewrite Nat2Z.inj_pow in Hn.
    unfold SIZE_MAX, sizeof_size_t in Hc.
    change (8 * Z.of_nat 8) with 64 in Hc.
    assert (Hp : 2 ^ Z.of_nat (bh t) <= 2 ^ 64) by lia.
    apply Z.pow_le_mono_r_iff in Hp; lia. }
  unfold path_capacity, sizeof_size_t. lia.
Qed.

End ShapeFacts.

(** * Paths: searching and rebuilding *)

Section PathFacts.

Context {T : Type}.
Implicit Types (t l r n u : tree T) (f : frame T) (ctx : list (frame T)).
Implicit Types (p : path T).

(** ** Node accessors on a filled frame *)

Lemma get_key_fill f t : get_key (fill f t) = OK (f_key f).
Proof. unfold fill. destruct (f_side f); reflexivity. Qed.

Lemma get_pair_fill f t : get_pair (fill f t) = OK (f_kvp f).
Proof. unfold fill. destruct (f_side f); reflexivity. Qed.

Lemma get_color_fill f t : get_color (fill f t) = OK (f_color f).
Proof. unfold fill. destruct (f_side f); reflexivity. Qed.

Lemma clone_fill f t : clone (fill f t) = OK (fill f t).
Proof. unfold fill. destruct (f_side f); reflexivity. Qed.

Lemma get_child_fill f t : get_child (f_side f) (fill f t) = OK t.
Proof. unfold fill. destruct (f_side f); reflexivity. Qed.

Lemma get_child_opp_fill f t : get_child (opp (f_side f)) (fill f t) = OK (f_sib f).
Proof. unfold fill. destruct (f_side f); reflexivity. Qed.

Lemma set_child_fill f t n : set_child (f_side f) n (fill f t) = OK (fill f n).
Proof. unfold fill. destruct (f_side f); reflexivity. Qed.

Lemma non_null_fill f t : non_null (fill f t) = true.
Proof. unfold fill. destruct (f_side f); reflexivity. Qed.

Lemma fill_is_Node f t : exists kvp l r c, fill f t = Node kvp l r c.
Proof. unfold fill. destruct (f_side f); eauto. Qed.

(** ** Ordered contexts *)

Lemma ascending_ordered ctx t : ascending (keys (plug ctx t)) -> ordered ctx.
Proof.
  revert t. induction ctx as [| f ctx IH]; intros t H; simpl in *; [exact I |].
  split; [| eapply IH; eauto].
  eapply ascending_in_hole; eauto. apply keys_fill_in. auto.
Qed.

Lemma ordered_app ctx1 ctx2 : ordered (ctx1 ++ ctx2) -> ordered ctx1 /\ ordered ctx2.
Proof.
  induction ctx1 as [| f ctx1 IH]; simpl; [tauto |].
  rewrite in_hole_app. tauto.
Qed.

(** ** [find] *)

Lemma locate_plug t key : plug (fst (locate t key)) (snd (locate t key)) = t.
Proof.
  induction t as [| kvp l IHl r IHr c]; simpl; [reflexivity |].
  destruct (fst kvp =? key); [reflexivity |].
  destruct (fst kvp >? key).
  - destruct (locate l key) as [ctx s]. simpl in *. rewrite plug_app, IHl. reflexivity.
  - destruct (locate r key) as [ctx s]. simpl in *. rewrite plug_app, IHr. reflexivity.
Qed.

Lemma locate_in_hole t key : in_hole (fst (locate t key)) key.
Proof.
  induction t as [| kvp l IHl r IHr c]; simpl; [constructor |].
  destruct (Z.eqb_spec (fst kvp) key); [constructor |].
  destruct (Z.gtb_spec (fst kvp) key).
  - destruct (locate l key) as [ctx s]. simpl in *. apply in_hole_app. split; auto.
    constructor; [| constructor]. unfold hole1, f_key. simpl. lia.
  - destruct (locate r key) as [ctx s]. simpl in *. apply in_hole_app. split; auto.
    constructor; [| constructor]. unfold hole1, f_key. simpl. lia.
Qed.

Lemma locate_found t key :
  snd (locate t key) = nullptr \/
  exists kvp l r c, snd (locate t key) = Node kvp l r c /\ fst kvp = key.
Proof.
  induction t as [| kvp l IHl r IHr c]; simpl; [auto |].
  destruct (Z.eqb_spec (fst kvp) key);
    [right; simpl; do 4 eexists; split; [reflexivity | assumption] |].
  destruct (fst kvp >? key).
  - destruct (locate l key) as [ctx s]. exact IHl.
  - destruct (locate r key) as [ctx s]. exact IHr.
Qed.

(** [find] pushes the path to the place where the search stops, unless the
    array is too short for it. *)
Lemma find_locate t p key :
  (length p <= path_capacity)%nat ->
  find t p key =
  if (length p + length (fst (locate t key))
      + length (node_path (snd (locate t key))) <=? path_capacity)%nat
  then OK (non_null (snd (locate t key)),
           node_path (snd (locate t key))
           ++ ancestors (fst (locate t key)) (snd (locate t key)) ++ p)
  else Err path_overflow.
Proof.
  revert p. induction t as [| kvp l IHl r IHr c]; intros p Hp.
  - simpl. destruct (Nat.leb_spec (length p + 0 + 0) path_capacity); [reflexivity | lia].
  - cbn [find]. unfold push.
    destruct (Nat.ltb_spec (length p) path_capacity) as [Hlt | Hge]; cbn [bind].
    + cbn [locate]. destruct (fst kvp =? key).
      * cbn [fst snd node_path non_null length ancestors app].
        destruct (Nat.leb_spec (length p + 0 + 1) path_capacity); [reflexivity | lia].
      * destruct (fst kvp >? key).
        -- rewrite IHl by (simpl; lia). pose proof (locate_plug l key) as Hpl.
           destruct (locate l key) as [ctx s]. cbn [fst snd] in *.
           rewrite length_app, ancestors_app, Hpl. cbn [length ancestors fill f_side f_kvp f_sib f_color].
           rewrite <- !app_assoc. cbn [app].
           replace (S (length p) + length ctx + length (node_path s))%nat
             with (length p + (length ctx + 1) + length (node_path s))%nat by lia.
           reflexivity.
        -- rewrite IHr by (simpl; lia). pose proof (locate_plug r key) as Hpl.
           destruct (locate r key) as [ctx s]. cbn [fst snd] in *.
           rewrite length_app, ancestors_app, Hpl. cbn [length ancestors fill f_side f_kvp f_sib f_color].
           rewrite <- !app_assoc. cbn [app].
           replace (S (length p) + length ctx + length (node_path s))%nat
             with (length p + (length ctx + 1) + length (node_path s))%nat by lia.
           reflexivity.
    + assert (Hk : (length p + length (fst (locate (Node kvp l r c) key))
                    + length (node_path (snd (locate (Node kvp l r c) key)))
                    <=? path_capacity)%nat = false).
      { apply Nat.leb_gt. pose proof (locate_found (Node kvp l r c) key) as Hf.
        pose proof (locate_plug (Node kvp l r c) key) as Hpl.
        destruct (locate (Node kvp l r c) key) as [ctx s]. cbn [fst snd] in *.
        destruct Hf as [-> | (kvp' & l' & r' & c' & -> & _)]; simpl; [| lia].
        destruct ctx; simpl in *; [discriminate | lia]. }
      rewrite Hk. reflexivity.
Qed.

(** ** Rebuilding along a path *)

Lemma clone_path_cons f u p n k :
  get_key n = OK k -> hole1 k f ->
  clone_path (fill f u :: p) n = clone_path p (fill f n).
Proof.
  intros Hk Hh. apply hole1_side_of in Hh.
  destruct n as [| nkvp nl nr nc]; [discriminate |]. simpl in Hk.
  injection Hk as <-.
  unfold fill, f_key in *. destruct f as [[] kvp sib c]; cbn in *; rewrite Hh; reflexivity.
Qed.

(** [clone_path] rebuilds the context around the replacement of its hole;
    the nodes on the path are only read for their frames. *)
Lemma clone_path_plug ctx u n k :
  get_key n = OK k -> in_hole ctx k -> ordered ctx ->
  clone_path (ancestors ctx u) n = OK (plug ctx n, []).
Proof.
  revert u n k. induction ctx as [| f ctx IH]; intros u n k Hk Hh Ho.
  - reflexivity.
  - apply in_hole_cons in Hh. destruct Hh as [Hf Hh]. destruct Ho as [Ho1 Ho2].
    cbn [ancestors plug]. rewrite (clone_path_cons f u _ n k Hk Hf).
    apply (IH _ _ (f_key f)); auto. apply get_key_fill.
Qed.

Lemma clone_path_depth_stop outer u n :
  clone_path_depth (ancestors outer u) n (length outer) = OK (n, ancestors outer u).
Proof.
  destruct outer as [| g outer]; [reflexivity |].
  cbn [ancestors clone_path_depth].
  replace (length (g :: outer) <? length (fill g u :: ancestors outer (fill g u)))%nat
    with false; [reflexivity |].
  symmetry. apply Nat.ltb_ge. simpl. rewrite length_ancestors. lia.
Qed.

Lemma clone_path_depth_plug rs outer u n k :
  get_key n = OK k -> in_hole rs k -> ordered rs ->
  clone_path_depth (ancestors (rs ++ outer) u) n (length outer)
  = OK (plug rs n, ancestors outer (plug rs u)).
Proof.
  revert u n k. induction rs as [| f rs IH]; intros u n k Hk Hh Ho.
  - apply clone_path_depth_stop.
  - apply in_hole_cons in Hh. destruct Hh as [Hf Hh]. destruct Ho as [Ho1 Ho2].
    cbn [ancestors plug app clone_path_depth].
    replace (length outer <? length (fill f u :: ancestors (rs ++ outer) (fill f u)))%nat
      with true
      by (symmetry; apply Nat.ltb_lt; simpl; rewrite length_ancestors, length_app; lia).
    rewrite clone_fill. cbn [bind]. rewrite get_key_fill. cbn [bind].
    rewrite Hk. cbn [bind]. rewrite (hole1_side_of _ _ Hf), set_child_fill.
    cbn [bind]. apply (IH _ _ (f_key f)); auto. apply get_key_fill.
Qed.

Lemma clone_path_side_stop outer u n side :
  clone_path_side (ancestors outer u) n side (length outer)
  = OK (n, ancestors outer u).
Proof.
  destruct outer as [| g outer]; [reflexivity |].
  cbn [ancestors clone_path_side].
  replace (length (g :: outer) <? length (fill g u :: ancestors outer (fill g u)))%nat
    with false; [reflexivity |].
  symmetry. apply Nat.ltb_ge. simpl. rewrite length_ancestors. lia.
Qed.

Lemma clone_path_side_plug rs outer u n side :
  outer <> [] -> ordered (rs ++ outer) ->
  (forall f rs', rs = f :: rs' -> side = f_side f) ->
  clone_path_side (ancestors (rs ++ outer) u) n side (length outer)
  = OK (plug rs n, ancestors outer (plug rs u)).
Proof.
  intros Hne. revert u n side. induction rs as [| f rs IH]; intros u n side Ho Hs.
  - apply clone_path_side_stop.
  - destruct Ho as [Ho1 Ho2]. rewrite (Hs f rs eq_refl).
    cbn [ancestors plug app clone_path_side].
    replace (length outer <? length (fill f u :: ancestors (rs ++ outer) (fill f u)))%nat
      with true
      by (symmetry; apply Nat.ltb_lt; simpl; rewrite length_ancestors, length_app; lia).
    rewrite clone_fill. cbn [bind]. rewrite set_child_fill. cbn [bind].
    destruct (rs ++ outer) as [| g rest] eqn:E.
    { destruct rs; simpl in E; [contradiction | discriminate]. }
    cbn [ancestors get_parent]. rewrite !get_key_fill. cbn [bind].
    apply in_hole_cons in Ho1. destruct Ho1 as [Hg _].
    rewrite (hole1_side_of _ _ Hg).
    change (fill g (fill f u) :: ancestors rest (fill g (fill f u)))
      with (ancestors (g :: rest) (fill f u)).
    apply IH.
    + exact Ho2.
    + intros f' rs' ->. simpl in E. injection E as -> _. reflexivity.
Qed.

(** ** The predecessor *)

Lemma spine_plug t : plug (fst (spine t)) (snd (spine t)) = t.
Proof.
  induction t as [| kvp l IHl r IHr c]; [reflexivity |].
  rewrite spine_Node. destruct r as [| kvp' l' r' c']; [reflexivity |].
  cbn [non_null fst snd]. rewrite plug_app, IHr. reflexivity.
Qed.

Lemma spine_last t :
  non_null t = true ->
  exists kvp l c, snd (spine t) = Node kvp l nullptr c.
Proof.
  induction t as [| kvp l IHl r IHr c]; [discriminate |]. intros _.
  rewrite spine_Node. destruct r as [| kvp' l' r' c']; cbn [non_null fst snd].
  - eauto.
  - apply IHr. reflexivity.
Qed.

Lemma spine_sides t : Forall (fun f => f_side f = RIGHT) (fst (spine t)).
Proof.
  induction t as [| kvp l IHl r IHr c]; [constructor |].
  rewrite spine_Node. destruct (non_null r); cbn [fst]; [| constructor].
  apply List.Forall_app. split; [exact IHr |]. repeat constructor.
Qed.

Lemma find_predecessor_loop_spine t p :
  (length p <= path_capacity)%nat ->
  find_predecessor_loop t p =
  if (length p + length (fst (spine t))
      + length (node_path (snd (spine t))) <=? path_capacity)%nat
  then OK (node_path (snd (spine t))
           ++ ancestors (fst (spine t)) (snd (spine t)) ++ p)
  else Err path_overflow.
Proof.
  revert p. induction t as [| kvp l IHl r IHr c]; intros p Hp.
  - simpl. destruct (Nat.leb_spec (length p + 0 + 0) path_capacity); [reflexivity | lia].
  - cbn [find_predecessor_loop]. unfold push. rewrite spine_Node.
    destruct (Nat.ltb_spec (length p) path_capacity) as [Hlt | Hge]; cbn [bind].
    + destruct r as [| kvp' l' r' c']; cbn [non_null fst snd].
      * cbn [node_path non_null length ancestors app find_predecessor_loop].
        destruct (Nat.leb_spec (length p + 0 + 1) path_capacity); [reflexivity | lia].
      * rewrite IHr by (simpl; lia). pose proof (spine_plug (Node kvp' l' r' c')) as Hpl.
        destruct (spine (Node kvp' l' r' c')) as [ctx s]. cbn [fst snd] in *.
        rewrite length_app, ancestors_app, Hpl.
        cbn [length ancestors fill f_side f_kvp f_sib f_color].
        rewrite <- !app_assoc. cbn [app].
        replace (S (length p) + length ctx + length (node_path s))%nat
          with (length p + (length ctx + 1) + length (node_path s))%nat by lia.
        reflexivity.
    + match goal with |- _ = (if ?b then _ else _) => replace b with false end;
        [reflexivity |].
      symmetry. apply Nat.leb_gt.
      destruct r as [| kvp' l' r' c']; cbn [non_null fst snd]; [simpl; lia |].
      rewrite length_app. simpl. lia.
Qed.

End PathFacts.

(** * Insertion *)

(** Decide the [side_of] tests left in the goal from the order facts in
    the context. *)
Ltac side_solve :=
  repeat match goal with
         | |- context [side_of ?a ?b] =>
             first [ rewrite (side_of_LEFT a b) by lia
                   | rewrite (side_of_RIGHT a b) by lia ]
         end.

(** Goals about the colour and black-height invariants of explicit nodes. *)
Ltac shape_tac :=
  unfold shape in *; cbn [no_red_red balanced bh red_ptr blackness] in *;
  intuition (try congruence; try lia).

(** Goals equating the traversals of two explicit trees in one context. *)
Ltac elements_tac :=
  cbn [plug fill f_side f_kvp f_sib f_color];
  rewrite ?elements_plug; cbn [elements];
  repeat (rewrite <- ?app_assoc; cbn [app]);
  reflexivity.

(** Goals stating that a key occurs in an explicit tree. *)
Ltac keys_tac :=
  repeat (rewrite ?keys_Node, ?in_app_iff; cbn [In]);
  intuition.

Section InsertFacts.

Context {T : Type}.
Implicit Types (t l r n u : tree T) (f : frame T) (ctx : list (frame T)).
Implicit Types (p : path T).

Lemma insert_fix_spec_aux (m : nat) :
  forall ctx u t nkvp nl nr,
    (length ctx <= m)%nat ->
    shape (plug ctx t) -> red_ptr (plug ctx t) = false -> ordered ctx ->
    red_ptr t = false ->
    shape (Node nkvp nl nr RED) -> bh nl = bh t ->
    in_hole ctx (fst nkvp) ->
    exists r,
      insert_fix (ancestors ctx u) (Node nkvp nl nr RED) = OK r /\
      shape r /\ red_ptr r = false /\
      elements r = elements (plug ctx (Node nkvp nl nr RED)).
Proof.
  induction m as [| m IH]; intros ctx u t nkvp nl nr Hlen Hs Hroot Ho Ht Hn Hbh Hh.
  - destruct ctx; [| simpl in Hlen; lia].
    eexists. split; [reflexivity |]. revert Hn. unfold shape. simpl.
    intuition discriminate.
  - destruct ctx as [| f ctx1].
    { eexists. split; [reflexivity |]. revert Hn. unfold shape. simpl.
      intuition discriminate. }
    apply in_hole_cons in Hh. destruct Hh as [Hf Hh]. destruct Ho as [Ho1 Ho2].
    cbn [plug] in Hs, Hroot.
    pose proof (shape_plug_inv ctx1 (fill f t) Hs) as Hft.
    cbn [ancestors insert_fix]. unfold is_black. rewrite get_color_fill. cbn [bind].
    destruct (f_color f) eqn:Ec; cbn [color_eqb].
    + (* black parent *)
      change (fill f u :: ancestors ctx1 (fill f u)) with (ancestors (f :: ctx1) u).
      rewrite (clone_path_plug (f :: ctx1) u _ (fst nkvp)); cbn [bind];
        [| reflexivity | apply in_hole_cons; auto | split; auto].
      eexists. split; [reflexivity |].
      assert (Hfn : shape (fill f (Node nkvp nl nr RED))).
      { apply shape_fill in Hft. apply shape_fill. rewrite Ec. simpl.
        intuition; try congruence; try lia. }
      apply shape_fill in Hft.
      destruct (plug_replace ctx1 (fill f t) (fill f (Node nkvp nl nr RED)))
        as (H1 & H2 & H3); auto.
      * rewrite !bh_fill; simpl; lia.
      * rewrite !red_ptr_fill. auto.
      * cbn [plug]. repeat split; try apply H1.
        destruct (red_ptr (plug ctx1 (fill f (Node nkvp nl nr RED)))); auto.
        rewrite <- Hroot. symmetry. auto.
    + (* red parent *)
      destruct ctx1 as [| g ctx2].
      { simpl in Hroot. rewrite red_ptr_fill, Ec in Hroot. discriminate. }
      cbn [plug] in Hs, Hroot. destruct Ho2 as [Ho2 Ho3].
      apply in_hole_cons in Hh. destruct Hh as [Hg Hh].
      apply in_hole_cons in Ho1. destruct Ho1 as [Hfg Ho1].
      pose proof (shape_plug_inv ctx2 _ Hs) as Hgt.
      cbn [ancestors]. rewrite !get_key_fill. cbn [bind get_key].
      rewrite (hole1_side_of _ _ Hfg), (hole1_side_of _ _ Hf).
      rewrite get_child_opp_fill. cbn [bind].
      apply shape_fill in Hgt. destruct Hgt as (_ & Hsg & Hbg & Hcg).
      rewrite bh_fill in Hbg by (apply shape_fill in Hft; tauto).
      apply shape_fill in Hft. destruct Hft as (Hst & Hsf & Hbf & Hcf).
      assert (Egc : f_color g = BLACK).
      { destruct (f_color g); auto. destruct Hcg as [Hcg _]; auto.
        rewrite red_ptr_fill, Ec in Hcg. discriminate. }
      destruct (red_ptr (f_sib g)) eqn:Eu.
      * (* red uncle *)
        destruct f as [sf fkvp fsib fc], g as [sg gkvp gsib gc].
        cbn [f_side f_kvp f_sib f_color] in *. subst fc gc.
        destruct gsib as [| ukvp ul ur []]; try discriminate.
        unfold hole1, f_key, fill in *. cbn [f_side f_kvp f_sib f_color] in *.
        destruct sf, sg; cbn [clone set_color set_child bind opp];
          match goal with
          | Hs : shape (plug ctx2 ?tt) |- _ =>
              edestruct (IH ctx2) with (t := tt) as (r & Hr1 & Hr2 & Hr3 & Hr4);
              [ | exact Hs | exact Hroot | exact Ho3 | ..
                | exists r; split; [exact Hr1 |]; split; [exact Hr2 |];
                  split; [exact Hr3 |]; rewrite Hr4 ]
          end.
        all: try (simpl in Hlen; lia).
        all: try reflexivity.
        all: try exact Ho2.
        all: try solve [shape_tac].
        all: try solve [elements_tac].
      * (* black uncle: rotations *)
        destruct f as [sf fkvp fsib fc], g as [sg gkvp gsib gc].
        cbn [f_side f_kvp f_sib f_color] in *. subst fc gc.
        unfold hole1, f_key, fill in *. cbn [f_side f_kvp f_sib f_color] in *.
        destruct sf, sg;
          cbn [clone set_color set_child get_child bind opp side_eqb negb];
          (erewrite clone_path_plug;
           [ cbn [bind] | reflexivity | first [exact Hh | exact Ho1] | exact Ho3 ]);
          (eexists; split; [reflexivity |]);
          match goal with
          | Hs : shape (plug ctx2 ?tt) |- shape (plug ctx2 ?rot) /\ _ =>
              destruct (plug_replace ctx2 tt rot Hs) as (H1 & H2 & H3);
              [ | | | split; [exact H1 |]; split;
                      [destruct (red_ptr (plug ctx2 rot)); auto;
                       rewrite <- Hroot; symmetry; auto |] ]
          end.
        all: try solve [shape_tac].
        all: try solve [elements_tac].
        all: try (intros; discriminate).
Qed.

(** [insert_fix] on the path of a failed search: the new red leaf is
    attached and the tree repaired. *)
Lemma insert_fix_spec ctx u kvp :
  shape (plug ctx nullptr) -> red_ptr (plug ctx nullptr) = false ->
  ordered ctx -> in_hole ctx (fst kvp) ->
  exists r,
    insert_fix (ancestors ctx u) (Node kvp nullptr nullptr RED) = OK r /\
    shape r /\ red_ptr r = false /\
    elements r = before ctx ++ kvp :: after ctx.
Proof.
  intros Hs Hr Ho Hh.
  destruct (insert_fix_spec_aux (length ctx) ctx u nullptr kvp nullptr nullptr)
    as (r & H1 & H2 & H3 & H4); auto.
  - unfold shape. simpl. tauto.
  - exists r. rewrite H4, elements_plug. auto.
Qed.


End InsertFacts.

(** * The map as a sorted association list *)

Section ListFacts.

Context {T : Type}.
Implicit Types (es B M A : list (pair T)) (e kvp : pair T).

Lemma filter_all {A : Type} (P : A -> bool) (xs : list A) :
  (forall x, In x xs -> P x = true) -> List.filter P xs = xs.
Proof.
  induction xs as [| x xs IH]; simpl; intros H; [reflexivity |].
  rewrite (H x) by auto. f_equal. apply IH. auto.
Qed.

Lemma filter_none {A : Type} (P : A -> bool) (xs : list A) :
  (forall x, In x xs -> P x = false) -> List.filter P xs = [].
Proof.
  induction xs as [| x xs IH]; simpl; intros H; [reflexivity |].
  rewrite (H x) by auto. apply IH. auto.
Qed.

Lemma list_insert_split B M A kvp :
  (forall e, In e B -> fst e < fst kvp) ->
  (forall e, In e M -> fst e = fst kvp) ->
  (forall e, In e A -> fst kvp < fst e) ->
  list_insert kvp (B ++ M ++ A) = B ++ kvp :: A.
Proof.
  intros HB HM HA. unfold list_insert. rewrite !List.filter_app.
  rewrite (filter_all _ B), (filter_none _ M), (filter_none _ A),
    (filter_none _ B), (filter_none _ M), (filter_all _ A).
  - rewrite app_nil_r. reflexivity.
  - intros e He. specialize (HA e He). lia.
  - intros e He. specialize (HM e He). lia.
  - intros e He. specialize (HB e He). lia.
  - intros e He. specialize (HA e He). lia.
  - intros e He. specialize (HM e He). lia.
  - intros e He. specialize (HB e He). lia.
Qed.

Lemma list_erase_split B M A key :
  (forall e, In e B -> fst e < key) ->
  (forall e, In e M -> fst e = key) ->
  (forall e, In e A -> key < fst e) ->
  list_erase key (B ++ M ++ A) = B ++ A.
Proof.
  intros HB HM HA. unfold list_erase. rewrite !List.filter_app.
  rewrite (filter_all _ B), (filter_none _ M), (filter_all _ A).
  - reflexivity.
  - intros e He. specialize (HA e He). lia.
  - intros e He. specialize (HM e He). lia.
  - intros e He. specialize (HB e He). lia.
Qed.

Lemma list_at_skip B es key :
  (forall e, In e B -> fst e <> key) -> list_at key (B ++ es) = list_at key es.
Proof.
  induction B as [| e B IH]; simpl; intros H; [reflexivity |].
  destruct (Z.eqb_spec (fst e) key) as [E | E].
  - exfalso. apply (H e); auto.
  - apply IH. auto.
Qed.

Lemma list_at_none es key :
  (forall e, In e es -> fst e <> key) -> list_at key es = None.
Proof.
  intros H. rewrite <- (app_nil_r es). rewrite list_at_skip; auto.
Qed.

Lemma list_at_insert_eq kvp es : list_at (fst kvp) (list_insert kvp es) = Some (snd kvp).
Proof.
  unfold list_insert. rewrite list_at_skip.
  - simpl. rewrite Z.eqb_refl. reflexivity.
  - intros e He. apply filter_In in He. lia.
Qed.

Lemma length_list_insert_absent kvp es :
  ascending (map fst es) -> list_at (fst kvp) es = None ->
  length (list_insert kvp es) = S (length es).
Proof.
  unfold list_insert. rewrite length_app. simpl.
  induction es as [| e es IH]; simpl; intros Ha Hn; [reflexivity |].
  destruct (Z.eqb_spec (fst e) (fst kvp)); [discriminate |].
  destruct Ha as [_ Ha]. specialize (IH Ha Hn).
  destruct (Z.ltb_spec (fst e) (fst kvp)), (Z.ltb_spec (fst kvp) (fst e));
    simpl; lia.
Qed.

Lemma list_at_In key es v :
  ascending (map fst es) -> (list_at key es = Some v <-> In (key, v) es).
Proof.
  induction es as [| e es IH]; simpl; intros Ha.
  - split; [discriminate | tauto].
  - destruct Ha as [Hlt Ha]. specialize (IH Ha).
    destruct (Z.eqb_spec (fst e) key) as [E | E].
    + split.
      * intros [= <-]. left. destruct e; simpl in *; subst; reflexivity.
      * intros [-> | Hin]; [reflexivity |].
        rewrite List.Forall_forall in Hlt.
        specialize (Hlt key (in_map fst _ _ Hin)). simpl in *. lia.
    + rewrite IH. split; [auto |]. intros [-> | Hin]; [| exact Hin].
      simpl in E. congruence.
Qed.

Lemma list_at_is_Some key es :
  (exists v, list_at key es = Some v) <-> In key (map fst es).
Proof.
  induction es as [| e es IH]; simpl.
  - split; [intros [v Hv]; discriminate | tauto].
  - destruct (Z.eqb_spec (fst e) key) as [E | E].
    + split; eauto.
    + rewrite IH. split; [auto |]. intros [? | ?]; [congruence | assumption].
Qed.

Lemma list_erase_absent key es :
  list_at key es = None -> list_erase key es = es.
Proof.
  unfold list_erase. induction es as [| e es IH]; simpl; [reflexivity |].
  destruct (Z.eqb_spec (fst e) key); [discriminate |].
  intros H. simpl. f_equal. auto.
Qed.

Lemma filter_lt_gt key es :
  ascending (map fst es) -> (forall e, In e es -> fst e <> key) ->
  List.filter (fun e => fst e <? key) es ++ List.filter (fun e => key <? fst e) es = es.
Proof.
  induction es as [| e es IH]; simpl; intros Ha Hne; [reflexivity |].
  destruct Ha as [Hlt Ha]. rewrite List.Forall_forall in Hlt.
  assert (He : fst e <> key) by auto.
  destruct (Z.ltb_spec (fst e) key) as [H1 | H1].
  - destruct (Z.ltb_spec key (fst e)); [lia |].
    simpl. f_equal. apply IH; auto.
  - destruct (Z.ltb_spec key (fst e)); [| lia].
    rewrite (filter_none (fun e0 => fst e0 <? key) es).
    + simpl. f_equal. apply filter_all.
      intros e0 He0. specialize (Hlt _ (in_map fst _ _ He0)). lia.
    + intros e0 He0. specialize (Hlt _ (in_map fst _ _ He0)). lia.
Qed.

Lemma list_erase_insert kvp es :
  ascending (map fst es) -> list_at (fst kvp) es = None ->
  list_erase (fst kvp) (list_insert kvp es) = es.
Proof.
  intros Ha Hn.
  assert (Hne : forall e, In e es -> fst e <> fst kvp).
  { intros e He E.
    assert (Hk : In (fst kvp) (map fst es)) by (rewrite <- E; apply in_map, He).
    apply list_at_is_Some in Hk. destruct Hk as [v Hv]. congruence. }
  rewrite <- (filter_lt_gt (fst kvp) es Ha Hne) at 2.
  unfold list_insert.
  apply (list_erase_split _ [kvp] _ (fst kvp)).
  - intros e He. apply filter_In in He. lia.
  - intros e [<- | []]. reflexivity.
  - intros e He. apply filter_In in He. lia.
Qed.

Lemma ascending_filter (P : pair T -> bool) es :
  ascending (map fst es) -> ascending (map fst (List.filter P es)).
Proof.
  induction es as [| e es IH]; simpl; [tauto |].
  intros [Hlt Ha]. destruct (P e); simpl; [| auto].
  split; [| auto]. rewrite List.Forall_forall in *.
  intros x Hx. apply Hlt. apply in_map_iff in Hx. destruct Hx as (e0 & <- & He0).
  apply filter_In in He0. apply in_map, He0.
Qed.

Lemma ascending_list_insert kvp es :
  ascending (map fst es) -> ascending (map fst (list_insert kvp es)).
Proof.
  intros Ha. unfold list_insert. rewrite map_app. simpl.
  apply ascending_app. split; [apply ascending_filter, Ha |].
  split; [apply ascending_cons; split; [| apply ascending_filter, Ha] |].
  - intros y Hy. apply in_map_iff in Hy. destruct Hy as (e & <- & He).
    apply filter_In in He. lia.
  - intros x y Hx [<- | Hy].
    + apply in_map_iff in Hx. destruct Hx as (e & <- & He).
      apply filter_In in He. lia.
    + apply in_map_iff in Hx. destruct Hx as (e & <- & He).
      apply in_map_iff in Hy. destruct Hy as (e' & <- & He').
      apply filter_In in He. apply filter_In in He'. lia.
Qed.

Lemma ascending_list_erase key es :
  ascending (map fst es) -> ascending (map fst (list_erase key es)).
Proof. apply ascending_filter. Qed.

Lemma list_at_erase_eq key es : list_at key (list_erase key es) = None.
Proof.
  apply list_at_none. intros e He. apply filter_In in He.
  destruct He as [_ He]. destruct (Z.eqb_spec (fst e) key); [discriminate | auto].
Qed.

Lemma length_list_insert_present kvp es v :
  ascending (map fst es) -> list_at (fst kvp) es = Some v ->
  length (list_insert kvp es) = length es.
Proof.
  unfold list_insert. rewrite length_app. simpl.
  induction es as [| e es IH]; simpl; intros Ha Hn; [discriminate |].
  destruct Ha as [Hlt Ha]. rewrite List.Forall_forall in Hlt.
  destruct (Z.eqb_spec (fst e) (fst kvp)) as [E | E].
  - rewrite E, Z.ltb_irrefl.
    rewrite filter_none
      by (intros e0 He0; specialize (Hlt _ (in_map fst _ _ He0)); lia).
    rewrite filter_all
      by (intros e0 He0; specialize (Hlt _ (in_map fst _ _ He0)); lia).
    reflexivity.
  - specialize (IH Ha Hn).
    destruct (Z.ltb_spec (fst e) (fst kvp)), (Z.ltb_spec (fst kvp) (fst e));
      simpl; lia.
Qed.

Lemma length_list_erase_present key es v :
  ascending (map fst es) -> list_at key es = Some v ->
  S (length (list_erase key es)) = length es.
Proof.
  unfold list_erase.
  induction es as [| e es IH]; simpl; intros Ha Hn; [discriminate |].
  destruct Ha as [Hlt Ha]. rewrite List.Forall_forall in Hlt.
  destruct (Z.eqb_spec (fst e) key) as [E | E]; simpl.
  - f_equal. f_equal. apply filter_all.
    intros e0 He0. specialize (Hlt _ (in_map fst _ _ He0)).
    destruct (Z.eqb_spec (fst e0) key); [lia | reflexivity].
  - f_equal. apply IH; auto.
Qed.

End ListFacts.

(** * Searching and inserting in a map *)

Section MapInsert.

Context {T : Type}.
Implicit Types (t l r n u s : tree T) (f : frame T) (ctx : list (frame T)).
Implicit Types (m : immutable_map T).

Lemma tree_inv_red_black t : tree_inv t <-> red_black t.
Proof.
  unfold tree_inv, red_black, shape. rewrite equal_black_height_balanced. tauto.
Qed.

Lemma plug_nullptr ctx t : plug ctx t = nullptr -> ctx = [] /\ t = nullptr.
Proof.
  revert t. induction ctx as [| f ctx IH]; intros t; simpl; [auto |].
  intros H. apply IH in H. destruct H as [_ H].
  destruct (fill_is_Node f t) as (? & ? & ? & ? & E). congruence.
Qed.

(** The traversal of a search tree around the place where a search stops. *)
Lemma locate_elements t key :
  bst t ->
  elements t = before (fst (locate t key)) ++ elements (snd (locate t key))
               ++ after (fst (locate t key)) /\
  (forall e, In e (before (fst (locate t key))) -> fst e < key) /\
  (forall e, In e (after (fst (locate t key))) -> key < fst e) /\
  ascending (keys (snd (locate t key))).
Proof.
  intros Hb. apply bst_ascending in Hb.
  pose proof (locate_plug t key) as Hp. pose proof (locate_in_hole t key) as Hh.
  destruct (locate t key) as [ctx s]. cbn [fst snd] in *. subst t.
  assert (Ha : ascending (map fst (before ctx ++ after ctx))).
  { revert Hb. rewrite keys_plug, !map_app, !ascending_app.
    intros (H1 & (H2 & H3 & H4) & H5). repeat split; auto.
    intros x y Hx Hy. apply H5; auto. apply in_app_iff. auto. }
  split; [apply elements_plug |]. split; [| split].
  - intros e He. eapply in_hole_before; eauto. apply in_map, He.
  - intros e He. eapply in_hole_after; eauto. apply in_map, He.
  - eapply ascending_keys_plug; eauto.
Qed.

Lemma ascending_Node_keys kvp l r c :
  ascending (keys (Node kvp l r c)) ->
  (forall e, In e (elements l) -> fst e < fst kvp) /\
  (forall e, In e (elements r) -> fst kvp < fst e).
Proof.
  rewrite keys_Node, ascending_app, ascending_cons. intros (H1 & (H2 & H3) & H4).
  split; intros e He.
  - apply H4; [apply in_map, He | simpl; auto].
  - apply H2. apply in_map, He.
Qed.

(** A lookup in the association list of a search tree is a search. *)
Lemma locate_list_at t key :
  bst t ->
  list_at key (elements t) =
  match snd (locate t key) with
  | nullptr => None
  | Node kvp _ _ _ => Some (snd kvp)
  end.
Proof.
  intros Hb. destruct (locate_elements t key Hb) as (He & HB & HA & Hs).
  pose proof (locate_found t key) as Hf. rewrite He.
  rewrite list_at_skip by (intros e Hin; specialize (HB e Hin); lia).
  destruct (snd (locate t key)) as [| kvp l r c].
  - simpl. apply list_at_none. intros e Hin. specialize (HA e Hin). lia.
  - destruct Hf as [Hf | (kvp' & l' & r' & c' & [= <- <- <- <-] & Hk)];
      [discriminate |].
    apply ascending_Node_keys in Hs. destruct Hs as [Hl Hr].
    cbn [elements]. rewrite <- app_assoc.
    rewrite list_at_skip by (intros e Hin; specialize (Hl e Hin); lia).
    simpl. rewrite Hk, Z.eqb_refl. reflexivity.
Qed.

(** [insert]: on a red-black tree it returns a red-black tree whose
    traversal is the sorted insertion, unless the search path overflows the
    path array. *)
Lemma insert_spec m kvp :
  tree_inv (root_ m) ->
  (search_fits (root_ m) (fst kvp) ->
   exists m',
     insert m kvp = OK m' /\
     tree_inv (root_ m') /\
     elements (root_ m') = list_insert kvp (elements (root_ m)) /\
     size_ m' = match list_at (fst kvp) (elements (root_ m)) with
                | Some _ => size_ m
                | None => size_t_wrap (size_ m + 1)
                end) /\
  (~ search_fits (root_ m) (fst kvp) -> insert m kvp = Err path_overflow).
Proof.
  intros (Hb & Hs & Hr). unfold search_fits, insert, insert_imp.
  rewrite find_locate by (simpl; lia). cbn [length Nat.add].
  rewrite (locate_list_at _ _ Hb).
  destruct (locate_elements _ (fst kvp) Hb) as (He & HB & HA & Hsa).
  pose proof (locate_plug (root_ m) (fst kvp)) as Hp.
  pose proof (locate_in_hole (root_ m) (fst kvp)) as Hh.
  pose proof (locate_found (root_ m) (fst kvp)) as Hf.
  destruct (locate (root_ m) (fst kvp)) as [ctx s]. cbn [fst snd] in *.
  assert (Ho : ordered ctx).
  { apply (ascending_ordered ctx s). rewrite Hp. apply bst_ascending, Hb. }
  split.
  2:{ intros Hn. apply Nat.nle_gt, Nat.leb_gt in Hn. rewrite Hn. reflexivity. }
  intros Hfit. apply Nat.leb_le in Hfit. rewrite Hfit. cbn [bind].
  assert (Hbst : forall r, elements r = list_insert kvp (elements (root_ m)) -> bst r).
  { intros r Hr'. apply bst_ascending. unfold keys. rewrite Hr'.
    apply ascending_list_insert. apply bst_ascending, Hb. }
  destruct Hf as [-> | (skvp & l & r & c & -> & Hk)].
  - (* the key is absent *)
    cbn [non_null node_path app]. rewrite app_nil_r.
    assert (Hel : list_insert kvp (elements (root_ m)) = before ctx ++ kvp :: after ctx).
    { rewrite He. cbn [elements]. apply (list_insert_split _ [] _); auto.
      intros e []. }
    unfold insert_imp_path. destruct (non_null (root_ m)) eqn:En; cbn [negb bind].
    + rewrite <- Hp in Hs, Hr.
      destruct (insert_fix_spec ctx nullptr kvp Hs Hr Ho Hh) as (r & H1 & H2 & H3 & H4).
      rewrite H1. cbn [bind]. eexists. split; [reflexivity |]. cbn [root_ size_].
      split; [split; [apply Hbst; congruence | split; assumption] |].
      split; [congruence | reflexivity].
    + destruct (root_ m); [| discriminate].
      apply plug_nullptr in Hp. destruct Hp as [-> _].
      eexists. split; [reflexivity |]. cbn [root_ size_].
      split; [split; [apply Hbst; rewrite Hel; reflexivity |] |].
      * unfold shape. simpl. intuition discriminate.
      * split; [rewrite Hel; reflexivity | reflexivity].
  - (* the key is present: the pair is replaced *)
    cbn [non_null node_path app get_node clone set_pair pop bind].
    rewrite app_nil_r.
    rewrite (clone_path_plug ctx _ _ (fst kvp)) by (auto; reflexivity).
    cbn [bind]. eexists. split; [reflexivity |]. cbn [root_ size_].
    apply ascending_Node_keys in Hsa. destruct Hsa as [Hl Hrr].
    assert (Hel : elements (plug ctx (Node kvp l r c))
                  = list_insert kvp (elements (root_ m))).
    { rewrite He, elements_plug. cbn [elements].
      replace (before ctx ++ (elements l ++ skvp :: elements r) ++ after ctx)
        with ((before ctx ++ elements l) ++ [skvp] ++ (elements r ++ after ctx))
        by (rewrite <- !app_assoc; reflexivity).
      rewrite (list_insert_split (before ctx ++ elements l) [skvp]
                 (elements r ++ after ctx) kvp).
      - rewrite <- !app_assoc. reflexivity.
      - intros e Hin. apply in_app_iff in Hin. destruct Hin as [Hin | Hin].
        + specialize (HB e Hin). lia.
        + specialize (Hl e Hin). lia.
      - intros e [<- | []]. exact Hk.
      - intros e Hin. apply in_app_iff in Hin. destruct Hin as [Hin | Hin].
        + specialize (Hrr e Hin). lia.
        + specialize (HA e Hin). lia. }
    rewrite <- Hp in Hs, Hr.
    assert (Hsn : shape (Node kvp l r c)).
    { apply shape_plug_inv in Hs. revert Hs. unfold shape. simpl. tauto. }
    destruct (plug_replace ctx (Node skvp l r c) (Node kvp l r c) Hs Hsn)
      as (H1 & H2 & H3); [reflexivity | auto |].
    split; [split; [apply Hbst, Hel | split; [exact H1 |]] |].
    + destruct (red_ptr (plug ctx (Node kvp l r c))); auto.
      rewrite <- Hr. symmetry. auto.
    + split; [exact Hel | reflexivity].
Qed.

End MapInsert.

(** * Deletion: repairing a black-height deficit *)

Section FixupFacts.

Context {T : Type}.
Implicit Types (t l r n u s x : tree T) (f : frame T) (ctx : list (frame T)).
Implicit Types (p : path T).

(** Case 1: the sibling is black and has a red child. *)
Lemma delete_fixup_1_spec side pkvp pc x skvp sl sr :
  let sib := Node skvp sl sr BLACK in
  let parent := fill (Frame side pkvp sib pc) x in
  shape x -> shape sib -> bh sib = S (bh x) ->
  red_ptr sl || red_ptr sr = true ->
  exists R,
    delete_fixup_1 parent side = OK R /\
    shape R /\
    bh R = (blackness pc + bh sib)%nat /\
    (red_ptr R = true -> pc = RED) /\
    elements R = elements parent /\
    exists k, get_key R = OK k /\ In k (keys parent).
Proof.
  intros sib parent Hx Hs Hb Hred. subst sib parent. unfold fill.
  cbn [f_side f_kvp f_sib f_color].
  destruct side;
    destruct sl as [| lkvp ll lr []], sr as [| rkvp rl rr []];
    cbn [red_ptr orb] in Hred; try discriminate;
    cbn [delete_fixup_1 get_color get_child clone set_color set_child bind opp red_ptr];
    (eexists; split; [reflexivity |];
     split; [shape_tac |]; split; [shape_tac |];
     split; [destruct pc; simpl; congruence |];
     split; [elements_tac |];
     eexists; split; [reflexivity |];
     keys_tac).
Qed.

(** Case 2: the sibling is black with black children; it is recoloured. *)
Lemma delete_fixup_2_spec side pkvp pc x skvp sl sr :
  let sib := Node skvp sl sr BLACK in
  let parent := fill (Frame side pkvp sib pc) x in
  shape x -> shape sib -> bh sib = S (bh x) ->
  red_ptr sl = false -> red_ptr sr = false ->
  exists R,
    delete_fixup_2 parent side = OK R /\
    shape R /\
    bh R = bh sib /\
    red_ptr R = false /\
    elements R = elements parent /\
    get_key R = OK (fst pkvp).
Proof.
  intros sib parent Hx Hs Hb Hl Hr. subst sib parent. unfold fill.
  cbn [f_side f_kvp f_sib f_color].
  destruct side;
    cbn [delete_fixup_2 get_color get_child clone set_color set_child bind opp];
    (eexists; split; [reflexivity |];
     split; [shape_tac |]; split; [shape_tac |];
     split; [reflexivity |]; split; [elements_tac | reflexivity]).
Qed.

Lemma has_black_sibling_with_red_child_fill side pkvp pc x skvp sl sr sc :
  has_black_sibling_with_red_child
    (fill (Frame side pkvp (Node skvp sl sr sc) pc) x) side
  = OK (color_eqb sc BLACK && (red_ptr sl || red_ptr sr)).
Proof. destruct side, sc; reflexivity. Qed.

Lemma has_black_sibling_with_black_children_fill side pkvp pc x skvp sl sr sc :
  has_black_sibling_with_black_children
    (fill (Frame side pkvp (Node skvp sl sr sc) pc) x) side
  = OK (color_eqb sc BLACK && negb (red_ptr sl || red_ptr sr)).
Proof. destruct side, sc; reflexivity. Qed.

(** Case 3: the sibling is red; it is rotated up and one of the first two
    cases applies below it. *)
Lemma delete_fixup_3_spec side pkvp x skvp sl sr :
  let sib := Node skvp sl sr RED in
  let parent := fill (Frame side pkvp sib BLACK) x in
  shape x -> shape sib -> bh sib = S (bh x) ->
  exists R,
    delete_fixup_3 parent side = OK R /\
    shape R /\
    bh R = S (bh sib) /\
    red_ptr R = false /\
    elements R = elements parent /\
    get_key R = OK (fst skvp).
Proof.
  intros sib parent Hx Hs Hb. subst sib parent.
  assert (Hnear : exists nkvp nl nr,
             match side with LEFT => sl | RIGHT => sr end = Node nkvp nl nr BLACK).
  { destruct side.
    - destruct sl as [| nkvp nl nr []]; [| eauto |]; exfalso; revert Hs Hb; shape_tac.
    - destruct sr as [| nkvp nl nr []]; [| eauto |]; exfalso; revert Hs Hb; shape_tac. }
  destruct Hnear as (nkvp & nl & nr & Hnear).
  unfold delete_fixup_3.
  replace (get_child (opp side) (fill (Frame side pkvp (Node skvp sl sr RED) BLACK) x))
    with (OK (Node skvp sl sr RED)) by (destruct side; reflexivity).
  cbn [bind clone]. 
  replace (clone (fill (Frame side pkvp (Node skvp sl sr RED) BLACK) x))
    with (OK (fill (Frame side pkvp (Node skvp sl sr RED) BLACK) x))
    by (destruct side; reflexivity).
  cbn [bind].
  replace (get_color (fill (Frame side pkvp (Node skvp sl sr RED) BLACK) x))
    with (OK BLACK) by (destruct side; reflexivity).
  cbn [bind set_color].
  replace (set_color RED (fill (Frame side pkvp (Node skvp sl sr RED) BLACK) x))
    with (OK (fill (Frame side pkvp (Node skvp sl sr RED) RED) x))
    by (destruct side; reflexivity).
  cbn [bind].
  replace (get_child side (Node skvp sl sr RED))
    with (OK (Node nkvp nl nr BLACK)) by (destruct side; simpl; congruence).
  cbn [bind].
  replace (set_child (opp side) (Node nkvp nl nr BLACK)
             (fill (Frame side pkvp (Node skvp sl sr RED) RED) x))
    with (OK (fill (Frame side pkvp (Node nkvp nl nr BLACK) RED) x))
    by (destruct side; reflexivity).
  cbn [bind].
  rewrite has_black_sibling_with_red_child_fill,
    has_black_sibling_with_black_children_fill.
  cbn [bind color_eqb andb].
  assert (Hsn : shape (Node nkvp nl nr BLACK) /\ bh (Node nkvp nl nr BLACK) = S (bh x)).
  { destruct side; subst; revert Hs Hb; shape_tac. }
  destruct Hsn as [Hsn Hbn].
  destruct (red_ptr nl || red_ptr nr) eqn:Ered; cbn [negb].
  - destruct (delete_fixup_1_spec side pkvp RED x nkvp nl nr Hx Hsn Hbn Ered)
      as (R & H1 & H2 & H3 & H4 & H5 & H6).
    rewrite H1. cbn [bind]. unfold fill in *. cbn [f_side f_kvp f_sib f_color] in *.
    destruct side; subst; cbn [set_child];
      (eexists; split; [reflexivity |];
       split; [revert H3; shape_tac |]; split; [revert H3; shape_tac |];
       split; [reflexivity |]; split; [| reflexivity];
       cbn [elements]; rewrite H5; elements_tac).
  - apply orb_false_iff in Ered. destruct Ered as [El Er].
    destruct (delete_fixup_2_spec side pkvp RED x nkvp nl nr Hx Hsn Hbn El Er)
      as (R & H1 & H2 & H3 & H4 & H5 & H6).
    rewrite H1. cbn [bind]. unfold fill in *. cbn [f_side f_kvp f_sib f_color] in *.
    destruct side; subst; cbn [set_child];
      (eexists; split; [reflexivity |];
       split; [revert H3 H4; shape_tac |]; split; [revert H3; shape_tac |];
       split; [reflexivity |]; split; [| reflexivity];
       cbn [elements]; rewrite H5; elements_tac).
Qed.

Lemma root_black_replace ctx t t' :
  shape (plug ctx t) -> red_ptr (plug ctx t) = false ->
  shape t' -> bh t' = bh t -> (red_ptr t' = true -> red_ptr t = true) ->
  shape (plug ctx t') /\ red_ptr (plug ctx t') = false.
Proof.
  intros Hs Hr Hs' Hb Hc.
  destruct (plug_replace ctx t t' Hs Hs' Hb Hc) as (H1 & _ & H3).
  split; [exact H1 |].
  destruct (red_ptr (plug ctx t')); auto. rewrite <- Hr. symmetry. auto.
Qed.

Lemma delete_fixup_unfold p parent side :
  delete_fixup p parent side = delete_fixup_step delete_fixup p parent side.
Proof. destruct p; reflexivity. Qed.

(** One invocation of [delete_fixup] on arguments with a deficit: either it
    returns, whatever the callee of the recursive call, a red-black tree
    with the pairs of the tree being repaired; or it recolours and invokes
    the callee one level up, on arguments with a deficit again. *)
Lemma delete_fixup_step_spec ctx u orig side pkvp sib pc x :
  deficit ctx orig side pkvp sib pc x ->
  (exists r,
      (forall self,
          delete_fixup_step self (ancestors ctx u)
            (fill (Frame side pkvp sib pc) x) side = OK r) /\
      shape r /\ red_ptr r = false /\
      elements r = elements (plug ctx (fill (Frame side pkvp sib pc) x))) \/
  (exists g ctx' R,
      ctx = g :: ctx' /\
      (forall self,
          delete_fixup_step self (ancestors ctx u)
            (fill (Frame side pkvp sib pc) x) side
          = self (ancestors ctx' (fill g u))
              (fill (Frame (f_side g) (f_kvp g) (f_sib g) (f_color g)) R)
              (f_side g)) /\
      deficit ctx' (fill g orig) (f_side g) (f_kvp g) (f_sib g) (f_color g) R /\
      elements (plug ctx' (fill (Frame (f_side g) (f_kvp g) (f_sib g) (f_color g)) R))
      = elements (plug ctx (fill (Frame side pkvp sib pc) x))).
Proof.
  intros (Hs & Hroot & Hasc & Hx & Hsib & Hb & Hc & Hbo & Hco).
  destruct sib as [| skvp sl sr sc]; [simpl in Hb; discriminate |].
  pose proof (ascending_ordered _ _ Hasc) as Ho.
  pose proof (fun k => ascending_in_hole _ _ k Hasc) as Hin.
  unfold delete_fixup_step.
  rewrite has_black_sibling_with_red_child_fill,
    has_black_sibling_with_black_children_fill; cbn [bind].
  destruct sc; cbn [color_eqb andb].
  2:{ (* a red sibling: case 3 *)
    left.
    assert (pc = BLACK) by (destruct pc; auto; specialize (Hc eq_refl); discriminate).
    subst pc.
    destruct (delete_fixup_3_spec side pkvp x skvp sl sr Hx Hsib Hb)
      as (R & H1 & H2 & H3 & H4 & H5 & H6).
    rewrite H1; cbn [bind].
    rewrite (clone_path_plug _ u R _ H6)
      by (auto; apply Hin; unfold fill; destruct side;
          cbn [f_side f_kvp f_sib f_color]; keys_tac).
    cbn [bind]. exists (plug ctx R). split; [reflexivity |].
    rewrite !elements_plug, H5.
    destruct (root_black_replace _ orig R Hs Hroot H2) as [G1 G2];
      [ simpl in *; lia | congruence | auto ]. }
  destruct (red_ptr sl || red_ptr sr) eqn:Ered; cbn [negb].
  - (* a red nephew: case 1 *)
    left.
    destruct (delete_fixup_1_spec side pkvp pc x skvp sl sr Hx Hsib Hb Ered)
      as (R & H1 & H2 & H3 & H4 & H5 & k & H6 & H7).
    rewrite H1; cbn [bind].
    rewrite (clone_path_plug _ u R k H6 (Hin k H7) Ho); cbn [bind].
    exists (plug ctx R). split; [reflexivity |].
    rewrite !elements_plug, H5.
    destruct (root_black_replace _ orig R Hs Hroot H2) as [G1 G2];
      [ lia | intros E; rewrite Hco, (H4 E); reflexivity | auto ].
  - (* a black sibling with black children: case 2 *)
    apply orb_false_iff in Ered; destruct Ered as [El Er].
    destruct (delete_fixup_2_spec side pkvp pc x skvp sl sr Hx Hsib Hb El Er)
      as (R & H1 & H2 & H3 & H4 & H5 & H6).
    rewrite get_color_fill, H1; cbn [bind f_color].
    assert (Hterm : forall c', c' = pc -> (c' = BLACK -> ctx = []) ->
              shape (plug ctx R) /\ red_ptr (plug ctx R) = false).
    { intros c' -> Hnil. destruct pc.
      - rewrite (Hnil eq_refl). simpl. auto.
      - apply (root_black_replace _ orig R Hs Hroot H2);
          [ simpl in *; lia | congruence ]. }
    destruct pc; [destruct ctx as [| g ctx'] |].
    + (* at the root *)
      left. cbn [ancestors clone_path bind]. exists R. split; [reflexivity |].
      destruct (Hterm BLACK eq_refl) as [G1 G2]; auto.
    + (* the deficit moves up *)
      right. exists g, ctx', R. split; [reflexivity |].
      cbn [ancestors]. rewrite !get_key_fill. cbn [bind].
      assert (Hg : hole1 (fst pkvp) g).
      { assert (Hk : in_hole (g :: ctx') (fst pkvp))
          by (apply Hin; unfold fill; destruct side;
              cbn [f_side f_kvp f_sib f_color]; keys_tac).
        apply in_hole_cons in Hk. tauto. }
      change (f_key (Frame side pkvp (Node skvp sl sr BLACK) BLACK)) with (fst pkvp).
      rewrite (hole1_side_of g _ Hg), clone_fill. cbn [bind].
      rewrite set_child_fill. cbn [bind].
      cbn [plug] in Hs, Hroot.
      pose proof (shape_plug_inv _ _ Hs) as Hgo. apply shape_fill in Hgo.
      destruct Hgo as (Ho1 & Ho2 & Ho3 & Ho4).
      destruct g as [gs gkvp gsib gc]. cbn [f_side f_kvp f_sib f_color] in *.
      assert (Hel : elements (plug ctx' (fill (Frame gs gkvp gsib gc) R))
                    = elements (plug (Frame gs gkvp gsib gc :: ctx')
                                  (fill (Frame side pkvp (Node skvp sl sr BLACK) BLACK) x))).
      { cbn [plug]. rewrite !elements_plug.
        rewrite (elements_fill _ R), (elements_fill _ (fill _ x)), H5. reflexivity. }
      split; [reflexivity |]. split; [| exact Hel].
      unfold deficit. split; [exact Hs |]. split; [exact Hroot |].
      split; [unfold keys; rewrite Hel; exact Hasc |].
      split; [exact H2 |]. split; [exact Ho2 |].
      split; [simpl in *; lia |].
      split; [intros E; apply Ho4 in E; tauto |].
      split; [rewrite bh_fill by auto; simpl; lia | apply red_ptr_fill].
    + (* a red parent absorbs the deficit *)
      left.
      assert (Hcl : clone_path (ancestors ctx u) R = OK (plug ctx R, []))
        by (apply (clone_path_plug _ u R _ H6); auto; apply Hin; unfold fill;
            destruct side; cbn [f_side f_kvp f_sib f_color]; keys_tac).
      exists (plug ctx R). split.
      * intros self. destruct (ancestors ctx u); rewrite Hcl; reflexivity.
      * rewrite !elements_plug, H5.
        destruct (Hterm RED eq_refl) as [G1 G2]; [discriminate | auto].
Qed.

(** [delete_fixup]: the result is a red-black tree with the pairs of the
    tree being repaired. *)
Lemma delete_fixup_spec ctx :
  forall u orig side pkvp sib pc x,
    shape (plug ctx orig) -> red_ptr (plug ctx orig) = false ->
    ascending (keys (plug ctx (fill (Frame side pkvp sib pc) x))) ->
    shape x -> shape sib -> bh sib = S (bh x) ->
    (pc = RED -> red_ptr sib = false) ->
    bh orig = (blackness pc + bh sib)%nat ->
    red_ptr orig = color_eqb pc RED ->
    exists r,
      delete_fixup (ancestors ctx u) (fill (Frame side pkvp sib pc) x) side = OK r /\
      shape r /\ red_ptr r = false /\
      elements r = elements (plug ctx (fill (Frame side pkvp sib pc) x)).
Proof.
  induction ctx as [| g ctx IH];
    intros u orig side pkvp sib pc x Hs Hroot Hasc Hx Hsib Hb Hc Hbo Hco.
  all: assert (Hd : deficit _ orig side pkvp sib pc x) by (unfold deficit; eauto 10).
  all: destruct (delete_fixup_step_spec _ u orig side pkvp sib pc x Hd)
         as [(r & H1 & H2) | (g' & ctx' & R & E & H1 & H2 & H3)];
       rewrite delete_fixup_unfold, H1.
  - exists r. auto.
  - discriminate.
  - exists r. auto.
  - injection E as <- <-.
    destruct H2 as (G1 & G2 & G3 & G4 & G5 & G6 & G7 & G8 & G9).
    destruct (IH (fill g u) (fill g orig) (f_side g) (f_kvp g) (f_sib g) (f_color g) R)
      as (r & K1 & K2 & K3 & K4); auto.
    exists r. split; [exact K1 |]. split; [exact K2 |]. split; [exact K3 |].
    rewrite K4. exact H3.
Qed.

End FixupFacts.

(** * Deletion *)

Section EraseFacts.

Context {T : Type}.
Implicit Types (t l r n u s x : tree T) (f : frame T) (ctx rs : list (frame T)).
Implicit Types (p : path T).

Lemma height_fill f t : (S (height t) <= height (fill f t))%nat.
Proof. unfold fill. destruct (f_side f); simpl; lia. Qed.

Lemma height_plug ctx t : (length ctx + height t <= height (plug ctx t))%nat.
Proof.
  revert t. induction ctx as [| f ctx IH]; intros t; simpl; [lia |].
  specialize (IH (fill f t)). pose proof (height_fill f t). lia.
Qed.

Lemma locate_fill f t key :
  hole1 key f ->
  locate (fill f t) key = (fst (locate t key) ++ [f], snd (locate t key)).
Proof.
  unfold hole1, fill, f_key. destruct f as [[] kvp sib c]; simpl; intros H.
  - destruct (Z.eqb_spec (fst kvp) key); [lia |].
    destruct (Z.gtb_spec (fst kvp) key); [| lia].
    destruct (locate t key); reflexivity.
  - destruct (Z.eqb_spec (fst kvp) key); [lia |].
    destruct (Z.gtb_spec (fst kvp) key); [lia |].
    destruct (locate t key); reflexivity.
Qed.

(** A search for a key of the hole goes through the context. *)
Lemma locate_plug_in_hole ctx t key :
  in_hole ctx key ->
  locate (plug ctx t) key = (fst (locate t key) ++ ctx, snd (locate t key)).
Proof.
  revert t. induction ctx as [| f ctx IH]; intros t Hh; simpl.
  - rewrite app_nil_r. destruct (locate t key); reflexivity.
  - apply in_hole_cons in Hh. destruct Hh as [Hf Hh].
    rewrite (IH _ Hh), (locate_fill _ _ _ Hf). cbn [fst snd].
    rewrite <- app_assoc. reflexivity.
Qed.

Lemma after_right rs : Forall (fun f => f_side f = RIGHT) rs -> after rs = [].
Proof.
  induction rs as [| f rs IH]; simpl; [reflexivity |].
  intros H. apply List.Forall_cons_iff in H. destruct H as [-> H]. auto.
Qed.

(** A node without right child has no left child or a red leaf as its left
    child, and symmetrically. *)
Lemma shape_no_right kvp l c :
  shape (Node kvp l nullptr c) ->
  l = nullptr \/ c = BLACK /\ exists lkvp, l = Node lkvp nullptr nullptr RED.
Proof.
  destruct l as [| lkvp [| ? ? ? []] [| ? ? ? []] []]; auto;
    destruct c; unfold shape; simpl; intuition (try discriminate; eauto).
Qed.

Lemma shape_no_left kvp r c :
  shape (Node kvp nullptr r c) ->
  r = nullptr \/ c = BLACK /\ exists rkvp, r = Node rkvp nullptr nullptr RED.
Proof.
  destruct r as [| rkvp [| ? ? ? []] [| ? ? ? []] []]; auto;
    destruct c; unfold shape; simpl; intuition (try discriminate; eauto).
Qed.

Lemma ascending_drop_middle (B M A : list K) :
  ascending (B ++ M ++ A) -> ascending (B ++ A).
Proof.
  rewrite !ascending_app. intros (H1 & (H2 & H3 & H4) & H5).
  repeat split; auto. intros x y Hx Hy. apply H5; auto. apply in_app_iff. auto.
Qed.

Lemma locate_root t k : get_key t = OK k -> locate t k = ([], t).
Proof.
  destruct t as [| kvp l r c]; simpl; [discriminate |].
  intros [= <-]. rewrite Z.eqb_refl. reflexivity.
Qed.

Lemma replace_node ctx skvp l r c pkvp l' :
  shape (plug ctx (Node skvp l r c)) ->
  red_ptr (plug ctx (Node skvp l r c)) = false ->
  shape l' -> bh l' = bh l -> (red_ptr l' = true -> red_ptr l = true) ->
  shape (plug ctx (Node pkvp l' r c)) /\
  red_ptr (plug ctx (Node pkvp l' r c)) = false.
Proof.
  intros Hs Hr Hl' Hb Hc. pose proof (shape_plug_inv _ _ Hs) as Hss.
  apply (root_black_replace ctx (Node skvp l r c)); auto.
  - revert Hss Hl' Hb Hc. unfold shape. simpl.
    destruct (red_ptr l'); intuition (try congruence; try lia).
  - simpl. lia.
Qed.

(** [erase_intermediate_node]: the erased node has two children; its
    in-order predecessor takes its place.  Either the rebuilt tree is
    returned, or a path overflows, or [delete_fixup] is invoked on
    arguments with a deficit. *)
Lemma erase_intermediate_node_with_spec ctx skvp l r c :
  non_null l = true -> non_null r = true ->
  shape (plug ctx (Node skvp l r c)) ->
  red_ptr (plug ctx (Node skvp l r c)) = false ->
  ascending (keys (plug ctx (Node skvp l r c))) ->
  (length ctx + 1 <= path_capacity)%nat ->
  (exists t',
      (forall fixup,
          erase_intermediate_node_with fixup
            (Node skvp l r c :: ancestors ctx (Node skvp l r c)) = OK t') /\
      shape t' /\ red_ptr t' = false /\
      elements t' = before ctx ++ (elements l ++ elements r) ++ after ctx) \/
  ((forall fixup,
       erase_intermediate_node_with fixup
         (Node skvp l r c :: ancestors ctx (Node skvp l r c)) = Err path_overflow) /\
   (path_capacity < height (plug ctx (Node skvp l r c)))%nat) \/
  (exists ctx' u orig side pkvp sib pc x,
      (forall fixup,
          erase_intermediate_node_with fixup
            (Node skvp l r c :: ancestors ctx (Node skvp l r c))
          = fixup (ancestors ctx' u) (fill (Frame side pkvp sib pc) x) side) /\
      deficit ctx' orig side pkvp sib pc x /\
      elements (plug ctx' (fill (Frame side pkvp sib pc) x))
      = before ctx ++ (elements l ++ elements r) ++ after ctx).
Proof.
  intros Hnl Hnr Hs Hroot Hasc Hlen.
  set (s := Node skvp l r c) in *.
  set (F := Frame LEFT skvp r c).
  pose proof (shape_plug_inv _ _ Hs) as Hss.
  assert (Hsl : shape l) by (revert Hss; unfold s; shape_tac).
  unfold erase_intermediate_node_with, find_predecessor.
  cbn [get_node get_color get_child bind s].
  rewrite find_predecessor_loop_spine by (simpl; rewrite length_ancestors; lia).
  pose proof (spine_plug l) as Hpl. pose proof (spine_last l Hnl) as Hlast.
  pose proof (spine_sides l) as Hsides. pose proof (length_spine_height l) as Hh.
  destruct (spine l) as [rs pred]. cbn [fst snd] in *.
  destruct Hlast as (pkvp & pl & pc & ->).
  cbn [node_path non_null length] in *.
  match goal with |- context [(?a <=? ?b)%nat] => destruct (Nat.leb_spec a b) as [Hfit | Hover] end.
  2:{ right. left. split; [intros; reflexivity |].
      pose proof (height_plug ctx s). simpl in Hover, H. rewrite length_ancestors in Hover.
      lia. }
  cbn [bind]. simpl in Hfit. rewrite length_ancestors in Hfit.
  fold s.
  assert (Hpath : ancestors rs (Node pkvp pl nullptr pc) ++ s :: ancestors ctx s
                  = ancestors (rs ++ F :: ctx) (Node pkvp pl nullptr pc)).
  { rewrite ancestors_app. cbn [ancestors]. rewrite Hpl. reflexivity. }
  rewrite Hpath. cbn [app get_node get_color clone set_color bind length].
  rewrite !length_ancestors, length_app. cbn [length].
  replace (S (length rs + S (length ctx)) - S (length ctx))%nat
    with (S (length rs)) by lia.
  set (side := if (1 <? S (length rs))%nat then RIGHT else LEFT).
  assert (Hplug : plug (rs ++ F :: ctx) (Node pkvp pl nullptr pc) = plug ctx s).
  { rewrite plug_app. cbn [plug]. rewrite Hpl. reflexivity. }
  assert (Hord : ordered (rs ++ F :: ctx)).
  { apply (ascending_ordered _ (Node pkvp pl nullptr pc)). rewrite Hplug. exact Hasc. }
  assert (Hsp : shape (Node pkvp pl nullptr pc)).
  { apply (shape_plug_inv rs). rewrite Hpl. exact Hsl. }
  assert (Hside_ok : forall f rs', rs = f :: rs' -> side = f_side f).
  { intros f rs' ->. apply List.Forall_cons_iff in Hsides. simpl. symmetry. tauto. }
  change (S (length ctx)) with (length (F :: ctx)).
  assert (Hafter : after rs = []) by (apply after_right, Hsides).
  assert (Hel_l : elements l = before rs ++ elements pl ++ [pkvp]).
  { rewrite <- Hpl, elements_plug, Hafter, app_nil_r. reflexivity. }
  pose proof (fun k => ascending_in_hole _ _ k Hasc) as Hin_s.
  pose proof (ascending_ordered _ _ Hasc) as Hord_ctx.
  assert (Hord_rs : ordered rs) by (apply ordered_app in Hord; tauto).
  assert (Hpk : in_hole ctx (fst pkvp)).
  { apply Hin_s. unfold s. rewrite keys_Node, in_app_iff. left.
    unfold keys. rewrite Hel_l, !map_app, !in_app_iff. simpl. auto. }
  assert (Hasc_l : ascending (keys (plug rs (Node pkvp pl nullptr pc)))).
  { rewrite Hpl. apply ascending_keys_plug in Hasc. revert Hasc. unfold s.
    rewrite keys_Node, ascending_app. tauto. }
  rewrite <- Hpl in Hsl.
  destruct pc; cbn [color_eqb].
  - (* black predecessor *)
    cbn [get_child bind].
    destruct (shape_no_right _ _ _ Hsp) as [-> | (_ & lkvp & ->)]; cbn [non_null].
    + (* a black leaf is removed: the tree is rebuilt without it and the
         deficit repaired from the parent of the leaf *)
      cbn [elements app] in Hel_l.
      set (new_node := Node pkvp (plug rs nullptr) r c).
      assert (Hel_temp : elements (plug ctx new_node)
                         = before ctx ++ (elements l ++ elements r) ++ after ctx).
      { rewrite elements_plug. unfold new_node. cbn [elements].
        rewrite Hel_l, elements_plug, Hafter. cbn [elements].
        rewrite !app_nil_r, <- !app_assoc. reflexivity. }
      assert (Hasc_temp : ascending (keys (plug ctx new_node))).
      { assert (E1 : keys (plug ctx s)
                     = (map fst (before ctx) ++ map fst (before rs) ++ [fst pkvp])
                       ++ [fst skvp] ++ (keys r ++ map fst (after ctx))).
        { rewrite keys_plug. unfold s. rewrite keys_Node. unfold keys at 1.
          rewrite Hel_l, !map_app. simpl. rewrite <- !app_assoc. reflexivity. }
        assert (E2 : keys (plug ctx new_node)
                     = (map fst (before ctx) ++ map fst (before rs) ++ [fst pkvp])
                       ++ (keys r ++ map fst (after ctx))).
        { rewrite keys_plug. unfold new_node. rewrite keys_Node. unfold keys at 1.
          rewrite elements_plug, Hafter, !map_app. simpl.
          rewrite !app_nil_r, <- !app_assoc. reflexivity. }
        rewrite E2. rewrite E1 in Hasc. apply ascending_drop_middle in Hasc.
        exact Hasc. }
      destruct (replace_node ctx skvp l r c pkvp l Hs Hroot) as [Hs2 Hroot2];
        [rewrite <- Hpl; exact Hsl | reflexivity | auto |].
      assert (Hbr : shape r /\ bh r = bh l /\ (c = RED -> red_ptr r = false)).
      { revert Hss. unfold s. shape_tac. }
      destruct Hbr as (Hsr & Hbr & Hcr).
      subst new_node.
      destruct rs as [| f1 rs'].
      * (* the predecessor is the left child of the erased node *)
        cbn [plug] in Hpl. subst l. subst side. cbn [length Nat.ltb Nat.leb].
        cbn [pop bind get_pair app].
        rewrite (clone_path_side_plug [] (F :: ctx) _ _ LEFT);
          [| discriminate | exact Hord | discriminate].
        cbn [bind set_child get_child plug ancestors pop].
        change (fill F (Node pkvp nullptr nullptr BLACK)) with s.
        rewrite (clone_path_plug ctx s _ (fst pkvp)); [| reflexivity | exact Hpk | exact Hord_ctx].
        cbn [bind].
        rewrite find_locate by (simpl; lia).
        rewrite (locate_plug_in_hole ctx _ _ Hpk).
        rewrite (locate_root (Node pkvp nullptr r c) (fst pkvp) eq_refl).
        cbn [fst snd app node_path non_null length].
        replace (0 + length ctx + 1 <=? path_capacity)%nat with true
          by (symmetry; apply Nat.leb_le; lia).
        cbn [bind get_node pop]. rewrite app_nil_r.
        change (Node pkvp nullptr r c) with (fill (Frame LEFT pkvp r c) nullptr) in *.
        right. right.
        exists ctx, (fill (Frame LEFT pkvp r c) nullptr), s, LEFT, pkvp, r, c, nullptr.
        split; [intros; reflexivity |]. split; [| exact Hel_temp].
        unfold deficit. split; [exact Hs |]. split; [exact Hroot |].
        split; [exact Hasc_temp |].
        split; [unfold shape; simpl; tauto |]. split; [exact Hsr |].
        split; [simpl in *; lia |]. split; [exact Hcr |].
        split; [unfold s; simpl in *; lia | unfold s; destruct c; reflexivity].
      * (* the predecessor is further down the right spine *)
        destruct f1 as [fs f1kvp f1sib f1c].
        assert (fs = RIGHT) by (apply List.Forall_cons_iff in Hsides; tauto).
        subst fs. set (f1 := Frame RIGHT f1kvp f1sib f1c) in *.
        set (NF := Frame LEFT pkvp r c).
        set (pred := Node pkvp nullptr nullptr BLACK) in *.
        change side with RIGHT in *. clear side.
        cbn [pop bind].
        change (get_node (ancestors ((f1 :: rs') ++ F :: ctx) pred)) with (fill f1 pred).
        rewrite get_pair_fill. cbn [bind f_kvp f1].
        rewrite (clone_path_side_plug (f1 :: rs') (F :: ctx) _ _ RIGHT);
          [| discriminate | exact Hord | exact Hside_ok].
        cbn [bind set_child get_child]. rewrite Hpl. cbn [ancestors pop bind].
        change (fill F l) with s.
        rewrite (clone_path_plug ctx s _ (fst pkvp)); [| reflexivity | exact Hpk | exact Hord_ctx].
        cbn [bind].
        assert (Htemp : plug ctx (Node pkvp (plug (f1 :: rs') nullptr) r c)
                        = plug (rs' ++ NF :: ctx) (fill f1 nullptr))
          by (rewrite plug_app; reflexivity).
        rewrite Htemp in *.
        assert (Hk : in_hole (rs' ++ NF :: ctx) (fst f1kvp)).
        { apply (ascending_in_hole _ _ _ Hasc_temp). apply keys_fill_in. auto. }
        rewrite find_locate by (simpl; lia).
        rewrite (locate_plug_in_hole _ _ _ Hk).
        rewrite (locate_root (fill f1 nullptr) (fst f1kvp) eq_refl).
        cbn [fst snd app node_path non_null length fill f_side f1].
        replace (0 + length (rs' ++ NF :: ctx) + 1 <=? path_capacity)%nat with true
          by (symmetry; apply Nat.leb_le; rewrite length_app; simpl in *; lia).
        cbn [bind get_node pop]. rewrite app_nil_r.
        assert (Horig : plug (rs' ++ NF :: ctx) (fill f1 pred)
                        = plug ctx (Node pkvp l r c)).
        { rewrite plug_app. cbn [plug]. rewrite <- Hpl. reflexivity. }
        rewrite <- Horig in Hs2, Hroot2.
        pose proof (shape_plug_inv rs' (fill f1 pred) Hsl) as Hf1.
        apply shape_fill in Hf1. cbn [f_sib f_color f1] in Hf1.
        destruct Hf1 as (_ & Hf1s & Hf1b & Hf1c).
        right. right.
        exists (rs' ++ NF :: ctx), (Node f1kvp f1sib nullptr f1c), (fill f1 pred),
          RIGHT, f1kvp, f1sib, f1c, nullptr.
        split; [intros; reflexivity |]. split; [| exact Hel_temp].
        unfold deficit. split; [exact Hs2 |]. split; [exact Hroot2 |].
        split; [exact Hasc_temp |].
        split; [unfold shape; simpl; tauto |]. split; [exact Hf1s |].
        split; [simpl in *; lia |]. split; [intros E; apply Hf1c in E; tauto |].
        split; [unfold fill, f1; simpl in *; lia | unfold fill, f1; destruct f1c; reflexivity].
    + (* the red left child of the predecessor takes its place *)
      cbn [clone set_color pop bind].
      rewrite (clone_path_depth_plug rs (F :: ctx) _ _ (fst lkvp));
        [| reflexivity | apply (ascending_in_hole _ _ _ Hasc_l); keys_tac | exact Hord_rs].
      cbn [bind set_child get_child]. rewrite Hpl. cbn [ancestors pop bind].
      change (fill F l) with s.
      rewrite (clone_path_plug ctx s _ (fst pkvp)); [| reflexivity | exact Hpk | exact Hord_ctx].
      cbn [bind]. left. eexists. split; [intros; reflexivity |].
      destruct (plug_replace rs _ (Node lkvp nullptr nullptr BLACK) Hsl)
        as (G1 & G2 & G3); [shape_tac | reflexivity | discriminate |].
      rewrite Hpl in G2, G3.
      destruct (replace_node ctx skvp l r c pkvp _ Hs Hroot G1 G2 G3) as [G4 G5].
      split; [exact G4 |]. split; [exact G5 |].
      rewrite elements_plug. cbn [elements]. rewrite Hel_l, elements_plug, Hafter.
      cbn [elements]. rewrite !app_nil_r, <- !app_assoc. reflexivity.
  - (* red predecessor: it is a leaf *)
    destruct (shape_no_right _ _ _ Hsp) as [-> | (? & _)]; [| discriminate].
    cbn [pop bind].
    rewrite (clone_path_side_plug rs (F :: ctx) _ _ side);
      [| discriminate | exact Hord | exact Hside_ok].
    cbn [bind set_child get_child]. rewrite Hpl. cbn [ancestors pop bind].
    change (fill F l) with s.
    rewrite (clone_path_plug ctx s _ (fst pkvp)); [| reflexivity | exact Hpk | exact Hord_ctx].
    cbn [bind]. left. eexists. split; [intros; reflexivity |].
    destruct (plug_replace rs _ nullptr Hsl)
      as (G1 & G2 & G3); [shape_tac | reflexivity | discriminate |].
    rewrite Hpl in G2, G3.
    destruct (replace_node ctx skvp l r c pkvp _ Hs Hroot G1 G2 G3) as [G4 G5].
    split; [exact G4 |]. split; [exact G5 |].
    rewrite elements_plug. cbn [elements]. rewrite Hel_l, elements_plug, Hafter.
    cbn [elements]. rewrite !app_nil_r, <- !app_assoc. reflexivity.
Qed.

(** [erase_imp] on the path of a successful search: either the rebuilt
    tree is returned, or a path overflows, or [delete_fixup] is invoked on
    arguments with a deficit. *)
Lemma erase_imp_with_spec ctx skvp l r c :
  shape (plug ctx (Node skvp l r c)) ->
  red_ptr (plug ctx (Node skvp l r c)) = false ->
  ascending (keys (plug ctx (Node skvp l r c))) ->
  (length ctx + 1 <= path_capacity)%nat ->
  (exists t',
      (forall fixup,
          erase_imp_with fixup (Node skvp l r c :: ancestors ctx (Node skvp l r c))
          = OK t') /\
      shape t' /\ red_ptr t' = false /\
      elements t' = before ctx ++ (elements l ++ elements r) ++ after ctx) \/
  ((forall fixup,
       erase_imp_with fixup (Node skvp l r c :: ancestors ctx (Node skvp l r c))
       = Err path_overflow) /\
   (path_capacity < height (plug ctx (Node skvp l r c)))%nat) \/
  (exists ctx' u orig side pkvp sib pc x,
      (forall fixup,
          erase_imp_with fixup (Node skvp l r c :: ancestors ctx (Node skvp l r c))
          = fixup (ancestors ctx' u) (fill (Frame side pkvp sib pc) x) side) /\
      deficit ctx' orig side pkvp sib pc x /\
      elements (plug ctx' (fill (Frame side pkvp sib pc) x))
      = before ctx ++ (elements l ++ elements r) ++ after ctx).
Proof.
  intros Hs Hroot Hasc Hlen.
  set (s := Node skvp l r c) in *.
  pose proof (shape_plug_inv _ _ Hs) as Hss.
  pose proof (fun k => ascending_in_hole _ _ k Hasc) as Hin_s.
  pose proof (ascending_ordered _ _ Hasc) as Hord.
  unfold erase_imp_with. cbn [get_node get_child bind s].
  destruct (non_null l) eqn:Enl, (non_null r) eqn:Enr; cbn [andb].
  - (* two children *)
    apply erase_intermediate_node_with_spec; auto.
  - (* only a left child: it is a red leaf *)
    left. destruct r; [| discriminate].
    destruct (shape_no_right _ _ _ Hss) as [-> | (-> & lkvp & ->)]; [discriminate |].
    cbn [clone set_color pop bind].
    rewrite (clone_path_plug ctx _ _ (fst lkvp));
      [| reflexivity | apply Hin_s; unfold s; keys_tac | exact Hord].
    cbn [bind]. eexists. split; [intros; reflexivity |].
    destruct (root_black_replace ctx _ (Node lkvp nullptr nullptr BLACK) Hs Hroot)
      as [G1 G2]; [shape_tac | reflexivity | discriminate |].
    split; [exact G1 |]. split; [exact G2 |].
    rewrite elements_plug. reflexivity.
  - (* only a right child: it is a red leaf *)
    left. destruct l; [| discriminate].
    destruct (shape_no_left _ _ _ Hss) as [-> | (-> & rkvp & ->)]; [discriminate |].
    cbn [clone set_color pop bind].
    rewrite (clone_path_plug ctx _ _ (fst rkvp));
      [| reflexivity | apply Hin_s; unfold s; keys_tac | exact Hord].
    cbn [bind]. eexists. split; [intros; reflexivity |].
    destruct (root_black_replace ctx _ (Node rkvp nullptr nullptr BLACK) Hs Hroot)
      as [G1 G2]; [shape_tac | reflexivity | discriminate |].
    split; [exact G1 |]. split; [exact G2 |].
    rewrite elements_plug. reflexivity.
  - (* a leaf *)
    destruct l; [| discriminate]. destruct r; [| discriminate].
    subst s. set (s := Node skvp nullptr nullptr c) in *.
    unfold is_red. cbn [get_color bind elements app s].
    assert (Hdrop : ascending (keys (plug ctx nullptr))).
    { revert Hasc. rewrite !keys_plug. unfold s. rewrite keys_Node. simpl.
      apply (ascending_drop_middle _ [fst skvp]). }
    destruct c; cbn [color_eqb].
    + (* black leaf *)
      destruct ctx as [| f ctx1].
      * cbn [ancestors length Nat.eqb]. left. eexists. split; [intros; reflexivity |].
        unfold shape. simpl. tauto.
      * replace (length (s :: ancestors (f :: ctx1) s) =? 1)%nat with false
          by reflexivity.
        cbn [ancestors get_parent]. rewrite get_key_fill. cbn [bind get_key s].
        assert (Hf : hole1 (fst skvp) f).
        { assert (Hk : in_hole (f :: ctx1) (fst skvp)) by (apply Hin_s; unfold s; keys_tac).
          apply in_hole_cons in Hk. tauto. }
        rewrite (hole1_side_of _ _ Hf), clone_fill. cbn [bind].
        rewrite set_child_fill. cbn [bind pop].
        cbn [plug] in Hs, Hroot, Hdrop.
        pose proof (shape_plug_inv _ _ Hs) as Hfs. apply shape_fill in Hfs.
        destruct Hfs as (_ & Hf1 & Hf2 & Hf3).
        destruct f as [fs fkvp fsib fc]. cbn [f_side f_kvp f_sib f_color] in *.
        right. right.
        exists ctx1, (fill (Frame fs fkvp fsib fc) s), (fill (Frame fs fkvp fsib fc) s),
          fs, fkvp, fsib, fc, nullptr.
        split; [intros; reflexivity |]. split.
        -- unfold deficit. split; [exact Hs |]. split; [exact Hroot |].
           split; [exact Hdrop |].
           split; [unfold shape; simpl; tauto |]. split; [exact Hf1 |].
           split; [simpl in *; lia |]. split; [intros E; apply Hf3 in E; tauto |].
           split; [| apply red_ptr_fill].
           rewrite bh_fill by auto. cbn [f_color]. rewrite Hf2. reflexivity.
        -- change (plug ctx1 (fill (Frame fs fkvp fsib fc) nullptr))
             with (plug (Frame fs fkvp fsib fc :: ctx1) nullptr).
           rewrite elements_plug. reflexivity.
    + (* red leaf *)
      destruct ctx as [| f ctx1]; [simpl in Hroot; discriminate |].
      cbn [ancestors get_parent]. rewrite get_key_fill. cbn [bind get_key s].
      assert (Hf : hole1 (fst skvp) f).
      { assert (Hk : in_hole (f :: ctx1) (fst skvp)) by (apply Hin_s; unfold s; keys_tac).
        apply in_hole_cons in Hk. tauto. }
      rewrite (hole1_side_of _ _ Hf), clone_fill. cbn [bind].
      rewrite set_child_fill. cbn [bind pop].
      pose proof (ascending_ordered _ _ Hdrop) as Hord'.
      rewrite (clone_path_plug ctx1 _ _ (f_key f));
        [| apply get_key_fill | apply Hord' | apply Hord'].
      cbn [bind]. left. eexists. split; [intros; reflexivity |].
      destruct (root_black_replace (f :: ctx1) _ nullptr Hs Hroot)
        as [G1 G2]; [unfold shape; simpl; tauto | reflexivity | discriminate |].
      split; [exact G1 |]. split; [exact G2 |].
      change (plug ctx1 (fill f nullptr)) with (plug (f :: ctx1) nullptr).
      rewrite elements_plug. reflexivity.
Qed.

Lemma erase_imp_unfold (p : path T) : erase_imp p = erase_imp_with delete_fixup p.
Proof. reflexivity. Qed.

(** [erase_imp]: with [delete_fixup] as the callee the result is a
    red-black tree without the erased pair. *)
Lemma erase_imp_spec ctx skvp l r c :
  shape (plug ctx (Node skvp l r c)) ->
  red_ptr (plug ctx (Node skvp l r c)) = false ->
  ascending (keys (plug ctx (Node skvp l r c))) ->
  (length ctx + 1 <= path_capacity)%nat ->
  (exists t',
      erase_imp (Node skvp l r c :: ancestors ctx (Node skvp l r c)) = OK t' /\
      shape t' /\ red_ptr t' = false /\
      elements t' = before ctx ++ (elements l ++ elements r) ++ after ctx) \/
  (erase_imp (Node skvp l r c :: ancestors ctx (Node skvp l r c))
   = Err path_overflow /\
   (path_capacity < height (plug ctx (Node skvp l r c)))%nat).
Proof.
  intros Hs Hroot Hasc Hlen. rewrite erase_imp_unfold.
  destruct (erase_imp_with_spec ctx skvp l r c Hs Hroot Hasc Hlen)
    as [(t' & H1 & H2) | [[H1 H2] | (ctx' & u & orig & side & pkvp & sib & pc & x
                                     & H1 & H2 & H3)]].
  - left. exists t'. rewrite H1. auto.
  - right. rewrite H1. auto.
  - left. rewrite H1.
    destruct H2 as (G1 & G2 & G3 & G4 & G5 & G6 & G7 & G8 & G9).
    destruct (delete_fixup_spec ctx' u orig side pkvp sib pc x)
      as (t' & K1 & K2 & K3 & K4); auto.
    exists t'. rewrite K4. auto.
Qed.

End EraseFacts.

(** * The operations of the map *)

Section MapFacts.

Context {T : Type}.
Implicit Types (t l r n u s x : tree T) (f : frame T) (ctx rs : list (frame T)).
Implicit Types (m : immutable_map T).

Lemma search_fits_height t key :
  (height t <= path_capacity)%nat -> search_fits t key.
Proof.
  unfold search_fits. pose proof (length_locate_height t key) as H.
  unfold node_path. destruct (non_null (snd (locate t key))); simpl in *; lia.
Qed.

Lemma not_search_fits_height t key :
  ~ search_fits t key -> (path_capacity < height t)%nat.
Proof.
  intros H. destruct (Nat.le_gt_cases (height t) path_capacity) as [Hle | Hgt]; auto.
  exfalso. apply H, search_fits_height, Hle.
Qed.

Lemma search_fits_dec t key : search_fits t key \/ ~ search_fits t key.
Proof. unfold search_fits. lia. Qed.

(** [erase]: on a red-black tree it returns a red-black tree whose traversal
    is the old one without the key, unless a path overflows the array,
    which needs a tree higher than the array is long. *)
Lemma erase_spec m key :
  tree_inv (root_ m) ->
  (exists m',
      erase m key = OK m' /\
      tree_inv (root_ m') /\
      elements (root_ m') = list_erase key (elements (root_ m)) /\
      match list_at key (elements (root_ m)) with
      | Some _ => size_ m' = size_t_wrap (size_ m - 1)
      | None => m' = m
      end) \/
  (erase m key = Err path_overflow /\ (path_capacity < height (root_ m))%nat).
Proof.
  intros (Hb & Hs & Hr).
  destruct (search_fits_dec (root_ m) key) as [Hfit | Hnfit].
  2:{ right. split; [| apply (not_search_fits_height _ key), Hnfit].
      unfold erase. rewrite find_locate by (simpl; lia).
      unfold search_fits in Hnfit. apply Nat.nle_gt, Nat.leb_gt in Hnfit.
      cbn [length Nat.add]. rewrite Hnfit. reflexivity. }
  unfold search_fits in Hfit. unfold erase.
  rewrite find_locate by (simpl; lia). cbn [length Nat.add].
  pose proof Hfit as Hfit'. apply Nat.leb_le in Hfit'. rewrite Hfit'. cbn [bind].
  rewrite (locate_list_at _ _ Hb).
  destruct (locate_elements _ key Hb) as (He & HB & HA & Hsa).
  pose proof (locate_plug (root_ m) key) as Hp.
  pose proof (locate_found (root_ m) key) as Hf.
  destruct (locate (root_ m) key) as [ctx s]. cbn [fst snd] in *.
  destruct Hf as [-> | (skvp & l & r & c & -> & Hk)].
  - (* the key is absent *)
    left. cbn [non_null negb]. exists m. split; [reflexivity |].
    split; [unfold tree_inv; auto |]. split; [| reflexivity].
    rewrite He. cbn [elements]. symmetry. apply (list_erase_split _ [] _); auto.
    intros e [].
  - (* the key is present *)
    cbn [non_null negb node_path app]. rewrite app_nil_r.
    cbn [node_path non_null length] in Hfit.
    apply ascending_Node_keys in Hsa. destruct Hsa as [Hl Hrr].
    assert (Hel : before ctx ++ (elements l ++ elements r) ++ after ctx
                  = list_erase key (elements (root_ m))).
    { rewrite He. cbn [elements].
      replace (before ctx ++ (elements l ++ skvp :: elements r) ++ after ctx)
        with ((before ctx ++ elements l) ++ [skvp] ++ (elements r ++ after ctx))
        by (rewrite <- !app_assoc; reflexivity).
      rewrite (list_erase_split (before ctx ++ elements l) [skvp]
                 (elements r ++ after ctx) key).
      - rewrite <- !app_assoc. reflexivity.
      - intros e Hin. apply in_app_iff in Hin. destruct Hin as [Hin | Hin].
        + apply HB, Hin.
        + specialize (Hl e Hin). lia.
      - intros e [<- | []]. exact Hk.
      - intros e Hin. apply in_app_iff in Hin. destruct Hin as [Hin | Hin].
        + specialize (Hrr e Hin). lia.
        + apply HA, Hin. }
    rewrite <- Hp in Hs, Hr. pose proof Hb as Hasc. apply bst_ascending in Hasc.
    rewrite <- Hp in Hasc.
    destruct (erase_imp_spec ctx skvp l r c Hs Hr Hasc Hfit)
      as [(t' & H1 & H2 & H3 & H4) | [H1 H2]].
    + left. rewrite H1. cbn [bind]. eexists. split; [reflexivity |].
      cbn [root_ size_]. rewrite H4, Hel.
      split; [| split; reflexivity].
      split; [| split; assumption].
      apply bst_ascending. unfold keys. rewrite H4, Hel.
      apply ascending_list_erase. apply bst_ascending, Hb.
    + right. rewrite H1. rewrite Hp in H2. split; [reflexivity | exact H2].
Qed.

(** [insert] in the same form. *)
Lemma insert_result m kvp :
  tree_inv (root_ m) ->
  (exists m',
      insert m kvp = OK m' /\
      tree_inv (root_ m') /\
      elements (root_ m') = list_insert kvp (elements (root_ m)) /\
      size_ m' = match list_at (fst kvp) (elements (root_ m)) with
                 | Some _ => size_ m
                 | None => size_t_wrap (size_ m + 1)
                 end) \/
  (insert m kvp = Err path_overflow /\ (path_capacity < height (root_ m))%nat).
Proof.
  intros Hinv. destruct (insert_spec m kvp Hinv) as [H1 H2].
  destruct (search_fits_dec (root_ m) (fst kvp)) as [Hfit | Hnfit].
  - left. apply H1, Hfit.
  - right. split; [apply H2, Hnfit | apply (not_search_fits_height _ (fst kvp)), Hnfit].
Qed.

(** [find] and [contains] read the association list of the traversal. *)
Lemma find_list_at m key :
  bst (root_ m) -> search_fits (root_ m) key ->
  exists b p,
    find (root_ m) [] key = OK (b, p) /\
    match list_at key (elements (root_ m)) with
    | Some v => b = true /\ get_pair (get_node p) = OK (key, v)
    | None => b = false
    end.
Proof.
  intros Hb Hfit. unfold search_fits in *.
  rewrite find_locate by (simpl; lia). cbn [length Nat.add].
  apply Nat.leb_le in Hfit. rewrite Hfit.
  rewrite (locate_list_at _ _ Hb).
  pose proof (locate_found (root_ m) key) as Hf.
  do 2 eexists. split; [reflexivity |].
  destruct Hf as [-> | (kvp & l & r & c & -> & Hk)]; [reflexivity |].
  destruct kvp as [k v]. cbn in Hk. subst k. split; reflexivity.
Qed.

Lemma finds_spec m key v :
  bst (root_ m) -> search_fits (root_ m) key ->
  finds m key v <-> list_at key (elements (root_ m)) = Some v.
Proof.
  intros Hb Hfit. destruct (find_list_at m key Hb Hfit) as (b & p & Hfind & Hres).
  unfold finds. rewrite Hfind. split.
  - intros (p' & [= -> <-] & Hp).
    destruct (list_at key (elements (root_ m))) as [w |]; [| discriminate].
    destruct Hres as [_ Hw]. congruence.
  - intros Hv. rewrite Hv in Hres. destruct Hres as [-> Hp]. eauto.
Qed.

Lemma contains_spec m key :
  bst (root_ m) -> search_fits (root_ m) key ->
  contains m key = OK (match list_at key (elements (root_ m)) with
                       | Some _ => true
                       | None => false
                       end).
Proof.
  intros Hb Hfit. unfold contains, search_fits in *.
  rewrite find_locate by (simpl; lia). cbn [length Nat.add].
  apply Nat.leb_le in Hfit. rewrite Hfit. cbn [bind].
  rewrite (locate_list_at _ _ Hb).
  destruct (snd (locate (root_ m) key)) as [| kvp l r c]; reflexivity.
Qed.

(** ** [validate] *)

Lemma validate_node_unfold kvp l r c :
  validate_node (Node kvp l r c) =
  (_ <- (match c with
         | RED =>
             if red_ptr l then Err (runtime_error "red node with red child")
             else if red_ptr r then Err (runtime_error "red node with red child")
             else OK tt
         | BLACK => OK tt
         end) ;;
   depth1 <- validate_child l ;;
   depth2 <- validate_child r ;;
   if negb (depth1 =? depth2) then Err (runtime_error "invalid black depth")
   else OK (depth1 + match c with RED => 0 | BLACK => 1 end)).
Proof. destruct l, r; reflexivity. Qed.

(** [node::validate] returns the black height exactly on the trees that
    satisfy (b) and (c), and throws [std::runtime_error] on the others. *)
Lemma validate_child_spec t :
  (shape t -> validate_child t = OK (Z.of_nat (bh t))) /\
  (forall d, validate_child t = OK d -> shape t /\ d = Z.of_nat (bh t)) /\
  (forall e, validate_child t = Err e -> exists what, e = runtime_error what).
Proof.
  induction t as [| kvp l IHl r IHr c].
  - split; [intros _; reflexivity |]. split.
    + intros d [= <-]. unfold shape. simpl. auto.
    + intros e H. discriminate.
  - destruct IHl as (IHl1 & IHl2 & IHl3), IHr as (IHr1 & IHr2 & IHr3).
    cbn [validate_child]. rewrite validate_node_unfold.
    split; [| split].
    + intros Hs.
      assert (Hl : shape l) by (revert Hs; shape_tac).
      assert (Hr : shape r) by (revert Hs; shape_tac).
      rewrite (IHl1 Hl), (IHr1 Hr).
      assert (Hb : bh l = bh r) by (revert Hs; shape_tac).
      destruct c.
      * cbn [bind]. rewrite Hb, Z.eqb_refl. cbn [negb bh blackness]. f_equal. lia.
      * assert (Hc : red_ptr l = false /\ red_ptr r = false) by (revert Hs; shape_tac).
        destruct Hc as [-> ->]. cbn [bind]. rewrite Hb, Z.eqb_refl.
        cbn [negb bh blackness]. f_equal. lia.
    + intros d H.
      apply bind_OK_inv in H. destruct H as ([] & Hc & H).
      apply bind_OK_inv in H. destruct H as (d1 & Hd1 & H).
      apply bind_OK_inv in H. destruct H as (d2 & Hd2 & H).
      destruct (IHl2 _ Hd1) as [Hl ->], (IHr2 _ Hd2) as [Hr ->].
      destruct (Z.eqb_spec (Z.of_nat (bh l)) (Z.of_nat (bh r))) as [E | E];
        cbn [negb] in H; [| discriminate].
      injection H as <-. apply Nat2Z.inj in E.
      destruct c.
      * split; [revert Hl Hr; shape_tac | cbn [bh blackness]; lia].
      * destruct (red_ptr l) eqn:El; [discriminate |].
        destruct (red_ptr r) eqn:Er; [discriminate |].
        split; [revert Hl Hr; shape_tac | cbn [bh blackness]; lia].
    + intros e H.
      destruct c.
      * cbn [bind] in H.
        destruct (validate_child l) as [d1 | e1] eqn:E1; cbn [bind] in H;
          [| injection H as <-; eauto].
        destruct (validate_child r) as [d2 | e2] eqn:E2; cbn [bind] in H;
          [| injection H as <-; eauto].
        destruct (negb (d1 =? d2)); [injection H as <-; eauto | discriminate].
      * destruct (red_ptr l); cbn [bind] in H; [injection H as <-; eauto |].
        destruct (red_ptr r); cbn [bind] in H; [injection H as <-; eauto |].
        destruct (validate_child l) as [d1 | e1] eqn:E1; cbn [bind] in H;
          [| injection H as <-; eauto].
        destruct (validate_child r) as [d2 | e2] eqn:E2; cbn [bind] in H;
          [| injection H as <-; eauto].
        destruct (negb (d1 =? d2)); [injection H as <-; eauto | discriminate].
Qed.

Lemma validate_OK m :
  validate m = OK tt <->
  no_red_red (root_ m) /\ balanced (root_ m) /\ red_ptr (root_ m) = false.
Proof.
  unfold validate. destruct (validate_child_spec (root_ m)) as (H1 & H2 & H3).
  destruct (red_ptr (root_ m)) eqn:Er.
  - split; [discriminate | intros (_ & _ & ?); discriminate].
  - destruct (root_ m) as [| kvp l r c] eqn:Et.
    + unfold shape. simpl. tauto.
    + cbn [validate_child] in *. split.
      * intros H. apply bind_OK_inv in H. destruct H as (d & Hd & _).
        apply H2 in Hd. destruct Hd as [[? ?] _]. auto.
      * intros (Hn & Hb & _). rewrite (H1 (conj Hn Hb)). reflexivity.
Qed.

Lemma validate_Err m e :
  validate m = Err e -> exists what, e = runtime_error what.
Proof.
  unfold validate. destruct (validate_child_spec (root_ m)) as (H1 & H2 & H3).
  destruct (red_ptr (root_ m)); [intros [= <-]; eauto |].
  destruct (root_ m) as [| kvp l r c]; [discriminate |].
  cbn [validate_child] in *.
  destruct (validate_node (Node kvp l r c)) as [d | e'] eqn:E; cbn [bind];
    [discriminate |].
  intros [= <-]. apply H3. reflexivity.
Qed.

End MapFacts.

(** * Maps reachable through the public interface *)

Section RunFacts.

Context {T : Type}.
Implicit Types (t : tree T) (m : immutable_map T) (o : op T) (ops : list (op T)).

Lemma map_inv_tree_inv m :
  map_inv m <->
  tree_inv (root_ m) /\ size_ m = size_t_wrap (Z.of_nat (count (root_ m))).
Proof. unfold map_inv. rewrite tree_inv_red_black. reflexivity. Qed.

Lemma map_inv_empty : map_inv (@empty_map T).
Proof.
  apply map_inv_tree_inv. unfold tree_inv, shape. simpl. repeat split; auto.
Qed.

Lemma size_t_wrap_succ z : size_t_wrap (size_t_wrap z + 1) = size_t_wrap (z + 1).
Proof. unfold size_t_wrap. apply Zplus_mod_idemp_l. Qed.

Lemma size_t_wrap_pred z : size_t_wrap (size_t_wrap z - 1) = size_t_wrap (z - 1).
Proof. unfold size_t_wrap. apply Zminus_mod_idemp_l. Qed.

Lemma size_t_wrap_small z : 0 <= z <= SIZE_MAX -> size_t_wrap z = z.
Proof. intros H. unfold size_t_wrap. apply Z.mod_small. lia. Qed.

Lemma tree_inv_capacity t :
  tree_inv t -> Z.of_nat (count t) <= SIZE_MAX -> (height t <= path_capacity)%nat.
Proof. intros (_ & Hs & Hr) Hc. apply height_capacity; auto. Qed.

(** ** One operation *)

Lemma insert_inv m kvp m' :
  map_inv m -> insert m kvp = OK m' ->
  map_inv m' /\
  elements (root_ m') = list_insert kvp (elements (root_ m)) /\
  (count (root_ m') <= S (count (root_ m)))%nat.
Proof.
  intros Hm Hi. apply map_inv_tree_inv in Hm. destruct Hm as [Ht Hsz].
  destruct (insert_result m kvp Ht) as [(m'' & H1 & H2 & H3 & H4) | [H1 _]];
    [| congruence].
  assert (m'' = m') by congruence. subst m''.
  pose proof (proj1 Ht) as Hb. apply bst_ascending in Hb.
  assert (Hcount : count (root_ m')
                   = match list_at (fst kvp) (elements (root_ m)) with
                     | Some _ => count (root_ m)
                     | None => S (count (root_ m))
                     end).
  { unfold count. rewrite H3.
    destruct (list_at (fst kvp) (elements (root_ m))) eqn:E.
    - eapply length_list_insert_present; eauto.
    - apply length_list_insert_absent; auto. }
  split; [| split; [exact H3 |]].
  - apply map_inv_tree_inv. split; [exact H2 |]. rewrite H4, Hcount.
    destruct (list_at (fst kvp) (elements (root_ m))); [exact Hsz |].
    rewrite Hsz, size_t_wrap_succ. f_equal. lia.
  - rewrite Hcount. destruct (list_at (fst kvp) (elements (root_ m))); lia.
Qed.

Lemma erase_inv m key m' :
  map_inv m -> erase m key = OK m' ->
  map_inv m' /\
  elements (root_ m') = list_erase key (elements (root_ m)) /\
  (count (root_ m') <= count (root_ m))%nat.
Proof.
  intros Hm Hi. pose proof Hm as Hm0.
  apply map_inv_tree_inv in Hm. destruct Hm as [Ht Hsz].
  destruct (erase_spec m key Ht) as [(m'' & H1 & H2 & H3 & H4) | [H1 _]];
    [| congruence].
  assert (m'' = m') by congruence. subst m''.
  pose proof (proj1 Ht) as Hb. apply bst_ascending in Hb.
  destruct (list_at key (elements (root_ m))) as [v |] eqn:E.
  - pose proof (length_list_erase_present key _ v Hb E) as Hlen.
    rewrite <- H3 in Hlen. fold (count (root_ m')) in Hlen. fold (count (root_ m)) in Hlen.
    split; [| split; [exact H3 | lia]].
    apply map_inv_tree_inv. split; [exact H2 |].
    rewrite H4, Hsz, size_t_wrap_pred. f_equal. lia.
  - subst m'. split; [exact Hm0 |]. split; [exact H3 | lia].
Qed.

Lemma apply_op_inv m o m' :
  map_inv m -> apply_op m o = OK m' ->
  map_inv m' /\ (count (root_ m') <= S (count (root_ m)))%nat.
Proof.
  destruct o as [kvp | key]; simpl; intros Hm H.
  - destruct (insert_inv _ _ _ Hm H) as (? & _ & ?). auto.
  - destruct (erase_inv _ _ _ Hm H) as (? & _ & ?). split; auto.
Qed.

(** While the number of pairs fits [size_t] no operation fails. *)
Lemma insert_total m kvp :
  map_inv m -> Z.of_nat (count (root_ m)) <= SIZE_MAX ->
  exists m', insert m kvp = OK m'.
Proof.
  intros Hm Hc. apply map_inv_tree_inv in Hm. destruct Hm as [Ht _].
  pose proof (tree_inv_capacity _ Ht Hc).
  destruct (insert_result m kvp Ht) as [(m' & H1 & _) | [_ H2]]; [eauto | lia].
Qed.

Lemma erase_total m key :
  map_inv m -> Z.of_nat (count (root_ m)) <= SIZE_MAX ->
  exists m', erase m key = OK m'.
Proof.
  intros Hm Hc. apply map_inv_tree_inv in Hm. destruct Hm as [Ht _].
  pose proof (tree_inv_capacity _ Ht Hc).
  destruct (erase_spec m key Ht) as [(m' & H1 & _) | [_ H2]]; [eauto | lia].
Qed.

Lemma map_inv_search_fits m key :
  map_inv m -> Z.of_nat (count (root_ m)) <= SIZE_MAX ->
  search_fits (root_ m) key.
Proof.
  intros Hm Hc. apply map_inv_tree_inv in Hm. destruct Hm as [Ht _].
  apply search_fits_height, tree_inv_capacity; auto.
Qed.

(** ** Sequences of operations *)

Lemma run_inv ops : forall m m',
  map_inv m -> run ops m = OK m' ->
  map_inv m' /\ (count (root_ m') <= count (root_ m) + length ops)%nat.
Proof.
  induction ops as [| o ops IH]; intros m m' Hm H; simpl in H.
  - injection H as <-. split; [exact Hm | simpl; lia].
  - apply bind_OK_inv in H. destruct H as (m1 & H1 & H2).
    destruct (apply_op_inv _ _ _ Hm H1) as [Hm1 Hc1].
    destruct (IH _ _ Hm1 H2) as [Hm' Hc']. split; [exact Hm' | simpl; lia].
Qed.

Lemma run_total ops : forall m,
  map_inv m -> Z.of_nat (count (root_ m) + length ops) <= SIZE_MAX + 1 ->
  exists m', run ops m = OK m'.
Proof.
  induction ops as [| o ops IH]; intros m Hm Hc; simpl.
  - eauto.
  - assert (Ho : exists m1, apply_op m o = OK m1).
    { destruct o; simpl; [apply insert_total | apply erase_total]; auto;
        simpl in Hc; lia. }
    destruct Ho as [m1 H1]. rewrite H1. cbn [bind].
    destruct (apply_op_inv _ _ _ Hm H1) as [Hm1 Hc1].
    apply IH; auto. simpl in Hc. lia.
Qed.

Lemma reachable_inv m :
  reachable m -> map_inv m.
Proof.
  intros [ops H]. apply (run_inv ops empty_map m map_inv_empty H).
Qed.

Lemma run_app ops1 ops2 m :
  run (ops1 ++ ops2) m = (m1 <- run ops1 m ;; run ops2 m1).
Proof.
  revert m. induction ops1 as [| o ops1 IH]; intros m; simpl; [reflexivity |].
  destruct (apply_op m o); simpl; auto.
Qed.

Lemma reachable_step m o m' :
  reachable m -> apply_op m o = OK m' -> reachable m'.
Proof.
  intros [ops H] Ho. exists (ops ++ [o]). rewrite run_app, H. simpl.
  rewrite Ho. reflexivity.
Qed.

End RunFacts.

(** * The specification *)

Section Observations.

Context {T : Type}.
Implicit Types (t : tree T) (m : immutable_map T).

Lemma reachable_facts m :
  reachable m ->
  tree_inv (root_ m) /\
  ascending (map fst (traversal m)) /\
  size m = size_t_wrap (Z.of_nat (length (traversal m))).
Proof.
  intros Hr. apply reachable_inv, map_inv_tree_inv in Hr. destruct Hr as [Ht Hs].
  split; [exact Ht |]. rewrite traversal_elements. split.
  - apply bst_ascending, Ht.
  - exact Hs.
Qed.

Lemma reachable_fits m key :
  reachable m -> Z.of_nat (length (traversal m)) <= SIZE_MAX ->
  search_fits (root_ m) key.
Proof.
  intros Hr Hc. rewrite traversal_elements in Hc.
  apply map_inv_search_fits; [apply reachable_inv, Hr | exact Hc].
Qed.

Lemma finds_traversal m key v :
  reachable m -> Z.of_nat (length (traversal m)) <= SIZE_MAX ->
  finds m key v <-> list_at key (traversal m) = Some v.
Proof.
  intros Hr Hc. rewrite traversal_elements. apply finds_spec.
  - apply (reachable_facts m Hr).
  - apply reachable_fits; auto.
Qed.

Lemma contains_traversal m key :
  reachable m -> Z.of_nat (length (traversal m)) <= SIZE_MAX ->
  contains m key = OK (match list_at key (traversal m) with
                       | Some _ => true
                       | None => false
                       end).
Proof.
  intros Hr Hc. rewrite traversal_elements. apply contains_spec.
  - apply (reachable_facts m Hr).
  - apply reachable_fits; auto.
Qed.

Lemma reachable_insert m kvp :
  reachable m -> Z.of_nat (length (traversal m)) <= SIZE_MAX ->
  exists m',
    insert m kvp = OK m' /\ reachable m' /\
    traversal m' = list_insert kvp (traversal m) /\
    size_ m' = match list_at (fst kvp) (traversal m) with
               | Some _ => size_ m
               | None => size_t_wrap (size_ m + 1)
               end.
Proof.
  intros Hr Hc. rewrite !traversal_elements in *.
  pose proof (reachable_inv m Hr) as Hm.
  destruct (insert_total m kvp Hm Hc) as [m' Hi]. exists m'.
  split; [exact Hi |]. split; [apply (reachable_step m (op_insert kvp)); auto |].
  apply map_inv_tree_inv in Hm. destruct Hm as [Ht _].
  destruct (insert_result m kvp Ht) as [(m'' & H1 & H2 & H3 & H4) | [H1 _]];
    [| congruence].
  assert (m'' = m') by congruence. subst m''.
  rewrite traversal_elements. auto.
Qed.

Lemma reachable_erase m key :
  reachable m -> Z.of_nat (length (traversal m)) <= SIZE_MAX ->
  exists m',
    erase m key = OK m' /\ reachable m' /\
    traversal m' = list_erase key (traversal m) /\
    match list_at key (traversal m) with
    | Some _ => size_ m' = size_t_wrap (size_ m - 1)
    | None => m' = m
    end.
Proof.
  intros Hr Hc. rewrite !traversal_elements in *.
  pose proof (reachable_inv m Hr) as Hm.
  destruct (erase_total m key Hm Hc) as [m' Hi]. exists m'.
  split; [exact Hi |]. split; [apply (reachable_step m (op_erase key)); auto |].
  apply map_inv_tree_inv in Hm. destruct Hm as [Ht _].
  destruct (erase_spec m key Ht) as [(m'' & H1 & H2 & H3 & H4) | [H1 _]];
    [| congruence].
  assert (m'' = m') by congruence. subst m''.
  rewrite traversal_elements. auto.
Qed.

Lemma length_traversal_insert m kvp m' :
  reachable m -> insert m kvp = OK m' ->
  (length (traversal m') <= S (length (traversal m)))%nat.
Proof.
  intros Hr Hi. rewrite !traversal_elements.
  apply (insert_inv m kvp m' (reachable_inv m Hr) Hi).
Qed.

End Observations.

(** ** C1: the red-black invariants hold after every prefix *)

Lemma firstn_length_le {A : Type} (n : nat) (l : list A) :
  (length (firstn n l) <= length l)%nat.
Proof. rewrite length_firstn. lia. Qed.

(** C1: for every finite sequence of insert and erase operations applied to
    the empty map and every prefix of it, the map the prefix produces
    satisfies the four red-black invariants (search-tree ordering, no red
    node with a red child, equal black height on every downward path, black
    root) and [validate()] does not raise on it; and the prefix does produce
    a map as long as the sequence is no longer than [size_t] can count. *)
Theorem C1_invariants_after_every_prefix :
  forall (T : Type) (ops : list (op T)) (n : nat),
    (forall m : immutable_map T,
        run (firstn n ops) empty_map = OK m ->
        red_black (root_ m) /\ validate m = OK tt) /\
    (Z.of_nat (length ops) <= SIZE_MAX ->
     exists m : immutable_map T, run (firstn n ops) empty_map = OK m).
Proof.
  intros T ops n. split.
  - intros m Hrun.
    destruct (run_inv _ _ _ map_inv_empty Hrun) as [Hm _].
    split; [apply Hm |].
    apply validate_OK. destruct Hm as [(Hb & Hn & He & Hr) _].
    apply equal_black_height_balanced in He. auto.
  - intros Hlen. apply run_total; [apply map_inv_empty |].
    pose proof (firstn_length_le n ops). simpl. lia.
Qed.

(** ** C3: what insert leaves at the key; re-insertion; size *)

(** C3: the claim reads the value back with [at], which cannot be called:
    neither overload of [at] can be instantiated.  What [insert] itself
    does is as the claim says.  For every reachable map [m] with room for
    one more pair, key [k] and values [v], [v1], [v2]: [insert(m, k, v)]
    returns a map in which the search of [k] stops at a node that holds
    [(k, v)], which contains [k], and whose traversal has [(k, v)] as its
    only pair with the key [k]; inserting [(k, v2)] after [(k, v1)] keeps
    the size and leaves [(k, v2)] in the same way; and when [k] is absent
    from [m], [insert(m, k, v)] has size [size(m) + 1]. *)
Theorem C3_insert_places_the_value :
  forall (T : Type) (m : immutable_map T) (k : K) (v v1 v2 : T),
    reachable m ->
    Z.of_nat (length (traversal m)) < SIZE_MAX ->
    (exists m1,
        insert m (k, v) = OK m1 /\ finds m1 k v /\ contains m1 k = OK true /\
        (forall w, In (k, w) (traversal m1) <-> w = v)) /\
    (exists m1 m2,
        insert m (k, v1) = OK m1 /\ insert m1 (k, v2) = OK m2 /\
        size m2 = size m1 /\ finds m2 k v2 /\ contains m2 k = OK true /\
        (forall w, In (k, w) (traversal m2) <-> w = v2)) /\
    (contains m k = OK false ->
     exists m1, insert m (k, v) = OK m1 /\ size m1 = size m + 1).
Proof.
  intros T m k v v1 v2 Hr Hc.
  assert (Hplaced : forall (m1 : immutable_map T) w,
             reachable m1 -> Z.of_nat (length (traversal m1)) <= SIZE_MAX ->
             list_at k (traversal m1) = Some w ->
             finds m1 k w /\ contains m1 k = OK true /\
             (forall w', In (k, w') (traversal m1) <-> w' = w)).
  { intros m1 w Hr1 Hc1 Hat. destruct (reachable_facts m1 Hr1) as (_ & Ha1 & _).
    split; [apply finds_traversal; assumption |].
    split; [rewrite contains_traversal by assumption; rewrite Hat; reflexivity |].
    intros w'. rewrite <- (list_at_In k (traversal m1) w' Ha1), Hat.
    split; congruence. }
  assert (Hstep : forall w, exists m1,
             insert m (k, w) = OK m1 /\ reachable m1 /\
             Z.of_nat (length (traversal m1)) <= SIZE_MAX /\
             list_at k (traversal m1) = Some w).
  { intros w. destruct (reachable_insert m (k, w) Hr) as (m1 & H1 & H2 & H3 & H4); [lia |].
    pose proof (length_traversal_insert m _ m1 Hr H1) as Hl.
    exists m1. split; [exact H1 |]. split; [exact H2 |]. split; [lia |].
    rewrite H3. apply (list_at_insert_eq (k, w)). }
  split; [| split].
  - destruct (Hstep v) as (m1 & H1 & Hr1 & Hc1 & Hat1).
    exists m1. split; [exact H1 |]. apply Hplaced; assumption.
  - destruct (Hstep v1) as (m1 & H1 & Hr1 & Hc1 & Hat1).
    destruct (reachable_insert m1 (k, v2) Hr1 Hc1) as (m2 & H2 & Hr2 & Ht2 & Hs2).
    cbn [fst] in Hs2. rewrite Hat1 in Hs2.
    exists m1, m2. split; [exact H1 |]. split; [exact H2 |]. split; [exact Hs2 |].
    destruct (reachable_facts m1 Hr1) as (_ & Ha1 & _).
    pose proof (length_list_insert_present (k, v2) (traversal m1) v1 Ha1 Hat1) as Hl.
    rewrite <- Ht2 in Hl.
    apply Hplaced; [exact Hr2 | lia |].
    rewrite Ht2. apply (list_at_insert_eq (k, v2)).
  - intros Hk. rewrite contains_traversal in Hk by (auto; lia).
    destruct (reachable_insert m (k, v) Hr) as (m1 & H1 & H2 & H3 & H4); [lia |].
    exists m1. split; [exact H1 |]. unfold size. rewrite H4. cbn [fst].
    destruct (list_at k (traversal m)); [discriminate |].
    destruct (reachable_facts m Hr) as (_ & _ & Hs). unfold size in Hs.
    rewrite Hs. rewrite size_t_wrap_succ, !size_t_wrap_small; lia.
Qed.

(** A map that C3 applies to. *)
Lemma C3_witness :
  reachable readme_map3 /\
  Z.of_nat (length (traversal readme_map3)) < SIZE_MAX /\
  (exists m1,
      insert readme_map3 (11, 2.5%Q) = OK m1 /\ finds m1 11 2.5%Q /\
      contains m1 11 = OK true /\
      (forall w, In (11, w) (traversal m1) <-> w = 2.5%Q)).
Proof.
  assert (Hr : reachable readme_map3) by (exists (firstn 3 readme_ops); reflexivity).
  assert (Hc : Z.of_nat (length (traversal readme_map3)) < SIZE_MAX) by reflexivity.
  split; [exact Hr |]. split; [exact Hc |].
  exact (proj1 (C3_insert_places_the_value Q readme_map3 11 2.5%Q 0%Q 0%Q Hr Hc)).
Defined.

(** ** C4: erase undoes insert; erase of an absent key *)

(** C4: for every reachable map [m] with room for one more pair, key [k]
    absent from [m] and value [v]: [erase(insert(m, k, v), k)] has the size
    and the traversal of [m], and so has [erase(m, k)]. *)
Theorem C4_erase_undoes_insert :
  forall (T : Type) (m : immutable_map T) (k : K) (v : T),
    reachable m ->
    Z.of_nat (length (traversal m)) < SIZE_MAX ->
    contains m k = OK false ->
    (exists m1 m2,
        insert m (k, v) = OK m1 /\ erase m1 k = OK m2 /\
        size m2 = size m /\ traversal m2 = traversal m) /\
    (exists m', erase m k = OK m' /\ size m' = size m /\ traversal m' = traversal m).
Proof.
  intros T m k v Hr Hc Hk.
  rewrite contains_traversal in Hk by (auto; lia).
  destruct (list_at k (traversal m)) eqn:Hat; [discriminate |]. clear Hk.
  destruct (reachable_facts m Hr) as (_ & Ha & Hs).
  split.
  - destruct (reachable_insert m (k, v) Hr) as (m1 & H1 & Hr1 & Ht1 & Hs1); [lia |].
    pose proof (length_traversal_insert m _ m1 Hr H1) as Hl.
    destruct (reachable_erase m1 k Hr1) as (m2 & H2 & Hr2 & Ht2 & Hs2); [lia |].
    assert (Hat1 : list_at k (traversal m1) = Some v).
    { rewrite Ht1. apply (list_at_insert_eq (k, v)). }
    rewrite Hat1 in Hs2. cbn [fst] in Hs1. rewrite Hat in Hs1.
    assert (Ht : traversal m2 = traversal m).
    { rewrite Ht2, Ht1. apply (list_erase_insert (k, v)); auto. }
    exists m1, m2. split; [exact H1 |]. split; [exact H2 |]. split; [| exact Ht].
    destruct (reachable_facts m2 Hr2) as (_ & _ & Hs2').
    rewrite Hs2', Ht. symmetry. exact Hs.
  - destruct (reachable_erase m k Hr) as (m' & H1 & _ & _ & H2); [lia |].
    rewrite Hat in H2. subst m'. eauto.
Qed.

(** A map and an absent key that C4 applies to. *)
Lemma C4_witness :
  reachable readme_map3 /\
  contains readme_map3 11 = OK false /\
  (exists m', erase readme_map3 11 = OK m' /\ size m' = size readme_map3 /\
              traversal m' = traversal readme_map3).
Proof.
  assert (Hr : reachable readme_map3) by (exists (firstn 3 readme_ops); reflexivity).
  split; [exact Hr |]. split; [reflexivity |].
  refine (proj2 (C4_erase_undoes_insert Q readme_map3 11 0%Q Hr _ _)); reflexivity.
Defined.

(** ** C5: traversal *)

(** C5: for every reachable map whose pairs [size_t] can count, the
    traversal visits the pairs in strictly ascending key order, no key
    twice; it visits every pair that a search reaches and no other, and the
    keys it visits are the keys that [contains] accepts; the number of the
    pairs is [size()], and [foreach] applies the visitor to exactly this
    sequence. *)
Theorem C5_traversal_is_sorted_and_complete :
  forall (T : Type) (m : immutable_map T),
    reachable m ->
    Z.of_nat (length (traversal m)) <= SIZE_MAX ->
    ascending (map fst (traversal m)) /\
    List.NoDup (map fst (traversal m)) /\
    (forall k v, In (k, v) (traversal m) <-> finds m k v) /\
    (forall k, In k (map fst (traversal m)) <-> contains m k = OK true) /\
    Z.of_nat (length (traversal m)) = size m /\
    (forall (S : Type) (f : pair T -> S -> S) (s : S),
        foreach m f s = fold_left (fun acc kvp => f kvp acc) (traversal m) s).
Proof.
  intros T m Hr Hc. destruct (reachable_facts m Hr) as (_ & Ha & Hs).
  split; [exact Ha |]. split; [apply ascending_NoDup, Ha |].
  split; [| split; [| split]].
  - intros k v. rewrite <- (list_at_In k (traversal m) v Ha).
    rewrite finds_traversal by auto. reflexivity.
  - intros k. rewrite <- list_at_is_Some, contains_traversal by auto.
    destruct (list_at k (traversal m)) as [w |]; split.
    + reflexivity.
    + eauto.
    + intros [w Hw]. discriminate.
    + discriminate.
  - rewrite Hs, size_t_wrap_small; lia.
  - intros S f s. unfold foreach. rewrite foreach_node_fold, traversal_elements.
    reflexivity.
Qed.

(** A map that C5 applies to. *)
Lemma C5_witness :
  reachable readme_map4 /\
  ascending (map fst (traversal readme_map4)) /\
  Z.of_nat (length (traversal readme_map4)) = size readme_map4.
Proof.
  assert (Hr : reachable readme_map4) by (exists readme_ops; reflexivity).
  assert (Hc : Z.of_nat (length (traversal readme_map4)) <= SIZE_MAX)
    by (vm_compute; discriminate).
  pose proof (C5_traversal_is_sorted_and_complete Q readme_map4 Hr Hc) as H.
  split; [exact Hr |]. split; [apply H | apply H].
Defined.

(** ** C6: the path storage *)

(** C6, as stated, fails: the path is an array of [sizeof(size_t) * 16] =
    128 slots whatever the tree; on a tree 129 nodes high the search
    overflows it. *)
Lemma C6_path_storage_is_fixed :
  path_capacity = 128%nat /\
  height (left_chain 129) = 129%nat /\
  find (left_chain 129) [] 0 = Err path_overflow.
Proof. vm_compute. auto. Qed.

(** C6, amended: the path storage is fixed at 128 slots; on every reachable
    map whose pairs [size_t] can count the tree is at most 128 high, a
    search pushes no more nodes than the tree is high, and neither [find]
    nor [insert] nor [erase] overflows the path. *)
Theorem C6_no_overflow_on_reachable_maps :
  forall (T : Type) (m : immutable_map T) (k : K) (v : T),
    reachable m ->
    Z.of_nat (length (traversal m)) <= SIZE_MAX ->
    (height (root_ m) <= path_capacity)%nat /\
    (exists matched p,
        find (root_ m) [] k = OK (matched, p) /\
        (length p <= height (root_ m))%nat) /\
    insert m (k, v) <> Err path_overflow /\
    erase m k <> Err path_overflow.
Proof.
  intros T m k v Hr Hc.
  pose proof (reachable_inv m Hr) as Hm.
  rewrite traversal_elements in Hc.
  assert (Hh : (height (root_ m) <= path_capacity)%nat).
  { apply tree_inv_capacity; [apply map_inv_tree_inv, Hm | exact Hc]. }
  split; [exact Hh |]. split; [| split].
  - rewrite find_locate by (simpl; lia). cbn [length Nat.add].
    pose proof (length_locate_height (root_ m) k) as Hl.
    assert (Hn : (length (fst (locate (root_ m) k))
                  + length (node_path (snd (locate (root_ m) k)))
                  <= height (root_ m))%nat).
    { unfold node_path. destruct (non_null (snd (locate (root_ m) k))); simpl in *; lia. }
    replace (length (fst (locate (root_ m) k))
             + length (node_path (snd (locate (root_ m) k))) <=? path_capacity)%nat
      with true by (symmetry; apply Nat.leb_le; lia).
    eexists _, _. split; [reflexivity |].
    rewrite !length_app, length_ancestors. simpl. lia.
  - destruct (insert_total m (k, v) Hm Hc) as [m' ->]. discriminate.
  - destruct (erase_total m k Hm Hc) as [m' ->]. discriminate.
Qed.

(** A map that the amended C6 applies to. *)
Lemma C6_witness :
  reachable readme_map3 /\
  (height (root_ readme_map3) <= path_capacity)%nat /\
  erase readme_map3 15 <> Err path_overflow.
Proof.
  assert (Hr : reachable readme_map3) by (exists (firstn 3 readme_ops); reflexivity).
  assert (Hc : Z.of_nat (length (traversal readme_map3)) <= SIZE_MAX)
    by (vm_compute; discriminate).
  pose proof (C6_no_overflow_on_reachable_maps Q readme_map3 15 0%Q Hr Hc) as H.
  split; [exact Hr |]. split; apply H.
Defined.

(** ** C7: what validate checks *)

(** C7, as stated, fails: [validate()] succeeds on a tree in which the key 5
    stands in the left subtree of the key 1. *)
Lemma C7_validate_accepts_unordered_tree :
  validate unordered_map = OK tt /\ ~ bst (root_ unordered_map).
Proof.
  split; [reflexivity |]. simpl. intros ((H & _) & _). lia.
Qed.

(** C7, amended: [validate()] succeeds exactly on the trees in which no red
    node has a red child, every downward path to an absent child has the
    same number of black nodes and the root is black; on every other tree
    it fails with [std::runtime_error].  Search-tree ordering is not
    checked. *)
Theorem C7_validate_checks_colour_and_black_height :
  forall (T : Type) (m : immutable_map T),
    (validate m = OK tt <->
     no_red_red (root_ m) /\ equal_black_height (root_ m) /\
     red_ptr (root_ m) = false) /\
    (forall e, validate m = Err e -> exists what, e = runtime_error what).
Proof.
  intros T m. split.
  - rewrite validate_OK, equal_black_height_balanced. reflexivity.
  - apply validate_Err.
Qed.

(** ** C8: the search and the operations that are total *)

(** C8: the claim's first half is about [at], which cannot be called:
    neither overload can be instantiated, so the program neither returns a
    value from [at] nor raises [std::out_of_range].  The rest holds, and so
    does the search that the body of [at] starts with.  On every reachable
    map with room for one more pair: [erase], [contains] and [insert]
    return a result for every key, [erase] of an absent key returns the map
    itself, [contains] accepts exactly the keys of the traversal, and the
    search of a key stops at a node with the pair [(k, v)] exactly when the
    traversal has this pair. *)
Theorem C8_other_operations_are_total :
  forall (T : Type) (m : immutable_map T) (k : K),
    reachable m ->
    Z.of_nat (length (traversal m)) < SIZE_MAX ->
    (exists m', erase m k = OK m') /\
    (~ In k (map fst (traversal m)) -> erase m k = OK m) /\
    (exists b, contains m k = OK b) /\
    (contains m k = OK true <-> In k (map fst (traversal m))) /\
    (forall v, exists m', insert m (k, v) = OK m') /\
    (forall v, finds m k v <-> In (k, v) (traversal m)).
Proof.
  intros T m k Hr Hc. destruct (reachable_facts m Hr) as (_ & Ha & _).
  assert (Hcont : contains m k = OK true <-> In k (map fst (traversal m))).
  { rewrite <- list_at_is_Some, contains_traversal by (auto; lia).
    destruct (list_at k (traversal m)) as [w |]; split.
    - eauto.
    - reflexivity.
    - discriminate.
    - intros [w Hw]. discriminate. }
  split; [| split; [| split; [| split; [| split]]]].
  - destruct (reachable_erase m k Hr) as (m' & H & _); [lia | eauto].
  - intros Hn. destruct (reachable_erase m k Hr) as (m' & H & _ & _ & H4); [lia |].
    destruct (list_at k (traversal m)) as [w |] eqn:E; [| congruence].
    exfalso. apply Hn, list_at_is_Some. eauto.
  - rewrite contains_traversal by (auto; lia). eauto.
  - exact Hcont.
  - intros v. destruct (reachable_insert m (k, v) Hr) as (m' & H & _); [lia | eauto].
  - intros v. rewrite finds_traversal by (auto; lia). apply list_at_In, Ha.
Qed.

(** A map that C8 applies to. *)
Lemma C8_witness :
  reachable readme_map4 /\
  Z.of_nat (length (traversal readme_map4)) < SIZE_MAX /\
  (exists m', erase readme_map4 11 = OK m') /\
  (~ In 11 (map fst (traversal readme_map4)) -> erase readme_map4 11 = OK readme_map4).
Proof.
  assert (Hr : reachable readme_map4) by (exists readme_ops; reflexivity).
  assert (Hc : Z.of_nat (length (traversal readme_map4)) < SIZE_MAX) by reflexivity.
  pose proof (C8_other_operations_are_total Q readme_map4 11 Hr Hc) as H.
  split; [exact Hr |]. split; [exact Hc |]. split; apply H.
Defined.

(** ** C10: the sibling at every invocation of delete_fixup *)

Section CallFacts.

Context {T : Type}.
Implicit Types (t parent : tree T) (p : path T) (side : side_t).

(** Two calls that every callee answers alike have the same arguments. *)
Lemma same_call p1 t1 s1 p2 t2 s2 :
  (forall fixup : path T -> tree T -> side_t -> result (tree T),
      fixup p1 t1 s1 = fixup p2 t2 s2) ->
  p1 = p2 /\ t1 = t2 /\ s1 = s2.
Proof.
  intros H. split; [| split].
  - assert (Hlen : length p1 = length p2).
    { specialize (H (fun p _ _ => if (length p =? length p1)%nat
                                  then OK nullptr else Err null_dereference)).
      cbn beta in H. rewrite Nat.eqb_refl in H.
      destruct (Nat.eqb_spec (length p2) (length p1)); [lia | discriminate]. }
    apply (nth_ext p1 p2 nullptr nullptr Hlen). intros i _.
    specialize (H (fun p _ _ => OK (nth i p nullptr))). cbn beta in H. congruence.
  - specialize (H (fun _ t _ => OK t)). cbn beta in H. congruence.
  - specialize (H (fun _ _ s => match s with
                                | LEFT => OK nullptr
                                | RIGHT => Err null_dereference
                                end)).
    cbn beta in H. destruct s1, s2; congruence.
Qed.

Lemma fixup_ready_intro (ctx : list (frame T)) (u orig : tree T) side
    (pkvp : pair T) (sib : tree T) (pc : color_t) (x : tree T) :
  deficit ctx orig side pkvp sib pc x ->
  fixup_ready (ancestors ctx u) (fill (Frame side pkvp sib pc) x) side.
Proof. intros H. unfold fixup_ready. eauto 12. Qed.

(** The path of a successful search in a search tree. *)
Lemma find_matched t key p :
  find t [] key = OK (true, p) ->
  exists ctx skvp l r c,
    p = Node skvp l r c :: ancestors ctx (Node skvp l r c) /\
    plug ctx (Node skvp l r c) = t /\
    (length ctx + 1 <= path_capacity)%nat.
Proof.
  rewrite find_locate by (simpl; lia). cbn [length Nat.add].
  pose proof (locate_plug t key) as Hp. pose proof (locate_found t key) as Hf.
  destruct (locate t key) as [ctx s]. cbn [fst snd] in *.
  destruct (Nat.leb_spec (length ctx + length (node_path s)) path_capacity) as [Hfit | Hfit];
    [| discriminate].
  destruct Hf as [-> | (skvp & l & r & c & -> & _)]; [discriminate |].
  intros [= <-]. exists ctx, skvp, l, r, c. rewrite app_nil_r.
  split; [reflexivity |]. split; [exact Hp | exact Hfit].
Qed.

(** The first invocation, by [erase_imp] or [erase_intermediate_node]. *)
Lemma erase_invokes_ready t key p0 p parent side :
  tree_inv t -> find t [] key = OK (true, p0) ->
  (forall fixup, erase_imp_with fixup p0 = fixup p parent side) ->
  fixup_ready p parent side.
Proof.
  intros (Hb & Hs & Hr) Hfind Hcall.
  destruct (find_matched _ _ _ Hfind) as (ctx & skvp & l & r & c & -> & Hp & Hlen).
  apply bst_ascending in Hb. rewrite <- Hp in Hb, Hs, Hr.
  destruct (erase_imp_with_spec ctx skvp l r c Hs Hr Hb Hlen)
    as [(t' & H1 & _) | [[H1 _] | (ctx' & u & orig & side' & pkvp & sib & pc & x
                                   & H1 & H2 & _)]].
  - specialize (Hcall (fun _ _ _ => Err null_dereference)).
    rewrite H1 in Hcall. discriminate.
  - specialize (Hcall (fun _ _ _ => OK nullptr)).
    rewrite H1 in Hcall. discriminate.
  - assert (Hsame : forall fixup : path T -> tree T -> side_t -> result (tree T),
               fixup (ancestors ctx' u) (fill (Frame side' pkvp sib pc) x) side'
               = fixup p parent side)
      by (intros fixup; rewrite <- H1; apply Hcall).
    apply same_call in Hsame. destruct Hsame as (<- & <- & <-).
    apply (fixup_ready_intro _ _ orig), H2.
Qed.

(** A recursive invocation, by [delete_fixup]. *)
Lemma fixup_invokes_ready p parent side p' parent' side' :
  fixup_ready p parent side ->
  (forall self, delete_fixup_step self p parent side = self p' parent' side') ->
  fixup_ready p' parent' side'.
Proof.
  intros (ctx & u & orig & pkvp & sib & pc & x & -> & -> & Hd) Hcall.
  destruct (delete_fixup_step_spec ctx u orig side pkvp sib pc x Hd)
    as [(r & H1 & _) | (g & ctx' & R & -> & H1 & H2 & _)].
  - specialize (Hcall (fun _ _ _ => Err null_dereference)).
    rewrite H1 in Hcall. discriminate.
  - assert (Hsame : forall self : path T -> tree T -> side_t -> result (tree T),
               self (ancestors ctx' (fill g u))
                 (fill (Frame (f_side g) (f_kvp g) (f_sib g) (f_color g)) R) (f_side g)
               = self p' parent' side')
      by (intros self; rewrite <- H1; apply Hcall).
    apply same_call in Hsame. destruct Hsame as (<- & <- & <-).
    apply (fixup_ready_intro _ _ (fill g orig)), H2.
Qed.

Lemma fixup_invoked_ready t key p0 p parent side :
  tree_inv t -> find t [] key = OK (true, p0) ->
  fixup_invoked p0 p parent side -> fixup_ready p parent side.
Proof.
  intros Ht Hfind Hinv.
  induction Hinv as [p parent side Hcall | p parent side p' parent' side' _ IH Hcall].
  - eapply erase_invokes_ready; eauto.
  - eapply fixup_invokes_ready; eauto.
Qed.

Lemma fixup_ready_safe p parent side :
  fixup_ready p parent side ->
  exists sibling,
    get_child (opp side) parent = OK sibling /\
    non_null sibling = true /\
    is_ok (has_black_sibling_with_red_child parent side) = true /\
    is_ok (has_black_sibling_with_black_children parent side) = true /\
    is_ok (delete_fixup p parent side) = true.
Proof.
  intros (ctx & u & orig & pkvp & sib & pc & x & -> & -> & Hd).
  pose proof Hd as (G1 & G2 & G3 & G4 & G5 & G6 & G7 & G8 & G9).
  destruct (delete_fixup_spec ctx u orig side pkvp sib pc x) as (r & Hfix & _); auto.
  destruct sib as [| skvp sl sr sc]; [simpl in G6; discriminate |].
  exists (Node skvp sl sr sc).
  rewrite has_black_sibling_with_red_child_fill,
    has_black_sibling_with_black_children_fill, Hfix.
  change (Node skvp sl sr sc) with (f_sib (Frame side pkvp (Node skvp sl sr sc) pc)) at 1.
  change side with (f_side (Frame side pkvp (Node skvp sl sr sc) pc)) at 1.
  rewrite get_child_opp_fill. auto.
Qed.

End CallFacts.

(** C10: on a tree that satisfies the red-black invariants, at every
    invocation [delete_fixup(p, parent, side)] made while [erase] runs, the
    child of [parent] opposite to [side] is not null; the sibling
    dereferences of the case dispatch raise nothing and the invocation
    returns. *)
Theorem C10_sibling_is_not_null :
  forall (T : Type) (m : immutable_map T) (key : K)
         (p0 p : path T) (parent : tree T) (side : side_t),
    red_black (root_ m) ->
    find (root_ m) [] key = OK (true, p0) ->
    fixup_invoked p0 p parent side ->
    exists sibling,
      get_child (opp side) parent = OK sibling /\
      non_null sibling = true /\
      is_ok (has_black_sibling_with_red_child parent side) = true /\
      is_ok (has_black_sibling_with_black_children parent side) = true /\
      is_ok (delete_fixup p parent side) = true.
Proof.
  intros T m key p0 p parent side Hrb Hfind Hinv.
  apply fixup_ready_safe.
  apply (fixup_invoked_ready (root_ m) key p0); auto.
  apply tree_inv_red_black, Hrb.
Qed.

(** An erase that invokes [delete_fixup]: the black leaf 10 is removed. *)
Lemma C10_witness :
  exists p0 p parent side,
    red_black (root_ deficit_map) /\
    find (root_ deficit_map) [] 10 = OK (true, p0) /\
    fixup_invoked p0 p parent side /\
    exists sibling,
      get_child (opp side) parent = OK sibling /\ non_null sibling = true.
Proof.
  assert (Hrb : red_black (root_ deficit_map)).
  { apply tree_inv_red_black. unfold tree_inv, shape. simpl.
    repeat split; try lia; try discriminate. }
  eexists _, _, _, _. split; [exact Hrb |].
  assert (Hfind : find (root_ deficit_map) [] 10
                  = OK (true, [Node (10, 0) nullptr nullptr BLACK; root_ deficit_map]))
    by reflexivity.
  split; [exact Hfind |].
  assert (Hinv : fixup_invoked
                   [Node (10, 0) nullptr nullptr BLACK; root_ deficit_map]
                   []
                   (Node (15, 0) nullptr
                      (Node (20, 0) nullptr (Node (25, 0) nullptr nullptr RED) BLACK)
                      BLACK)
                   LEFT)
    by (apply invoked_by_erase; intros fixup; reflexivity).
  split; [exact Hinv |].
  destruct (C10_sibling_is_not_null Z deficit_map 10 _ _ _ _ Hrb Hfind Hinv)
    as (sibling & H1 & H2 & _).
  exists sibling. split; [exact H1 | exact H2].
Defined.

(** ** The store model: what an operation leaves in place *)

Section Frame.

Context {T : Type}.
Variable h0 : Store.heap T.

Lemma keeps_ret {A : Type} (a : A) (Q : A -> Prop) :
  Q a -> keeps h0 (Store.ret a) Q.
Proof. intros HQ h Hh. split; [exact Hh |]. cbn. intros b [= <-]. exact HQ. Qed.

Lemma keeps_throw {A : Type} e (Q : A -> Prop) : keeps h0 (Store.throw e) Q.
Proof. intros h Hh. split; [exact Hh |]. cbn. discriminate. Qed.

Lemma keeps_lift {A : Type} (r : result A) : keeps h0 (Store.lift r) (fun _ => True).
Proof. intros h Hh. split; [exact Hh | auto]. Qed.

Lemma keeps_bind {A B : Type} (c : Store.M T A) (k : A -> Store.M T B)
    (P : A -> Prop) (Q : B -> Prop) :
  keeps h0 c P -> (forall a, P a -> keeps h0 (k a) Q) ->
  keeps h0 (Store.bind c k) Q.
Proof.
  intros Hc Hk h Hh. unfold Store.bind.
  destruct (Hc h Hh) as [H1 H2].
  destruct (c h) as [[a | e] h1]; cbn [fst snd] in *.
  - apply (Hk a (H2 a eq_refl) h1 H1).
  - split; [exact H1 | discriminate].
Qed.

Lemma keeps_weaken {A : Type} (c : Store.M T A) (P Q : A -> Prop) :
  keeps h0 c P -> (forall a, P a -> Q a) -> keeps h0 c Q.
Proof. intros Hc HPQ h Hh. destruct (Hc h Hh) as [H1 H2]. split; auto. Qed.

Lemma keeps_deref n : keeps h0 (Store.deref n) (fun _ => True).
Proof.
  intros h Hh. unfold Store.deref.
  destruct n as [l |]; [destruct (h !! l) |]; cbn; auto.
Qed.

(** A new cell is none of the cells of [h0]. *)
Lemma keeps_make_shared c : keeps h0 (Store.make_shared c) (fresh_ptr h0).
Proof.
  intros h Hh. unfold Store.make_shared. cbn [fst snd].
  assert (Hl : h !! fresh (dom h) = None) by (apply not_elem_of_dom, is_fresh).
  assert (Hl0 : h0 !! fresh (dom h) = None) by (eapply lookup_weaken_None; eauto).
  split.
  - apply insert_subseteq_r; assumption.
  - intros a [= <-]. exact Hl0.
Qed.

(** A write to a cell that is none of the cells of [h0]. *)
Lemma keeps_assign n f :
  fresh_ptr h0 n -> keeps h0 (Store.assign n f) (fun _ => True).
Proof.
  intros Hn h Hh. unfold Store.assign.
  destruct n as [l |]; [destruct (h !! l) |]; cbn; auto.
  split; [| auto]. apply insert_subseteq_r; assumption.
Qed.

End Frame.

#[local] Ltac keeps_read :=
  repeat first
    [ apply keeps_deref
    | apply keeps_lift
    | apply keeps_throw
    | apply keeps_ret; exact I
    | match goal with
      | |- keeps _ (Store.bind _ _) _ => eapply keeps_bind; [| intros ? _]
      | |- keeps _ (if ?b then _ else _) _ => destruct b
      end ].

Section FrameCode.

Context {T : Type}.
Variable h0 : Store.heap T.
Implicit Types (n parent : Store.ptr) (p : Store.path) (side : side_t).

Lemma keeps_get_key n : keeps h0 (Store.get_key n) (fun _ => True).
Proof. unfold Store.get_key. keeps_read. Qed.

Lemma keeps_get_pair n : keeps h0 (Store.get_pair n) (fun _ => True).
Proof. unfold Store.get_pair. keeps_read. Qed.

Lemma keeps_get_child side n : keeps h0 (Store.get_child side n) (fun _ => True).
Proof. unfold Store.get_child. keeps_read. Qed.

Lemma keeps_get_color n : keeps h0 (Store.get_color n) (fun _ => True).
Proof. unfold Store.get_color. keeps_read. Qed.

Lemma keeps_is_red n : keeps h0 (Store.is_red n) (fun _ => True).
Proof. unfold Store.is_red, Store.get_color. keeps_read. Qed.

Lemma keeps_is_black n : keeps h0 (Store.is_black n) (fun _ => True).
Proof. unfold Store.is_black, Store.get_color. keeps_read. Qed.

Lemma keeps_red_ptr n : keeps h0 (Store.red_ptr n) (fun _ => True).
Proof. unfold Store.red_ptr. destruct (Store.non_null n); [apply keeps_is_red | keeps_read]. Qed.

Lemma keeps_has_red_child n : keeps h0 (Store.has_red_child n) (fun _ => True).
Proof.
  unfold Store.has_red_child.
  eapply keeps_bind; [apply keeps_get_child | intros l _].
  eapply keeps_bind; [apply keeps_red_ptr | intros [] _]; [keeps_read |].
  eapply keeps_bind; [apply keeps_get_child | intros r _]. apply keeps_red_ptr.
Qed.

Lemma keeps_set_pair kvp n :
  fresh_ptr h0 n -> keeps h0 (Store.set_pair kvp n) (fun _ => True).
Proof. apply keeps_assign. Qed.

Lemma keeps_set_child side child n :
  fresh_ptr h0 n -> keeps h0 (Store.set_child side child n) (fun _ => True).
Proof. apply keeps_assign. Qed.

Lemma keeps_set_color color n :
  fresh_ptr h0 n -> keeps h0 (Store.set_color color n) (fun _ => True).
Proof. apply keeps_assign. Qed.

Lemma keeps_clone n : keeps h0 (Store.clone n) (fresh_ptr h0).
Proof.
  unfold Store.clone.
  eapply keeps_bind; [apply keeps_deref | intros c _]. apply keeps_make_shared.
Qed.

End FrameCode.

Create HintDb keeps discriminated.

#[local] Hint Resolve keeps_get_key keeps_get_pair keeps_get_child keeps_get_color
  keeps_is_red keeps_is_black keeps_red_ptr keeps_has_red_child keeps_clone
  keeps_make_shared keeps_deref keeps_lift keeps_throw : keeps.
#[local] Hint Resolve keeps_set_pair keeps_set_child keeps_set_color : keeps.
#[local] Hint Extern 1 (fresh_ptr _ None) => exact I : keeps.

(** One statement of the code: the rule of its head, then the rest. *)
#[local] Ltac keeps_step :=
  lazymatch goal with
  | |- keeps _ (Store.bind (match ?x with _ => _ end) _) _ => destruct x
  | |- keeps _ (Store.bind _ _) _ =>
      eapply keeps_bind; [solve [eauto 3 with keeps] | intros ? ?]
  | |- keeps _ (Store.ret _) _ => apply keeps_ret; exact I
  | |- keeps _ (Store.throw _) _ => apply keeps_throw
  | |- keeps _ (if ?b then _ else _) _ => destruct b
  | |- keeps _ (match ?x with _ => _ end) _ => destruct x
  | |- keeps _ (let _ := _ in _) _ => cbv zeta
  | |- keeps _ _ _ => solve [eauto 3 with keeps]
  end.

#[local] Ltac keeps_tac := cbv zeta; repeat keeps_step.

Section FrameOps.

Context {T : Type}.
Variable h0 : Store.heap T.
Implicit Types (n parent : Store.ptr) (p : Store.path) (side : side_t).

Lemma keeps_find_loop fuel : forall node p key,
  keeps h0 (Store.find_loop fuel node p key) (fun _ => True).
Proof.
  induction fuel as [| fuel IH]; intros node p key; destruct node; cbn [Store.find_loop];
    keeps_tac; try apply IH.
Qed.

Lemma keeps_find root p key : keeps h0 (Store.find root p key) (fun _ => True).
Proof. apply keeps_find_loop. Qed.

Lemma keeps_find_predecessor_loop fuel : forall node p,
  keeps h0 (Store.find_predecessor_loop fuel node p) (fun _ => True).
Proof.
  induction fuel as [| fuel IH]; intros node p; destruct node;
    cbn [Store.find_predecessor_loop]; keeps_tac; try apply IH.
Qed.

Lemma keeps_find_predecessor p : keeps h0 (Store.find_predecessor p) (fun _ => True).
Proof.
  unfold Store.find_predecessor. keeps_tac. apply keeps_find_predecessor_loop.
Qed.

Lemma keeps_clone_path p : forall n,
  keeps h0 (Store.clone_path p n) (fun _ => True).
Proof.
  induction p as [| parent p IH]; intros n; cbn [Store.clone_path]; [keeps_tac |].
  destruct parent as [l |]; [| keeps_tac]. keeps_tac.
Qed.

Lemma keeps_clone_path_depth p : forall n depth,
  keeps h0 (Store.clone_path_depth p n depth) (fun _ => True).
Proof.
  induction p as [| parent p IH]; intros n depth; cbn [Store.clone_path_depth];
    keeps_tac; try apply IH.
Qed.

Lemma keeps_clone_path_side p : forall n side depth,
  keeps h0 (Store.clone_path_side p n side depth) (fun _ => True).
Proof.
  induction p as [| parent p IH]; intros n side depth; cbn [Store.clone_path_side];
    keeps_tac; try apply IH.
Qed.

End FrameOps.

#[local] Hint Resolve keeps_find keeps_find_predecessor keeps_clone_path
  keeps_clone_path_depth keeps_clone_path_side : keeps.

Section FrameMutators.

Context {T : Type}.
Variable h0 : Store.heap T.
Implicit Types (n parent : Store.ptr) (p : Store.path) (side : side_t).

(** [insert_fix] writes to [n], which its caller has allocated. *)
Lemma keeps_insert_fix p : forall n,
  fresh_ptr h0 n -> keeps h0 (Store.insert_fix p n) (fun _ => True).
Proof.
  assert (H : forall k p, (length p <= k)%nat -> forall n,
             fresh_ptr h0 n -> keeps h0 (Store.insert_fix p n) (fun _ => True));
    [| exact (H (length p) p (Nat.le_refl _))].
  clear p. induction k as [| k IH]; intros p Hk n Hn;
    destruct p as [| parent p1]; cbn [Store.insert_fix length] in *;
    [keeps_tac | lia | keeps_tac |].
  eapply keeps_bind; [solve [eauto with keeps] | intros pb _].
  destruct pb; [keeps_tac |].
  destruct p1 as [| grand_parent p2]; [keeps_tac |].
  cbn [length] in Hk. keeps_tac. apply IH; [lia | assumption].
Qed.

Lemma keeps_insert_imp_path m kvp p :
  keeps h0 (Store.insert_imp_path m kvp p) (fun _ => True).
Proof.
  unfold Store.insert_imp_path.
  destruct (negb _).
  - eapply keeps_weaken; [apply keeps_make_shared | auto].
  - keeps_tac. apply keeps_insert_fix. assumption.
Qed.

Lemma keeps_insert m kvp : keeps h0 (Store.insert m kvp) (fun _ => True).
Proof.
  pose proof keeps_insert_imp_path.
  unfold Store.insert, Store.insert_imp. keeps_tac.
Qed.

Lemma keeps_has_black_sibling_with_red_child parent side :
  keeps h0 (Store.has_black_sibling_with_red_child parent side) (fun _ => True).
Proof. unfold Store.has_black_sibling_with_red_child. keeps_tac. Qed.

Lemma keeps_has_black_sibling_with_black_children parent side :
  keeps h0 (Store.has_black_sibling_with_black_children parent side) (fun _ => True).
Proof. unfold Store.has_black_sibling_with_black_children. keeps_tac. Qed.

Lemma keeps_delete_fixup_1 parent side :
  keeps h0 (Store.delete_fixup_1 parent side) (fun _ => True).
Proof. unfold Store.delete_fixup_1. keeps_tac. Qed.

Lemma keeps_delete_fixup_2 parent side :
  keeps h0 (Store.delete_fixup_2 parent side) (fun _ => True).
Proof. unfold Store.delete_fixup_2. keeps_tac. Qed.

Lemma keeps_delete_fixup_3 parent side :
  keeps h0 (Store.delete_fixup_3 parent side) (fun _ => True).
Proof.
  pose proof keeps_has_black_sibling_with_red_child.
  pose proof keeps_has_black_sibling_with_black_children.
  pose proof keeps_delete_fixup_1. pose proof keeps_delete_fixup_2.
  unfold Store.delete_fixup_3. keeps_tac.
Qed.

Lemma keeps_delete_fixup p : forall parent side,
  keeps h0 (Store.delete_fixup p parent side) (fun _ => True).
Proof.
  pose proof keeps_has_black_sibling_with_red_child.
  pose proof keeps_has_black_sibling_with_black_children.
  pose proof keeps_delete_fixup_1. pose proof keeps_delete_fixup_2.
  pose proof keeps_delete_fixup_3.
  induction p as [| grand_parent p IH]; intros parent side; cbn [Store.delete_fixup];
    keeps_tac.
Qed.

Lemma keeps_erase_intermediate_node p :
  keeps h0 (Store.erase_intermediate_node p) (fun _ => True).
Proof.
  pose proof keeps_delete_fixup.
  unfold Store.erase_intermediate_node. keeps_tac.
Qed.

Lemma keeps_erase_imp p : keeps h0 (Store.erase_imp p) (fun _ => True).
Proof.
  pose proof keeps_delete_fixup. pose proof keeps_erase_intermediate_node.
  unfold Store.erase_imp. keeps_tac.
Qed.

Lemma keeps_erase m key : keeps h0 (Store.erase m key) (fun _ => True).
Proof.
  pose proof keeps_erase_imp.
  unfold Store.erase. keeps_tac.
Qed.

End FrameMutators.

(** Every cell that the store has before [insert] or [erase] runs is in the
    store afterwards, with the same content. *)
Lemma insert_frame {T : Type} (h : Store.heap T) m kvp :
  h ⊆ snd (Store.insert m kvp h).
Proof. apply (keeps_insert h m kvp h). reflexivity. Qed.

Lemma erase_frame {T : Type} (h : Store.heap T) m key :
  h ⊆ snd (Store.erase m key h).
Proof. apply (keeps_erase h m key h). reflexivity. Qed.

Lemma apply_op_frame {T : Type} (h : Store.heap T) m o :
  h ⊆ snd (Store.apply_op m o h).
Proof. destruct o; [apply insert_frame | apply erase_frame]. Qed.

(** ** The store model: reading a tree *)

Section Reads.

Context {T : Type}.
Implicit Types (h : Store.heap T) (n : Store.ptr) (t : tree T) (side : side_t).

Lemma repr_mono h h' n t : h ⊆ h' -> repr h n t -> repr h' n t.
Proof.
  intros Hh Hr. induction Hr as [| l kvp pl pr c tl tr Hl _ IHl _ IHr].
  - constructor.
  - econstructor; [eapply lookup_weaken; eassumption | assumption | assumption].
Qed.

Lemma repr_non_null h n t : repr h n t -> Store.non_null n = non_null t.
Proof. intros []; reflexivity. Qed.

Lemma bind_run {A B : Type} (c : Store.M T A) (k : A -> Store.M T B) h r h' :
  c h = (r, h') ->
  Store.bind c k h = match r with OK a => k a h' | Err e => (Err e, h') end.
Proof. intros H. unfold Store.bind. rewrite H. reflexivity. Qed.

Lemma deref_run h n t :
  repr h n t ->
  Store.deref n h =
  (match t with
   | nullptr => Err null_dereference
   | Node kvp _ _ c =>
       match n with
       | Some l => match h !! l with Some x => OK x | None => Err dangling_pointer end
       | None => Err null_dereference
       end
   end, h).
Proof. intros [| l kvp pl pr c tl tr Hl _ _]; cbn; [reflexivity |]. rewrite Hl. reflexivity. Qed.

Lemma get_key_run h n t : repr h n t -> Store.get_key n h = (get_key t, h).
Proof. intros [| l kvp pl pr c tl tr Hl _ _]; cbn; [reflexivity |]. unfold Store.get_key, Store.bind, Store.deref. rewrite Hl. reflexivity. Qed.

Lemma get_pair_run h n t : repr h n t -> Store.get_pair n h = (get_pair t, h).
Proof. intros [| l kvp pl pr c tl tr Hl _ _]; cbn; [reflexivity |]. unfold Store.get_pair, Store.bind, Store.deref. rewrite Hl. reflexivity. Qed.

Lemma get_color_run h n t : repr h n t -> Store.get_color n h = (get_color t, h).
Proof. intros [| l kvp pl pr c tl tr Hl _ _]; cbn; [reflexivity |]. unfold Store.get_color, Store.bind, Store.deref. rewrite Hl. reflexivity. Qed.

Lemma is_red_run h n t : repr h n t -> Store.is_red n h = (is_red t, h).
Proof.
  intros Hr. unfold Store.is_red, is_red. rewrite (bind_run _ _ _ _ _ (get_color_run _ _ _ Hr)).
  destruct (get_color t); reflexivity.
Qed.

Lemma is_black_run h n t : repr h n t -> Store.is_black n h = (is_black t, h).
Proof.
  intros Hr. unfold Store.is_black, is_black. rewrite (bind_run _ _ _ _ _ (get_color_run _ _ _ Hr)).
  destruct (get_color t); reflexivity.
Qed.

Lemma red_ptr_run h n t : repr h n t -> Store.red_ptr n h = (OK (red_ptr t), h).
Proof.
  intros Hr. unfold Store.red_ptr. rewrite (repr_non_null _ _ _ Hr).
  destruct t as [| kvp l r c]; cbn [non_null]; [reflexivity |].
  rewrite (is_red_run _ _ _ Hr). destruct c; reflexivity.
Qed.

Lemma get_child_run h n t side :
  repr h n t ->
  exists r, Store.get_child side n h = (r, h) /\
            same_outcome (repr h) r (get_child side t).
Proof.
  intros [| l kvp pl pr c tl tr Hl Hpl Hpr]; unfold Store.get_child, Store.bind, Store.deref.
  - eexists; split; [reflexivity | reflexivity].
  - rewrite Hl. eexists; split; [reflexivity |]. destruct side; assumption.
Qed.

Lemma has_red_child_run h n t :
  repr h n t -> Store.has_red_child n h = (has_red_child t, h).
Proof.
  intros Hr. unfold Store.has_red_child.
  destruct (get_child_run _ _ _ LEFT Hr) as (rl & El & Hl).
  destruct (get_child_run _ _ _ RIGHT Hr) as (rr & Er & Hrr).
  rewrite (bind_run _ _ _ _ _ El).
  destruct t as [| kvp l r c]; cbn in Hl, Hrr;
    destruct rl as [pl |]; try contradiction; destruct rr as [pr |]; try contradiction.
  - cbn in Hl. subst. reflexivity.
  - rewrite (bind_run _ _ _ _ _ (red_ptr_run _ _ _ Hl)). cbn [has_red_child].
    destruct (red_ptr l); cbn [orb]; [reflexivity |].
    rewrite (bind_run _ _ _ _ _ Er). apply red_ptr_run, Hrr.
Qed.

(** [find] on the store walks the path that [find] on the tree walks. *)
Lemma find_loop_run t : forall h fuel n p tp key,
  repr h n t -> Forall2 (repr h) p tp ->
  (path_capacity - length p < fuel)%nat ->
  exists r,
    Store.find_loop fuel n p key h = (r, h) /\
    same_outcome (fun x y => fst x = fst y /\ Forall2 (repr h) (snd x) (snd y))
      r (find t tp key).
Proof.
  induction t as [| kvp tl IHl tr IHr c]; intros h fuel n p tp key Hn Hp Hfuel.
  - inversion Hn; subst. exists (OK (false, p)).
    split; [destruct fuel; reflexivity |]. cbn. auto.
  - pose proof Hn as Hn'.
    inversion Hn as [| l kvp' pl pr c' tl' tr' Hl Hpl Hpr]; subst.
    destruct fuel as [| fuel]; [lia |]. cbn [Store.find_loop find].
    pose proof (Forall2_length _ _ _ Hp) as Hlen.
    unfold Store.lift at 1, Store.push, push. rewrite <- Hlen.
    destruct (Nat.ltb_spec (length p) path_capacity) as [Hlt | Hge].
    2:{ exists (Err path_overflow). split; [reflexivity | reflexivity]. }
    unfold Store.bind at 1. cbn [bind].
    rewrite (bind_run _ _ _ _ _ (get_key_run _ _ _ Hn')). cbn [get_key].
    assert (Hp' : Forall2 (repr h) (Some l :: p) (Node kvp tl tr c :: tp))
      by (constructor; assumption).
    destruct (fst kvp =? key).
    { exists (OK (true, Some l :: p)). split; [reflexivity |]. cbn. auto. }
    destruct (fst kvp >? key).
    + destruct (get_child_run _ _ _ LEFT Hn') as (rc & Ec & Hc).
      rewrite (bind_run _ _ _ _ _ Ec). destruct rc as [pc |]; [| contradiction].
      apply IHl; [exact Hc | exact Hp' | cbn [length]; lia].
    + destruct (get_child_run _ _ _ RIGHT Hn') as (rc & Ec & Hc).
      rewrite (bind_run _ _ _ _ _ Ec). destruct rc as [pc |]; [| contradiction].
      apply IHr; [exact Hc | exact Hp' | cbn [length]; lia].
Qed.

Lemma find_run h n t key :
  repr h n t ->
  exists r,
    Store.find n [] key h = (r, h) /\
    same_outcome (fun x y => fst x = fst y /\ Forall2 (repr h) (snd x) (snd y))
      r (find t [] key).
Proof.
  intros Hn. apply find_loop_run; [exact Hn | constructor | cbn [length]; lia].
Qed.

Lemma get_node_repr h p tp :
  Forall2 (repr h) p tp -> repr h (Store.get_node p) (get_node tp).
Proof. intros [| ? ? ? ? H _]; [constructor | exact H]. Qed.

(** The search, [contains] and the traversal read the store as the tree
    model reads the tree. *)
Lemma store_finds_run h m a key v :
  represents h m a -> store_finds h m key v <-> finds a key v.
Proof.
  intros [Hr _]. unfold store_finds, finds.
  destruct (find_run _ _ _ key Hr) as (r & E & Hf). rewrite E.
  destruct r as [[b p] | e], (find (root_ a) [] key) as [[b' tp] | e'];
    cbn in Hf; try contradiction.
  - destruct Hf as [Hb Hp]. cbn in Hb, Hp. subst b'.
    pose proof (get_pair_run _ _ _ (get_node_repr _ _ _ Hp)) as Hg.
    split.
    + intros (p' & [= -> <-] & Hp'). exists tp. split; [reflexivity |].
      rewrite Hg in Hp'. congruence.
    + intros (tp' & [= -> <-] & Htp'). exists p. split; [reflexivity |].
      rewrite Hg, Htp'. reflexivity.
  - split; intros (? & ? & _); discriminate.
Qed.

(** A search reads the same in a store that has more cells. *)
Lemma find_loop_frame t : forall h h' fuel n p key,
  h ⊆ h' -> repr h n t ->
  Store.find_loop fuel n p key h' = (fst (Store.find_loop fuel n p key h), h').
Proof.
  induction t as [| kvp tl IHl tr IHr c]; intros h h' fuel n p key Hh Hn.
  - inversion Hn; subst. destruct fuel; reflexivity.
  - pose proof (repr_mono _ _ _ _ Hh Hn) as Hn'.
    inversion Hn as [| l kvp' pl pr c' tl' tr' Hl Hpl Hpr]; subst.
    pose proof (lookup_weaken _ _ _ _ Hl Hh) as Hl'.
    destruct fuel as [| fuel]; [reflexivity |]. cbn [Store.find_loop].
    assert (Hpush : forall x : Store.heap T,
               Store.lift (Store.push p (Some l)) x = (Store.push p (Some l), x))
      by reflexivity.
    rewrite (bind_run _ _ _ _ _ (Hpush h')), (bind_run _ _ _ _ _ (Hpush h)).
    destruct (Store.push p (Some l)) as [p1 | e]; [| reflexivity].
    rewrite (bind_run _ _ _ _ _ (get_key_run _ _ _ Hn')).
    rewrite (bind_run _ _ _ _ _ (get_key_run _ _ _ Hn)).
    cbn [get_key]. destruct (fst kvp =? key); [reflexivity |].
    assert (Hc : forall side (x : Store.heap T),
               x !! l = Some (Store.mk_node kvp pl pr c) ->
               Store.get_child side (Some l) x
               = (OK (match side with LEFT => pl | RIGHT => pr end), x)).
    { intros side x Hx. unfold Store.get_child, Store.bind, Store.deref.
      rewrite Hx. destruct side; reflexivity. }
    destruct (fst kvp >? key).
    + rewrite (bind_run _ _ _ _ _ (Hc LEFT h' Hl')), (bind_run _ _ _ _ _ (Hc LEFT h Hl)).
      apply IHl; assumption.
    + rewrite (bind_run _ _ _ _ _ (Hc RIGHT h' Hl')), (bind_run _ _ _ _ _ (Hc RIGHT h Hl)).
      apply IHr; assumption.
Qed.

Lemma contains_run h m a key :
  represents h m a -> Store.contains m key h = (contains a key, h).
Proof.
  intros [Hr _]. unfold Store.contains, contains.
  destruct (find_run _ _ _ key Hr) as (r & E & Hf). rewrite (bind_run _ _ _ _ _ E).
  destruct r as [[b p] | e], (find (root_ a) [] key) as [[b' tp] | e'];
    cbn in Hf; try contradiction.
  - destruct Hf as [<- Hp]. reflexivity.
  - subst. reflexivity.
Qed.

Lemma foreach_node_run {A : Type} (f : pair T -> A -> A) fuel :
  forall h n t (s : A),
    repr h n t -> non_null t = true ->
    Store.foreach_node fuel n f s h =
    (if (height t <=? fuel)%nat then OK (foreach_node t f s) else Err out_of_fuel, h).
Proof.
  induction fuel as [| fuel IH]; intros h n t s Hn Ht;
    destruct t as [| kvp tl tr c]; try discriminate.
  - reflexivity.
  - pose proof Hn as Hn'.
    inversion Hn as [| l kvp' pl pr c' tl' tr' Hl Hpl Hpr]; subst.
    cbn [Store.foreach_node height foreach_node].
    destruct (get_child_run _ _ _ LEFT Hn') as (rl & El & Hcl).
    destruct (get_child_run _ _ _ RIGHT Hn') as (rr & Er & Hcr).
    destruct rl as [pl' |]; [| contradiction]. destruct rr as [pr' |]; [| contradiction].
    cbn in Hcl, Hcr.
    rewrite (bind_run _ _ _ _ _ El).
    assert (EL : (if Store.non_null pl' then Store.foreach_node fuel pl' f s
                  else Store.ret s) h
                 = (if (height tl <=? fuel)%nat then OK (foreach_node tl f s)
                    else Err out_of_fuel, h)).
    { rewrite (repr_non_null _ _ _ Hcl). destruct (non_null tl) eqn:E.
      - apply IH; assumption.
      - destruct tl; [reflexivity | discriminate]. }
    rewrite (bind_run _ _ _ _ _ EL).
    change (S (Nat.max (height tl) (height tr)) <=? S fuel)%nat
      with (Nat.max (height tl) (height tr) <=? fuel)%nat.
    destruct (Nat.leb_spec (height tl) fuel) as [Hhl | Hhl].
    2:{ destruct (Nat.leb_spec (Nat.max (height tl) (height tr)) fuel); [lia | reflexivity]. }
    rewrite (bind_run _ _ _ _ _ (get_pair_run _ _ _ Hn')). cbn [get_pair].
    rewrite (bind_run _ _ _ _ _ Er).
    rewrite (repr_non_null _ _ _ Hcr). destruct (non_null tr) eqn:E.
    + rewrite (IH _ _ _ _ Hcr E).
      destruct (Nat.leb_spec (height tr) fuel),
        (Nat.leb_spec (Nat.max (height tl) (height tr)) fuel); try lia; reflexivity.
    + destruct tr; [| discriminate]. cbn [height foreach_node].
      destruct (Nat.leb_spec (Nat.max (height tl) 0) fuel); [reflexivity | lia].
Qed.

Lemma traversal_run h m a fuel :
  represents h m a ->
  Store.traversal fuel m h =
  (if (height (root_ a) <=? fuel)%nat then OK (traversal a) else Err out_of_fuel, h).
Proof.
  intros [Hr _]. unfold Store.traversal, Store.foreach, traversal, foreach.
  rewrite (repr_non_null _ _ _ Hr). destruct (non_null (root_ a)) eqn:E.
  - apply foreach_node_run; assumption.
  - destruct (root_ a); [reflexivity | discriminate].
Qed.

Lemma represents_mono h h' m a : h ⊆ h' -> represents h m a -> represents h' m a.
Proof. intros Hh [H1 H2]. split; [eapply repr_mono; eassumption | exact H2]. Qed.

End Reads.

(** The recursion bound of the two loops that push on the path is never
    what stops them: [push] fails first. *)
Lemma find_loop_fuel {T : Type} fuel : forall (h : Store.heap T) n p key,
  (path_capacity - length p < fuel)%nat ->
  fst (Store.find_loop fuel n p key h) <> Err out_of_fuel.
Proof.
  induction fuel as [| fuel IH]; intros h n p key Hfuel; [lia |].
  destruct n as [l |]; cbn [Store.find_loop]; [| cbn; discriminate].
  unfold Store.bind at 1, Store.lift, Store.push.
  destruct (Nat.ltb_spec (length p) path_capacity) as [Hlt | Hge];
    [| cbn; discriminate].
  unfold Store.get_key, Store.get_child, Store.bind, Store.deref, Store.ret.
  destruct (h !! l) as [c |] eqn:E; [| cbn; discriminate].
  destruct (fst (Store.kvp_ c) =? key); [cbn; discriminate |].
  destruct (fst (Store.kvp_ c) >? key); rewrite E; apply IH; cbn [length]; lia.
Qed.

Lemma find_predecessor_loop_fuel {T : Type} fuel : forall (h : Store.heap T) n p,
  (path_capacity - length p < fuel)%nat ->
  fst (Store.find_predecessor_loop fuel n p h) <> Err out_of_fuel.
Proof.
  induction fuel as [| fuel IH]; intros h n p Hfuel; [lia |].
  destruct n as [l |]; cbn [Store.find_predecessor_loop]; [| cbn; discriminate].
  unfold Store.bind at 1, Store.lift, Store.push.
  destruct (Nat.ltb_spec (length p) path_capacity) as [Hlt | Hge];
    [| cbn; discriminate].
  unfold Store.get_child, Store.bind, Store.deref, Store.ret.
  destruct (h !! l) as [c |] eqn:E; [| cbn; discriminate].
  apply IH; cbn [length]; lia.
Qed.

(** ** C9: the scenario of the README *)

(** C9: the line [map4.at(10)] of the README does not build, since [at]
    cannot be instantiated.  The rest of the scenario runs as the claim
    says.  From the empty store, inserting (10, 3.14), (15, 6.28) and
    (20, 3.14) and then erasing 15 returns [map4] with size 2, without the
    key 11 and with the traversal [(10, 3.14); (20, 3.14)]; the search of
    10 in [map4] stops at a node that holds (10, 3.14); and in the store
    that [erase] has left, [map3] still has size 3, contains 15 and is
    traversed as before. *)
Theorem C9_readme_scenario_on_the_store :
  let '(r1, h1) := Store.insert Store.empty_map (10, 3.14%Q) ∅ in
  match r1 with
  | OK map1 =>
      let '(r2, h2) := Store.insert map1 (15, 6.28%Q) h1 in
      match r2 with
      | OK map2 =>
          let '(r3, h3) := Store.insert map2 (20, 3.14%Q) h2 in
          match r3 with
          | OK map3 =>
              let '(r4, h4) := Store.erase map3 15 h3 in
              match r4 with
              | OK map4 =>
                  Store.size map4 = 2 /\
                  Store.contains map4 11 h4 = (OK false, h4) /\
                  store_finds h4 map4 10 3.14%Q /\
                  Store.traversal 3 map4 h4
                  = (OK [(10, 3.14%Q); (20, 3.14%Q)], h4) /\
                  Store.size map3 = 3 /\
                  Store.contains map3 15 h4 = (OK true, h4) /\
                  Store.traversal 3 map3 h3
                  = (OK [(10, 3.14%Q); (15, 6.28%Q); (20, 3.14%Q)], h3) /\
                  Store.traversal 3 map3 h4
                  = (OK [(10, 3.14%Q); (15, 6.28%Q); (20, 3.14%Q)], h4)
              | Err _ => False
              end
          | Err _ => False
          end
      | Err _ => False
      end
  | Err _ => False
  end.
Proof.
  vm_compute. repeat split. eexists. split; reflexivity.
Qed.

(** C2: [insert] and [erase] leave the receiver as it is.  Whatever the
    operation does, and whether it returns or raises, every cell that the
    store had is still there with its content; the receiver still stands
    for the same tree, with the same size, and the search of a key, the
    pair of the node it stops at, [contains] and the traversal answer on it
    what they answered before the call. *)
Theorem C2_mutators_leave_the_receiver_unchanged :
  forall (T : Type) (h : Store.heap T) (m0 : Store.immutable_map)
         (a0 : immutable_map T) (o : op T),
    represents h m0 a0 ->
    let h' := snd (Store.apply_op m0 o h) in
    h ⊆ h' /\
    represents h' m0 a0 /\
    Store.size m0 = size a0 /\
    (forall key,
        Store.find (Store.root_ m0) [] key h'
        = (fst (Store.find (Store.root_ m0) [] key h), h')) /\
    (forall key b p,
        fst (Store.find (Store.root_ m0) [] key h) = OK (b, p) ->
        Store.get_pair (Store.get_node p) h'
        = (fst (Store.get_pair (Store.get_node p) h), h')) /\
    (forall key, Store.contains m0 key h' = (fst (Store.contains m0 key h), h')) /\
    (forall fuel,
        Store.traversal fuel m0 h' = (fst (Store.traversal fuel m0 h), h')).
Proof.
  intros T h m0 a0 o Hm h'.
  assert (Hh : h ⊆ h') by apply apply_op_frame.
  pose proof (represents_mono _ _ _ _ Hh Hm) as Hm'.
  split; [exact Hh |]. split; [exact Hm' |]. split; [apply Hm |].
  split; [| split; [| split]].
  - intros key. apply (find_loop_frame (root_ a0)); [exact Hh | apply Hm].
  - intros key b p Hfind.
    destruct (find_run _ _ _ key (proj1 Hm)) as (r & E & Hf).
    rewrite E in Hfind. cbn [fst] in Hfind. subst r.
    destruct (find (root_ a0) [] key) as [[b' tp] | e']; cbn in Hf; [| contradiction].
    destruct Hf as [_ Hp]. cbn in Hp.
    pose proof (get_node_repr _ _ _ Hp) as Hg.
    rewrite (get_pair_run _ _ _ (repr_mono _ _ _ _ Hh Hg)), (get_pair_run _ _ _ Hg).
    reflexivity.
  - intros key. rewrite (contains_run _ _ _ key Hm), (contains_run _ _ _ key Hm').
    reflexivity.
  - intros fuel. rewrite (traversal_run _ _ _ fuel Hm), (traversal_run _ _ _ fuel Hm').
    reflexivity.
Qed.

(** The map [map3] of the README in a store, and [erase(15)] on it. *)
Lemma C2_witness :
  represents readme_store readme_store_map3 readme_map3 /\
  Store.traversal 2 readme_store_map3
    (snd (Store.apply_op readme_store_map3 (op_erase 15) readme_store))
  = (fst (Store.traversal 2 readme_store_map3 readme_store),
     snd (Store.apply_op readme_store_map3 (op_erase 15) readme_store)).
Proof.
  assert (H : represents readme_store readme_store_map3 readme_map3).
  { split; [| reflexivity].
    apply (repr_node _ 1%positive _ (Some 2%positive) (Some 3%positive));
      [reflexivity | |].
    - apply (repr_node _ 2%positive _ None None); [reflexivity | constructor | constructor].
    - apply (repr_node _ 3%positive _ None None); [reflexivity | constructor | constructor]. }
  split; [exact H |].
  apply (C2_mutators_leave_the_receiver_unchanged Q readme_store readme_store_map3
           readme_map3 (op_erase 15) H).
Defined.

(** * Further properties of the code *)

(** ** Sorted lists of pairs *)

Section SortedLists.

Context {T : Type}.
Implicit Types (es : list (pair T)) (e kvp : pair T) (k key : K).

Lemma In_list_insert e kvp es :
  In e (list_insert kvp es) <-> e = kvp \/ (In e es /\ fst e <> fst kvp).
Proof.
  unfold list_insert. rewrite in_app_iff. cbn [In]. rewrite !filter_In.
  split.
  - intros [[H1 H2] | [H | [H1 H2]]]; [right | left | right]; auto; split; auto; lia.
  - intros [-> | [H1 H2]]; [auto |].
    destruct (Z.lt_total (fst e) (fst kvp)) as [H | [H | H]];
      [left | contradiction | right; right]; split; auto; lia.
Qed.

Lemma In_list_erase e key es :
  In e (list_erase key es) <-> In e es /\ fst e <> key.
Proof.
  unfold list_erase. rewrite filter_In.
  split; intros [H1 H2]; split; auto.
  - intros E. rewrite E, Z.eqb_refl in H2. discriminate.
  - apply negb_true_iff, Z.eqb_neq, H2.
Qed.

Lemma ascending_In_head (x : K) (l : list K) y :
  ascending (x :: l) -> In y l -> x < y.
Proof. intros H Hy. apply ascending_cons in H. apply H, Hy. Qed.

(** A list sorted by key is determined by its members. *)
Lemma ascending_ext es1 : forall es2,
  ascending (map fst es1) -> ascending (map fst es2) ->
  (forall e, In e es1 <-> In e es2) -> es1 = es2.
Proof.
  induction es1 as [| a es1 IH]; intros [| b es2] H1 H2 Hin.
  - reflexivity.
  - destruct (proj2 (Hin b)); left; reflexivity.
  - destruct (proj1 (Hin a)); left; reflexivity.
  - cbn [map] in H1, H2.
    pose proof (fun e He => ascending_In_head _ _ (fst e) H1 (in_map fst _ e He)) as Ha.
    pose proof (fun e He => ascending_In_head _ _ (fst e) H2 (in_map fst _ e He)) as Hb.
    assert (a = b) as ->.
    { destruct (proj1 (Hin a) (or_introl eq_refl)) as [E | Ea]; [auto |].
      destruct (proj2 (Hin b) (or_introl eq_refl)) as [E | Eb]; [auto |].
      specialize (Ha _ Eb). specialize (Hb _ Ea). lia. }
    f_equal. apply IH.
    + apply ascending_cons in H1. apply H1.
    + apply ascending_cons in H2. apply H2.
    + intros e. split; intros He.
      * destruct (proj1 (Hin e) (or_intror He)) as [E | E]; [| exact E].
        subst e. specialize (Ha _ He). lia.
      * destruct (proj2 (Hin e) (or_intror He)) as [E | E]; [| exact E].
        subst e. specialize (Hb _ He). lia.
Qed.

Lemma list_at_erase_ne k key es :
  k <> key -> list_at k (list_erase key es) = list_at k es.
Proof.
  intros Hne. unfold list_erase. induction es as [| e es IH]; [reflexivity |].
  cbn [List.filter list_at].
  destruct (Z.eqb_spec (fst e) key) as [E | E]; cbn [negb list_at].
  - destruct (Z.eqb_spec (fst e) k); [lia | exact IH].
  - rewrite IH. reflexivity.
Qed.

Lemma list_at_insert_ne k kvp es :
  ascending (map fst es) -> k <> fst kvp ->
  list_at k (list_insert kvp es) = list_at k es.
Proof.
  intros Ha Hne.
  pose proof (ascending_list_insert kvp es Ha) as Ha'.
  destruct (list_at k es) as [v |] eqn:E.
  - apply (list_at_In _ _ _ Ha'), In_list_insert. right.
    split; [apply (list_at_In _ _ _ Ha), E | exact Hne].
  - destruct (list_at k (list_insert kvp es)) as [v |] eqn:E'; [| reflexivity].
    apply (list_at_In _ _ _ Ha'), In_list_insert in E'.
    destruct E' as [E' | [E' _]]; [subst kvp; contradiction |].
    apply (list_at_In _ _ _ Ha) in E'. congruence.
Qed.

Lemma list_at_insert k kvp es :
  ascending (map fst es) ->
  list_at k (list_insert kvp es) =
  if fst kvp =? k then Some (snd kvp) else list_at k es.
Proof.
  intros Ha. destruct (Z.eqb_spec (fst kvp) k) as [<- | Hne].
  - apply list_at_insert_eq.
  - apply list_at_insert_ne; auto.
Qed.

Lemma list_at_erase k key es :
  list_at k (list_erase key es) = if key =? k then None else list_at k es.
Proof.
  destruct (Z.eqb_spec key k) as [<- | Hne].
  - apply list_at_erase_eq.
  - apply list_at_erase_ne; auto.
Qed.

End SortedLists.

(** ** Reachable maps *)

Section Reachable.

Context {T : Type}.
Implicit Types (m : immutable_map T) (k key : K).

Lemma reachable_ascending m : reachable m -> ascending (map fst (traversal m)).
Proof. intros Hr. apply (reachable_facts m Hr). Qed.

Lemma reachable_size m :
  reachable m -> Z.of_nat (length (traversal m)) <= SIZE_MAX ->
  size m = Z.of_nat (length (traversal m)).
Proof.
  intros Hr Hc. destruct (reachable_facts m Hr) as (_ & _ & ->).
  apply size_t_wrap_small. lia.
Qed.

Lemma reachable_apply_op m o :
  reachable m -> Z.of_nat (length (traversal m)) <= SIZE_MAX ->
  exists m',
    apply_op m o = OK m' /\ reachable m' /\
    (length (traversal m') <= S (length (traversal m)))%nat /\
    (forall k, list_at k (traversal m') =
               match o with
               | op_insert kvp =>
                   if fst kvp =? k then Some (snd kvp) else list_at k (traversal m)
               | op_erase key =>
                   if key =? k then None else list_at k (traversal m)
               end) /\
    (forall e, In e (traversal m') <->
               match o with
               | op_insert kvp => e = kvp \/ (In e (traversal m) /\ fst e <> fst kvp)
               | op_erase key => In e (traversal m) /\ fst e <> key
               end).
Proof.
  intros Hr Hc. pose proof (reachable_ascending m Hr) as Ha.
  destruct o as [kvp | key]; cbn [apply_op].
  - destruct (reachable_insert m kvp Hr Hc) as (m' & H1 & H2 & H3 & _).
    exists m'. split; [exact H1 |]. split; [exact H2 |].
    split; [apply (length_traversal_insert m kvp); assumption |].
    rewrite H3. split; [intros k; apply list_at_insert, Ha | intros e; apply In_list_insert].
  - destruct (reachable_erase m key Hr Hc) as (m' & H1 & H2 & H3 & _).
    exists m'. split; [exact H1 |]. split; [exact H2 |].
    rewrite !traversal_elements.
    split; [apply Nat.le_le_succ_r, (erase_inv m key m' (reachable_inv m Hr) H1) |].
    rewrite <- !traversal_elements, H3.
    split; [intros k; apply list_at_erase | intros e; apply In_list_erase].
Qed.

End Reachable.

(** ** Concrete reachable maps for the instances below *)

Lemma reachable_empty_map {T : Type} : reachable (@empty_map T).
Proof. exists []. reflexivity. Qed.

Lemma reachable_readme_map3 : reachable readme_map3.
Proof. exists (firstn 3 readme_ops). vm_compute. reflexivity. Qed.

Lemma readme_map3_small : Z.of_nat (length (traversal readme_map3)) < SIZE_MAX.
Proof. vm_compute. reflexivity. Qed.

(** ** Lookups after one operation *)

(** X1: [insert] of a pair with the key [k] changes nothing at any other key:
    on the map it returns, for every [k' <> k], [contains] answers what it
    answers on the receiver, the traversal has the same pairs with the key
    [k'], and the search of [k'] stops at a node with the same pair. *)
Theorem insert_keeps_the_other_keys :
  forall (T : Type) (m : immutable_map T) (k k' : K) (v : T),
    reachable m ->
    Z.of_nat (length (traversal m)) < SIZE_MAX ->
    k' <> k ->
    exists m',
      insert m (k, v) = OK m' /\
      contains m' k' = contains m k' /\
      (forall v', In (k', v') (traversal m') <-> In (k', v') (traversal m)) /\
      (forall v', finds m' k' v' <-> finds m k' v').
Proof.
  intros T m k k' v Hr Hc Hne.
  destruct (reachable_apply_op m (op_insert (k, v)) Hr ltac:(lia))
    as (m' & H1 & H2 & H3 & H4 & _).
  assert (Hat : list_at k' (traversal m') = list_at k' (traversal m)).
  { rewrite H4. cbn [fst snd]. destruct (Z.eqb_spec k k'); [congruence | reflexivity]. }
  exists m'. split; [exact H1 |]. split; [| split].
  - rewrite (contains_traversal m' k' H2), (contains_traversal m k' Hr) by lia.
    rewrite Hat. reflexivity.
  - intros v'.
    rewrite <- (list_at_In k' _ v' (reachable_ascending m' H2)).
    rewrite <- (list_at_In k' _ v' (reachable_ascending m Hr)).
    rewrite Hat. reflexivity.
  - intros v'. rewrite (finds_traversal m' k' v' H2), (finds_traversal m k' v' Hr) by lia.
    rewrite Hat. reflexivity.
Qed.

Lemma insert_keeps_the_other_keys_witness :
  reachable readme_map3 /\
  Z.of_nat (length (traversal readme_map3)) < SIZE_MAX /\
  10 <> 12 /\
  exists m',
    insert readme_map3 (12, 1%Q) = OK m' /\
    contains m' 10 = contains readme_map3 10 /\
    (forall v', In (10, v') (traversal m') <-> In (10, v') (traversal readme_map3)) /\
    (forall v', finds m' 10 v' <-> finds readme_map3 10 v').
Proof.
  split; [exact reachable_readme_map3 |]. split; [exact readme_map3_small |].
  split; [discriminate |].
  apply (insert_keeps_the_other_keys Q readme_map3 12 10 1%Q
           reachable_readme_map3 readme_map3_small).
  discriminate.
Defined.

(** X2: [erase] of a key that the map contains returns a map one pair
    smaller, whose traversal is the traversal of the receiver with the pair
    of that key left out; the map it returns does not contain the key and
    no search of the key reports a match, and at every other key
    [contains] and the search answer as on the receiver. *)
Theorem erase_removes_exactly_the_key :
  forall (T : Type) (m : immutable_map T) (k : K),
    reachable m ->
    Z.of_nat (length (traversal m)) <= SIZE_MAX ->
    contains m k = OK true ->
    exists m',
      erase m k = OK m' /\
      size m' = size m - 1 /\
      traversal m' = List.filter (fun e => negb (fst e =? k)) (traversal m) /\
      contains m' k = OK false /\
      (forall v, ~ finds m' k v) /\
      (forall k', k' <> k ->
         contains m' k' = contains m k' /\
         (forall v', finds m' k' v' <-> finds m k' v')).
Proof.
  intros T m k Hr Hc Hk.
  rewrite (contains_traversal m k Hr Hc) in Hk.
  destruct (list_at k (traversal m)) as [v |] eqn:E; [clear Hk | discriminate].
  pose proof (reachable_ascending m Hr) as Ha.
  destruct (reachable_erase m k Hr Hc) as (m' & H1 & H2 & H3 & H4).
  rewrite E in H4.
  assert (Hlen : S (length (traversal m')) = length (traversal m))
    by (rewrite H3; apply (length_list_erase_present k _ v Ha E)).
  assert (Hc' : Z.of_nat (length (traversal m')) <= SIZE_MAX).
  { rewrite <- Hlen in Hc. rewrite Nat2Z.inj_succ in Hc.
    eapply Z.le_trans; [apply Z.le_succ_diag_r | exact Hc]. }
  exists m'. split; [exact H1 |]. split; [| split; [exact H3 |]].
  - unfold size in *. rewrite H4. pose proof (reachable_size m Hr Hc) as Hs.
    unfold size in Hs. rewrite Hs. apply size_t_wrap_small. lia.
  - split; [| split].
    + rewrite (contains_traversal m' k H2 Hc'), H3, list_at_erase_eq. reflexivity.
    + intros w. rewrite (finds_traversal m' k w H2 Hc'), H3, list_at_erase_eq.
      discriminate.
    + intros k' Hne. split.
      * rewrite (contains_traversal m' k' H2 Hc'), (contains_traversal m k' Hr Hc).
        rewrite H3, list_at_erase_ne by auto. reflexivity.
      * intros v'.
        rewrite (finds_traversal m' k' v' H2 Hc'), (finds_traversal m k' v' Hr Hc).
        rewrite H3, list_at_erase_ne by auto. reflexivity.
Qed.

Lemma erase_removes_exactly_the_key_witness :
  reachable readme_map3 /\
  Z.of_nat (length (traversal readme_map3)) <= SIZE_MAX /\
  contains readme_map3 15 = OK true /\
  exists m',
    erase readme_map3 15 = OK m' /\
    size m' = size readme_map3 - 1 /\
    traversal m' = List.filter (fun e => negb (fst e =? 15)) (traversal readme_map3) /\
    contains m' 15 = OK false /\
    (forall v, ~ finds m' 15 v) /\
    (forall k', k' <> 15 ->
       contains m' k' = contains readme_map3 k' /\
       (forall v', finds m' k' v' <-> finds readme_map3 k' v')).
Proof.
  assert (Hc : Z.of_nat (length (traversal readme_map3)) <= SIZE_MAX)
    by (vm_compute; discriminate).
  split; [exact reachable_readme_map3 |]. split; [exact Hc |].
  split; [reflexivity |].
  apply (erase_removes_exactly_the_key Q readme_map3 15 reachable_readme_map3 Hc).
  reflexivity.
Defined.

(** X3: a second [erase] of the same key returns the map it is applied to:
    after [erase(k)] the key is absent, and [erase] of an absent key returns
    [*this]. *)
Theorem erase_twice :
  forall (T : Type) (m : immutable_map T) (k : K),
    reachable m ->
    Z.of_nat (length (traversal m)) <= SIZE_MAX ->
    exists m',
      erase m k = OK m' /\ erase m' k = OK m' /\ contains m' k = OK false.
Proof.
  intros T m k Hr Hc.
  destruct (reachable_apply_op m (op_erase k) Hr Hc) as (m' & H1 & H2 & _ & H4 & _).
  cbn [apply_op] in H1.
  assert (Hc' : Z.of_nat (length (traversal m')) <= SIZE_MAX).
  { rewrite !traversal_elements in *.
    pose proof (erase_inv m k m' (reachable_inv m Hr) H1) as (_ & _ & Hle).
    unfold count in Hle. lia. }
  assert (E : list_at k (traversal m') = None)
    by (rewrite H4, Z.eqb_refl; reflexivity).
  exists m'. split; [exact H1 |]. split.
  - destruct (reachable_erase m' k H2 Hc') as (m'' & G1 & _ & _ & G4).
    rewrite E in G4. congruence.
  - rewrite (contains_traversal m' k H2 Hc'), E. reflexivity.
Qed.

Lemma erase_twice_witness :
  reachable readme_map3 /\
  Z.of_nat (length (traversal readme_map3)) <= SIZE_MAX /\
  exists m',
    erase readme_map3 15 = OK m' /\ erase m' 15 = OK m' /\ contains m' 15 = OK false.
Proof.
  assert (Hc : Z.of_nat (length (traversal readme_map3)) <= SIZE_MAX)
    by (vm_compute; discriminate).
  split; [exact reachable_readme_map3 |]. split; [exact Hc |].
  apply (erase_twice Q readme_map3 15 reachable_readme_map3 Hc).
Defined.

(** ** Sequences of operations *)

Section Histories.

Context {T : Type}.
Implicit Types (m : immutable_map T) (k : K) (ops : list (op T)).

Lemma run_history ops : forall m,
  reachable m ->
  Z.of_nat (length (traversal m) + length ops) <= SIZE_MAX ->
  exists m',
    run ops m = OK m' /\ reachable m' /\
    (length (traversal m') <= length (traversal m) + length ops)%nat /\
    forall k, list_at k (traversal m') = lookup_after ops k (list_at k (traversal m)).
Proof.
  induction ops as [| o ops IH]; intros m Hr Hc; cbn [run lookup_after length] in *.
  - exists m. split; [reflexivity |]. split; [exact Hr |]. split; [lia | auto].
  - destruct (reachable_apply_op m o Hr ltac:(lia)) as (m1 & H1 & H2 & H3 & H4 & _).
    rewrite H1. cbn [bind].
    destruct (IH m1 H2 ltac:(lia)) as (m' & G1 & G2 & G3 & G4).
    exists m'. split; [exact G1 |]. split; [exact G2 |]. split; [lia |].
    intros k. rewrite G4, H4. destruct o; reflexivity.
Qed.

End Histories.

(** X4: two operations on different keys commute: applied to a map in either
    order, they return maps with the same traversal and the same size. *)
Theorem operations_on_different_keys_commute :
  forall (T : Type) (m : immutable_map T) (o1 o2 : op T),
    reachable m ->
    Z.of_nat (length (traversal m)) < SIZE_MAX ->
    op_key o1 <> op_key o2 ->
    exists m12 m21,
      run [o1; o2] m = OK m12 /\
      run [o2; o1] m = OK m21 /\
      traversal m12 = traversal m21 /\
      size m12 = size m21.
Proof.
  intros T m o1 o2 Hr Hc Hne. cbn [run].
  destruct (reachable_apply_op m o1 Hr ltac:(lia)) as (m1 & A1 & A2 & A3 & _ & A5).
  destruct (reachable_apply_op m o2 Hr ltac:(lia)) as (m2 & B1 & B2 & B3 & _ & B5).
  destruct (reachable_apply_op m1 o2 A2 ltac:(lia)) as (m12 & C1 & C2 & _ & _ & C5).
  destruct (reachable_apply_op m2 o1 B2 ltac:(lia)) as (m21 & D1 & D2 & _ & _ & D5).
  exists m12, m21. rewrite A1, B1. cbn [bind]. rewrite C1, D1. cbn [bind].
  split; [reflexivity |]. split; [reflexivity |].
  assert (E : traversal m12 = traversal m21).
  { apply ascending_ext; [apply reachable_ascending, C2 | apply reachable_ascending, D2 |].
    intros e. rewrite C5, D5.
    destruct o1 as [a | a], o2 as [b | b]; cbn [op_key] in Hne;
      rewrite ?A5, ?B5; intuition (subst; auto; congruence). }
  split; [exact E |].
  destruct (reachable_facts m12 C2) as (_ & _ & ->).
  destruct (reachable_facts m21 D2) as (_ & _ & ->). rewrite E. reflexivity.
Qed.

Lemma operations_on_different_keys_commute_witness :
  reachable readme_map3 /\
  Z.of_nat (length (traversal readme_map3)) < SIZE_MAX /\
  @op_key Q (op_insert (12, 1%Q)) <> @op_key Q (op_erase 15) /\
  exists m12 m21,
    run [op_insert (12, 1%Q); op_erase 15] readme_map3 = OK m12 /\
    run [op_erase 15; op_insert (12, 1%Q)] readme_map3 = OK m21 /\
    traversal m12 = traversal m21 /\
    size m12 = size m21.
Proof.
  split; [exact reachable_readme_map3 |]. split; [exact readme_map3_small |].
  split; [discriminate |].
  apply (operations_on_different_keys_commute Q readme_map3 (op_insert (12, 1%Q))
           (op_erase 15) reachable_readme_map3 readme_map3_small).
  discriminate.
Defined.

(** X5: after any sequence of [insert] and [erase] from the empty map, what
    the map holds at a key is what the last operation on that key has left:
    the search of the key stops at a node with the value of the last
    [insert] of the key, the traversal has this pair, and [contains]
    accepts the key, unless the key was never inserted or an [erase] of it
    came after its last [insert]; then no search reports a match and
    [contains] rejects the key. *)
Theorem pairs_after_a_history :
  forall (T : Type) (ops : list (op T)) (k : K),
    Z.of_nat (length ops) <= SIZE_MAX ->
    exists m,
      run ops empty_map = OK m /\
      (forall v, finds m k v <-> lookup_after ops k None = Some v) /\
      (forall v, In (k, v) (traversal m) <-> lookup_after ops k None = Some v) /\
      contains m k = OK (match lookup_after ops k None with
                         | Some _ => true
                         | None => false
                         end).
Proof.
  intros T ops k Hc.
  destruct (run_history ops empty_map reachable_empty_map Hc) as (m & H1 & H2 & H3 & H4).
  cbn [traversal foreach foreach_node empty_map root_ length Nat.add list_at] in H3, H4.
  exists m. split; [exact H1 |]. split; [| split].
  - intros v. rewrite (finds_traversal m k v H2), H4 by lia. reflexivity.
  - intros v. rewrite <- (list_at_In k _ v (reachable_ascending m H2)), H4. reflexivity.
  - rewrite (contains_traversal m k H2), H4 by lia. reflexivity.
Qed.

Lemma pairs_after_a_history_witness :
  Z.of_nat (length readme_ops) <= SIZE_MAX /\
  exists m,
    run readme_ops empty_map = OK m /\
    (forall v, finds m 15 v <-> lookup_after readme_ops 15 None = Some v) /\
    (forall v, In (15, v) (traversal m) <-> lookup_after readme_ops 15 None = Some v) /\
    contains m 15 = OK (match lookup_after readme_ops 15 None with
                        | Some _ => true
                        | None => false
                        end).
Proof.
  assert (Hc : Z.of_nat (length readme_ops) <= SIZE_MAX) by (vm_compute; discriminate).
  split; [exact Hc |]. apply (pairs_after_a_history Q readme_ops 15 Hc).
Defined.

(** ** Size and shape *)

(** X6: the tree of a map that the interface can produce is at most twice
    the binary logarithm of its number of pairs plus one high: this bounds
    the path that [find], [insert] and [erase] walk. *)
Theorem height_is_logarithmic :
  forall (T : Type) (m : immutable_map T),
    reachable m ->
    (height (root_ m) <= 2 * Nat.log2 (length (traversal m) + 1))%nat.
Proof.
  intros T m Hr. destruct (reachable_facts m Hr) as ((_ & Hs & Hroot) & _ & _).
  rewrite traversal_elements.
  pose proof (height_bh _ Hs) as Hh. rewrite Hroot in Hh.
  pose proof (count_bh _ (proj2 Hs)) as Hcnt. unfold count in Hcnt.
  apply Nat.log2_le_mono in Hcnt. rewrite Nat.log2_pow2 in Hcnt by lia. lia.
Qed.

Lemma height_is_logarithmic_witness :
  reachable readme_map3 /\
  (height (root_ readme_map3) <= 2 * Nat.log2 (length (traversal readme_map3) + 1))%nat.
Proof.
  split; [exact reachable_readme_map3 |].
  apply (height_is_logarithmic Q readme_map3 reachable_readme_map3).
Defined.

(** X7: [empty()] compares the stored count with zero; on a map that the
    interface can produce it is true exactly when the traversal visits no
    pair, that is, when the root is null. *)
Theorem empty_iff_no_pairs :
  forall (T : Type) (m : immutable_map T),
    reachable m ->
    Z.of_nat (length (traversal m)) <= SIZE_MAX ->
    (empty m = true <-> traversal m = []) /\
    (empty m = true <-> root_ m = nullptr).
Proof.
  intros T m Hr Hc. pose proof (reachable_size m Hr Hc) as Hs.
  unfold empty, size in *. rewrite Hs, Z.eqb_eq.
  assert (H : Z.of_nat (length (traversal m)) = 0 <-> traversal m = []).
  { destruct (traversal m); cbn [length]; split; try reflexivity; try discriminate; lia. }
  split; [exact H |]. rewrite H, traversal_elements.
  destruct (root_ m) as [| kvp l r c]; cbn [elements]; split; try reflexivity;
    try discriminate.
  intros E. destruct (elements l); discriminate.
Qed.

Lemma empty_iff_no_pairs_witness :
  reachable readme_map3 /\
  Z.of_nat (length (traversal readme_map3)) <= SIZE_MAX /\
  (empty readme_map3 = true <-> traversal readme_map3 = []) /\
  (empty readme_map3 = true <-> root_ readme_map3 = nullptr).
Proof.
  assert (Hc : Z.of_nat (length (traversal readme_map3)) <= SIZE_MAX)
    by (vm_compute; discriminate).
  split; [exact reachable_readme_map3 |]. split; [exact Hc |].
  apply (empty_iff_no_pairs Q readme_map3 reachable_readme_map3 Hc).
Defined.

(** ** The traversal after [insert] *)

Section InsertTraversal.

Context {T : Type}.
Implicit Types (es : list (pair T)) (k : K) (v : T).

Lemma map_fst_list_replace k v es : map fst (list_replace k v es) = map fst es.
Proof.
  unfold list_replace. rewrite map_map. apply map_ext_in. intros e _.
  destruct (Z.eqb_spec (fst e) k); [cbn; congruence | reflexivity].
Qed.

Lemma list_insert_present k v es v0 :
  ascending (map fst es) -> list_at k es = Some v0 ->
  list_insert (k, v) es = list_replace k v es.
Proof.
  intros Ha E. apply ascending_ext.
  - apply ascending_list_insert, Ha.
  - rewrite map_fst_list_replace. exact Ha.
  - intros e. rewrite In_list_insert. unfold list_replace. rewrite in_map_iff.
    cbn [fst]. split.
    + intros [-> | [H1 H2]].
      * exists (k, v0). rewrite Z.eqb_refl.
        split; [reflexivity | apply (list_at_In _ _ _ Ha), E].
      * exists e. destruct (Z.eqb_spec (fst e) k); [contradiction | auto].
    + intros (e0 & H1 & H2). destruct (Z.eqb_spec (fst e0) k); subst e; auto.
Qed.

Lemma list_insert_absent k v es :
  ascending (map fst es) -> list_at k es = None ->
  exists before after,
    es = before ++ after /\
    list_insert (k, v) es = before ++ (k, v) :: after /\
    (forall e, In e before -> fst e < k) /\
    (forall e, In e after -> k < fst e).
Proof.
  intros Ha E.
  exists (List.filter (fun e => fst e <? k) es), (List.filter (fun e => k <? fst e) es).
  split; [| split; [reflexivity | split]].
  - symmetry. apply filter_lt_gt; [exact Ha |].
    intros e He Hk. assert (In k (map fst es)) by (subst k; apply in_map, He).
    apply list_at_is_Some in H. destruct H as [v' H]. congruence.
  - intros e He. apply filter_In in He. lia.
  - intros e He. apply filter_In in He. lia.
Qed.

End InsertTraversal.

(** X8: [insert] of a pair whose key the map contains replaces the pair of
    that key where it stands in the traversal; [insert] of a pair with a new
    key puts the pair between the pairs with smaller keys and the pairs with
    greater keys, which stay in their order. *)
Theorem insert_places_the_pair :
  forall (T : Type) (m : immutable_map T) (k : K) (v : T),
    reachable m ->
    Z.of_nat (length (traversal m)) <= SIZE_MAX ->
    exists m',
      insert m (k, v) = OK m' /\
      (contains m k = OK true ->
       traversal m' = list_replace k v (traversal m)) /\
      (contains m k = OK false ->
       exists before after,
         traversal m = before ++ after /\
         traversal m' = before ++ (k, v) :: after /\
         (forall e, In e before -> fst e < k) /\
         (forall e, In e after -> k < fst e)).
Proof.
  intros T m k v Hr Hc.
  destruct (reachable_insert m (k, v) Hr Hc) as (m' & H1 & _ & H3 & _).
  pose proof (reachable_ascending m Hr) as Ha.
  exists m'. split; [exact H1 |].
  rewrite (contains_traversal m k Hr Hc), H3.
  destruct (list_at k (traversal m)) as [v0 |] eqn:E; split; try discriminate; intros _.
  - apply (list_insert_present k v _ v0 Ha E).
  - apply (list_insert_absent k v _ Ha E).
Qed.

Lemma insert_places_the_pair_witness :
  reachable readme_map3 /\
  Z.of_nat (length (traversal readme_map3)) <= SIZE_MAX /\
  exists m',
    insert readme_map3 (15, 1%Q) = OK m' /\
    (contains readme_map3 15 = OK true ->
     traversal m' = list_replace 15 1%Q (traversal readme_map3)) /\
    (contains readme_map3 15 = OK false ->
     exists before after,
       traversal readme_map3 = before ++ after /\
       traversal m' = before ++ (15, 1%Q) :: after /\
       (forall e, In e before -> fst e < 15) /\
       (forall e, In e after -> 15 < fst e)).
Proof.
  assert (Hc : Z.of_nat (length (traversal readme_map3)) <= SIZE_MAX)
    by (vm_compute; discriminate).
  split; [exact reachable_readme_map3 |]. split; [exact Hc |].
  apply (insert_places_the_pair Q readme_map3 15 1%Q reachable_readme_map3 Hc).
Defined.

(** ** Searches *)

Section Searches.

Context {T : Type}.
Implicit Types (t : tree T) (p : path T).

Lemma last_ancestors (ctx : list (frame T)) t :
  ctx <> [] -> List.last (ancestors ctx t) nullptr = plug ctx t.
Proof.
  revert t. induction ctx as [| f ctx IH]; intros t Hne; [contradiction |].
  cbn [ancestors plug]. destruct ctx as [| g ctx]; [reflexivity |].
  rewrite <- IH by discriminate. reflexivity.
Qed.

Lemma last_app_r {A : Type} (l1 l2 : list A) d :
  l2 <> [] -> List.last (l1 ++ l2) d = List.last l2 d.
Proof.
  intros Hne. induction l1 as [| a l1 IH]; [reflexivity |].
  cbn [app List.last]. destruct (l1 ++ l2) eqn:E; [| exact IH].
  apply app_eq_nil in E. destruct E. contradiction.
Qed.

End Searches.

(** X9: [find] from an empty path never fails but by running out of the 128
    slots of the path, which takes a tree more than 128 high.  When it
    returns, the path is no longer than the tree is high and starts at the
    root; when it reports a match, the node on top of the path has the key;
    and on a search tree it reports a match exactly for the keys of the
    tree. *)
Theorem find_outcome :
  forall (T : Type) (t : tree T) (key : K),
    (forall e, find t [] key = Err e ->
               e = path_overflow /\ (path_capacity < height t)%nat) /\
    (forall b p, find t [] key = OK (b, p) ->
       (length p <= height t)%nat /\
       (length p <= path_capacity)%nat /\
       (p <> [] -> List.last p nullptr = t) /\
       (b = true -> exists v l r c, get_node p = Node (key, v) l r c) /\
       (bst t -> (b = true <-> In key (keys t)))).
Proof.
  intros T t key. rewrite find_locate by (cbn [length]; lia). cbn [length Nat.add].
  pose proof (locate_plug t key) as Hplug.
  pose proof (length_locate_height t key) as Hh.
  pose proof (locate_found t key) as Hf.
  pose proof (locate_list_at t key) as Hat.
  pose proof (list_at_is_Some key (elements t)) as Hin.
  destruct (locate t key) as [ctx s]. cbn [fst snd] in *. rewrite app_nil_r.
  assert (Hlen : length (node_path s) = if non_null s then 1%nat else 0%nat)
    by (unfold node_path; destruct (non_null s); reflexivity).
  destruct (Nat.leb_spec (length ctx + length (node_path s)) path_capacity) as [Hfit | Hfit].
  - split; [discriminate |]. intros b p [= <- <-]. rewrite length_app, length_ancestors.
    split; [lia |]. split; [lia |]. split; [| split].
    + intros _. destruct ctx as [| f ctx].
      * cbn in *. subst s. unfold node_path. destruct (non_null t) eqn:E; [reflexivity |].
        destruct t; [reflexivity | discriminate].
      * rewrite last_app_r by discriminate. rewrite last_ancestors by discriminate.
        exact Hplug.
    + intros Hb. destruct Hf as [-> | (kvp & l & r & c & -> & Hk)]; [discriminate |].
      destruct kvp as [k v]. cbn in Hk. subst k. unfold node_path. cbn. eauto.
    + intros Hbst. specialize (Hat Hbst). unfold keys. rewrite <- Hin, Hat.
      destruct s; cbn [non_null]; split; try discriminate; eauto.
      intros [v Hv]. discriminate.
  - split; [| discriminate]. intros e [= <-]. split; [reflexivity | lia].
Qed.

Section Predecessor.

Context {T : Type}.
Implicit Types (t : tree T) (p : path T).

(** The loop of [find_predecessor] pushes the rightmost branch, node by
    node, unless the path array is too short for it. *)
Lemma find_predecessor_loop_right_branch t : forall p,
  (length p <= path_capacity)%nat ->
  find_predecessor_loop t p =
  if (length p + length (right_branch t) <=? path_capacity)%nat
  then OK (rev (right_branch t) ++ p)
  else Err path_overflow.
Proof.
  induction t as [| kvp l _ r IHr c]; intros p Hp;
    cbn [find_predecessor_loop right_branch length rev app].
  - rewrite Nat.add_0_r. destruct (Nat.leb_spec (length p) path_capacity); [reflexivity | lia].
  - unfold push. destruct (Nat.ltb_spec (length p) path_capacity) as [Hlt | Hge]; cbn [bind].
    + rewrite IHr by (cbn [length]; lia). cbn [length].
      rewrite <- app_assoc. cbn [app].
      destruct (Nat.leb_spec (S (length p) + length (right_branch r)) path_capacity),
        (Nat.leb_spec (length p + S (length (right_branch r))) path_capacity);
        try lia; reflexivity.
    + destruct (Nat.leb_spec (length p + S (length (right_branch r))) path_capacity);
        [lia | reflexivity].
Qed.

(** The last node of the rightmost branch has no right child and holds the
    last pair of the traversal. *)
Lemma right_branch_last t :
  non_null t = true ->
  exists pk pl pc ns es,
    rev (right_branch t) = Node pk pl nullptr pc :: ns /\
    elements t = es ++ [pk].
Proof.
  induction t as [| kvp l _ r IHr c]; intros Hn; [discriminate |].
  cbn [right_branch rev elements]. destruct r as [| rk rl rr rc].
  - exists kvp, l, c, [], (elements l). split; reflexivity.
  - destruct (IHr eq_refl) as (pk & pl & pc & ns & es & H1 & H2).
    rewrite H1, H2. cbn [app].
    exists pk, pl, pc, (ns ++ [Node kvp l (Node rk rl rr rc) c]), (elements l ++ kvp :: es).
    split; [reflexivity |]. rewrite <- app_assoc. reflexivity.
Qed.

Lemma right_branch_height t : (length (right_branch t) <= height t)%nat.
Proof.
  induction t as [| kvp l _ r IHr c]; cbn [right_branch length height]; lia.
Qed.

Lemma right_branch_step t :
  forall n ns1 ns2, right_branch t = ns1 ++ n :: ns2 ->
    match ns2 with
    | [] => get_child RIGHT n = OK nullptr
    | n' :: _ => get_child RIGHT n = OK n' /\ non_null n' = true
    end.
Proof.
  induction t as [| kvp l _ r IHr c]; intros n ns1 ns2 H; cbn [right_branch] in H.
  - destruct ns1; discriminate.
  - destruct ns1 as [| n1 ns1]; cbn [app] in H.
    + injection H as <- <-. cbn [get_child].
      destruct r as [| rk rl rr rc]; cbn [right_branch]; [reflexivity |].
      split; reflexivity.
    + injection H as _ H. apply (IHr _ _ _ H).
Qed.

End Predecessor.

(** X10: from a path that ends at a node, [find_predecessor] pushes the
    rightmost branch of the left subtree of that node, one entry for each
    node of the branch from its root down, and nothing else; it raises when
    the node is null and when the 128 slots of the path array do not take
    the branch.  Each entry of the branch is the right child of the entry
    before it; the one on top has no right child and holds the last pair
    of the left subtree in traversal order, the predecessor of the pair of
    the node.  When there is no left subtree, the path is left as it is. *)
Theorem find_predecessor_pushes_the_rightmost_branch :
  forall (T : Type) (n : tree T) (p : path T),
    (length (n :: p) <= path_capacity)%nat ->
    find_predecessor (n :: p) =
    match n with
    | nullptr => Err null_dereference
    | Node _ l _ _ =>
        if (length (n :: p) + length (right_branch l) <=? path_capacity)%nat
        then OK (rev (right_branch l) ++ n :: p)
        else Err path_overflow
    end /\
    (forall kvp l r c, n = Node kvp l r c ->
       (length (right_branch l) <= height l)%nat /\
       (forall x ns1 ns2, right_branch l = ns1 ++ x :: ns2 ->
          match ns2 with
          | [] => get_child RIGHT x = OK nullptr
          | x' :: _ => get_child RIGHT x = OK x' /\ non_null x' = true
          end) /\
       (hd nullptr (right_branch l) = l) /\
       (non_null l = true ->
        exists pk pl pc ns es,
          rev (right_branch l) = Node pk pl nullptr pc :: ns /\
          elements l = es ++ [pk])).
Proof.
  intros T n p Hp. split.
  - unfold find_predecessor. cbn [get_node].
    destruct n as [| kvp l r c]; cbn [get_child bind]; [reflexivity |].
    apply find_predecessor_loop_right_branch, Hp.
  - intros kvp l r c _. split; [apply right_branch_height |].
    split; [apply right_branch_step |].
    split; [destruct l; reflexivity | apply right_branch_last].
Qed.

Lemma find_predecessor_pushes_the_rightmost_branch_witness :
  (length [root_ readme_map3] <= path_capacity)%nat /\
  find_predecessor [root_ readme_map3] =
  match root_ readme_map3 with
  | nullptr => Err null_dereference
  | Node _ l _ _ =>
      if (length [root_ readme_map3] + length (right_branch l) <=? path_capacity)%nat
      then OK (rev (right_branch l) ++ [root_ readme_map3])
      else Err path_overflow
  end.
Proof.
  assert (H : (length [root_ readme_map3] <= path_capacity)%nat)
    by (vm_compute; lia).
  split; [exact H |].
  apply (find_predecessor_pushes_the_rightmost_branch Q (root_ readme_map3) [] H).
Defined.

(** X11: the three sibling tests of the deletion fix-up.  When the sibling
    is a node, exactly one of them holds: the sibling is black with a red
    child, black without one, or red.  When the sibling is null,
    [has_red_sibling] answers false, and the two tests that [delete_fixup]
    calls dereference the null pointer. *)
Theorem sibling_tests_partition :
  forall (T : Type) (parent : tree T) (side : side_t),
    (forall skvp sl sr sc,
        get_child (opp side) parent = OK (Node skvp sl sr sc) ->
        exists b1 b2 b3,
          has_black_sibling_with_red_child parent side = OK b1 /\
          has_black_sibling_with_black_children parent side = OK b2 /\
          has_red_sibling parent side = OK b3 /\
          ((b1, b2, b3) = (true, false, false) \/
           (b1, b2, b3) = (false, true, false) \/
           (b1, b2, b3) = (false, false, true))) /\
    (get_child (opp side) parent = OK nullptr ->
     has_red_sibling parent side = OK false /\
     has_black_sibling_with_red_child parent side = Err null_dereference /\
     has_black_sibling_with_black_children parent side = Err null_dereference).
Proof.
  intros T parent side.
  unfold has_black_sibling_with_red_child, has_black_sibling_with_black_children,
    has_red_sibling.
  split.
  - intros skvp sl sr sc ->. cbn [bind is_red get_color has_red_child red_ptr].
    destruct sc; cbn [color_eqb bind].
    + destruct (red_ptr sl || red_ptr sr); cbn [negb]; do 3 eexists; eauto 10.
    + do 3 eexists; eauto 10.
  - intros ->. cbn. auto.
Qed.

(** ** Queries on the store *)

Section StoreQueries.

Context {T : Type}.
Implicit Types (h : Store.heap T) (n : Store.ptr).

Lemma snd_bind {A B : Type} (c : Store.M T A) (k : A -> Store.M T B) :
  (forall h, snd (c h) = h) -> (forall a h, snd (k a h) = h) ->
  forall h, snd (Store.bind c k h) = h.
Proof.
  intros Hc Hk h. unfold Store.bind. specialize (Hc h).
  destruct (c h) as [[a | e] h1]; cbn [snd] in *; subst h1; [apply Hk | reflexivity].
Qed.

Lemma snd_deref n h : snd (Store.deref n h) = h.
Proof. unfold Store.deref. destruct n as [l |]; [destruct (h !! l) |]; reflexivity. Qed.

Lemma snd_get_key n h : snd (Store.get_key n h) = h.
Proof. apply snd_bind; [intros; apply snd_deref | reflexivity]. Qed.

Lemma snd_get_pair n h : snd (Store.get_pair n h) = h.
Proof. apply snd_bind; [intros; apply snd_deref | reflexivity]. Qed.

Lemma snd_get_child side n h : snd (Store.get_child side n h) = h.
Proof. apply snd_bind; [intros; apply snd_deref | reflexivity]. Qed.

Lemma snd_find_loop fuel : forall n p key h, snd (Store.find_loop fuel n p key h) = h.
Proof.
  induction fuel as [| fuel IH]; intros n p key h; destruct n as [l |];
    cbn [Store.find_loop]; try reflexivity.
  apply snd_bind; [reflexivity |]. intros p1 h1.
  apply snd_bind; [intros; apply snd_get_key |]. intros k h2.
  destruct (k =? key); [reflexivity |].
  destruct (k >? key); (apply snd_bind; [intros; apply snd_get_child | intros; apply IH]).
Qed.

Lemma snd_foreach_node {A : Type} (f : pair T -> A -> A) fuel :
  forall n (s : A) h, snd (Store.foreach_node fuel n f s h) = h.
Proof.
  induction fuel as [| fuel IH]; intros n s h; cbn [Store.foreach_node];
    [reflexivity |].
  apply snd_bind; [intros; apply snd_get_child |]. intros l h1.
  apply snd_bind; [intros h2; destruct (Store.non_null l); [apply IH | reflexivity] |].
  intros s1 h2.
  apply snd_bind; [intros; apply snd_get_pair |]. intros kvp h3.
  apply snd_bind; [intros; apply snd_get_child |]. intros r h4.
  destruct (Store.non_null r); [apply IH | reflexivity].
Qed.

End StoreQueries.

Section StoreValidate.

Context {T : Type}.

Lemma snd_is_red n (h : Store.heap T) : snd (Store.is_red n h) = h.
Proof.
  unfold Store.is_red, Store.get_color.
  apply snd_bind; [| reflexivity].
  intros h1. apply snd_bind; [intros; apply snd_deref | reflexivity].
Qed.

Lemma snd_red_ptr n (h : Store.heap T) : snd (Store.red_ptr n h) = h.
Proof.
  unfold Store.red_ptr. destruct (Store.non_null n); [apply snd_is_red | reflexivity].
Qed.

Lemma snd_validate_node fuel : forall n (h : Store.heap T),
  snd (Store.validate_node fuel n h) = h.
Proof.
  induction fuel as [| fuel IH]; intros n h; cbn [Store.validate_node];
    [reflexivity |].
  apply snd_bind; [intros; apply snd_is_red |]. intros red h1.
  apply snd_bind.
  { intros h2. destruct red; [| reflexivity].
    apply snd_bind; [intros; apply snd_get_child |]. intros l h3.
    apply snd_bind; [intros; apply snd_red_ptr |]. intros lr h4.
    destruct lr; [reflexivity |].
    apply snd_bind; [intros; apply snd_get_child |]. intros r h5.
    apply snd_bind; [intros; apply snd_red_ptr |]. intros rr h6.
    destruct rr; reflexivity. }
  intros _ h2.
  apply snd_bind; [intros; apply snd_get_child |]. intros l h3.
  apply snd_bind; [intros h4; destruct (Store.non_null l); [apply IH | reflexivity] |].
  intros d1 h4.
  apply snd_bind; [intros; apply snd_get_child |]. intros r h5.
  apply snd_bind; [intros h6; destruct (Store.non_null r); [apply IH | reflexivity] |].
  intros d2 h6. destruct (negb (d1 =? d2)); reflexivity.
Qed.

End StoreValidate.

(** X12: on the store, the queries write nothing: whatever the store and the
    map hold, and whether the query returns or raises, the search of a key,
    the read of a pair, [contains], the traversal and [validate] leave
    every cell of the store as it is. *)
Theorem queries_leave_the_store_as_it_is :
  forall (T : Type) (h : Store.heap T) (m : Store.immutable_map) (key : K)
         (n : Store.ptr) (fuel : nat),
    snd (Store.find (Store.root_ m) [] key h) = h /\
    snd (Store.get_pair n h) = h /\
    snd (Store.contains m key h) = h /\
    snd (Store.traversal fuel m h) = h /\
    snd (Store.validate fuel m h) = h.
Proof.
  intros T h m key n fuel. split; [| split; [| split; [| split]]].
  - apply snd_find_loop.
  - apply snd_get_pair.
  - unfold Store.contains. apply snd_bind; [intros; apply snd_find_loop |].
    intros [b p] h1. reflexivity.
  - unfold Store.traversal, Store.foreach.
    destruct (Store.non_null (Store.root_ m)); [apply snd_foreach_node | reflexivity].
  - unfold Store.validate. apply snd_bind; [intros; apply snd_red_ptr |].
    intros rr h1. destruct rr; [reflexivity |].
    destruct (Store.non_null (Store.root_ m)); [| reflexivity].
    apply snd_bind; [intros; apply snd_validate_node | reflexivity].
Qed.

(** * The store model simulates the tree model *)

Section SimRules.

Context {T : Type}.
Implicit Types (h hb : Store.heap T) (l : Store.loc) (n : Store.ptr)
  (t : tree T) (cell : Store.node T) (side : side_t).

(** ** Computations that return *)

Lemma returns_ret {A : Type} (a : A) h (Q : A -> Store.heap T -> Prop) :
  Q a h -> returns (Store.ret a) h Q.
Proof. intros HQ. exists a, h. split; [reflexivity | exact HQ]. Qed.

Lemma returns_lift {A : Type} (r : result A) a h (Q : A -> Store.heap T -> Prop) :
  r = OK a -> Q a h -> returns (Store.lift r) h Q.
Proof. intros -> HQ. exists a, h. split; [reflexivity | exact HQ]. Qed.

Lemma returns_step {A B : Type} (c : Store.M T A) (k : A -> Store.M T B) h a h1
    (Q : B -> Store.heap T -> Prop) :
  c h = (OK a, h1) -> returns (k a) h1 Q -> returns (Store.bind c k) h Q.
Proof.
  intros Hc (b & h2 & Hk & HQ). exists b, h2. split; [| exact HQ].
  unfold Store.bind. rewrite Hc. exact Hk.
Qed.

Lemma returns_bind {A B : Type} (c : Store.M T A) (k : A -> Store.M T B) h
    (Q : B -> Store.heap T -> Prop) :
  returns c h (fun a h1 => returns (k a) h1 Q) -> returns (Store.bind c k) h Q.
Proof. intros (a & h1 & Hc & Hk). eapply returns_step; eassumption. Qed.

Lemma returns_mono {A : Type} (c : Store.M T A) h (P Q : A -> Store.heap T -> Prop) :
  returns c h P -> (forall a h', P a h' -> Q a h') -> returns c h Q.
Proof. intros (a & h' & Hc & HP) HPQ. exists a, h'. auto. Qed.

(** ** The published part *)

Lemma ext_refl hb h : hb ⊆ h -> ext hb h hb h.
Proof. intros H. repeat split; auto. Qed.

Lemma ext_trans hb h hb1 h1 hb2 h2 :
  ext hb h hb1 h1 -> ext hb1 h1 hb2 h2 -> ext hb h hb2 h2.
Proof.
  intros (A1 & A2 & A3 & A4) (B1 & B2 & B3 & B4).
  split; [etrans; eassumption |]. split; [assumption |].
  split; [etrans; eassumption |].
  intros l Hl. rewrite B4; [apply A4, Hl |].
  destruct Hl as [c Hc]. exists c. eapply lookup_weaken; eassumption.
Qed.

Lemma ext_base hb0 h0 hb h : ext hb0 h0 hb h -> hb ⊆ h.
Proof. intros H. apply H. Qed.

Lemma ext_insert hb0 h0 hb h l cell cell' :
  ext hb0 h0 hb h -> own h0 hb (<[l := cell]> h) l cell' ->
  ext hb0 h0 hb (<[l := cell]> h).
Proof.
  intros (A1 & A2 & A3 & A4) (B1 & B2 & _).
  split; [assumption |].
  split; [apply insert_subseteq_r; assumption |].
  split; [apply insert_subseteq_r; assumption | assumption].
Qed.

Lemma holds_mono hb hb' cell t : hb ⊆ hb' -> holds hb cell t -> holds hb' cell t.
Proof.
  intros Hh (tl & tr & E & Hl & Hr).
  exists tl, tr. split; [exact E |]. split; eapply repr_mono; eassumption.
Qed.

Lemma holds_repr hb l cell t :
  hb !! l = Some cell -> holds hb cell t -> repr hb (Some l) t.
Proof.
  intros Hl (tl & tr & -> & Hpl & Hpr). destruct cell as [kvp pl pr c].
  econstructor; eassumption.
Qed.

Lemma repr_holds hb l t :
  repr hb (Some l) t -> exists cell, hb !! l = Some cell /\ holds hb cell t.
Proof.
  intros H. inversion H as [| l' kvp pl pr c tl tr Hl Hpl Hpr]; subst.
  exists (Store.mk_node kvp pl pr c). split; [exact Hl |].
  exists tl, tr. auto.
Qed.

Lemma repr_None hb t : repr hb None t -> t = nullptr.
Proof. intros H. inversion H. reflexivity. Qed.

Lemma sees_repr hb h n t : hb ⊆ h -> repr hb n t -> sees hb h n t.
Proof.
  intros Hh Hr. destruct n as [l |]; cbn.
  - destruct (repr_holds _ _ _ Hr) as (cell & Hl & Hc).
    exists cell. split; [eapply lookup_weaken; eassumption | exact Hc].
  - apply (repr_None _ _ Hr).
Qed.

Lemma sees_owns h0 hb h l t : owns h0 hb h l t -> sees hb h (Some l) t.
Proof. intros (cell & (_ & _ & Hl) & Hc). exists cell. auto. Qed.

(** ** Cells that are not published *)

Lemma own_fresh_ne h0 hb h l1 c1 l :
  own h0 hb h l1 c1 -> h !! l = None -> l1 <> l.
Proof. intros (_ & _ & H1) H -> . congruence. Qed.

Lemma own_insert_ne h0 hb h l1 c1 l cell :
  own h0 hb h l1 c1 -> l1 <> l -> own h0 hb (<[l := cell]> h) l1 c1.
Proof.
  intros (A1 & A2 & A3) Hne. split; [assumption |]. split; [assumption |].
  rewrite lookup_insert_ne; auto.
Qed.

Lemma own_insert_eq h0 hb h l c cell :
  own h0 hb h l c -> own h0 hb (<[l := cell]> h) l cell.
Proof.
  intros (A1 & A2 & A3). split; [assumption |]. split; [assumption |].
  apply lookup_insert_eq.
Qed.

Lemma own_alloc hb0 h0 hb h l cell :
  ext hb0 h0 hb h -> h !! l = None -> own h0 hb (<[l := cell]> h) l cell.
Proof.
  intros (A1 & A2 & A3 & A4) Hl.
  split; [eapply lookup_weaken_None; eassumption |].
  split; [eapply lookup_weaken_None; eassumption | apply lookup_insert_eq].
Qed.

Lemma own_ext h0 hb h l c hb' h' :
  own h0 hb h l c -> ext hb h hb' h' -> own h0 hb' h' l c.
Proof.
  intros (A1 & A2 & A3) (B1 & B2 & B3 & B4).
  split; [assumption |].
  split; [rewrite B4; [assumption | eauto] | eapply lookup_weaken; eassumption].
Qed.

Lemma owns_fresh_ne h0 hb h l1 t1 l :
  owns h0 hb h l1 t1 -> h !! l = None -> l1 <> l.
Proof. intros (c & H & _). apply (own_fresh_ne _ _ _ _ _ _ H). Qed.

Lemma owns_insert_ne h0 hb h l1 t1 l cell :
  owns h0 hb h l1 t1 -> l1 <> l -> owns h0 hb (<[l := cell]> h) l1 t1.
Proof.
  intros (c & H & Hc) Hne. exists c. split; [apply own_insert_ne; assumption | exact Hc].
Qed.

Lemma owns_ext h0 hb h l t hb' h' :
  owns h0 hb h l t -> ext hb h hb' h' -> owns h0 hb' h' l t.
Proof.
  intros (c & H & Hc) He. exists c.
  split; [eapply own_ext; eassumption | eapply holds_mono; [apply He | exact Hc]].
Qed.

Lemma owns_own h0 hb h l t :
  owns h0 hb h l t -> exists cell, own h0 hb h l cell /\ holds hb cell t.
Proof. auto. Qed.

(** Publishing a cell whose children are published. *)
Lemma publish_own hb0 h0 hb h l cell t :
  ext hb0 h0 hb h -> own h0 hb h l cell -> holds hb cell t ->
  exists hb',
    ext hb0 h0 hb' h /\ hb ⊆ hb' /\ repr hb' (Some l) t /\
    (forall l1 c1, l1 <> l -> own h0 hb h l1 c1 -> own h0 hb' h l1 c1).
Proof.
  intros (A1 & A2 & A3 & A4) (B1 & B2 & B3) Hc.
  assert (Hsub : hb ⊆ <[l := cell]> hb) by (apply insert_subseteq; assumption).
  assert (Hin : <[l := cell]> hb ⊆ h) by (apply insert_subseteq_l; assumption).
  exists (<[l := cell]> hb). split; [| split; [| split]].
  - split; [etrans; eassumption |]. split; [assumption |]. split; [assumption |].
    intros l1 Hl1. rewrite lookup_insert_ne; [apply A4, Hl1 |].
    intros <-. destruct Hl1 as [x Hx]. congruence.
  - assumption.
  - apply (holds_repr _ _ cell); [apply lookup_insert_eq |].
    eapply holds_mono; eassumption.
  - intros l1 c1 Hne (C1 & C2 & C3). split; [assumption |].
    split; [rewrite lookup_insert_ne; auto | assumption].
Qed.

Lemma publish_owns hb0 h0 hb h l t :
  ext hb0 h0 hb h -> owns h0 hb h l t ->
  exists hb',
    ext hb0 h0 hb' h /\ hb ⊆ hb' /\ repr hb' (Some l) t /\
    (forall l1 c1, l1 <> l -> own h0 hb h l1 c1 -> own h0 hb' h l1 c1).
Proof. intros E (cell & Ho & Hc). eapply publish_own; eassumption. Qed.

Lemma owns_publish_ne h0 hb hb' h l l1 t1 :
  hb ⊆ hb' ->
  (forall l1 c1, l1 <> l -> own h0 hb h l1 c1 -> own h0 hb' h l1 c1) ->
  l1 <> l -> owns h0 hb h l1 t1 -> owns h0 hb' h l1 t1.
Proof.
  intros Hsub Hf Hne (c & Ho & Hc). exists c.
  split; [apply Hf; assumption | eapply holds_mono; eassumption].
Qed.

(** ** Reads *)

Lemma sees_cell hb h n t kvp tl tr c :
  sees hb h n t -> t = Node kvp tl tr c ->
  exists l pl pr,
    n = Some l /\ h !! l = Some (Store.mk_node kvp pl pr c) /\
    repr hb pl tl /\ repr hb pr tr.
Proof.
  intros Hs ->. destruct n as [l |]; cbn in Hs; [| discriminate].
  destruct Hs as (cell & Hl & (tl' & tr' & E & Hpl & Hpr)).
  destruct cell as [kvp' pl pr c']. cbn in *. injection E as -> -> -> ->.
  exists l, pl, pr. auto.
Qed.

Lemma deref_cell h l cell : h !! l = Some cell -> Store.deref (Some l) h = (OK cell, h).
Proof. intros H. unfold Store.deref. rewrite H. reflexivity. Qed.

Lemma get_key_sees hb h n t k :
  sees hb h n t -> get_key t = OK k -> Store.get_key n h = (OK k, h).
Proof.
  intros Hs Hk. destruct t as [| kvp tl tr c]; [discriminate |].
  destruct (sees_cell _ _ _ _ _ _ _ _ Hs eq_refl) as (l & pl & pr & -> & Hl & _).
  unfold Store.get_key, Store.bind. rewrite (deref_cell _ _ _ Hl).
  cbn in Hk. injection Hk as <-. reflexivity.
Qed.

Lemma get_pair_sees hb h n t kvp :
  sees hb h n t -> get_pair t = OK kvp -> Store.get_pair n h = (OK kvp, h).
Proof.
  intros Hs Hk. destruct t as [| kvp' tl tr c]; [discriminate |].
  destruct (sees_cell _ _ _ _ _ _ _ _ Hs eq_refl) as (l & pl & pr & -> & Hl & _).
  unfold Store.get_pair, Store.bind. rewrite (deref_cell _ _ _ Hl).
  cbn in Hk. injection Hk as <-. reflexivity.
Qed.

Lemma get_color_sees hb h n t c :
  sees hb h n t -> get_color t = OK c -> Store.get_color n h = (OK c, h).
Proof.
  intros Hs Hk. destruct t as [| kvp' tl tr c']; [discriminate |].
  destruct (sees_cell _ _ _ _ _ _ _ _ Hs eq_refl) as (l & pl & pr & -> & Hl & _).
  unfold Store.get_color, Store.bind. rewrite (deref_cell _ _ _ Hl).
  cbn in Hk. injection Hk as <-. reflexivity.
Qed.

Lemma is_red_sees hb h n t b :
  sees hb h n t -> is_red t = OK b -> Store.is_red n h = (OK b, h).
Proof.
  intros Hs Hk. unfold is_red in Hk. apply bind_OK_inv in Hk as (c & Hc & Hk).
  unfold Store.is_red, Store.bind. rewrite (get_color_sees _ _ _ _ _ Hs Hc).
  cbn in Hk. injection Hk as <-. reflexivity.
Qed.

Lemma is_black_sees hb h n t b :
  sees hb h n t -> is_black t = OK b -> Store.is_black n h = (OK b, h).
Proof.
  intros Hs Hk. unfold is_black in Hk. apply bind_OK_inv in Hk as (c & Hc & Hk).
  unfold Store.is_black, Store.bind. rewrite (get_color_sees _ _ _ _ _ Hs Hc).
  cbn in Hk. injection Hk as <-. reflexivity.
Qed.

Lemma get_child_sees hb h n t side tc :
  sees hb h n t -> get_child side t = OK tc ->
  exists pc, Store.get_child side n h = (OK pc, h) /\ repr hb pc tc.
Proof.
  intros Hs Hk. destruct t as [| kvp' tl tr c']; [discriminate |].
  destruct (sees_cell _ _ _ _ _ _ _ _ Hs eq_refl)
    as (l & pl & pr & -> & Hl & Hpl & Hpr).
  unfold Store.get_child, Store.bind. rewrite (deref_cell _ _ _ Hl).
  cbn in *. injection Hk as <-. eexists. split; [reflexivity |].
  destruct side; assumption.
Qed.

Lemma red_ptr_repr hb h n t :
  hb ⊆ h -> repr hb n t -> Store.red_ptr n h = (OK (red_ptr t), h).
Proof. intros Hh Hr. apply red_ptr_run. eapply repr_mono; eassumption. Qed.

Lemma has_red_child_sees hb h n t b :
  hb ⊆ h -> sees hb h n t -> has_red_child t = OK b ->
  Store.has_red_child n h = (OK b, h).
Proof.
  intros Hh Hs Hk. destruct t as [| kvp tl tr c]; [discriminate |].
  destruct (get_child_sees _ _ _ _ LEFT _ Hs eq_refl) as (pl & El & Hpl).
  destruct (get_child_sees _ _ _ _ RIGHT _ Hs eq_refl) as (pr & Er & Hpr).
  cbn in Hk. injection Hk as <-.
  unfold Store.has_red_child, Store.bind.
  rewrite El, (red_ptr_repr _ _ _ _ Hh Hpl).
  destruct (red_ptr tl); cbn [orb]; [reflexivity |].
  rewrite Er. apply (red_ptr_repr _ _ _ _ Hh Hpr).
Qed.

(** ** Allocation and writes *)

Lemma fresh_lookup h : h !! fresh (dom h) = None.
Proof. apply not_elem_of_dom, is_fresh. Qed.

Lemma make_shared_owns hb0 h0 hb h cell t :
  ext hb0 h0 hb h -> holds hb cell t ->
  exists l,
    h !! l = None /\
    Store.make_shared cell h = (OK (Some l), <[l := cell]> h) /\
    owns h0 hb (<[l := cell]> h) l t.
Proof.
  intros E Hc. exists (fresh (dom h)). split; [apply fresh_lookup |].
  split; [reflexivity |]. exists cell.
  split; [eapply own_alloc; [exact E | apply fresh_lookup] | exact Hc].
Qed.

Lemma clone_sees hb0 h0 hb h n t t' :
  ext hb0 h0 hb h -> sees hb h n t -> clone t = OK t' ->
  exists l cell,
    h !! l = None /\
    Store.clone n h = (OK (Some l), <[l := cell]> h) /\
    owns h0 hb (<[l := cell]> h) l t'.
Proof.
  intros E Hs Hk. destruct t as [| kvp tl tr c]; [discriminate |].
  cbn in Hk. injection Hk as <-.
  destruct (sees_cell _ _ _ _ _ _ _ _ Hs eq_refl)
    as (l0 & pl & pr & -> & Hl & Hpl & Hpr).
  destruct (make_shared_owns hb0 h0 hb h (Store.mk_node kvp pl pr c)
              (Node kvp tl tr c) E) as (l & Hfresh & Hrun & Ho).
  { exists tl, tr. auto. }
  exists l, (Store.mk_node kvp pl pr c). split; [exact Hfresh |]. split; [| exact Ho].
  unfold Store.clone, Store.bind. rewrite (deref_cell _ _ _ Hl). exact Hrun.
Qed.

Lemma assign_own h0 hb h l cell f :
  own h0 hb h l cell ->
  Store.assign (Some l) f h = (OK tt, <[l := f cell]> h) /\
  own h0 hb (<[l := f cell]> h) l (f cell).
Proof.
  intros Ho. pose proof Ho as (_ & _ & Hl). unfold Store.assign. rewrite Hl.
  split; [reflexivity | eapply own_insert_eq; exact Ho].
Qed.

Lemma set_color_owns h0 hb h l t col t' :
  owns h0 hb h l t -> set_color col t = OK t' ->
  exists cell',
    Store.set_color col (Some l) h = (OK tt, <[l := cell']> h) /\
    owns h0 hb (<[l := cell']> h) l t'.
Proof.
  intros (cell & Ho & (tl & tr & -> & Hpl & Hpr)) Hk. cbn in Hk. injection Hk as <-.
  destruct (assign_own _ _ _ _ _
              (fun c => Store.mk_node (Store.kvp_ c) (Store.left_ c) (Store.right_ c) col)
              Ho) as [Hrun Ho'].
  eexists. split; [exact Hrun |]. eexists. split; [exact Ho' |].
  exists tl, tr. auto.
Qed.

Lemma set_pair_owns h0 hb h l t kvp t' :
  owns h0 hb h l t -> set_pair kvp t = OK t' ->
  exists cell',
    Store.set_pair kvp (Some l) h = (OK tt, <[l := cell']> h) /\
    owns h0 hb (<[l := cell']> h) l t'.
Proof.
  intros (cell & Ho & (tl & tr & -> & Hpl & Hpr)) Hk. cbn in Hk. injection Hk as <-.
  destruct (assign_own _ _ _ _ _
              (fun c => Store.mk_node kvp (Store.left_ c) (Store.right_ c) (Store.color_ c))
              Ho) as [Hrun Ho'].
  eexists. split; [exact Hrun |]. eexists. split; [exact Ho' |].
  exists tl, tr. auto.
Qed.

Lemma set_child_owns h0 hb h l t side pc tc t' :
  owns h0 hb h l t -> repr hb pc tc -> set_child side tc t = OK t' ->
  exists cell',
    Store.set_child side pc (Some l) h = (OK tt, <[l := cell']> h) /\
    owns h0 hb (<[l := cell']> h) l t'.
Proof.
  intros (cell & Ho & (tl & tr & -> & Hpl & Hpr)) Hc Hk. cbn in Hk. injection Hk as <-.
  destruct (assign_own _ _ _ _ _
              (fun c => match side with
                        | LEFT => Store.mk_node (Store.kvp_ c) pc (Store.right_ c)
                                    (Store.color_ c)
                        | RIGHT => Store.mk_node (Store.kvp_ c) (Store.left_ c) pc
                                     (Store.color_ c)
                        end)
              Ho) as [Hrun Ho'].
  eexists. split; [exact Hrun |]. eexists. split; [exact Ho' |].
  destruct side; cbn; (eexists _, _; split; [reflexivity | auto]).
Qed.

Lemma ext_insert_owns hb0 h0 hb h l cell t :
  ext hb0 h0 hb h -> owns h0 hb (<[l := cell]> h) l t ->
  ext hb0 h0 hb (<[l := cell]> h).
Proof. intros E (c & Ho & _). eapply ext_insert; eassumption. Qed.

Lemma Forall2_repr_mono hb hb' (p : Store.path) (tp : path T) :
  hb ⊆ hb' -> Forall2 (repr hb) p tp -> Forall2 (repr hb') p tp.
Proof.
  intros Hsub Hp. induction Hp; constructor; [eapply repr_mono; eassumption | assumption].
Qed.

Lemma pop_repr hb (p : Store.path) (tp tp' : path T) :
  Forall2 (repr hb) p tp -> pop tp = OK tp' ->
  exists p', Store.pop p = OK p' /\ Forall2 (repr hb) p' tp'.
Proof.
  intros [| n t p0 tp0 Hn Hp] Hk; [discriminate |]. cbn in Hk. injection Hk as <-.
  exists p0. split; [reflexivity | exact Hp].
Qed.

Lemma get_parent_repr hb (p : Store.path) (tp : path T) :
  Forall2 (repr hb) p tp -> repr hb (Store.get_parent p) (get_parent tp).
Proof.
  intros [| n t p0 tp0 Hn [| n1 t1 p1 tp1 Hn1 Hp]]; cbn; try constructor. exact Hn1.
Qed.

(** The rules in the form in which a proof steps through the code. *)

Lemma returns_get_child {B : Type} hb h n t side tc (k : Store.ptr -> Store.M T B) Q :
  sees hb h n t -> get_child side t = OK tc ->
  (forall pc, repr hb pc tc -> returns (k pc) h Q) ->
  returns (Store.bind (Store.get_child side n) k) h Q.
Proof.
  intros Hs Hk Hc. destruct (get_child_sees _ _ _ _ _ _ Hs Hk) as (pc & Hrun & Hpc).
  eapply returns_step; [exact Hrun | apply Hc, Hpc].
Qed.

Lemma returns_clone {B : Type} hb0 h0 hb h n t t' (k : Store.ptr -> Store.M T B) Q :
  ext hb0 h0 hb h -> sees hb h n t -> clone t = OK t' ->
  (forall l cell, h !! l = None -> owns h0 hb (<[l := cell]> h) l t' ->
                  returns (k (Some l)) (<[l := cell]> h) Q) ->
  returns (Store.bind (Store.clone n) k) h Q.
Proof.
  intros E Hs Hk Hc.
  destruct (clone_sees _ _ _ _ _ _ _ E Hs Hk) as (l & cell & Hl & Hrun & Ho).
  eapply returns_step; [exact Hrun | apply Hc; assumption].
Qed.

Lemma returns_make_shared {B : Type} hb0 h0 hb h cell t (k : Store.ptr -> Store.M T B) Q :
  ext hb0 h0 hb h -> holds hb cell t ->
  (forall l, h !! l = None -> owns h0 hb (<[l := cell]> h) l t ->
             returns (k (Some l)) (<[l := cell]> h) Q) ->
  returns (Store.bind (Store.make_shared cell) k) h Q.
Proof.
  intros E Hc Hk.
  destruct (make_shared_owns _ _ _ _ _ _ E Hc) as (l & Hl & Hrun & Ho).
  eapply returns_step; [exact Hrun | apply Hk; assumption].
Qed.

Lemma returns_set_color {B : Type} h0 hb h l t col t' (k : unit -> Store.M T B) Q :
  owns h0 hb h l t -> set_color col t = OK t' ->
  (forall cell, owns h0 hb (<[l := cell]> h) l t' ->
                returns (k tt) (<[l := cell]> h) Q) ->
  returns (Store.bind (Store.set_color col (Some l)) k) h Q.
Proof.
  intros Ho Hk Hc. destruct (set_color_owns _ _ _ _ _ _ _ Ho Hk) as (cell & Hrun & Ho').
  eapply returns_step; [exact Hrun | apply Hc, Ho'].
Qed.

Lemma returns_set_pair {B : Type} h0 hb h l t kvp t' (k : unit -> Store.M T B) Q :
  owns h0 hb h l t -> set_pair kvp t = OK t' ->
  (forall cell, owns h0 hb (<[l := cell]> h) l t' ->
                returns (k tt) (<[l := cell]> h) Q) ->
  returns (Store.bind (Store.set_pair kvp (Some l)) k) h Q.
Proof.
  intros Ho Hk Hc. destruct (set_pair_owns _ _ _ _ _ _ _ Ho Hk) as (cell & Hrun & Ho').
  eapply returns_step; [exact Hrun | apply Hc, Ho'].
Qed.

Lemma returns_set_child {B : Type} h0 hb h l t side pc tc t'
    (k : unit -> Store.M T B) Q :
  owns h0 hb h l t -> repr hb pc tc -> set_child side tc t = OK t' ->
  (forall cell, owns h0 hb (<[l := cell]> h) l t' ->
                returns (k tt) (<[l := cell]> h) Q) ->
  returns (Store.bind (Store.set_child side pc (Some l)) k) h Q.
Proof.
  intros Ho Hpc Hk Hc.
  destruct (set_child_owns _ _ _ _ _ _ _ _ _ Ho Hpc Hk) as (cell & Hrun & Ho').
  eapply returns_step; [exact Hrun | apply Hc, Ho'].
Qed.

Lemma returns_pop {B : Type} hb h (p : Store.path) (tp tp' : path T)
    (k : Store.path -> Store.M T B) Q :
  Forall2 (repr hb) p tp -> pop tp = OK tp' ->
  (forall p', Forall2 (repr hb) p' tp' -> returns (k p') h Q) ->
  returns (Store.bind (Store.lift (Store.pop p)) k) h Q.
Proof.
  intros Hp Hk Hc. destruct (pop_repr _ _ _ _ Hp Hk) as (p' & Hrun & Hp').
  eapply returns_step; [unfold Store.lift; rewrite Hrun; reflexivity | apply Hc, Hp'].
Qed.

Lemma returns_set_child_raw {B : Type} h0 hb h l cell side pc
    (k : unit -> Store.M T B) Q :
  own h0 hb h l cell ->
  (let cell' := match side with
                | LEFT => Store.mk_node (Store.kvp_ cell) pc (Store.right_ cell)
                            (Store.color_ cell)
                | RIGHT => Store.mk_node (Store.kvp_ cell) (Store.left_ cell) pc
                             (Store.color_ cell)
                end in
   own h0 hb (<[l := cell']> h) l cell' -> returns (k tt) (<[l := cell']> h) Q) ->
  returns (Store.bind (Store.set_child side pc (Some l)) k) h Q.
Proof.
  intros Ho Hc.
  destruct (assign_own _ _ _ _ _
              (fun c => match side with
                        | LEFT => Store.mk_node (Store.kvp_ c) pc (Store.right_ c)
                                    (Store.color_ c)
                        | RIGHT => Store.mk_node (Store.kvp_ c) (Store.left_ c) pc
                                     (Store.color_ c)
                        end)
              Ho) as [Hrun Ho'].
  eapply returns_step; [exact Hrun | apply Hc, Ho'].
Qed.

Lemma returns_call {B : Type} hb h (c : Store.M T Store.ptr) tr
    (k : Store.ptr -> Store.M T B) Q :
  returns c h (fun r h' => exists hb', ext hb h hb' h' /\ repr hb' r tr) ->
  (forall r hb' h', ext hb h hb' h' -> repr hb' r tr -> returns (k r) h' Q) ->
  returns (Store.bind c k) h Q.
Proof.
  intros Hc Hk. apply returns_bind. eapply returns_mono; [exact Hc |].
  intros r h' (hb' & Hext & Hr). eapply Hk; eassumption.
Qed.

End SimRules.

(** ** Proof steps *)

(** [sees] for a pointer that is published or owned. *)
Ltac sim_sees :=
  first
    [ eapply sees_owns; eassumption
    | eapply sees_repr; [eapply ext_base; eassumption | eassumption]
    | eapply sees_repr; [eapply ext_base; eassumption | eapply get_node_repr; eassumption]
    | eapply sees_repr; [eapply ext_base; eassumption | eapply get_parent_repr; eassumption] ].

(** A fresh location differs from the owned ones. *)
Ltac sim_fresh Hl :=
  repeat match goal with
  | H : owns _ _ ?h ?l1 _ |- _ =>
      lazymatch type of Hl with
      | h !! ?l = None =>
          lazymatch goal with
          | _ : l1 <> l |- _ => fail
          | _ => pose proof (owns_fresh_ne _ _ _ _ _ _ H Hl)
          end
      end
  | H : own _ _ ?h ?l1 _ |- _ =>
      lazymatch type of Hl with
      | h !! ?l = None =>
          lazymatch goal with
          | _ : l1 <> l |- _ => fail
          | _ => pose proof (own_fresh_ne _ _ _ _ _ _ H Hl)
          end
      end
  end.

(** After a cell has been allocated or written: the facts about the other
    cells, on the store of the goal. *)
Ltac sim_moved :=
  lazymatch goal with
  | |- returns _ (<[?l := ?cell]> ?h) _ =>
      repeat match goal with
      | E : ext _ _ _ h |- _ =>
          first [ eapply (ext_insert_owns _ _ _ h l cell) in E; [| eassumption]
                | eapply (ext_insert _ _ _ h l cell) in E; [| eassumption] ]
      | H : owns _ _ h ?l1 _ |- _ =>
          apply (owns_insert_ne _ _ h l1 _ l cell) in H; [| solve [auto] ]
      | H : own _ _ h ?l1 _ |- _ =>
          apply (own_insert_ne _ _ h l1 _ l cell) in H; [| solve [auto] ]
      end
  end.

(** After a call: the facts on the store and the published part that the
    callee leaves. *)
Ltac sim_called Hext :=
  lazymatch type of Hext with
  | ext ?hb ?h ?hb' ?h' =>
      let Hsub := fresh "Hsub" in
      assert (Hsub : hb ⊆ hb') by apply Hext;
      repeat match goal with
      | E : ext _ _ hb h |- _ =>
          lazymatch E with
          | Hext => fail
          | _ => apply (fun E0 => ext_trans _ _ _ _ _ _ E0 Hext) in E
          end
      | H : owns _ hb h _ _ |- _ => apply (fun H0 => owns_ext _ _ _ _ _ _ _ H0 Hext) in H
      | H : own _ hb h _ _ |- _ => apply (fun H0 => own_ext _ _ _ _ _ _ _ H0 Hext) in H
      | H : repr hb _ _ |- _ => apply (repr_mono _ _ _ _ Hsub) in H
      | H : holds hb _ _ |- _ => apply (holds_mono _ _ _ _ Hsub) in H
      | H : Forall2 (repr hb) _ _ |- _ => apply (Forall2_repr_mono _ _ _ _ Hsub) in H
      end;
      clear Hsub Hext
  end.

(** Publishing the owned cell of the hypothesis [H]. *)
Ltac sim_publish H :=
  lazymatch type of H with
  | owns ?xh0 ?xhb ?xh ?xl _ =>
      lazymatch goal with
      | E : ext _ xh0 xhb xh |- _ =>
          let hb' := fresh "hb" in
          let Hsub := fresh "Hsub" in
          let Hframe := fresh "Hframe" in
          let E' := fresh "E" in
          let Hr := fresh "Hr" in
          destruct (publish_owns _ _ _ _ _ _ E H) as (hb' & E' & Hsub & Hr & Hframe);
          clear E H; rename E' into E;
          repeat match goal with
          | H1 : owns _ xhb xh ?l1 _ |- _ =>
              apply (owns_publish_ne _ xhb hb' xh xl l1 _ Hsub Hframe) in H1;
              [| solve [auto] ]
          | H1 : own _ xhb xh ?l1 _ |- _ =>
              apply (Hframe l1) in H1; [| solve [auto] ]
          | H1 : repr xhb _ _ |- _ => apply (repr_mono _ _ _ _ Hsub) in H1
          | H1 : holds xhb _ _ |- _ => apply (holds_mono _ _ _ _ Hsub) in H1
          | H1 : Forall2 (repr xhb) _ _ |- _ =>
              apply (Forall2_repr_mono _ _ _ _ Hsub) in H1
          end;
          clear Hsub Hframe
      end
  end.

(** Publishing the cell of a pointer, when the cell is owned. *)
Ltac sim_publish_ptr n :=
  lazymatch n with
  | Some ?lc =>
      lazymatch goal with
      | Hc : owns _ _ _ lc _ |- _ => sim_publish Hc
      | _ => idtac
      end
  | _ => idtac
  end.

(** One statement of the code on the store, against the equation that the
    same statement leaves in the tree model. *)
Ltac sim_read lem :=
  eapply returns_step; [eapply lem; [sim_sees | eassumption] |].

Ltac sim_step :=
  lazymatch goal with
  | |- returns (Store.bind (Store.get_key _) _) _ _ => sim_read get_key_sees
  | |- returns (Store.bind (Store.get_pair _) _) _ _ => sim_read get_pair_sees
  | |- returns (Store.bind (Store.get_color _) _) _ _ => sim_read get_color_sees
  | |- returns (Store.bind (Store.is_red _) _) _ _ => sim_read is_red_sees
  | |- returns (Store.bind (Store.is_black _) _) _ _ => sim_read is_black_sees
  | |- returns (Store.bind (Store.has_red_child _) _) _ _ =>
      eapply returns_step;
      [eapply has_red_child_sees; [eapply ext_base; eassumption | sim_sees | eassumption] |]
  | |- returns (Store.bind (Store.red_ptr _) _) _ _ =>
      eapply returns_step;
      [eapply red_ptr_repr; [eapply ext_base; eassumption | eassumption] |]
  | |- returns (Store.bind (Store.get_child _ _) _) _ _ =>
      let pc := fresh "pc" in
      let Hpc := fresh "Hpc" in
      eapply returns_get_child; [sim_sees | eassumption | intros pc Hpc]
  | |- returns (Store.bind (Store.lift (Store.pop _)) _) _ _ =>
      let p := fresh "p" in
      let Hp := fresh "Hp" in
      eapply returns_pop; [eassumption | eassumption | intros p Hp]
  | |- returns (Store.bind (Store.clone _) _) _ _ =>
      let l := fresh "l" in
      let cell := fresh "cell" in
      let Hl := fresh "Hl" in
      let Ho := fresh "Ho" in
      eapply returns_clone;
      [eassumption | sim_sees | eassumption
      | intros l cell Hl Ho; sim_fresh Hl; sim_moved; clear Hl]
  | |- returns (Store.bind (Store.set_color _ (Some ?l)) _) ?h _ =>
      let cell := fresh "cell" in
      let Ho := fresh "Ho" in
      lazymatch goal with
      | H : owns _ _ h l _ |- _ =>
          eapply (returns_set_color _ _ _ _ _ _ _ _ _ H);
          [eassumption | intros cell Ho; clear H; sim_moved]
      end
  | |- returns (Store.bind (Store.set_pair _ (Some ?l)) _) ?h _ =>
      let cell := fresh "cell" in
      let Ho := fresh "Ho" in
      lazymatch goal with
      | H : owns _ _ h l _ |- _ =>
          eapply (returns_set_pair _ _ _ _ _ _ _ _ _ H);
          [eassumption | intros cell Ho; clear H; sim_moved]
      end
  | |- returns (Store.bind (Store.set_child _ ?pc (Some ?l)) _) ?h _ =>
      let cell := fresh "cell" in
      let Ho := fresh "Ho" in
      sim_publish_ptr pc;
      lazymatch goal with
      | H : owns _ _ h l _ |- _ =>
          eapply (returns_set_child _ _ _ _ _ _ _ _ _ _ _ H);
          [first [eassumption | apply repr_null] | eassumption
          | intros cell Ho; clear H; sim_moved]
      end
  | |- returns (Store.ret _) _ _ => apply returns_ret
  end.

(** A write to an owned cell that makes a child of it a cell that is not
    finished: the content of the cell is kept as it is written. *)
Ltac sim_open_target :=
  lazymatch goal with
  | |- returns (Store.bind (Store.set_child _ _ (Some ?l)) _) _ _ =>
      lazymatch goal with
      | H : owns _ _ _ l _ |- _ =>
          let cell := fresh "cell" in
          let Hown := fresh "Hown" in
          let Hholds := fresh "Hholds" in
          destruct H as (cell & Hown & Hholds)
      end
  end.

Ltac sim_raw_step :=
  lazymatch goal with
  | |- returns (Store.bind (Store.set_child _ _ (Some ?l)) _) ?h _ =>
      let Ho := fresh "Hown" in
      lazymatch goal with
      | H : own _ _ h l _ |- _ =>
          eapply (returns_set_child_raw _ _ _ _ _ _ _ _ _ H);
          cbv zeta; intros Ho; clear H; sim_moved
      end
  end.

(** Publishing every owned cell at the end. *)
Ltac sim_publish_all :=
  repeat match goal with
  | H : owns _ _ _ _ _ |- _ => sim_publish H
  end.

(** A call of a function with its simulation lemma. *)
Tactic Notation "sim_call" uconstr(lem) :=
  let r := fresh "r" in
  let hb' := fresh "hb" in
  let h' := fresh "h" in
  let Hext := fresh "Hext" in
  let Hr := fresh "Hr" in
  eapply returns_call;
  [ eapply lem; [eapply ext_base; eassumption | eassumption ..]
  | intros r hb' h' Hext Hr; sim_called Hext ].

(** The equations of the statements of a run of the tree model. *)
Ltac pure_inv H :=
  repeat first
    [ let x := fresh "x" in
      let Hx := fresh "Hx" in
      apply bind_OK_inv in H as (x & Hx & H)
    | lazymatch type of H with
      | match ?x with (_, _) => _ end = _ => destruct x
      end ].

(** The case distinction at the head of a run of the tree model. *)
Ltac pure_case H :=
  lazymatch type of H with
  | (if ?b then _ else _) = _ => destruct b
  | match ?x with _ => _ end = _ => destruct x
  end.

Section SimPaths.

Context {T : Type}.
Implicit Types (h hb : Store.heap T) (n : Store.ptr) (t : tree T)
  (p : Store.path) (tp : path T).

Lemma clone_path_sim p : forall tp n tn hb h tr tp',
  hb ⊆ h -> Forall2 (repr hb) p tp -> repr hb n tn ->
  clone_path tp tn = OK (tr, tp') ->
  returns (Store.clone_path p n) h (fun x h' =>
    exists hb', ext hb h hb' h' /\ repr hb' (fst x) tr /\
                Forall2 (repr hb') (snd x) tp').
Proof.
  induction p as [| parent p IH]; intros tp n tn hb h tr tp' Hh Hp Hn Hk.
  - inversion Hp; subst. cbn in Hk. injection Hk as <- <-.
    apply returns_ret. exists hb. split; [apply ext_refl, Hh |]. auto.
  - inversion Hp as [| ? tparent ? tp0 Hparent Hp0]; subst.
    cbn [clone_path Store.clone_path] in *.
    destruct tparent as [| pkvp pl pr pc].
    { inversion Hparent; subst. injection Hk as <- <-.
      apply returns_ret. exists hb. split; [apply ext_refl, Hh |]. auto. }
    pose proof Hparent as Hparent'.
    inversion Hparent' as [| lp ? ? ? ? ? ? _ _ _]; subst.
    pose proof (ext_refl hb h Hh) as E.
    pure_inv Hk.
    do 4 sim_step.
    sim_publish Ho0.
    destruct (IH _ _ _ _ _ _ _ (ext_base _ _ _ _ E) Hp0 Hr Hk)
      as ([r p'] & h' & Hrun & hb' & Hext & Hres).
    exists (r, p'), h'. split; [exact Hrun |].
    exists hb'. split; [eapply ext_trans; eassumption | exact Hres].
Qed.

Lemma clone_path_depth_sim p : forall tp n tn depth hb h tr tp',
  hb ⊆ h -> Forall2 (repr hb) p tp -> repr hb n tn ->
  clone_path_depth tp tn depth = OK (tr, tp') ->
  returns (Store.clone_path_depth p n depth) h (fun x h' =>
    exists hb', ext hb h hb' h' /\ repr hb' (fst x) tr /\
                Forall2 (repr hb') (snd x) tp').
Proof.
  induction p as [| parent p IH]; intros tp n tn depth hb h tr tp' Hh Hp Hn Hk.
  - inversion Hp; subst. cbn in Hk. injection Hk as <- <-.
    apply returns_ret. exists hb. split; [apply ext_refl, Hh |]. auto.
  - pose proof (Forall2_length _ _ _ Hp) as Hlen.
    inversion Hp as [| ? tparent ? tp0 Hparent Hp0]; subst.
    cbn [clone_path_depth Store.clone_path_depth] in *. rewrite <- Hlen in Hk.
    destruct (depth <? length (parent :: p))%nat.
    2:{ injection Hk as <- <-. apply returns_ret. exists hb.
        split; [apply ext_refl, Hh |]. auto. }
    pose proof (ext_refl hb h Hh) as E.
    pure_inv Hk.
    do 4 sim_step.
    sim_publish Ho0.
    destruct (IH _ _ _ _ _ _ _ _ (ext_base _ _ _ _ E) Hp0 Hr Hk)
      as ([r p'] & h' & Hrun & hb' & Hext & Hres).
    exists (r, p'), h'. split; [exact Hrun |].
    exists hb'. split; [eapply ext_trans; eassumption | exact Hres].
Qed.

Lemma clone_path_side_sim p : forall tp n tn side depth hb h tr tp',
  hb ⊆ h -> Forall2 (repr hb) p tp -> repr hb n tn ->
  clone_path_side tp tn side depth = OK (tr, tp') ->
  returns (Store.clone_path_side p n side depth) h (fun x h' =>
    exists hb', ext hb h hb' h' /\ repr hb' (fst x) tr /\
                Forall2 (repr hb') (snd x) tp').
Proof.
  induction p as [| parent p IH]; intros tp n tn side depth hb h tr tp' Hh Hp Hn Hk.
  - inversion Hp; subst. cbn in Hk. injection Hk as <- <-.
    apply returns_ret. exists hb. split; [apply ext_refl, Hh |]. auto.
  - pose proof (Forall2_length _ _ _ Hp) as Hlen.
    pose proof (get_parent_repr _ _ _ Hp) as Hgp.
    inversion Hp as [| ? tparent ? tp0 Hparent Hp0]; subst.
    cbn [clone_path_side Store.clone_path_side] in *. rewrite <- Hlen in Hk.
    destruct (depth <? length (parent :: p))%nat.
    2:{ injection Hk as <- <-. apply returns_ret. exists hb.
        split; [apply ext_refl, Hh |]. auto. }
    pose proof (ext_refl hb h Hh) as E.
    pure_inv Hk.
    do 4 sim_step.
    sim_publish Ho0.
    destruct (IH _ _ _ _ _ _ _ _ _ (ext_base _ _ _ _ E) Hp0 Hr Hk)
      as ([r p'] & h' & Hrun & hb' & Hext & Hres).
    exists (r, p'), h'. split; [exact Hrun |].
    exists hb'. split; [eapply ext_trans; eassumption | exact Hres].
Qed.

(** The two loops that push on the path only read. *)
Lemma find_loop_sim t : forall fuel hb h n p tp key b tp',
  hb ⊆ h -> repr hb n t -> Forall2 (repr hb) p tp ->
  (path_capacity - length p < fuel)%nat ->
  find t tp key = OK (b, tp') ->
  exists p', Store.find_loop fuel n p key h = (OK (b, p'), h) /\
             Forall2 (repr hb) p' tp'.
Proof.
  induction t as [| kvp tl IHl tr IHr c];
    intros fuel hb h n p tp key b tp' Hh Hn Hp Hfuel Hk.
  - inversion Hn; subst. cbn in Hk. injection Hk as <- <-.
    exists p. split; [destruct fuel; reflexivity | exact Hp].
  - pose proof (sees_repr _ _ _ _ Hh Hn) as Hs.
    inversion Hn as [| l kvp' pl pr c' tl' tr' Hl Hpl Hpr]; subst.
    destruct fuel as [| fuel]; [lia |]. cbn [Store.find_loop find] in *.
    pose proof (Forall2_length _ _ _ Hp) as Hlen.
    unfold Store.lift at 1, Store.push. unfold push in Hk. rewrite <- Hlen in Hk.
    destruct (Nat.ltb_spec (length p) path_capacity) as [Hlt | Hge]; [| discriminate].
    unfold Store.bind at 1. cbn [bind] in Hk.
    rewrite (bind_run _ _ _ _ _ (get_key_sees _ _ _ _ _ Hs eq_refl)).
    assert (Hp' : Forall2 (repr hb) (Some l :: p) (Node kvp tl tr c :: tp))
      by (constructor; assumption).
    destruct (fst kvp =? key).
    { injection Hk as <- <-. eexists. split; [reflexivity | exact Hp']. }
    destruct (fst kvp >? key).
    + destruct (get_child_sees _ _ _ _ LEFT _ Hs eq_refl) as (pc & Ec & Hc).
      rewrite (bind_run _ _ _ _ _ Ec).
      eapply IHl; eauto. cbn [length]. lia.
    + destruct (get_child_sees _ _ _ _ RIGHT _ Hs eq_refl) as (pc & Ec & Hc).
      rewrite (bind_run _ _ _ _ _ Ec).
      eapply IHr; eauto. cbn [length]. lia.
Qed.

Lemma returns_find {B : Type} hb h n t p tp key b tp'
    (k : bool * Store.path -> Store.M T B) Q :
  hb ⊆ h -> repr hb n t -> Forall2 (repr hb) p tp ->
  find t tp key = OK (b, tp') ->
  (forall p', Forall2 (repr hb) p' tp' -> returns (k (b, p')) h Q) ->
  returns (Store.bind (Store.find n p key) k) h Q.
Proof.
  intros Hh Hn Hp Hk Hc.
  destruct (find_loop_sim t (S path_capacity) hb h n p tp key b tp' Hh Hn Hp
              ltac:(lia) Hk) as (p' & Hrun & Hp').
  eapply returns_step; [exact Hrun | apply Hc, Hp'].
Qed.

Lemma find_predecessor_loop_sim t : forall fuel hb h n p tp tp',
  hb ⊆ h -> repr hb n t -> Forall2 (repr hb) p tp ->
  (path_capacity - length p < fuel)%nat ->
  find_predecessor_loop t tp = OK tp' ->
  exists p', Store.find_predecessor_loop fuel n p h = (OK p', h) /\
             Forall2 (repr hb) p' tp'.
Proof.
  induction t as [| kvp tl _ tr IHr c];
    intros fuel hb h n p tp tp' Hh Hn Hp Hfuel Hk.
  - inversion Hn; subst. cbn in Hk. injection Hk as <-.
    exists p. split; [destruct fuel; reflexivity | exact Hp].
  - pose proof (sees_repr _ _ _ _ Hh Hn) as Hs.
    inversion Hn as [| l kvp' pl pr c' tl' tr' Hl Hpl Hpr]; subst.
    destruct fuel as [| fuel]; [lia |].
    cbn [Store.find_predecessor_loop find_predecessor_loop] in *.
    pose proof (Forall2_length _ _ _ Hp) as Hlen.
    unfold Store.lift at 1, Store.push. unfold push in Hk. rewrite <- Hlen in Hk.
    destruct (Nat.ltb_spec (length p) path_capacity) as [Hlt | Hge]; [| discriminate].
    unfold Store.bind at 1. cbn [bind] in Hk.
    destruct (get_child_sees _ _ _ _ RIGHT _ Hs eq_refl) as (pc & Ec & Hc).
    rewrite (bind_run _ _ _ _ _ Ec).
    eapply IHr; eauto; [constructor; assumption | cbn [length]; lia].
Qed.

Lemma returns_find_predecessor {B : Type} hb h p tp tp'
    (k : Store.path -> Store.M T B) Q :
  hb ⊆ h -> Forall2 (repr hb) p tp ->
  find_predecessor tp = OK tp' ->
  (forall p', Forall2 (repr hb) p' tp' -> returns (k p') h Q) ->
  returns (Store.bind (Store.find_predecessor p) k) h Q.
Proof.
  intros Hh Hp Hk Hc. unfold find_predecessor in Hk.
  apply bind_OK_inv in Hk as (tc & Htc & Hk).
  destruct (get_child_sees hb h (Store.get_node p) (get_node tp) LEFT tc) as (pc & Ec & Hpc);
    [apply (sees_repr _ _ _ _ Hh), get_node_repr; exact Hp | exact Htc |].
  destruct (find_predecessor_loop_sim _ (S path_capacity) hb h pc p tp tp' Hh Hpc Hp
              ltac:(lia) Hk) as (p' & Hrun & Hp').
  eapply returns_step; [| apply Hc, Hp'].
  unfold Store.find_predecessor. rewrite (bind_run _ _ _ _ _ Ec). exact Hrun.
Qed.

End SimPaths.

(** ** Insertion on the store *)

Section SimCalls.

Context {T : Type}.
Implicit Types (h hb : Store.heap T) (n : Store.ptr) (t : tree T)
  (p : Store.path) (tp : path T).

Lemma returns_clone_path {B : Type} hb h p tp n tn tr tp'
    (k : Store.ptr * Store.path -> Store.M T B) Q :
  hb ⊆ h -> Forall2 (repr hb) p tp -> repr hb n tn ->
  clone_path tp tn = OK (tr, tp') ->
  (forall r p' hb' h', ext hb h hb' h' -> repr hb' r tr ->
                       Forall2 (repr hb') p' tp' -> returns (k (r, p')) h' Q) ->
  returns (Store.bind (Store.clone_path p n) k) h Q.
Proof.
  intros Hh Hp Hn Hk Hc. apply returns_bind.
  eapply returns_mono; [eapply clone_path_sim; eassumption |].
  intros [r p'] h' (hb' & Hext & Hr & Hp'). eapply Hc; eassumption.
Qed.

Lemma returns_clone_path_depth {B : Type} hb h p tp n tn depth tr tp'
    (k : Store.ptr * Store.path -> Store.M T B) Q :
  hb ⊆ h -> Forall2 (repr hb) p tp -> repr hb n tn ->
  clone_path_depth tp tn depth = OK (tr, tp') ->
  (forall r p' hb' h', ext hb h hb' h' -> repr hb' r tr ->
                       Forall2 (repr hb') p' tp' -> returns (k (r, p')) h' Q) ->
  returns (Store.bind (Store.clone_path_depth p n depth) k) h Q.
Proof.
  intros Hh Hp Hn Hk Hc. apply returns_bind.
  eapply returns_mono; [eapply clone_path_depth_sim; eassumption |].
  intros [r p'] h' (hb' & Hext & Hr & Hp'). eapply Hc; eassumption.
Qed.

Lemma returns_clone_path_side {B : Type} hb h p tp n tn side depth tr tp'
    (k : Store.ptr * Store.path -> Store.M T B) Q :
  hb ⊆ h -> Forall2 (repr hb) p tp -> repr hb n tn ->
  clone_path_side tp tn side depth = OK (tr, tp') ->
  (forall r p' hb' h', ext hb h hb' h' -> repr hb' r tr ->
                       Forall2 (repr hb') p' tp' -> returns (k (r, p')) h' Q) ->
  returns (Store.bind (Store.clone_path_side p n side depth) k) h Q.
Proof.
  intros Hh Hp Hn Hk Hc. apply returns_bind.
  eapply returns_mono; [eapply clone_path_side_sim; eassumption |].
  intros [r p'] h' (hb' & Hext & Hr & Hp'). eapply Hc; eassumption.
Qed.

End SimCalls.

(** The last statements of a function: a call of [clone_path] whose result
    is returned. *)
Ltac sim_return_clone_path_now :=
  let r := fresh "r" in
  let p := fresh "p" in
  let hb' := fresh "hb" in
  let h' := fresh "h" in
  let Hext := fresh "Hext" in
  let Hr := fresh "Hr" in
  let Hp := fresh "Hp" in
  eapply returns_clone_path;
  [eapply ext_base; eassumption | eassumption | eassumption | eassumption
  | intros r p hb' h' Hext Hr Hp; sim_called Hext;
    apply returns_ret; eexists; split; [eassumption | eassumption] ].

Ltac sim_return_clone_path :=
  lazymatch goal with
  | |- returns (Store.bind (Store.clone_path _ ?n) _) _ _ =>
      sim_publish_ptr n; sim_return_clone_path_now
  end.

Section SimInsert.

Context {T : Type}.
Implicit Types (h hb : Store.heap T) (n : Store.ptr) (t : tree T)
  (p : Store.path) (tp : path T).

Lemma insert_fix_sim p : forall tp ln tn hb0 h0 hb h tr,
  ext hb0 h0 hb h -> owns h0 hb h ln tn -> Forall2 (repr hb) p tp ->
  insert_fix tp tn = OK tr ->
  returns (Store.insert_fix p (Some ln)) h (fun r h' =>
    exists hb', ext hb0 h0 hb' h' /\ repr hb' r tr).
Proof.
  assert (H : forall k p, (length p <= k)%nat ->
    forall tp ln tn hb0 h0 hb h tr,
      ext hb0 h0 hb h -> owns h0 hb h ln tn -> Forall2 (repr hb) p tp ->
      insert_fix tp tn = OK tr ->
      returns (Store.insert_fix p (Some ln)) h (fun r h' =>
        exists hb', ext hb0 h0 hb' h' /\ repr hb' r tr));
    [| exact (H (length p) p (Nat.le_refl _))].
  clear p. induction k as [| k IH]; intros p Hlen tp ln tn hb0 h0 hb h tr E Hn Hp Hk.
  - destruct p; [| cbn in Hlen; lia]. inversion Hp; subst.
    cbn [insert_fix Store.insert_fix] in *.
    sim_step. sim_publish Ho. apply returns_ret. eauto.
  - destruct p as [| parent p1].
    { inversion Hp; subst. cbn [insert_fix Store.insert_fix] in *.
      sim_step. sim_publish Ho. apply returns_ret. eauto. }
    pose proof Hp as Hp_all.
    inversion Hp as [| ? tparent ? tp1 Hparent Hp1]; subst.
    cbn [insert_fix Store.insert_fix] in *.
    pure_inv Hk. sim_step.
    pure_case Hk.
    { pure_inv Hk. injection Hk as <-. sim_return_clone_path. }
    destruct tp1 as [| tgp tp2]; [discriminate |].
    inversion Hp1 as [| grand_parent ? p2 ? Hgp Hp2]; subst.
    cbn [length] in Hlen.
    pure_inv Hk. do 5 sim_step.
    pure_case Hk.
    + pure_inv Hk. do 9 sim_step.
      eapply IH; [lia | eassumption | eassumption | eassumption | eassumption].
    + pure_inv Hk. do 2 sim_step.
      pure_case Hk.
      * pure_inv Hk. injection Hk as <-. do 8 sim_step. sim_return_clone_path.
      * pure_inv Hk. injection Hk as <-. do 6 sim_step. sim_return_clone_path.
Qed.

Lemma holds_leaf hb (kvp : pair T) c :
  holds hb (Store.mk_node kvp None None c) (Node kvp nullptr nullptr c).
Proof. exists nullptr, nullptr. split; [reflexivity |]. split; constructor. Qed.

Lemma insert_imp_path_sim (m : Store.immutable_map) (a : immutable_map T) kvp p tp
    hb0 h0 hb h tr :
  ext hb0 h0 hb h -> repr hb (Store.root_ m) (root_ a) -> Forall2 (repr hb) p tp ->
  insert_imp_path a kvp tp = OK tr ->
  returns (Store.insert_imp_path m kvp p) h (fun r h' =>
    exists hb', ext hb0 h0 hb' h' /\ repr hb' r tr).
Proof.
  intros E Hroot Hp Hk. unfold insert_imp_path, Store.insert_imp_path in *.
  rewrite (repr_non_null _ _ _ Hroot). destruct (negb (non_null (root_ a))).
  - injection Hk as <-.
    destruct (make_shared_owns _ _ _ _ _ _ E (holds_leaf hb kvp BLACK))
      as (l & Hl & Hrun & Ho).
    exists (Some l), (<[l := Store.mk_node kvp None None BLACK]> h).
    split; [exact Hrun |].
    pose proof (ext_insert_owns _ _ _ _ _ _ _ E Ho) as E'. clear E.
    sim_publish Ho. eauto.
  - eapply returns_make_shared; [exact E | apply holds_leaf |].
    intros l Hl Ho. pose proof (ext_insert_owns _ _ _ _ _ _ _ E Ho) as E'. clear E.
    eapply insert_fix_sim; eassumption.
Qed.

(** [insert] on the store returns a map that stands for the map that
    [insert] returns in the tree model; the store keeps its cells. *)
Lemma insert_sim h (m : Store.immutable_map) (a a' : immutable_map T) kvp :
  represents h m a -> insert a kvp = OK a' ->
  returns (Store.insert m kvp) h (fun m' h' =>
    h ⊆ h' /\ represents h' m' a').
Proof.
  intros [Hroot Hsize] Hk.
  unfold insert, insert_imp, Store.insert, Store.insert_imp in *.
  pose proof (ext_refl h h (reflexivity h)) as E.
  apply bind_OK_inv in Hk as ([b tp] & Hfind & Hk).
  eapply returns_find; [reflexivity | exact Hroot | constructor | exact Hfind |].
  intros p Hp. destruct b.
  - pose proof (get_node_repr _ _ _ Hp) as Hnode.
    pure_inv Hk. injection Hk as <-. do 3 sim_step.
    lazymatch goal with
    | |- returns (Store.bind (Store.clone_path _ ?n) _) _ _ => sim_publish_ptr n
    end.
    eapply returns_clone_path;
      [eapply ext_base; eassumption | eassumption | eassumption | eassumption |].
    intros r p' hb' h' Hext Hres Hp'. sim_called Hext.
    apply returns_ret. destruct E as (_ & E2 & E3 & _).
    split; [exact E3 |]. split; [exact (repr_mono _ _ _ _ E2 Hres) | cbn; exact Hsize].
  - pure_inv Hk. injection Hk as <-. apply returns_bind.
    eapply returns_mono; [eapply insert_imp_path_sim; eassumption |].
    intros r h' (hb' & (_ & E2 & E3 & _) & Hres). apply returns_ret.
    split; [exact E3 |]. split; [exact (repr_mono _ _ _ _ E2 Hres) |].
    cbn. rewrite Hsize. reflexivity.
Qed.

End SimInsert.

(** ** Deletion on the store *)

Section SimSiblings.

Context {T : Type}.
Implicit Types (h hb : Store.heap T) (n parent : Store.ptr) (t : tree T)
  (side : side_t).

Lemma has_black_sibling_with_red_child_sees hb h parent t side b :
  hb ⊆ h -> sees hb h parent t ->
  has_black_sibling_with_red_child t side = OK b ->
  Store.has_black_sibling_with_red_child parent side h = (OK b, h).
Proof.
  intros Hh Hs Hk. unfold has_black_sibling_with_red_child in Hk.
  apply bind_OK_inv in Hk as (ts & Hts & Hk). apply bind_OK_inv in Hk as (sr & Hsr & Hk).
  destruct (get_child_sees _ _ _ _ _ _ Hs Hts) as (ps & Eps & Hps).
  pose proof (sees_repr _ _ _ _ Hh Hps) as Hss.
  unfold Store.has_black_sibling_with_red_child.
  rewrite (bind_run _ _ _ _ _ Eps), (bind_run _ _ _ _ _ (is_red_sees _ _ _ _ _ Hss Hsr)).
  destruct sr; [injection Hk as <-; reflexivity |].
  apply (has_red_child_sees _ _ _ _ _ Hh Hss Hk).
Qed.

Lemma has_black_sibling_with_black_children_sees hb h parent t side b :
  hb ⊆ h -> sees hb h parent t ->
  has_black_sibling_with_black_children t side = OK b ->
  Store.has_black_sibling_with_black_children parent side h = (OK b, h).
Proof.
  intros Hh Hs Hk. unfold has_black_sibling_with_black_children in Hk.
  apply bind_OK_inv in Hk as (ts & Hts & Hk). apply bind_OK_inv in Hk as (sr & Hsr & Hk).
  destruct (get_child_sees _ _ _ _ _ _ Hs Hts) as (ps & Eps & Hps).
  pose proof (sees_repr _ _ _ _ Hh Hps) as Hss.
  unfold Store.has_black_sibling_with_black_children.
  rewrite (bind_run _ _ _ _ _ Eps), (bind_run _ _ _ _ _ (is_red_sees _ _ _ _ _ Hss Hsr)).
  destruct sr; [injection Hk as <-; reflexivity |].
  apply bind_OK_inv in Hk as (b' & Hb' & Hk). injection Hk as <-.
  rewrite (bind_run _ _ _ _ _ (has_red_child_sees _ _ _ _ _ Hh Hss Hb')). reflexivity.
Qed.

End SimSiblings.

(** The sibling tests at the head of a bind. *)
Ltac sim_test :=
  lazymatch goal with
  | |- returns (Store.bind (Store.has_black_sibling_with_red_child _ _) _) _ _ =>
      eapply returns_step;
      [eapply has_black_sibling_with_red_child_sees;
       [eapply ext_base; eassumption | sim_sees | eassumption] |]
  | |- returns (Store.bind (Store.has_black_sibling_with_black_children _ _) _) _ _ =>
      eapply returns_step;
      [eapply has_black_sibling_with_black_children_sees;
       [eapply ext_base; eassumption | sim_sees | eassumption] |]
  end.

Section SimFixup.

Context {T : Type}.
Implicit Types (h hb : Store.heap T) (n parent : Store.ptr) (t : tree T)
  (side : side_t).

Lemma delete_fixup_2_sim parent tparent side hb h tr :
  hb ⊆ h -> repr hb parent tparent ->
  delete_fixup_2 tparent side = OK tr ->
  returns (Store.delete_fixup_2 parent side) h (fun r h' =>
    exists hb', ext hb h hb' h' /\ repr hb' r tr).
Proof.
  intros Hh Hparent Hk. pose proof (ext_refl hb h Hh) as E.
  unfold delete_fixup_2, Store.delete_fixup_2 in *.
  pure_inv Hk. injection Hk as <-. do 6 sim_step.
  sim_publish_all. apply returns_ret. eauto.
Qed.

(** The end of a function that returns a cell whose children were linked
    before they were finished: the children are published by now, and the
    cell holds the tree that the tree model has built. *)
Lemma publish_linked hb0 h0 hb h l cell t (Q : Store.ptr -> Store.heap T -> Prop) :
  ext hb0 h0 hb h -> own h0 hb h l cell -> holds hb cell t ->
  (forall hb', ext hb0 h0 hb' h -> repr hb' (Some l) t -> Q (Some l) h) ->
  returns (Store.ret (Some l)) h Q.
Proof.
  intros E Ho Hc HQ. destruct (publish_own _ _ _ _ _ _ _ E Ho Hc) as (hb' & E' & _ & Hr & _).
  apply returns_ret. eapply HQ; eassumption.
Qed.

Lemma delete_fixup_1_sim parent tparent side hb h tr :
  hb ⊆ h -> repr hb parent tparent ->
  delete_fixup_1 tparent side = OK tr ->
  returns (Store.delete_fixup_1 parent side) h (fun r h' =>
    exists hb', ext hb h hb' h' /\ repr hb' r tr).
Proof.
  intros Hh Hparent Hk. pose proof (ext_refl hb h Hh) as E.
  unfold delete_fixup_1, Store.delete_fixup_1 in *.
  destruct side; cbn [opp] in *.
  all: pure_inv Hk; do 4 sim_step; pure_case Hk.
  all: pure_inv Hk; injection Hk as <-.
  1, 3: do 4 sim_step; sim_open_target; do 2 sim_raw_step; do 5 sim_step.
  3, 4: do 5 sim_step; sim_open_target; do 2 sim_raw_step; do 4 sim_step.
  all: sim_publish_all.
  all: eapply publish_linked; [eassumption | eassumption | | eauto].
  all: destruct Hholds as (tl & tr & -> & Hl & Hr').
  all: repeat match goal with
         | H : set_child _ _ _ = OK _ |- _ => cbn in H; injection H as <-
         end.
  all: cbn; eexists _, _; (split; [reflexivity |]); split; assumption.
Qed.

Lemma delete_fixup_3_sim parent tparent side hb h tr :
  hb ⊆ h -> repr hb parent tparent ->
  delete_fixup_3 tparent side = OK tr ->
  returns (Store.delete_fixup_3 parent side) h (fun r h' =>
    exists hb', ext hb h hb' h' /\ repr hb' r tr).
Proof.
  intros Hh Hparent Hk. pose proof (ext_refl hb h Hh) as E.
  unfold delete_fixup_3, Store.delete_fixup_3 in *.
  destruct side; cbn [opp] in *.
  all: pure_inv Hk; do 5 sim_step; sim_open_target; sim_raw_step; do 3 sim_step.
  all: sim_test; pure_case Hk.
  1, 3: pure_inv Hk.
  1, 2: lazymatch goal with
        | |- returns (Store.bind (Store.delete_fixup_1 ?n _) _) _ _ => sim_publish_ptr n
        end; sim_call delete_fixup_1_sim; sim_raw_step.
  3, 4: pure_inv Hk; sim_test; pure_case Hk.
  3, 5: pure_inv Hk;
        lazymatch goal with
        | |- returns (Store.bind (Store.delete_fixup_2 ?n _) _) _ _ => sim_publish_ptr n
        end; sim_call delete_fixup_2_sim; sim_raw_step.
  all: sim_publish_all.
  all: eapply publish_linked; [eassumption | eassumption | | eauto].
  all: destruct Hholds as (tl & tr' & -> & Hl & Hr').
  all: repeat match goal with
         | H : set_child _ _ _ = OK _ |- _ => cbn in H; injection H as <-
         end.
  all: cbn; eexists _, _; (split; [reflexivity |]); split; assumption.
Qed.

End SimFixup.

(** A call in tail position. *)
Tactic Notation "sim_tail_call" uconstr(lem) :=
  let r := fresh "r" in
  let hb' := fresh "hb" in
  let h' := fresh "h" in
  let Hext := fresh "Hext" in
  let Hres := fresh "Hres" in
  eapply returns_mono;
  [ eapply lem; [eapply ext_base; eassumption | eassumption ..]
  | intros r h' (hb' & Hext & Hres); exists hb';
    split; [eapply ext_trans; eassumption | exact Hres] ].

Ltac sim_publish_arg :=
  lazymatch goal with
  | |- returns (Store.bind (Store.delete_fixup_1 ?n _) _) _ _ => sim_publish_ptr n
  | |- returns (Store.bind (Store.delete_fixup_2 ?n _) _) _ _ => sim_publish_ptr n
  | |- returns (Store.bind (Store.delete_fixup_3 ?n _) _) _ _ => sim_publish_ptr n
  | |- returns (Store.delete_fixup _ ?n _) _ _ => sim_publish_ptr n
  | |- returns (Store.bind (Store.clone_path _ ?n) _) _ _ => sim_publish_ptr n
  | |- returns (Store.bind (Store.clone_path_depth _ ?n _) _) _ _ => sim_publish_ptr n
  | |- returns (Store.bind (Store.clone_path_side _ ?n _ _) _) _ _ => sim_publish_ptr n
  end.

Section SimErase.

Context {T : Type}.
Implicit Types (h hb : Store.heap T) (n parent : Store.ptr) (t : tree T)
  (side : side_t) (p : Store.path) (tp : path T).

Lemma delete_fixup_sim p : forall tp parent tparent side hb h tr,
  hb ⊆ h -> Forall2 (repr hb) p tp -> repr hb parent tparent ->
  delete_fixup tp tparent side = OK tr ->
  returns (Store.delete_fixup p parent side) h (fun r h' =>
    exists hb', ext hb h hb' h' /\ repr hb' r tr).
Proof.
  induction p as [| grand_parent p IH];
    intros tp parent tparent side hb h tr Hh Hp Hparent Hk;
    pose proof (ext_refl hb h Hh) as E.
  - inversion Hp; subst. cbn [delete_fixup Store.delete_fixup] in *.
    pure_inv Hk. sim_test. pure_case Hk.
    + pure_inv Hk. injection Hk as <-.
      sim_call delete_fixup_1_sim. sim_return_clone_path.
    + pure_inv Hk. sim_test. pure_case Hk.
      * pure_inv Hk. sim_step. sim_call delete_fixup_2_sim.
        pure_case Hk; pure_inv Hk; injection Hk as <-; sim_return_clone_path.
      * pure_inv Hk. injection Hk as <-.
        sim_call delete_fixup_3_sim. sim_return_clone_path.
  - inversion Hp as [| ? tgp ? tp0 Hgp Hp0]; subst.
    cbn [delete_fixup Store.delete_fixup] in *.
    pure_inv Hk. sim_test. pure_case Hk.
    + pure_inv Hk. injection Hk as <-.
      sim_call delete_fixup_1_sim. sim_return_clone_path.
    + pure_inv Hk. sim_test. pure_case Hk.
      * pure_inv Hk. sim_step. sim_call delete_fixup_2_sim.
        pure_case Hk.
        -- pure_inv Hk. do 4 sim_step. sim_publish_arg.
           sim_tail_call IH.
        -- pure_inv Hk. injection Hk as <-. sim_return_clone_path.
      * pure_inv Hk. injection Hk as <-.
        sim_call delete_fixup_3_sim. sim_return_clone_path.
Qed.

End SimErase.

(** Calls of the path functions at the head of a bind. *)
Ltac sim_path_call_now :=
  let r := fresh "r" in
  let p := fresh "p" in
  let hb' := fresh "hb" in
  let h' := fresh "h" in
  let Hext := fresh "Hext" in
  let Hr := fresh "Hr" in
  let Hp := fresh "Hp" in
  lazymatch goal with
  | |- returns (Store.bind (Store.clone_path _ _) _) _ _ =>
      eapply returns_clone_path
  | |- returns (Store.bind (Store.clone_path_depth _ _ _) _) _ _ =>
      eapply returns_clone_path_depth
  | |- returns (Store.bind (Store.clone_path_side _ _ _ _) _) _ _ =>
      eapply returns_clone_path_side
  end;
  [ eapply ext_base; eassumption | eassumption
  | first [eassumption | constructor] | eassumption
  | intros r p hb' h' Hext Hr Hp; sim_called Hext ].

Ltac sim_path_call := try sim_publish_arg; sim_path_call_now.

Ltac sim_search :=
  let p := fresh "p" in
  let Hp := fresh "Hp" in
  lazymatch goal with
  | |- returns (Store.bind (Store.find_predecessor _) _) _ _ =>
      eapply returns_find_predecessor;
      [eapply ext_base; eassumption | eassumption | eassumption | intros p Hp]
  | |- returns (Store.bind (Store.find _ _ _) _) _ _ =>
      eapply returns_find;
      [eapply ext_base; eassumption | eassumption | eassumption | eassumption
      | intros p Hp]
  end.

Section SimEraseNode.

Context {T : Type}.
Implicit Types (h hb : Store.heap T) (n parent : Store.ptr) (t : tree T)
  (side : side_t) (p : Store.path) (tp : path T).

Lemma erase_intermediate_node_sim p tp hb h tr :
  hb ⊆ h -> Forall2 (repr hb) p tp ->
  erase_intermediate_node tp = OK tr ->
  returns (Store.erase_intermediate_node p) h (fun r h' =>
    exists hb', ext hb h hb' h' /\ repr hb' r tr).
Proof.
  intros Hh Hp Hk. pose proof (ext_refl hb h Hh) as E.
  unfold erase_intermediate_node, Store.erase_intermediate_node in *.
  cbv zeta in *. rewrite <- (Forall2_length _ _ _ Hp) in Hk.
  pure_inv Hk. sim_step. sim_search.
  rewrite <- (Forall2_length _ _ _ Hp0) in Hk.
  pure_inv Hk. do 3 sim_step. pure_case Hk.
  - pure_inv Hk. injection Hk as <-. sim_step. sim_path_call.
    do 4 sim_step. sim_return_clone_path.
  - pure_inv Hk. sim_step.
    lazymatch goal with
    | Hc : repr _ ?pc ?tc |- context [Store.non_null ?pc] =>
        rewrite (repr_non_null _ _ _ Hc)
    end.
    pure_case Hk.
    + pure_inv Hk. injection Hk as <-. do 3 sim_step. sim_path_call.
      do 4 sim_step. sim_return_clone_path.
    + pure_inv Hk. sim_step.
      destruct (1 <? length p0 - length p)%nat.
      all: sim_step; sim_path_call; do 4 sim_step; sim_path_call; sim_search.
      all: sim_step.
      all: lazymatch goal with
           | Hq : Forall2 (repr _) ?q _ |- returns (Store.delete_fixup _ (Store.get_node ?q) _) _ _ =>
               pose proof (get_node_repr _ _ _ Hq)
           end.
      all: sim_tail_call delete_fixup_sim.
Qed.

Lemma erase_imp_sim p tp hb h tr :
  hb ⊆ h -> Forall2 (repr hb) p tp ->
  erase_imp tp = OK tr ->
  returns (Store.erase_imp p) h (fun r h' =>
    exists hb', ext hb h hb' h' /\ repr hb' r tr).
Proof.
  intros Hh Hp Hk. pose proof (ext_refl hb h Hh) as E.
  unfold erase_imp, Store.erase_imp in *.
  cbv zeta in *. rewrite <- (Forall2_length _ _ _ Hp) in Hk.
  pure_inv Hk. do 2 sim_step.
  rewrite (repr_non_null _ _ _ Hpc), (repr_non_null _ _ _ Hpc0).
  pure_case Hk.
  { eapply erase_intermediate_node_sim; eassumption. }
  pure_case Hk.
  { pure_inv Hk. injection Hk as <-. do 3 sim_step. sim_return_clone_path. }
  pure_case Hk.
  { pure_inv Hk. injection Hk as <-. do 3 sim_step. sim_return_clone_path. }
  pure_inv Hk. sim_step. pure_case Hk.
  { pure_inv Hk. injection Hk as <-. do 6 sim_step. sim_return_clone_path. }
  pure_case Hk.
  { injection Hk as <-. apply returns_ret. exists hb. split; [exact E | constructor]. }
  pure_inv Hk. do 6 sim_step. sim_publish_arg.
  sim_tail_call delete_fixup_sim.
Qed.

(** [erase] on the store returns a map that stands for the map that [erase]
    returns in the tree model; the store keeps its cells. *)
Lemma erase_sim h (m : Store.immutable_map) (a a' : immutable_map T) key :
  represents h m a -> erase a key = OK a' ->
  returns (Store.erase m key) h (fun m' h' =>
    h ⊆ h' /\ represents h' m' a').
Proof.
  intros [Hroot Hsize] Hk. unfold erase, Store.erase in *.
  apply bind_OK_inv in Hk as ([b tp] & Hfind & Hk).
  eapply returns_find; [reflexivity | exact Hroot | constructor | exact Hfind |].
  intros p Hp. destruct b; cbn [negb] in *.
  - pure_inv Hk. injection Hk as <-. apply returns_bind.
    eapply returns_mono; [eapply erase_imp_sim; [reflexivity | eassumption ..] |].
    intros r h' (hb' & (_ & E2 & E3 & _) & Hres). apply returns_ret.
    split; [exact E3 |]. split; [exact (repr_mono _ _ _ _ E2 Hres) |].
    cbn. rewrite Hsize. reflexivity.
  - injection Hk as <-. apply returns_ret.
    split; [reflexivity |]. split; assumption.
Qed.

End SimEraseNode.

(** ** The store model and the tree model agree *)

Lemma readme_store_represents : represents readme_store readme_store_map3 readme_map3.
Proof.
  split; [| reflexivity].
  apply (repr_node _ 1%positive _ (Some 2%positive) (Some 3%positive));
    [reflexivity | |].
  - apply (repr_node _ 2%positive _ None None); [reflexivity | constructor | constructor].
  - apply (repr_node _ 3%positive _ None None); [reflexivity | constructor | constructor].
Qed.

(** X13: [insert] on the store, with its allocations and its writes in
    place, returns what [insert] returns in the tree model: when the map
    stands for a tree on which the tree model returns a map, the store
    model returns a map that stands for it, in a store that has kept every
    cell, so that the receiver stands for the tree it stood for. *)
Theorem store_insert_agrees_with_the_tree_model :
  forall (T : Type) (h : Store.heap T) (m : Store.immutable_map)
         (a a' : immutable_map T) (kvp : pair T),
    represents h m a ->
    insert a kvp = OK a' ->
    exists m' h',
      Store.insert m kvp h = (OK m', h') /\
      h ⊆ h' /\ represents h' m' a' /\ represents h' m a.
Proof.
  intros T h m a a' kvp Hm Hk.
  destruct (insert_sim h m a a' kvp Hm Hk) as (m' & h' & Hrun & Hsub & Hm').
  exists m', h'. split; [exact Hrun |]. split; [exact Hsub |].
  split; [exact Hm' | eapply represents_mono; eassumption].
Qed.

Lemma store_insert_agrees_with_the_tree_model_witness :
  represents readme_store readme_store_map3 readme_map3 /\
  exists a',
    insert readme_map3 (12, 1%Q) = OK a' /\
    exists m' h',
      Store.insert readme_store_map3 (12, 1%Q) readme_store = (OK m', h') /\
      readme_store ⊆ h' /\ represents h' m' a' /\
      represents h' readme_store_map3 readme_map3.
Proof.
  split; [exact readme_store_represents |].
  eexists. split; [vm_compute; reflexivity |].
  apply (store_insert_agrees_with_the_tree_model Q readme_store readme_store_map3
           readme_map3 _ (12, 1%Q) readme_store_represents).
  vm_compute. reflexivity.
Defined.

(** X14: [erase] on the store returns what [erase] returns in the tree
    model, in a store that has kept every cell. *)
Theorem store_erase_agrees_with_the_tree_model :
  forall (T : Type) (h : Store.heap T) (m : Store.immutable_map)
         (a a' : immutable_map T) (key : K),
    represents h m a ->
    erase a key = OK a' ->
    exists m' h',
      Store.erase m key h = (OK m', h') /\
      h ⊆ h' /\ represents h' m' a' /\ represents h' m a.
Proof.
  intros T h m a a' key Hm Hk.
  destruct (erase_sim h m a a' key Hm Hk) as (m' & h' & Hrun & Hsub & Hm').
  exists m', h'. split; [exact Hrun |]. split; [exact Hsub |].
  split; [exact Hm' | eapply represents_mono; eassumption].
Qed.

Lemma store_erase_agrees_with_the_tree_model_witness :
  represents readme_store readme_store_map3 readme_map3 /\
  erase readme_map3 15 = OK readme_map4 /\
  exists m' h',
    Store.erase readme_store_map3 15 readme_store = (OK m', h') /\
    readme_store ⊆ h' /\ represents h' m' readme_map4 /\
    represents h' readme_store_map3 readme_map3.
Proof.
  split; [exact readme_store_represents |].
  assert (H : erase readme_map3 15 = OK readme_map4) by (vm_compute; reflexivity).
  split; [exact H |].
  apply (store_erase_agrees_with_the_tree_model Q readme_store readme_store_map3
           readme_map3 readme_map4 15 readme_store_represents H).
Defined.

Section Versions.

Context {T : Type}.

Lemma Forall2_represents_mono (h h' : Store.heap T) ms vs :
  h ⊆ h' -> Forall2 (represents h) ms vs -> Forall2 (represents h') ms vs.
Proof.
  intros Hsub H. induction H; constructor; [eapply represents_mono; eassumption | assumption].
Qed.

Lemma apply_op_sim (h : Store.heap T) m a a' o :
  represents h m a -> apply_op a o = OK a' ->
  exists m' h',
    Store.apply_op m o h = (OK m', h') /\ h ⊆ h' /\ represents h' m' a'.
Proof.
  intros Hm Hk. destruct o as [kvp | key]; cbn [apply_op Store.apply_op] in *.
  - destruct (insert_sim h m a a' kvp Hm Hk) as (m' & h' & H1 & H2 & H3). eauto.
  - destruct (erase_sim h m a a' key Hm Hk) as (m' & h' & H1 & H2 & H3). eauto.
Qed.

Lemma store_run_versions ops : forall (h : Store.heap T) m a ms vs,
  represents h m a -> Forall2 (represents h) ms vs -> reachable a ->
  Z.of_nat (length (traversal a) + length ops) <= SIZE_MAX ->
  exists ms' vs' h',
    store_run ops m ms h = (OK ms', h') /\
    run_versions ops a vs = OK vs' /\
    h ⊆ h' /\
    Forall2 (represents h') ms' vs' /\
    (Forall reachable vs -> Forall reachable vs').
Proof.
  induction ops as [| o ops IH]; intros h m a ms vs Hm Hms Hr Hc;
    cbn [store_run run_versions length] in *.
  - exists (m :: ms), (a :: vs), h. split; [reflexivity |]. split; [reflexivity |].
    split; [reflexivity |]. split; [constructor; assumption |].
    intros Hvs. constructor; assumption.
  - destruct (reachable_apply_op a o Hr ltac:(lia)) as (a1 & H1 & H2 & H3 & _).
    destruct (apply_op_sim h m a a1 o Hm H1) as (m1 & h1 & G1 & G2 & G3).
    destruct (IH h1 m1 a1 (m :: ms) (a :: vs) G3) as (ms' & vs' & h' & I1 & I2 & I3 & I4 & I5).
    { constructor; [eapply represents_mono; eassumption |].
      eapply Forall2_represents_mono; eassumption. }
    { exact H2. }
    { lia. }
    exists ms', vs', h'. rewrite H1. cbn [bind]. unfold Store.bind. rewrite G1.
    split; [exact I1 |]. split; [exact I2 |]. split; [etrans; eassumption |].
    split; [exact I4 |]. intros Hvs. apply I5. constructor; assumption.
Qed.

End Versions.

(** X15: every version stays valid.  A sequence of [insert] and [erase]
    from the empty map, run on the store from the empty store, returns; in
    the store it leaves, every map it has produced on the way, the first as
    well as the last, stands for the map that the tree model produces at
    that point, which is a map that the interface can produce. *)
Theorem every_version_stays_valid :
  forall (T : Type) (ops : list (op T)),
    Z.of_nat (length ops) <= SIZE_MAX ->
    exists ms vs h,
      store_run ops Store.empty_map [] ∅ = (OK ms, h) /\
      run_versions ops empty_map [] = OK vs /\
      Forall2 (represents h) ms vs /\
      Forall reachable vs.
Proof.
  intros T ops Hc.
  destruct (store_run_versions ops ∅ Store.empty_map empty_map [] [])
    as (ms & vs & h & H1 & H2 & _ & H4 & H5).
  - split; [constructor | reflexivity].
  - constructor.
  - apply reachable_empty_map.
  - exact Hc.
  - exists ms, vs, h. split; [exact H1 |]. split; [exact H2 |].
    split; [exact H4 | apply H5; constructor].
Qed.

Lemma every_version_stays_valid_witness :
  Z.of_nat (length readme_ops) <= SIZE_MAX /\
  exists ms vs h,
    store_run readme_ops Store.empty_map [] ∅ = (OK ms, h) /\
    run_versions readme_ops empty_map [] = OK vs /\
    Forall2 (represents h) ms vs /\
    Forall reachable vs.
Proof.
  assert (Hc : Z.of_nat (length readme_ops) <= SIZE_MAX) by (vm_compute; discriminate).
  split; [exact Hc |]. apply (every_version_stays_valid Q readme_ops Hc).
Defined.

(** X16: the queries on the store answer what the tree model answers.  On a
    map that stands for a tree, the search of a key returns and raises as
    in the tree model, with a path whose entries stand for the entries of
    the path of the tree model, and it stops at a node with the same pair;
    [contains] returns the same; and the traversal, which follows the
    pointers, visits the pairs of the tree in the order of the tree model
    once its recursion may go as deep as the tree is high.  None of them
    changes the store. *)
Theorem store_queries_agree_with_the_tree_model :
  forall (T : Type) (h : Store.heap T) (m : Store.immutable_map)
         (a : immutable_map T) (key : K) (fuel : nat),
    represents h m a ->
    Store.size m = size a /\
    (exists r,
        Store.find (Store.root_ m) [] key h = (r, h) /\
        same_outcome (fun x y => fst x = fst y /\ Forall2 (repr h) (snd x) (snd y))
          r (find (root_ a) [] key)) /\
    (forall v, store_finds h m key v <-> finds a key v) /\
    Store.contains m key h = (contains a key, h) /\
    ((height (root_ a) <= fuel)%nat ->
     Store.traversal fuel m h = (OK (traversal a), h)) /\
    ((fuel < height (root_ a))%nat ->
     Store.traversal fuel m h = (Err out_of_fuel, h)).
Proof.
  intros T h m a key fuel Hm.
  split; [apply Hm |]. split; [apply find_run, Hm |].
  split; [intros v; apply store_finds_run, Hm |].
  split; [apply contains_run, Hm |].
  rewrite (traversal_run h m a fuel Hm).
  destruct (Nat.leb_spec (height (root_ a)) fuel); split; intros; try lia; reflexivity.
Qed.

Lemma store_queries_agree_with_the_tree_model_witness :
  represents readme_store readme_store_map3 readme_map3 /\
  Store.size readme_store_map3 = size readme_map3 /\
  (exists r,
      Store.find (Store.root_ readme_store_map3) [] 15 readme_store = (r, readme_store) /\
      same_outcome (fun x y => fst x = fst y /\ Forall2 (repr readme_store) (snd x) (snd y))
        r (find (root_ readme_map3) [] 15)) /\
  (forall v, store_finds readme_store readme_store_map3 15 v <-> finds readme_map3 15 v) /\
  Store.contains readme_store_map3 15 readme_store
  = (contains readme_map3 15, readme_store) /\
  ((height (root_ readme_map3) <= 2)%nat ->
   Store.traversal 2 readme_store_map3 readme_store
   = (OK (traversal readme_map3), readme_store)) /\
  ((2 < height (root_ readme_map3))%nat ->
   Store.traversal 2 readme_store_map3 readme_store = (Err out_of_fuel, readme_store)).
Proof.
  split; [exact readme_store_represents |].
  apply (store_queries_agree_with_the_tree_model Q readme_store readme_store_map3
           readme_map3 15 2%nat readme_store_represents).
Defined.

(** ** The cells that [insert] allocates *)

Section AllocRules.

Context {T : Type}.
Implicit Types (h : Store.heap T) (n : Store.ptr) (p : Store.path).

Lemma allocates_ret {A : Type} (a : A) k : allocates (@Store.ret T A a) k.
Proof. intros h. cbn. lia. Qed.

Lemma allocates_throw {A : Type} e k : allocates (@Store.throw T A e) k.
Proof. intros h. cbn. lia. Qed.

Lemma allocates_lift {A : Type} (r : result A) k : allocates (@Store.lift T A r) k.
Proof. intros h. cbn. lia. Qed.

Lemma allocates_lift_0 {A : Type} (r : result A) : allocates (@Store.lift T A r) 0.
Proof. apply allocates_lift. Qed.

Lemma allocates_bind_lift_OK {A B : Type} (a : A) (f : A -> Store.M T B) k :
  allocates (f a) k -> allocates (Store.bind (Store.lift (OK a)) f) k.
Proof. intros H h. exact (H h). Qed.

Lemma allocates_weaken {A : Type} (c : Store.M T A) k k' :
  allocates c k -> (k <= k')%nat -> allocates c k'.
Proof. intros Hc Hk h. specialize (Hc h). lia. Qed.

Lemma allocates_bind {A B : Type} (c : Store.M T A) (f : A -> Store.M T B) k1 k :
  allocates c k1 -> (k1 <= k)%nat -> (forall a, allocates (f a) (k - k1)) ->
  allocates (Store.bind c f) k.
Proof.
  intros Hc Hk Hf h. unfold Store.bind. specialize (Hc h).
  destruct (c h) as [[a | e] h1]; cbn [snd] in *; [| lia].
  specialize (Hf a h1). lia.
Qed.

Lemma allocates_deref n : allocates (@Store.deref T n) 0.
Proof.
  intros h. unfold Store.deref. destruct n as [l |]; [destruct (h !! l) |]; cbn; lia.
Qed.

Lemma allocates_make_shared (c : Store.node T) : allocates (Store.make_shared c) 1.
Proof.
  intros h. unfold Store.make_shared. cbn [snd].
  rewrite map_size_insert_None by (apply not_elem_of_dom, is_fresh). lia.
Qed.

Lemma allocates_assign n (f : Store.node T -> Store.node T) :
  allocates (Store.assign n f) 0.
Proof.
  intros h. unfold Store.assign.
  destruct n as [l |]; [destruct (h !! l) eqn:E |]; cbn [snd]; try lia.
  rewrite map_size_insert_Some by eauto. lia.
Qed.

End AllocRules.

Create HintDb allocs discriminated.

#[local] Hint Resolve allocates_deref allocates_make_shared allocates_assign
  allocates_lift_0 : allocs.

(** One statement of the code within the bound that is left. *)
Ltac alloc_step :=
  lazymatch goal with
  | |- allocates (Store.bind (match ?x with _ => _ end) _) _ => destruct x
  | |- allocates (Store.bind _ _) _ =>
      eapply allocates_bind;
      [solve [eauto 3 with allocs] | cbn [length]; lia | intros ?]
  | |- allocates (Store.ret _) _ => apply allocates_ret
  | |- allocates (Store.throw _) _ => apply allocates_throw
  | |- allocates (if ?b then _ else _) _ => destruct b
  | |- allocates (match ?x with _ => _ end) _ => destruct x
  | |- allocates _ _ =>
      eapply allocates_weaken; [solve [eauto 3 with allocs] | cbn [length]; lia]
  end.

Ltac alloc_tac := cbv zeta; repeat alloc_step.

Section AllocCode.

Context {T : Type}.
Implicit Types (h : Store.heap T) (n : Store.ptr) (p : Store.path).

Lemma allocates_get_key n : allocates (@Store.get_key T n) 0.
Proof. unfold Store.get_key. alloc_tac. Qed.

Lemma allocates_get_child side n : allocates (@Store.get_child T side n) 0.
Proof. unfold Store.get_child. alloc_tac. Qed.

Lemma allocates_get_color n : allocates (@Store.get_color T n) 0.
Proof. unfold Store.get_color. alloc_tac. Qed.

Lemma allocates_is_red n : allocates (@Store.is_red T n) 0.
Proof. pose proof allocates_get_color. unfold Store.is_red. alloc_tac. Qed.

Lemma allocates_is_black n : allocates (@Store.is_black T n) 0.
Proof. pose proof allocates_get_color. unfold Store.is_black. alloc_tac. Qed.

Lemma allocates_red_ptr n : allocates (@Store.red_ptr T n) 0.
Proof. pose proof allocates_is_red. unfold Store.red_ptr. alloc_tac. Qed.

Lemma allocates_set_pair (kvp : pair T) n : allocates (Store.set_pair kvp n) 0.
Proof. apply allocates_assign. Qed.

Lemma allocates_set_child side child n : allocates (@Store.set_child T side child n) 0.
Proof. apply allocates_assign. Qed.

Lemma allocates_set_color color n : allocates (@Store.set_color T color n) 0.
Proof. apply allocates_assign. Qed.

Lemma allocates_clone n : allocates (@Store.clone T n) 1.
Proof. unfold Store.clone. alloc_tac. Qed.

End AllocCode.

#[local] Hint Resolve allocates_get_key allocates_get_child allocates_get_color
  allocates_is_red allocates_is_black allocates_red_ptr allocates_set_pair
  allocates_set_child allocates_set_color allocates_clone : allocs.

Section AllocInsert.

Context {T : Type}.
Implicit Types (h : Store.heap T) (n : Store.ptr) (p : Store.path).

Lemma allocates_find_loop fuel : forall n p key,
  allocates (@Store.find_loop T fuel n p key) 0.
Proof.
  induction fuel as [| fuel IH]; intros n p key; destruct n; cbn [Store.find_loop];
    alloc_tac.
Qed.

(** [clone_path] clones the nodes of the path, one cell each. *)
Lemma allocates_clone_path p : forall n,
  allocates (@Store.clone_path T p n) (length p).
Proof.
  induction p as [| parent p IH]; intros n; cbn [Store.clone_path]; [alloc_tac |].
  destruct parent as [l |]; alloc_tac.
Qed.

Lemma allocates_insert_fix p : forall n,
  allocates (@Store.insert_fix T p n) (2 * length p).
Proof.
  assert (H : forall k p, (length p <= k)%nat -> forall n,
             allocates (@Store.insert_fix T p n) (2 * length p));
    [| exact (H (length p) p (Nat.le_refl _))].
  clear p. induction k as [| k IH]; intros p Hk n;
    destruct p as [| parent p1]; cbn [Store.insert_fix length] in *;
    [alloc_tac | lia | alloc_tac |].
  pose proof allocates_clone_path.
  eapply allocates_bind; [solve [eauto with allocs] | lia | intros pb].
  destruct pb; [alloc_tac |].
  destruct p1 as [| grand_parent p2]; [alloc_tac |].
  cbn [length] in Hk.
  assert (IH' : forall n, allocates (@Store.insert_fix T p2 n) (2 * length p2))
    by (intros; apply IH; lia).
  alloc_tac.
Qed.

Lemma allocates_insert_imp_path (m : Store.immutable_map) (kvp : pair T) p :
  allocates (Store.insert_imp_path m kvp p) (2 * length p + 1).
Proof.
  pose proof allocates_insert_fix. unfold Store.insert_imp_path. alloc_tac.
Qed.

(** With the path [p] that [find] has left, [insert] allocates at most
    [2 * length p + 1] cells. *)
Lemma allocates_insert_after_find (m : Store.immutable_map) (kvp : pair T) h b p :
  Store.find (Store.root_ m) [] (fst kvp) h = (OK (b, p), h) ->
  (base.size (snd (Store.insert m kvp h)) <= base.size h + (2 * length p + 1))%nat.
Proof.
  intros Hfind. unfold Store.insert, Store.insert_imp.
  rewrite (bind_run _ _ _ _ _ Hfind).
  pose proof allocates_clone_path. pose proof allocates_insert_fix.
  assert (Hrest : allocates
            (if b
             then Store.bind (Store.clone (Store.get_node p)) (fun new_node =>
                  Store.bind (Store.set_pair kvp new_node) (fun _ =>
                  Store.bind (Store.lift (Store.pop p)) (fun p0 =>
                  Store.bind (Store.clone_path p0 new_node) (fun '(r, _) =>
                  Store.ret (Store.mk_map r (Store.size_ m))))))
             else Store.bind (Store.insert_imp_path m kvp p) (fun new_root =>
                  Store.ret (Store.mk_map new_root
                               (size_t_wrap (Store.size_ m + 1)))))
            (2 * length p + 1)).
  { destruct b.
    - eapply allocates_bind; [solve [eauto with allocs] | lia | intros new_node].
      eapply allocates_bind; [solve [eauto with allocs] | lia | intros _].
      destruct p as [| top p0]; cbn [Store.pop]; [intros h'; cbn; lia |].
      cbn [length]. apply allocates_bind_lift_OK. alloc_tac.
    - pose proof allocates_insert_imp_path. alloc_tac. }
  apply Hrest.
Qed.

End AllocInsert.

(** The path that the search of a key leaves is no longer than the tree is
    high. *)
Lemma find_path_length {T : Type} (t : tree T) key b tp :
  find t [] key = OK (b, tp) -> (length tp <= height t)%nat.
Proof.
  rewrite find_locate by (cbn [length]; lia).
  pose proof (length_locate_height t key) as Hh.
  destruct (_ <=? _)%nat; [| discriminate]. intros [= _ <-].
  rewrite !length_app, length_ancestors. unfold node_path. cbn [length].
  destruct (non_null (snd (locate t key))); cbn [length]; lia.
Qed.

Lemma reachable_height_log2 {T : Type} (m : immutable_map T) :
  reachable m -> (height (root_ m) <= 2 * Nat.log2 (length (traversal m) + 1))%nat.
Proof.
  intros Hr. destruct (reachable_facts m Hr) as ((_ & Hs & Hroot) & _ & _).
  rewrite traversal_elements.
  pose proof (height_bh _ Hs) as Hh. rewrite Hroot in Hh.
  pose proof (count_bh _ (proj2 Hs)) as Hcnt. unfold count in Hcnt.
  apply Nat.log2_le_mono in Hcnt. rewrite Nat.log2_pow2 in Hcnt by lia. lia.
Qed.

(** X17: [insert] shares all it can. On a map built by [insert] and [erase]
    from the empty one, with [n] pairs, it leaves every cell of the store as
    it is and allocates at most [2 * height + 1] cells, which is at most
    [4 * log2 (n + 1) + 1]: the clones of the nodes on the search path, the
    clones of their siblings that are recoloured, and the new node. *)
Theorem insert_allocates_logarithmically :
  forall (T : Type) (h : Store.heap T) (m : Store.immutable_map)
         (a : immutable_map T) (kvp : pair T),
    represents h m a ->
    reachable a ->
    Z.of_nat (length (traversal a)) <= SIZE_MAX ->
    h ⊆ snd (Store.insert m kvp h) /\
    (base.size (snd (Store.insert m kvp h))
     <= base.size h + (2 * height (root_ a) + 1))%nat /\
    (base.size (snd (Store.insert m kvp h))
     <= base.size h + (4 * Nat.log2 (length (traversal a) + 1) + 1))%nat.
Proof.
  intros T h m a kvp Hm Hr Hc.
  split; [apply insert_frame |].
  assert (Hcells : (base.size (snd (Store.insert m kvp h))
                    <= base.size h + (2 * height (root_ a) + 1))%nat).
  { destruct Hm as [Hroot _].
    pose proof (reachable_fits a (fst kvp) Hr Hc) as Hfits.
    pose proof (find_locate (root_ a) [] (fst kvp) ltac:(cbn [length]; lia)) as Hfind.
    unfold search_fits in Hfits.
    destruct (find (root_ a) [] (fst kvp)) as [[b tp] | e] eqn:Ef.
    - destruct (find_run h (Store.root_ m) (root_ a) (fst kvp) Hroot)
        as (r & Hrun & Hsame).
      rewrite Ef in Hsame. destruct r as [[b' p] | e]; cbn in Hsame; [| tauto].
      destruct Hsame as [Hb Hp]. cbn in Hb. subst b'.
      pose proof (allocates_insert_after_find m kvp h b p Hrun) as Hins.
      pose proof (find_path_length _ _ _ _ Ef) as Hlen.
      apply Forall2_length in Hp. cbn [snd] in Hp. lia.
    - exfalso. revert Hfind.
      destruct (Nat.leb_spec
                  (length (@nil (tree T)) + length (fst (locate (root_ a) (fst kvp)))
                   + length (node_path (snd (locate (root_ a) (fst kvp)))))
                  path_capacity); [discriminate |].
      cbn [length] in *. lia. }
  split; [exact Hcells |].
  pose proof (reachable_height_log2 a Hr). lia.
Qed.

Lemma insert_allocates_logarithmically_witness :
  readme_store ⊆ snd (Store.insert readme_store_map3 (12%Z, 2.5%Q) readme_store) /\
  (base.size (snd (Store.insert readme_store_map3 (12%Z, 2.5%Q) readme_store))
   <= base.size readme_store + (2 * height (root_ readme_map3) + 1))%nat /\
  (base.size (snd (Store.insert readme_store_map3 (12%Z, 2.5%Q) readme_store))
   <= base.size readme_store
      + (4 * Nat.log2 (length (traversal readme_map3) + 1) + 1))%nat.
Proof.
  apply (insert_allocates_logarithmically Q readme_store readme_store_map3
           readme_map3 (12%Z, 2.5%Q) readme_store_represents reachable_readme_map3).
  apply Z.lt_le_incl, readme_map3_small.
Defined.

(** X19: [erase] of a key that the map does not contain returns the map
    itself, with the root pointer and the count it has, and allocates
    nothing: the store is left as it is. *)
Theorem erase_of_an_absent_key_returns_the_map_itself :
  forall (T : Type) (h : Store.heap T) (m : Store.immutable_map) (key : K),
    Store.contains m key h = (OK false, h) ->
    Store.erase m key h = (OK m, h).
Proof.
  intros T h m key. unfold Store.contains, Store.erase, Store.bind.
  destruct (Store.find (Store.root_ m) [] key h) as [[[b p] | e] h'];
    cbn; [| discriminate].
  intros [= -> ->]. reflexivity.
Qed.

Lemma erase_of_an_absent_key_returns_the_map_itself_witness :
  Store.contains readme_store_map3 12 readme_store = (OK false, readme_store) /\
  Store.erase readme_store_map3 12 readme_store = (OK readme_store_map3, readme_store).
Proof.
  assert (H : Store.contains readme_store_map3 12 readme_store
              = (OK false, readme_store)) by (vm_compute; reflexivity).
  split; [exact H |].
  apply (erase_of_an_absent_key_returns_the_map_itself Q readme_store
           readme_store_map3 12 H).
Defined.

(** ** [validate] on the store *)

Lemma validate_node_run {T : Type} fuel : forall (h : Store.heap T) n t,
  repr h n t -> non_null t = true -> (height t <= fuel)%nat ->
  Store.validate_node fuel n h = (validate_node t, h).
Proof.
  induction fuel as [| fuel IH]; intros h n t Hn Ht Hfuel;
    destruct t as [| kvp tl tr c]; try discriminate; cbn [height] in Hfuel; [lia |].
  pose proof Hn as Hn'.
  inversion Hn as [| l kvp' pl pr c' tl' tr' Hl Hpl Hpr]; subst.
  destruct (get_child_run _ _ _ LEFT Hn') as (rl & El & Hcl).
  destruct (get_child_run _ _ _ RIGHT Hn') as (rr & Er & Hcr).
  destruct rl as [pl' |]; [| contradiction]. destruct rr as [pr' |]; [| contradiction].
  cbn in Hcl, Hcr.
  assert (EL : (if Store.non_null pl' then Store.validate_node fuel pl' else Store.ret 0) h
               = (match tl with nullptr => OK 0 | Node _ _ _ _ => validate_node tl end, h)).
  { rewrite (repr_non_null _ _ _ Hcl). destruct tl; [reflexivity |].
    apply IH; [assumption | reflexivity | lia]. }
  assert (ER : (if Store.non_null pr' then Store.validate_node fuel pr' else Store.ret 0) h
               = (match tr with nullptr => OK 0 | Node _ _ _ _ => validate_node tr end, h)).
  { rewrite (repr_non_null _ _ _ Hcr). destruct tr; [reflexivity |].
    apply IH; [assumption | reflexivity | lia]. }
  cbn [Store.validate_node validate_node].
  rewrite (bind_run _ _ _ _ _ (is_red_run _ _ _ Hn')).
  destruct c; cbn [is_red get_color bind color_eqb].
  - unfold Store.ret at 1. rewrite (bind_run _ _ _ _ _ (eq_refl : Store.ret tt h = (OK tt, h))).
    rewrite (bind_run _ _ _ _ _ El), (bind_run _ _ _ _ _ EL).
    destruct (match tl with nullptr => OK 0 | Node _ _ _ _ => validate_node tl end)
      as [d1 | e1]; [| reflexivity].
    rewrite (bind_run _ _ _ _ _ Er), (bind_run _ _ _ _ _ ER).
    destruct (match tr with nullptr => OK 0 | Node _ _ _ _ => validate_node tr end)
      as [d2 | e2]; [| reflexivity].
    cbn [bind]. destruct (negb (d1 =? d2)); reflexivity.
  - match goal with
    | |- Store.bind ?c _ _ = _ =>
        assert (EC : c h =
                     (if red_ptr tl then Err (runtime_error "red node with red child")
                      else if red_ptr tr
                           then Err (runtime_error "red node with red child")
                           else OK tt, h))
    end.
    { rewrite (bind_run _ _ _ _ _ El), (bind_run _ _ _ _ _ (red_ptr_run _ _ _ Hcl)).
      destruct (red_ptr tl); [reflexivity |].
      rewrite (bind_run _ _ _ _ _ Er), (bind_run _ _ _ _ _ (red_ptr_run _ _ _ Hcr)).
      destruct (red_ptr tr); reflexivity. }
    rewrite (bind_run _ _ _ _ _ EC).
    destruct (red_ptr tl); [reflexivity |]. destruct (red_ptr tr); [reflexivity |].
    rewrite (bind_run _ _ _ _ _ El), (bind_run _ _ _ _ _ EL).
    destruct (match tl with nullptr => OK 0 | Node _ _ _ _ => validate_node tl end)
      as [d1 | e1]; [| reflexivity].
    rewrite (bind_run _ _ _ _ _ Er), (bind_run _ _ _ _ _ ER).
    destruct (match tr with nullptr => OK 0 | Node _ _ _ _ => validate_node tr end)
      as [d2 | e2]; [| reflexivity].
    cbn [bind]. destruct (negb (d1 =? d2)); reflexivity.
Qed.

Lemma validate_run {T : Type} (h : Store.heap T) m a fuel :
  represents h m a -> (height (root_ a) <= fuel)%nat ->
  Store.validate fuel m h = (validate a, h).
Proof.
  intros [Hr _] Hfuel. unfold Store.validate, validate.
  rewrite (bind_run _ _ _ _ _ (red_ptr_run _ _ _ Hr)).
  destruct (red_ptr (root_ a)); [reflexivity |].
  rewrite (repr_non_null _ _ _ Hr).
  destruct (root_ a) as [| kvp l r c] eqn:E; [reflexivity |]. cbn [non_null].
  rewrite (bind_run _ _ _ _ _ (validate_node_run fuel h _ _ Hr eq_refl Hfuel)).
  destruct (validate_node (Node kvp l r c)); reflexivity.
Qed.

(** X18: [validate] on the store does what it does in the tree model: on a
    map that stands for a tree, once its recursion may go as deep as the tree
    is high, it returns or raises the same and leaves the store as it is; on
    a map built by [insert] and [erase] from the empty one it returns. *)
Theorem store_validate_agrees_with_the_tree_model :
  forall (T : Type) (h : Store.heap T) (m : Store.immutable_map)
         (a : immutable_map T) (fuel : nat),
    represents h m a ->
    (height (root_ a) <= fuel)%nat ->
    Store.validate fuel m h = (validate a, h) /\
    (reachable a -> Store.validate fuel m h = (OK tt, h)).
Proof.
  intros T h m a fuel Hm Hfuel.
  rewrite (validate_run h m a fuel Hm Hfuel). split; [reflexivity |].
  intros Hr. f_equal. apply validate_OK.
  destruct (reachable_facts a Hr) as ((_ & (Hn & Hb) & Hroot) & _ & _).
  split; [exact Hn |]. split; [exact Hb |].
  destruct (root_ a) as [| ? ? ? []]; cbn in *; congruence.
Qed.

Lemma store_validate_agrees_with_the_tree_model_witness :
  Store.validate 2 readme_store_map3 readme_store = (validate readme_map3, readme_store) /\
  (reachable readme_map3 ->
   Store.validate 2 readme_store_map3 readme_store = (OK tt, readme_store)).
Proof.
  apply (store_validate_agrees_with_the_tree_model Q readme_store readme_store_map3
           readme_map3 2%nat readme_store_represents).
  vm_compute. lia.
Defined.

